(** * ref-struct-bitfield: struct and union layout with VC-style bitfields

    A shallow embedding of [src/bitfield.js], [src/struct.js] and the union
    module, followed by the properties of the layout engine and of the
    bitfield accessors.

    JavaScript objects that the code mutates ([StructType], the entries of
    [StructType.fields]) are records threaded through the functions; a
    function that can throw returns the state it had reached together with
    the outcome, because an exception leaves earlier assignments in place.

    The entries of the table hold "type" objects.  A record of the table
    gives the properties that such an object has when the call at hand
    reads it: the code keeps the object, not a copy, and [recalc] reads its
    [size] and [alignment] again at every layout.  The objects of the
    provider keep their size and alignment.  A struct type used as the type
    of a field changes when it is given a field of its own; [Examples.seen_with] is the table
    that the next call on the outer struct then finds.  A struct type that
    is the type of one of its own fields changes while [recalc] lays it
    out; the records do not stand for such a table. *)

From Stdlib Require Import ZArith List String Ascii Bool Lia.
From coqutil Require Import Byte Word.LittleEndianList Z.bitblast.
Import ListNotations.
Local Open Scope list_scope.
Local Open Scope Z_scope.

(** ** The type provider [ref] *)

Module RefType.
(** What the code reads of a scalar "type" object.  [alignment = 0] stands
    for an omitted (falsy) alignment.  [signed] is how the provider decodes
    the stored bits of an integer type. *)
Record t := mk {
  size : Z;
  alignment : Z;
  indirection : Z;
  signed : bool
}.
End RefType.

Module FieldType.
(** A "type" object as a field declaration carries it: the scalar
    properties of the object itself, [bits] (0 when absent: the code only
    tests its truthiness), [fixedLength] ([None] when null or undefined) and
    [type], the element type of an array or the underlying type of a
    bitfield. *)
Record t := mk {
  base : RefType.t;
  bits : Z;
  fixedLength : option Z;
  type : RefType.t
}.
Definition size (x : t) := RefType.size (base x).
Definition alignment (x : t) := RefType.alignment (base x).
Definition indirection (x : t) := RefType.indirection (base x).

(** A plain scalar type seen as a field type. *)
Definition plain (r : RefType.t) : t := mk r 0 None r.
(** A fixed-length array type as ref-array builds it. *)
Definition array (elem : RefType.t) (n : Z) : t :=
  mk (RefType.mk (RefType.size elem * n) (RefType.alignment elem) 1 false)
     0 (Some n) elem.
End FieldType.

(** Failures, named after the error kinds of the design; the code raises
    them through [assert]. *)
Inductive error :=
| SchemaFrozenError
| InvalidFieldNameError
| InvalidTypeError
| BitfieldOverflowError
| BufferTooSmallError
| UnalignedLayoutError
| NotANumber
| ProviderError.

Inductive outcome := Ok | Err (e : error).

Definition Buffer := list byte.

Module Ref.
(** What a declaration passes as a type: a name to resolve or a type
    object. *)
Inductive TypeArg :=
| TypeName (s : string)
| TypeObj (x : FieldType.t).

(** The platform constants and the table of named types. *)
Record Provider := mk {
  sizeof_pointer : Z;
  alignof_pointer : Z;
  types : string -> option RefType.t
}.

(** [ref.coerceType]: a name is looked up, an object with [size] and
    [indirection] passes through; an unknown name throws. *)
Definition coerceType (ref : Provider) (type : TypeArg) : option FieldType.t :=
  match type with
  | TypeName s => option_map FieldType.plain (types ref s)
  | TypeObj x => Some x
  end.

(** [BigInt.asIntN(n, v)]: the low [n] bits of [v] as a signed integer. *)
Definition asIntN (n v : Z) : Z :=
  let u := v mod 2 ^ n in
  if Z.testbit u (n - 1) then u - 2 ^ n else u.

(** [ref.get(buffer, offset, type)] for an integer type: the [size] bytes
    at [offset], little endian, decoded as the type is signed or not.
    Reading outside the buffer throws. *)
Definition get (buffer : Buffer) (offset : Z) (type : RefType.t) : option Z :=
  let n := RefType.size type in
  if (0 <=? offset) && (0 <=? n) && (offset + n <=? Z.of_nat (List.length buffer)) then
    let u := le_combine (firstn (Z.to_nat n) (skipn (Z.to_nat offset) buffer)) in
    Some (if RefType.signed type then asIntN (8 * n) u else u)
  else None.

(** A write that the provider carries out: the low [8 * size] bits of the
    integer replace the bytes of the type at [offset].  Writing outside
    the buffer throws. *)
Definition write (buffer : Buffer) (offset : Z) (value : Z) (type : RefType.t)
  : option Buffer :=
  let n := RefType.size type in
  if (0 <=? offset) && (0 <=? n) && (offset + n <=? Z.of_nat (List.length buffer)) then
    Some (firstn (Z.to_nat offset) buffer
          ++ le_split (Z.to_nat n) value
          ++ skipn (Z.to_nat (offset + n)) buffer)
  else None.

(** The integers that an integer type holds. *)
Definition holds (type : RefType.t) (value : Z) : bool :=
  let n := 8 * RefType.size type in
  if RefType.signed type
  then (- 2 ^ (n - 1) <=? value) && (value <? 2 ^ (n - 1))
  else (0 <=? value) && (value <? 2 ^ n).

(** A Number converted to a 64-bit signed integer, as the writers of the
    64-bit types convert it: a value beyond the range becomes the nearest
    bound. *)
Definition toInt64 (value : Z) : Z :=
  Z.max (- 2 ^ 63) (Z.min value (2 ^ 63 - 1)).

(** [ref.set(buffer, offset, value, type)] for an integer type, [value]
    being a Number that holds an integer.  The types of at most 4 bytes
    are written with [writeInt8], [writeUInt16LE], ... of [Buffer], which
    throw a RangeError for a value that the type does not hold.  The
    64-bit types are written by the provider's own code, which converts
    the Number to a 64-bit signed integer and stores its 8 bytes, also
    for an unsigned type. *)
Definition set (buffer : Buffer) (offset : Z) (value : Z) (type : RefType.t)
  : option Buffer :=
  if RefType.size type <=? 4 then
    if holds type value then write buffer offset value type else None
  else write buffer offset (toInt64 value) type.

(** [ref.set] of a 64-bit type, [value] being the decimal String of an
    integer: the provider parses it with [strtoll], or with [strtoull] for
    an unsigned type, and throws when the parser reports a value out of
    range. *)
Definition set_string (buffer : Buffer) (offset : Z) (value : Z) (type : RefType.t)
  : option Buffer :=
  if (if RefType.signed type
      then (- 2 ^ 63 <=? value) && (value <? 2 ^ 63)
      else (- 2 ^ 64 <? value) && (value <? 2 ^ 64))
  then write buffer offset value type
  else None.

(** [Buffer.alloc(n)]. *)
Definition alloc (n : Z) : Buffer := repeat Byte.x00 (Z.to_nat n).

(** The types of ref-napi on a 64-bit platform that the examples use. *)
Definition int64 := RefType.mk 8 8 1 true.
Definition uint64 := RefType.mk 8 8 1 false.
Definition int := RefType.mk 4 4 1 true.
Definition uint := RefType.mk 4 4 1 false.
Definition short := RefType.mk 2 2 1 true.
Definition char := RefType.mk 1 1 1 true.
Definition uchar := RefType.mk 1 1 1 false.

Definition napi_types (s : string) : option RefType.t :=
  if (s =? "int64")%string then Some int64
  else if (s =? "uint64")%string then Some uint64
  else if (s =? "int")%string then Some int
  else if (s =? "uint")%string then Some uint
  else if (s =? "short")%string then Some short
  else if (s =? "char")%string then Some char
  else if (s =? "uchar")%string then Some uchar
  else None.

Definition napi : Provider := mk 8 8 napi_types.
End Ref.

(** ** [src/bitfield.js] *)

Module Bitfield.
(** [Bitfield(type, bits)]; [bits = None] is an omitted argument. *)
Definition Bitfield (ref : Ref.Provider) (type : Ref.TypeArg) (bits : option Z)
  : error + FieldType.t :=
  let bits := match bits with
              | None => 1
              | Some b => if b =? 0 then 1 else b
              end in
  match Ref.coerceType ref type with
  | None => inl InvalidTypeError
  | Some type =>
      if 1 =? FieldType.indirection type
      then inr (FieldType.mk
                  (RefType.mk (FieldType.size type) (FieldType.alignment type) 1 false)
                  bits None (FieldType.base type))
      else inl BitfieldOverflowError
  end.
End Bitfield.

(** ** The field table *)

Module Field.
(** An entry of [StructType.fields]: [{type}] when it is created, then
    [offset] and, for a bitfield, [bitStart], [bits] and [mask] once
    [recalc] has placed it ([None] is undefined).  [type] is the type
    object as the call at hand finds it. *)
Record t := mk {
  type : FieldType.t;
  offset : option Z;
  bitStart : option Z;
  bits : option Z;
  mask : option Z
}.
Definition fresh (ty : FieldType.t) : t := mk ty None None None None.
End Field.

Module Fields.
Definition t := list (string * Field.t).

Definition digit (c : ascii) : option N :=
  let n := N_of_ascii c in
  if ((48 <=? n) && (n <=? 57))%N then Some (n - 48)%N else None.

Fixpoint digits (s : string) (acc : N) : option N :=
  match s with
  | EmptyString => Some acc
  | String c s' =>
      match digit c with
      | Some d => digits s' (10 * acc + d)%N
      | None => None
      end
  end.

(** A key that is a canonical array index: [Object.keys] lists those
    first, in increasing order, before the other keys in insertion order. *)
Definition array_index (s : string) : option N :=
  match s with
  | EmptyString => None
  | String c rest =>
      if (Ascii.eqb c "0" && negb (rest =? ""))%string then None
      else match digits s 0 with
           | Some n => if (n <? 2 ^ 32 - 1)%N then Some n else None
           | None => None
           end
  end.

Fixpoint get (name : string) (l : t) : option Field.t :=
  match l with
  | [] => None
  | (k, f) :: rest => if (k =? name)%string then Some f else get name rest
  end.

Fixpoint replace (name : string) (f : Field.t) (l : t) : t :=
  match l with
  | [] => []
  | (k, g) :: rest =>
      if (k =? name)%string then (k, f) :: rest else (k, g) :: replace name f rest
  end.

Fixpoint insert_index (i : N) (name : string) (f : Field.t) (l : t) : t :=
  match l with
  | [] => [(name, f)]
  | (k, g) :: rest =>
      match array_index k with
      | Some j => if (j <? i)%N then (k, g) :: insert_index i name f rest
                  else (name, f) :: l
      | None => (name, f) :: l
      end
  end.

(** [fields[name] = field], the table kept in the order of [Object.keys]:
    an existing key keeps its place, a new array index goes among the
    indices, any other new key goes last. *)
Definition set (name : string) (f : Field.t) (l : t) : t :=
  match get name l with
  | Some _ => replace name f l
  | None =>
      match array_index name with
      | Some i => insert_index i name f l
      | None => l ++ [(name, f)]
      end
  end.
End Fields.

(** ** [src/struct.js] *)

Module Struct.
(** The [StructType] object: the field table and the properties that
    [recalc] and the constructor assign. *)
Record t := mk {
  fields : Fields.t;
  size : Z;
  alignment : Z;
  currBits : Z;
  lastBitfieldType : option FieldType.t;
  lastBitfieldOffset : option Z;
  isPacked : bool;
  _instanceCreated : bool
}.

Definition set_fields (s : t) (l : Fields.t) : t :=
  mk l (size s) (alignment s) (currBits s) (lastBitfieldType s)
     (lastBitfieldOffset s) (isPacked s) (_instanceCreated s).
Definition set_size (s : t) (n : Z) : t :=
  mk (fields s) n (alignment s) (currBits s) (lastBitfieldType s)
     (lastBitfieldOffset s) (isPacked s) (_instanceCreated s).
Definition set_alignment (s : t) (n : Z) : t :=
  mk (fields s) (size s) n (currBits s) (lastBitfieldType s)
     (lastBitfieldOffset s) (isPacked s) (_instanceCreated s).
Definition set_currBits (s : t) (n : Z) : t :=
  mk (fields s) (size s) (alignment s) n (lastBitfieldType s)
     (lastBitfieldOffset s) (isPacked s) (_instanceCreated s).
Definition set_lastBitfieldType (s : t) (x : option FieldType.t) : t :=
  mk (fields s) (size s) (alignment s) (currBits s) x
     (lastBitfieldOffset s) (isPacked s) (_instanceCreated s).
Definition set_lastBitfieldOffset (s : t) (x : option Z) : t :=
  mk (fields s) (size s) (alignment s) (currBits s) (lastBitfieldType s)
     x (isPacked s) (_instanceCreated s).
Definition set_instanceCreated (s : t) (b : bool) : t :=
  mk (fields s) (size s) (alignment s) (currBits s) (lastBitfieldType s)
     (lastBitfieldOffset s) (isPacked s) b.

(** The buffer of [isSignedInteger]: eight bytes holding -1. *)
Definition minus_one_buffer : Buffer := repeat Byte.xff 8.

(** [isSignedInteger(type)]: whether the provider reads the bits of -1
    back as -1 ([None] when that read throws). *)
Definition isSignedInteger (type : RefType.t) : option bool :=
  option_map (fun v => v =? -1) (Ref.get minus_one_buffer 0 type).

(** The loop that builds [field.mask]. *)
Fixpoint mask_loop (n : nat) (mask : Z) : Z :=
  match n with
  | O => mask
  | S n' => mask_loop n' (Z.lor (Z.shiftl mask 1) 1)
  end.

Section WithRef.
Variable ref : Ref.Provider.

(** [internalDefineProperty(name, type)].  The name is a string and the
    type, once coerced, an object with [size] and [indirection] by
    typing, so the two asserts on them cannot fail here.
    [Object.defineProperty(this.prototype, name, desc)] defines an own
    property of a fresh extensible object whose own properties are all
    configurable, which always succeeds; the accessor it installs is
    [desc_get]/[desc_set] below, reading the entry of the table.  The
    entry keeps the type object that [ref.coerceType] returns. *)
Definition internalDefineProperty (this : t) (name : string) (type : Ref.TypeArg)
  : outcome * t :=
  match Ref.coerceType ref type with
  | None => (Err InvalidTypeError, this)
  | Some type =>
      if _instanceCreated this then (Err SchemaFrozenError, this)
      else if negb ((FieldType.indirection type >? 1) || (FieldType.size type >? 0))
      then (Err InvalidTypeError, this)
      else (Ok, set_fields this (Fields.set name (Field.fresh type) (fields this)))
  end.

Definition clearBitfieldSettings (struct : t) : t :=
  set_lastBitfieldType (set_currBits struct 0) None.

(** The body of the first loop of [recalc]. *)
Definition alignment_step (struct : t) (entry : string * Field.t) : t :=
  let type := Field.type (snd entry) in
  let align :=
    if FieldType.alignment type =? 0 then Ref.alignof_pointer ref
    else FieldType.alignment type in
  let align :=
    if FieldType.indirection type >? 1 then Ref.alignof_pointer ref
    else align in
  if isPacked struct then
    set_alignment struct
      (Z.min (if alignment struct =? 0 then align else alignment struct) align)
  else set_alignment struct (Z.max (alignment struct) align).

(** [addType(type)]: the offset given to the type, or [None] when the
    assertion "offset should align" fails (also when [align] is 0 and the
    arithmetic yields NaN). *)
Definition addType (struct : t) (type : RefType.t) : option Z * t :=
  let offset := size struct in
  let align := if RefType.indirection type =? 1 then RefType.alignment type
               else Ref.alignof_pointer ref in
  let size := if RefType.indirection type =? 1 then RefType.size type
              else Ref.sizeof_pointer ref in
  if isPacked struct then (Some offset, set_size struct (offset + size))
  else if align =? 0 then (None, struct)
  else
    let padding := Z.rem (align - Z.rem offset align) align in
    let offset := offset + padding in
    if Z.rem offset align =? 0 then (Some offset, set_size struct (offset + size))
    else (None, struct).

(** The loop [for (let i = 1; i < type.fixedLength; i++) addType(type.type)]. *)
Fixpoint addType_loop (n : nat) (struct : t) (type : RefType.t) : outcome * t :=
  match n with
  | O => (Ok, struct)
  | S n' =>
      match addType struct type with
      | (None, struct) => (Err UnalignedLayoutError, struct)
      | (Some _, struct) => addType_loop n' struct type
      end
  end.

(** The bitfield branch of the second loop of [recalc]. *)
Definition place_bitfield (struct : t) (field : Field.t)
  : outcome * Field.t * t :=
  let type := Field.type field in
  if negb (FieldType.bits type <=? FieldType.size type * 8)
  then (Err BitfieldOverflowError, field, struct)
  else
    let newCurrBits := currBits struct + FieldType.bits type in
    let typeDifferent :=
      match lastBitfieldType struct with
      | None => true
      | Some last =>
          negb (FieldType.size last =? FieldType.size type)
          || negb (FieldType.alignment last =? FieldType.alignment type)
      end in
    let bitsInsufficient := newCurrBits >? 8 * FieldType.size type in
    let firstFieldInGroup := typeDifferent || bitsInsufficient in
    let struct := if firstFieldInGroup then set_currBits struct 0 else struct in
    let newCurrBits := if firstFieldInGroup then FieldType.bits type
                       else newCurrBits in
    if typeDifferent && negb (isPacked struct) && (FieldType.alignment type =? 0)
    then (Err NotANumber, field, struct)
    else
      let struct :=
        if typeDifferent then
          let padding :=
            if isPacked struct then 0
            else Z.rem (FieldType.alignment type
                        - Z.rem (size struct) (FieldType.alignment type))
                       (FieldType.alignment type) in
          set_size struct (size struct + padding)
        else struct in
      let offset := if firstFieldInGroup then Some (size struct)
                    else lastBitfieldOffset struct in
      let struct := if firstFieldInGroup
                    then set_lastBitfieldOffset struct offset else struct in
      let struct := if firstFieldInGroup
                    then set_size struct (size struct + FieldType.size type)
                    else struct in
      let field :=
        Field.mk type offset (Some (currBits struct)) (Some (FieldType.bits type))
                 (Some (mask_loop (Z.to_nat (FieldType.bits type)) 0)) in
      let struct := set_lastBitfieldType struct (Some type) in
      let struct := set_currBits struct newCurrBits in
      (Ok, field, struct).

Definition with_offset (field : Field.t) (offset : Z) : Field.t :=
  Field.mk (Field.type field) (Some offset) (Field.bitStart field)
           (Field.bits field) (Field.mask field).

(** The body of the second loop of [recalc] for one field. *)
Definition place (struct : t) (field : Field.t) : outcome * Field.t * t :=
  let type := Field.type field in
  let struct := if FieldType.bits type =? 0 then clearBitfieldSettings struct
                else struct in
  match FieldType.fixedLength type with
  | Some fixedLength =>
      match addType struct (FieldType.type type) with
      | (None, struct) => (Err UnalignedLayoutError, field, struct)
      | (Some offset, struct) =>
          let field := with_offset field offset in
          let (r, struct) :=
            addType_loop (Z.to_nat (fixedLength - 1)) struct (FieldType.type type) in
          (r, field, struct)
      end
  | None =>
      if negb (FieldType.bits type =? 0) then place_bitfield struct field
      else
        match addType struct (FieldType.base type) with
        | (None, struct) => (Err UnalignedLayoutError, field, struct)
        | (Some offset, struct) => (Ok, with_offset field offset, struct)
        end
  end.

(** The second loop of [recalc]: the fields are placed in order; at a
    failure the fields placed so far keep their new layout and the rest
    is left as it was. *)
Fixpoint place_all (struct : t) (l : Fields.t) : outcome * Fields.t * t :=
  match l with
  | [] => (Ok, [], struct)
  | (name, field) :: rest =>
      match place struct field with
      | (Err e, field, struct) => (Err e, (name, field) :: rest, struct)
      | (Ok, field, struct) =>
          let '(r, rest, struct) := place_all struct rest in
          (r, (name, field) :: rest, struct)
      end
  end.

(** [left = size % alignment] is NaN for an alignment of 0 and the test
    [left > 0] is then false. *)
Definition addFinalPadding (struct : t) : t :=
  if alignment struct =? 0 then struct
  else
    let left := Z.rem (size struct) (alignment struct) in
    if left >? 0 then set_size struct (size struct + (alignment struct - left))
    else struct.

Definition recalc (struct : t) : outcome * t :=
  let struct := set_size struct 0 in
  let struct := set_alignment struct 0 in
  let struct := clearBitfieldSettings struct in
  let struct := fold_left alignment_step (fields struct) struct in
  let '(r, l, struct) := place_all struct (fields struct) in
  let struct := set_fields struct l in
  match r with
  | Err e => (Err e, struct)
  | Ok => (Ok, addFinalPadding struct)
  end.

Definition defineProperty (this : t) (name : string) (type : Ref.TypeArg)
  : outcome * t :=
  match internalDefineProperty this name type with
  | (Err e, this) => (Err e, this)
  | (Ok, this) => recalc this
  end.

(** The [forEach] over the entries of the argument. *)
Fixpoint defineEach (this : t) (obj : list (string * Ref.TypeArg)) : outcome * t :=
  match obj with
  | [] => (Ok, this)
  | (name, type) :: rest =>
      match internalDefineProperty this name type with
      | (Err e, this) => (Err e, this)
      | (Ok, this) => defineEach this rest
      end
  end.

Definition defineProperties (this : t) (obj : list (string * Ref.TypeArg))
  : outcome * t :=
  match defineEach this obj with
  | (Err e, this) => (Err e, this)
  | (Ok, this) => recalc this
  end.

(** [Struct(fields, opt)]: a new [StructType] with the declared fields
    laid out.  An exception loses the object under construction. *)
Definition Struct (arg : list (string * Ref.TypeArg)) (packed : bool) : error + t :=
  let StructType := mk [] 0 0 0 None None packed false in
  match defineProperties StructType arg with
  | (Err e, _) => inl e
  | (Ok, StructType) => inr StructType
  end.
End WithRef.

(** *** Field accessors and instances *)

(** [desc.get] of a bitfield, [this["ref.buffer"]] being [buffer]; [None]
    when the provider throws or the field has not been placed. *)
Definition bitfield_get (buffer : Buffer) (field : Field.t) : option Z :=
  let type := Field.type field in
  match Field.offset field, Field.bitStart field, Field.mask field, Field.bits field with
  | Some offset, Some bitStart, Some mask, Some bits =>
      match Ref.get buffer offset (FieldType.type type) with
      | None => None
      | Some value =>
          let value := Z.land (Z.shiftr value bitStart) mask in
          match isSignedInteger (FieldType.type type) with
          | None => None
          | Some true => Some (Ref.asIntN bits value)
          | Some false => Some value
          end
      end
  | _, _, _, _ => None
  end.

(** [desc.set] of a bitfield.  The new contents of the storage unit go to
    the provider as a Number for a type of at most 4 bytes and as a decimal
    String for a larger one. *)
Definition bitfield_set (buffer : Buffer) (field : Field.t) (value : Z)
  : option Buffer :=
  let type := Field.type field in
  match Field.offset field, Field.bitStart field, Field.mask field with
  | Some offset, Some bitStart, Some mask =>
      match Ref.get buffer offset (FieldType.type type) with
      | None => None
      | Some val =>
          let val := Z.lor val (Z.shiftl (Z.land value mask) bitStart) in
          match isSignedInteger (FieldType.type type) with
          | None => None
          | Some sgn =>
              let val :=
                if sgn then Ref.asIntN (8 * RefType.size (FieldType.type type)) val
                else val in
              if RefType.size (FieldType.type type) <=? 4
              then Ref.set buffer offset val (FieldType.type type)
              else Ref.set_string buffer offset val (FieldType.type type)
          end
      end
  | _, _, _ => None
  end.

(** The accessor pair that [internalDefineProperty] installs for a field:
    the bitfield pair when [type.bits] is truthy, else the provider's own
    [get] and [set] at the field's offset. *)
Definition desc_get (buffer : Buffer) (field : Field.t) : option Z :=
  if negb (FieldType.bits (Field.type field) =? 0) then bitfield_get buffer field
  else match Field.offset field with
       | Some offset => Ref.get buffer offset (FieldType.base (Field.type field))
       | None => None
       end.

Definition desc_set (buffer : Buffer) (field : Field.t) (value : Z) : option Buffer :=
  if negb (FieldType.bits (Field.type field) =? 0) then bitfield_set buffer field value
  else match Field.offset field with
       | Some offset => Ref.set buffer offset value (FieldType.base (Field.type field))
       | None => None
       end.

(** An instance: its backing buffer, [this["ref.buffer"]]. *)
Record Instance := mkInstance { ref_buffer : Buffer }.

(** [instance[name]] and [instance[name] = value] for a declared field. *)
Definition get_field (S : t) (this : Instance) (name : string) : option Z :=
  match Fields.get name (fields S) with
  | Some field => desc_get (ref_buffer this) field
  | None => None
  end.

Definition set_field (S : t) (this : Instance) (name : string) (value : Z)
  : option Instance :=
  match Fields.get name (fields S) with
  | Some field => option_map mkInstance (desc_set (ref_buffer this) field value)
  | None => None
  end.

(** The loop [for (const key in arg) this[key] = arg[key]] over integer
    values; a key that is no field becomes an own property of the instance
    and leaves the buffer alone. *)
Fixpoint populate (S : t) (this : Instance) (arg : list (string * Z))
  : option Instance :=
  match arg with
  | [] => Some this
  | (key, value) :: rest =>
      match Fields.get key (fields S) with
      | None => populate S this rest
      | Some _ =>
          match set_field S this key value with
          | None => None
          | Some this => populate S this rest
          end
      end
  end.

(** [new StructType(arg, data)]: [arg] is the buffer to use, if one is
    passed.  The type is marked as instantiated on the last line only. *)
Definition StructType (S : t) (arg : option Buffer) (data : list (string * Z))
  : (error + Instance) * t :=
  let store :=
    match arg with
    | Some b => if Z.of_nat (List.length b) >=? size S then inr b
                else inl BufferTooSmallError
    | None => inr (Ref.alloc (size S))
    end in
  match store with
  | inl e => (inl e, S)
  | inr store =>
      match populate S (mkInstance store) data with
      | None => (inl ProviderError, S)
      | Some this => (inr this, set_instanceCreated S true)
      end
  end.
End Struct.

(** ** The union module *)

Module Union.
Record t := mk {
  fields : Fields.t;
  size : Z;
  alignment : Z;
  isPacked : bool;
  _instanceCreated : bool
}.

Section WithRef.
Variable ref : Ref.Provider.

(** [internalDefineProperty(name, type)] of the union module: the size of
    the type is not checked, and the entry keeps the type object that
    [ref.coerceType] returns. *)
Definition internalDefineProperty (this : t) (name : string) (type : Ref.TypeArg)
  : outcome * t :=
  match Ref.coerceType ref type with
  | None => (Err InvalidTypeError, this)
  | Some type =>
      if _instanceCreated this then (Err SchemaFrozenError, this)
      else (Ok, mk (Fields.set name (Field.fresh type) (fields this))
                   (size this) (alignment this) (isPacked this)
                   (_instanceCreated this))
  end.

(** The body of the loop of [recalc], on the pair (size, alignment). *)
Definition member_step (acc : Z * Z) (entry : string * Field.t) : Z * Z :=
  let type := Field.type (snd entry) in
  let size := if FieldType.indirection type =? 1 then FieldType.size type
              else Ref.sizeof_pointer ref in
  let align := if FieldType.alignment type =? 0 then Ref.alignof_pointer ref
               else FieldType.alignment type in
  let align := if FieldType.indirection type >? 1 then Ref.alignof_pointer ref
               else align in
  (Z.max (fst acc) size, Z.max (snd acc) align).

Definition recalc (union : t) : t :=
  let '(size, alignment) := fold_left member_step (fields union) (0, 0) in
  let size :=
    if alignment =? 0 then size
    else
      let left := Z.rem size alignment in
      if left >? 0 then size + (alignment - left) else size in
  mk (fields union) size alignment (isPacked union) (_instanceCreated union).

Definition defineProperty (this : t) (name : string) (type : Ref.TypeArg)
  : outcome * t :=
  match internalDefineProperty this name type with
  | (Err e, this) => (Err e, this)
  | (Ok, this) => (Ok, recalc this)
  end.

Fixpoint defineEach (this : t) (obj : list (string * Ref.TypeArg)) : outcome * t :=
  match obj with
  | [] => (Ok, this)
  | (name, type) :: rest =>
      match internalDefineProperty this name type with
      | (Err e, this) => (Err e, this)
      | (Ok, this) => defineEach this rest
      end
  end.

Definition defineProperties (this : t) (obj : list (string * Ref.TypeArg))
  : outcome * t :=
  match defineEach this obj with
  | (Err e, this) => (Err e, this)
  | (Ok, this) => (Ok, recalc this)
  end.

(** [Union(fields, opt)]. *)
Definition Union (arg : list (string * Ref.TypeArg)) (packed : bool) : error + t :=
  match defineProperties (mk [] 0 0 packed false) arg with
  | (Err e, _) => inl e
  | (Ok, UnionType) => inr UnionType
  end.
End WithRef.


End Union.

(** *** The type interface of a struct type and the prototype of its
    instances *)

Module NodeBuffer.
(** [buffer.slice(start)] for a start that is not negative: the bytes from
    [start] on (none when [start] is past the end). *)
Definition slice (buffer : Buffer) (start : Z) : Buffer :=
  skipn (Z.to_nat start) buffer.

(** [source.copy(target, targetStart, 0, sourceEnd)]: the bytes of
    [source] before [sourceEnd] are written into [target] from
    [targetStart] on, as many as both buffers have; a negative argument
    throws. *)
Definition copy (source target : Buffer) (targetStart sourceEnd : Z)
  : option Buffer :=
  if (targetStart <? 0) || (sourceEnd <? 0) then None
  else
    let room := Z.of_nat (List.length target) - targetStart in
    if (room <=? 0) || (sourceEnd <=? 0) then Some target
    else
      let nb := Z.min (Z.min sourceEnd room) (Z.of_nat (List.length source)) in
      Some (firstn (Z.to_nat targetStart) target
            ++ firstn (Z.to_nat nb) source
            ++ skipn (Z.to_nat (targetStart + nb)) target).
End NodeBuffer.

Module StructType.
(** [StructType.get(buffer, offset)]: an instance over the bytes of
    [buffer] from [offset] on. *)
Definition get (S : Struct.t) (buffer : Buffer) (offset : Z)
  : (error + Struct.Instance) * Struct.t :=
  let buffer := if offset >? 0 then NodeBuffer.slice buffer offset else buffer in
  Struct.StructType S (Some buffer) [].

(** [StructType.set(buffer, offset, value)], [value] being an instance of
    this struct type or an object of integers.  An instance is copied byte
    by byte.  An object is given to the constructor together with the
    bytes of [buffer] from [offset] on, which the setters then write to:
    the result is the contents of [buffer] after the call. *)
Definition set (S : Struct.t) (buffer : Buffer) (offset : Z)
    (value : Struct.Instance + list (string * Z))
  : (error + Buffer) * Struct.t :=
  match value with
  | inl instance =>
      match NodeBuffer.copy (Struct.ref_buffer instance) buffer offset
              (Struct.size S) with
      | Some buffer => (inr buffer, S)
      | None => (inl ProviderError, S)
      end
  | inr data =>
      let start := if offset >? 0 then offset else 0 in
      match Struct.StructType S (Some (NodeBuffer.slice buffer start)) data with
      | (inl e, T) => (inl e, T)
      | (inr this, T) =>
          (inr (firstn (Z.to_nat start) buffer ++ Struct.ref_buffer this), T)
      end
  end.

Definition toString : string := "[StructType]".
End StructType.

Module proto.
(** The loop of [toObject] over [Object.keys(this.constructor.fields)], the
    fields holding integers. *)
Fixpoint toObject_each (S : Struct.t) (this : Struct.Instance)
    (keys : list string) : option (list (string * Z)) :=
  match keys with
  | [] => Some []
  | k :: rest =>
      match Struct.get_field S this k with
      | None => None
      | Some value =>
          match toObject_each S this rest with
          | None => None
          | Some obj => Some ((k, value) :: obj)
          end
      end
  end.

Definition toObject (S : Struct.t) (this : Struct.Instance)
  : option (list (string * Z)) :=
  toObject_each S this (map fst (Struct.fields S)).

Definition toJSON := toObject.

(** [instance.ref()]. *)
Definition ref (this : Struct.Instance) : Buffer := Struct.ref_buffer this.
End proto.

(** ** Declarations used as examples *)

Module Examples.
(** Sequencing of calls that can throw. *)
Definition bind {A B} (x : error + A) (f : A -> error + B) : error + B :=
  match x with
  | inl e => inl e
  | inr a => f a
  end.

Notation "x <- c ;; k" := (bind c (fun x => k))
  (at level 61, c at next level, right associativity).

(** A chained call [S.defineProperty(...)]: the call throws or yields [S]. *)
Definition chained (r : outcome * Struct.t) : error + Struct.t :=
  match r with
  | (Ok, T) => inr T
  | (Err e, _) => inl e
  end.

Definition bitfield (type : string) (bits : Z) : error + Ref.TypeArg :=
  x <- Bitfield.Bitfield Ref.napi (Ref.TypeName type) (Some bits) ;;
  inr (Ref.TypeObj x).

(** The struct [S] of the README, with its redefinitions. *)
Definition README_S : error + Struct.t :=
  a <- bitfield "int64" 7 ;;
  b <- bitfield "int64" 2 ;;
  c <- bitfield "int64" 2 ;;
  d <- bitfield "char" 7 ;;
  e <- bitfield "char" 2 ;;
  f <- bitfield "char" 2 ;;
  g <- bitfield "int" 2 ;;
  i <- bitfield "uint64" 2 ;;
  j <- bitfield "int64" 62 ;;
  k <- bitfield "uint64" 1 ;;
  S <- Struct.Struct Ref.napi
         [("a", a); ("b", b); ("c", c); ("d", d); ("e", e); ("f", f); ("g", g);
          ("h", Ref.TypeName "short"); ("i", i); ("j", j); ("k", k)]%string false ;;
  S <- chained (Struct.defineProperty Ref.napi S "h" (Ref.TypeName "char")) ;;
  S <- chained (Struct.defineProperties Ref.napi S
                  [("i", i); ("j", j); ("k", k)]%string) ;;
  S <- chained (Struct.defineProperty Ref.napi S "h" (Ref.TypeName "char")) ;;
  chained (Struct.defineProperties Ref.napi S [("i", i); ("j", j); ("k", k)]%string).

Definition offset_of (S : Struct.t) (name : string) : option Z :=
  match Fields.get name (Struct.fields S) with
  | Some field => Field.offset field
  | None => None
  end.

Definition bitStart_of (S : Struct.t) (name : string) : option Z :=
  match Fields.get name (Struct.fields S) with
  | Some field => Field.bitStart field
  | None => None
  end.

(** The grouping that the scenario of the design describes for [S]: one
    storage unit for a, b, c, one for d, e, f, one for i, j, k, and the
    totals 40 and 8. *)
Definition scenario_as_described (S : Struct.t) : Prop :=
  offset_of S "a" = offset_of S "b" /\ offset_of S "b" = offset_of S "c" /\
  offset_of S "d" = offset_of S "e" /\ offset_of S "e" = offset_of S "f" /\
  offset_of S "i" = offset_of S "j" /\ offset_of S "j" = offset_of S "k" /\
  Struct.size S = 40 /\ Struct.alignment S = 8.

(** An empty struct type that is then given one [int] field of the given
    name. *)
Definition declare (name : string) : error + Struct.t :=
  T <- Struct.Struct Ref.napi [] false ;;
  chained (Struct.defineProperty Ref.napi T name (Ref.TypeName "int")).

(** A struct of two plain members, and a bitfield too wide for its type. *)
Definition two_members : error + Struct.t :=
  Struct.Struct Ref.napi
    [("a", Ref.TypeName "int64"); ("b", Ref.TypeName "char")]%string false.

Definition char_9 : Ref.TypeArg :=
  Ref.TypeObj (FieldType.mk (RefType.mk 1 1 1 false) 9 None Ref.char).

(** Two bitfields declared over different types of one size and
    alignment. *)
Definition mixed_sign : error + Struct.t :=
  i <- bitfield "uint64" 2 ;;
  j <- bitfield "int64" 62 ;;
  Struct.Struct Ref.napi [("i", i); ("j", j)]%string false.

(** A packed struct with one member of a custom type of size 1 that gives
    no alignment. *)
Definition custom_byte : Ref.TypeArg :=
  Ref.TypeObj (FieldType.plain (RefType.mk 1 0 1 false)).

Definition packed_custom : error + Struct.t :=
  Struct.Struct Ref.napi [("x", custom_byte)]%string true.

(** The same two declarations as a table that [recalc] has yet to lay out. *)
Definition uint64_2 : FieldType.t :=
  FieldType.mk (RefType.mk 8 8 1 false) 2 None Ref.uint64.

Definition int64_62 : FieldType.t :=
  FieldType.mk (RefType.mk 8 8 1 false) 62 None Ref.int64.

Definition two_bitfields : Struct.t :=
  Struct.mk [("i", Field.fresh uint64_2); ("j", Field.fresh int64_62)]%string
            0 0 0 None None false false.

(** A struct with one 2-bit field over an unsigned byte, and an instance
    of it written twice. *)
Definition one_field : error + Struct.t :=
  a <- bitfield "uchar" 2 ;;
  Struct.Struct Ref.napi [("a", a)]%string false.

Definition written_twice (first second : Z) : option Z :=
  match one_field with
  | inl _ => None
  | inr T =>
      match Struct.StructType T None [] with
      | (inl _, _) => None
      | (inr s, T) =>
          match Struct.set_field T s "a" first with
          | None => None
          | Some s =>
              match Struct.set_field T s "a" second with
              | None => None
              | Some s => Struct.get_field T s "a"
              end
          end
      end
  end.

(** [S = struct({a: "int"})], then [S.defineProperties({b: "int", c:
    "float128"})], which throws on [c] and leaves [b] in the table, then
    [new S()]: a struct type with an instance and with a declaration that
    no [recalc] has laid out. *)
Definition instantiated : error + Struct.t :=
  T <- Struct.Struct Ref.napi [("a", Ref.TypeName "int")]%string false ;;
  let T := snd (Struct.defineProperties Ref.napi T
                  [("b", Ref.TypeName "int"); ("c", Ref.TypeName "float128")]%string) in
  match Struct.StructType T None [] with
  | (inl e, _) => inl e
  | (inr _, T) => inr T
  end.

(** A struct type as the type of a field: the [StructType] object itself,
    with the size and alignment it has at the time. *)
Definition as_type (S : Struct.t) : FieldType.t :=
  FieldType.plain (RefType.mk (Struct.size S) (Struct.alignment S) 1 false).

(** The struct type [T] as a call finds it once the type object of its
    field [name] has become [type]: the entry is the same object, with the
    layout it was given before. *)
Definition seen_with (name : string) (type : FieldType.t) (T : Struct.t) : Struct.t :=
  Struct.set_fields T
    (map (fun entry : string * Field.t =>
            if (fst entry =? name)%string
            then (fst entry,
                  Field.mk type (Field.offset (snd entry)) (Field.bitStart (snd entry))
                           (Field.bits (snd entry)) (Field.mask (snd entry)))
            else entry)
         (Struct.fields T)).

(** [inner = struct({x: "int64"}, {packed: true})] and [outer =
    struct({a: inner, c: "char"})], then [inner.defineProperty("y",
    "char")]: the outer struct with the layout it got for an [inner] of 8
    bytes, while [inner] now has 9 bytes and alignment 1. *)
Definition outer_of_extended_inner : error + Struct.t :=
  inner <- Struct.Struct Ref.napi [("x", Ref.TypeName "int64")]%string true ;;
  outer <- Struct.Struct Ref.napi
             [("a", Ref.TypeObj (as_type inner)); ("c", Ref.TypeName "char")]%string
             false ;;
  inner <- chained (Struct.defineProperty Ref.napi inner "y" (Ref.TypeName "char")) ;;
  inr (seen_with "a" (as_type inner) outer).

(** Members of byte sizes 7, 3, 11 and alignments 1, 4, 8. *)
Definition member (size alignment : Z) : Ref.TypeArg :=
  Ref.TypeObj (FieldType.plain (RefType.mk size alignment 1 false)).

Definition three_members : Union.t :=
  Union.mk
    [("x", Field.fresh (FieldType.plain (RefType.mk 7 1 1 false)));
     ("y", Field.fresh (FieldType.plain (RefType.mk 3 4 1 false)));
     ("z", Field.fresh (FieldType.plain (RefType.mk 11 8 1 false)))]%string
    0 0 false false.

End Examples.

(** ** More declarations used as examples *)

Module Samples.
(** Bitfields of 3 and 5 bits over an unsigned byte, as [Bitfield] builds
    them. *)
Definition uchar_3 : FieldType.t :=
  FieldType.mk (RefType.mk 1 1 1 false) 3 None Ref.uchar.

Definition uchar_5 : FieldType.t :=
  FieldType.mk (RefType.mk 1 1 1 false) 5 None Ref.uchar.

(** A table of a [char], the two bitfields and an [int], yet to be laid
    out, and its layout. *)
Definition record : Struct.t :=
  Struct.mk [("c", Field.fresh (FieldType.plain Ref.char));
             ("x", Field.fresh uchar_3);
             ("y", Field.fresh uchar_5);
             ("n", Field.fresh (FieldType.plain Ref.int))]%string
            0 0 0 None None false false.

Definition laid_out : Struct.t := snd (Struct.recalc Ref.napi record).

(** A table with one member of a custom type of size 1 that gives no
    alignment. *)
Definition unaligned : Struct.t :=
  Struct.mk [("x", Field.fresh (FieldType.plain (RefType.mk 1 0 1 false)))]%string
            0 0 0 None None false false.

(** A buffer of 16 bytes, all ones, and an instance over 8 such bytes. *)
Definition ones_16 : Buffer := repeat Byte.xff 16.

Definition all_ones : Struct.Instance := Struct.mkInstance (repeat Byte.xff 8).

(** A table of an [int64] and a [char], its layout, and an instance over 16
    zeroed bytes. *)
Definition pair : Struct.t :=
  Struct.mk [("a", Field.fresh (FieldType.plain Ref.int64));
             ("b", Field.fresh (FieldType.plain Ref.char))]%string
            0 0 0 None None false false.

Definition pair_laid_out : Struct.t := snd (Struct.recalc Ref.napi pair).

Definition zeros_16 : Struct.Instance := Struct.mkInstance (repeat Byte.x00 16).

(** A member of 2 bytes for the union of the examples. *)
Definition half_word : Ref.TypeArg := Examples.member 2 2.
End Samples.


(** ** Predicates of the statements *)

(** The failures that [recalc] raises. *)
Definition layout_error (e : error) : Prop :=
  e = BitfieldOverflowError \/ e = UnalignedLayoutError \/ e = NotANumber.

(** The size and alignment that the design gives a union member, and their
    maximum over a field table (0 for the empty table). *)
Definition member_size (ref : Ref.Provider) (type : FieldType.t) : Z :=
  if FieldType.indirection type >? 1 then Ref.sizeof_pointer ref
  else FieldType.size type.

Definition member_alignment (ref : Ref.Provider) (type : FieldType.t) : Z :=
  if FieldType.indirection type >? 1 then Ref.alignof_pointer ref
  else FieldType.alignment type.

Definition largest (f : FieldType.t -> Z) (l : Fields.t) : Z :=
  fold_right (fun entry acc => Z.max (f (Field.type (snd entry))) acc) 0 l.

(** A union member as the data model has it: an indirection of at least 1
    and an alignment that is given. *)
Definition member_ok (entry : string * Field.t) : Prop :=
  1 <= FieldType.indirection (Field.type (snd entry)) /\
  FieldType.alignment (Field.type (snd entry)) <> 0.

(** The size and alignment that [addType] uses for a type. *)
Definition natural_size (ref : Ref.Provider) (r : RefType.t) : Z :=
  if RefType.indirection r =? 1 then RefType.size r else Ref.sizeof_pointer ref.

Definition natural_alignment (ref : Ref.Provider) (r : RefType.t) : Z :=
  if RefType.indirection r =? 1 then RefType.alignment r
  else Ref.alignof_pointer ref.

(** A field that the second loop of [recalc] treats as a bitfield. *)
Definition is_bitfield (type : FieldType.t) : Prop :=
  FieldType.fixedLength type = None /\ FieldType.bits type <> 0.

(** Field types with positive sizes and alignments: a scalar or an array of
    scalars, or a bitfield as [Bitfield] builds it, of positive width and
    with the size of its underlying type. *)
Definition well_formed (ref : Ref.Provider) (type : FieldType.t) : Prop :=
  match FieldType.fixedLength type with
  | Some _ =>
      FieldType.bits type = 0 /\
      0 < natural_size ref (FieldType.type type) /\
      0 < natural_alignment ref (FieldType.type type)
  | None =>
      if FieldType.bits type =? 0
      then 0 < natural_size ref (FieldType.base type) /\
           0 < natural_alignment ref (FieldType.base type)
      else 0 < FieldType.bits type /\
           0 < FieldType.size type /\
           0 < FieldType.alignment type /\
           RefType.size (FieldType.type type) = FieldType.size type
  end.

Definition well_formed_fields (ref : Ref.Provider) (l : Fields.t) : Prop :=
  Forall (fun entry => well_formed ref (Field.type (snd entry))) l.

(** While a bitfield group is open, its storage unit is the last one of the
    struct and the bits used so far fit in it. *)
Definition group_ok (s : Struct.t) : Prop :=
  0 <= Struct.size s /\
  match Struct.lastBitfieldType s with
  | Some last =>
      exists o,
        Struct.lastBitfieldOffset s = Some o /\
        0 <= o /\
        o + FieldType.size last = Struct.size s /\
        0 <= Struct.currBits s <= 8 * FieldType.size last
  | None => True
  end.

(** The test that opens a new group for a bitfield type in a given state. *)
Definition starts_group (s : Struct.t) (type : FieldType.t) : Prop :=
  match Struct.lastBitfieldType s with
  | Some last =>
      FieldType.size last <> FieldType.size type \/
      FieldType.alignment last <> FieldType.alignment type \/
      Struct.currBits s + FieldType.bits type > 8 * FieldType.size type
  | None => True
  end.

Definition type_changes (s : Struct.t) (type : FieldType.t) : Prop :=
  match Struct.lastBitfieldType s with
  | Some last =>
      FieldType.size last <> FieldType.size type \/
      FieldType.alignment last <> FieldType.alignment type
  | None => True
  end.

(** The unsigned value of the [n] bytes at [offset]. *)
Definition stored (buffer : Buffer) (offset n : Z) : Z :=
  le_combine (firstn (Z.to_nat n) (skipn (Z.to_nat offset) buffer)).

Definition decode (type : RefType.t) (u : Z) : Z :=
  if RefType.signed type then Ref.asIntN (8 * RefType.size type) u else u.

(** The state in which the second loop of [recalc] starts. *)
Definition before_placing (ref : Ref.Provider) (s : Struct.t) : Struct.t :=
  fold_left (Struct.alignment_step ref)
    (Struct.fields
       (Struct.clearBitfieldSettings
          (Struct.set_alignment (Struct.set_size s 0) 0)))
    (Struct.clearBitfieldSettings
       (Struct.set_alignment (Struct.set_size s 0) 0)).

(** A bitfield entry that has been placed: its storage unit lies inside the
    struct, its bits inside the unit, its mask covers its width; and if its
    unit is the open group, its bits are among those counted as used. *)
Definition placed (s : Struct.t) (g : Field.t) : Prop :=
  let type := Field.type g in
  is_bitfield type ->
  exists o b,
    Field.offset g = Some o /\ Field.bitStart g = Some b /\
    Field.bits g = Some (FieldType.bits type) /\
    Field.mask g = Some (Z.ones (FieldType.bits type)) /\
    0 <= o /\ o + FieldType.size type <= Struct.size s /\
    0 < FieldType.size type /\
    RefType.size (FieldType.type type) = FieldType.size type /\
    0 <= b /\ 0 < FieldType.bits type /\
    b + FieldType.bits type <= 8 * FieldType.size type /\
    (forall last,
       Struct.lastBitfieldType s = Some last ->
       Struct.lastBitfieldOffset s = Some o ->
       FieldType.size type = FieldType.size last /\
       b + FieldType.bits type <= Struct.currBits s).

(** Two bitfield entries at the same offset have storage units of one size
    and occupy disjoint bit ranges. *)
Definition compatible (g1 g2 : Field.t) : Prop :=
  is_bitfield (Field.type g1) -> is_bitfield (Field.type g2) ->
  forall o, Field.offset g1 = Some o -> Field.offset g2 = Some o ->
  exists b1 b2,
    Field.bitStart g1 = Some b1 /\ Field.bitStart g2 = Some b2 /\
    FieldType.size (Field.type g1) = FieldType.size (Field.type g2) /\
    (b1 + FieldType.bits (Field.type g1) <= b2 \/
     b2 + FieldType.bits (Field.type g2) <= b1).

Definition separated (l : Fields.t) : Prop :=
  ForallOrdPairs (fun e1 e2 => compatible (snd e1) (snd e2)) l.

Definition all_placed (s : Struct.t) (l : Fields.t) : Prop :=
  Forall (fun entry => placed s (snd entry)) l.

(** The alignment that the first loop of [recalc] takes for a field, and the
    update it makes to the alignment of the struct. *)
Definition pass1_alignment (ref : Ref.Provider) (type : FieldType.t) : Z :=
  if FieldType.indirection type >? 1 then Ref.alignof_pointer ref
  else if FieldType.alignment type =? 0 then Ref.alignof_pointer ref
       else FieldType.alignment type.

Definition combine_alignment (packed : bool) (current a : Z) : Z :=
  if packed then Z.min (if current =? 0 then a else current) a
  else Z.max current a.

(** The number of bytes that each placement of a field adds to the struct
    (once per element of an array, once per storage unit of bitfields). *)
Definition unit_size (ref : Ref.Provider) (type : FieldType.t) : Z :=
  match FieldType.fixedLength type with
  | Some _ => natural_size ref (FieldType.type type)
  | None => if FieldType.bits type =? 0 then natural_size ref (FieldType.base type)
            else FieldType.size type
  end.

Definition pow2 (a : Z) : Prop := exists k, 0 <= k /\ a = 2 ^ k.

(** A field type as the C ABI has them: well formed, with an indirection of
    at least 1 (exactly 1 for a bitfield) and an alignment that is a power
    of two and divides the size. *)
Definition c_type (ref : Ref.Provider) (type : FieldType.t) : Prop :=
  well_formed ref type /\
  1 <= FieldType.indirection type /\
  (is_bitfield type -> FieldType.indirection type = 1) /\
  pow2 (pass1_alignment ref type) /\
  (pass1_alignment ref type | unit_size ref type).

Definition c_types (ref : Ref.Provider) (l : Fields.t) : Prop :=
  Forall (fun entry => c_type ref (Field.type (snd entry))) l.

(** Two states of [StructType] that the second loop of [recalc] cannot tell
    apart. *)
Definition same_run (s s' : Struct.t) : Prop :=
  Struct.size s = Struct.size s' /\
  Struct.currBits s = Struct.currBits s' /\
  Struct.lastBitfieldType s = Struct.lastBitfieldType s' /\
  Struct.isPacked s = Struct.isPacked s' /\
  (Struct.lastBitfieldType s <> None ->
   Struct.lastBitfieldOffset s = Struct.lastBitfieldOffset s').

Definition same_types (l l' : Fields.t) : Prop :=
  Forall2 (fun e e' => Field.type (snd e) = Field.type (snd e')) l l'.

(** Calls of [defineProperty] on one struct type, one after the other and
    with nothing in between that changes a type; an exception ends the
    sequence. *)
Fixpoint defineProperty_each (ref : Ref.Provider) (T : Struct.t)
    (calls : list (string * Ref.TypeArg)) : outcome * Struct.t :=
  match calls with
  | [] => (Ok, T)
  | (name, type) :: rest =>
      match Struct.defineProperty ref T name type with
      | (Ok, T) => defineProperty_each ref T rest
      | (Err e, T) => (Err e, T)
      end
  end.

(** A size moved up by the padding that [recalc] computes for an
    alignment. *)
Definition round_up (align size : Z) : Z :=
  size + Z.rem (align - Z.rem size align) align.

(** The offset that [addType] gives in a state, for an alignment. *)
Definition next_offset (s : Struct.t) (align : Z) : Z :=
  if Struct.isPacked s then Struct.size s else round_up align (Struct.size s).

(** The state of a relayout in which one more field was declared, compared
    with the state of the relayout without it at the same later field: the
    former is at least as far, and when it has a group open, the latter
    either has a group of the same kind with no more bits used, or it has
    not reached the storage unit of that group. *)
Definition behind (s' s : Struct.t) : Prop :=
  Struct.isPacked s' = Struct.isPacked s /\
  Struct.size s' <= Struct.size s /\
  match Struct.lastBitfieldType s with
  | None => True
  | Some last =>
      (exists last',
         Struct.lastBitfieldType s' = Some last' /\
         FieldType.size last' = FieldType.size last /\
         FieldType.alignment last' = FieldType.alignment last /\
         Struct.currBits s' <= Struct.currBits s) \/
      (exists o,
         Struct.lastBitfieldOffset s = Some o /\
         next_offset s' (FieldType.alignment last) <= o)
  end.

(** Unless the struct is packed, the end of an open group is aligned for
    the type of the group. *)
Definition group_aligned (s : Struct.t) : Prop :=
  Struct.isPacked s = false ->
  forall last,
    Struct.lastBitfieldType s = Some last ->
    (FieldType.alignment last | Struct.size s).

(** A bitfield declared wider than its type: the one test of the second
    loop of [recalc] that is about the width. *)
Definition too_wide (type : FieldType.t) : Prop :=
  is_bitfield type /\ FieldType.bits type > 8 * FieldType.size type.

(** The number of times the second loop of [recalc] calls [addType] for a
    field: once, or once per element of an array (the first call is made
    whatever the length). *)
Definition count (type : FieldType.t) : Z :=
  match FieldType.fixedLength type with
  | Some n => Z.max n 1
  | None => 1
  end.

(** The bytes that a field occupies from its offset on. *)
Definition footprint (ref : Ref.Provider) (type : FieldType.t) : Z :=
  count type * unit_size ref type.

(** The alignment that the second loop of [recalc] uses when it pads for a
    field. *)
Definition offset_alignment (ref : Ref.Provider) (type : FieldType.t) : Z :=
  match FieldType.fixedLength type with
  | Some _ => natural_alignment ref (FieldType.type type)
  | None => if FieldType.bits type =? 0
            then natural_alignment ref (FieldType.base type)
            else FieldType.alignment type
  end.


(** Field types for which the first loop of [recalc] takes a positive
    alignment. *)
Definition positive_alignments (ref : Ref.Provider) (l : Fields.t) : Prop :=
  Forall (fun e => 0 < pass1_alignment ref (Field.type (snd e))) l.

(** A scalar type that gives no alignment. *)
Definition no_alignment (type : FieldType.t) : Prop :=
  FieldType.fixedLength type = None /\ FieldType.bits type = 0 /\
  FieldType.indirection type = 1 /\ FieldType.alignment type = 0.

(** Unless the struct is packed, the open storage unit starts at a multiple
    of the alignment of its type. *)
Definition unit_aligned (s : Struct.t) : Prop :=
  Struct.isPacked s = false ->
  forall last o,
    Struct.lastBitfieldType s = Some last ->
    Struct.lastBitfieldOffset s = Some o ->
    (FieldType.alignment last | o).

(** An entry that the second loop of [recalc] has placed, seen from a later
    state of the loop: its bytes end at or before the size reached, and
    before the open storage unit unless the entry is a bitfield of it. *)
Definition laid (ref : Ref.Provider) (s : Struct.t) (g : Field.t) : Prop :=
  exists o,
    Field.offset g = Some o /\ 0 <= o /\
    o + footprint ref (Field.type g) <= Struct.size s /\
    (forall last ol,
       Struct.lastBitfieldType s = Some last ->
       Struct.lastBitfieldOffset s = Some ol ->
       o + footprint ref (Field.type g) <= ol \/
       (is_bitfield (Field.type g) /\ o = ol)).

(** Two entries in the order of the table: the second starts where the
    first ends or later, unless both are bitfields of one storage unit. *)
Definition in_order (ref : Ref.Provider) (g1 g2 : Field.t) : Prop :=
  exists o1 o2,
    Field.offset g1 = Some o1 /\ Field.offset g2 = Some o2 /\
    (o1 + footprint ref (Field.type g1) <= o2 \/
     (is_bitfield (Field.type g1) /\ is_bitfield (Field.type g2) /\ o1 = o2)).

(** Two states of [StructType] that differ at most in the field table and,
    while no storage unit is open, in the offset remembered for the last
    one. *)
Definition twin (s u : Struct.t) : Prop :=
  Struct.size s = Struct.size u /\
  Struct.alignment s = Struct.alignment u /\
  Struct.currBits s = Struct.currBits u /\
  Struct.lastBitfieldType s = Struct.lastBitfieldType u /\
  Struct.isPacked s = Struct.isPacked u /\
  Struct._instanceCreated s = Struct._instanceCreated u /\
  (Struct.lastBitfieldType s <> None ->
   Struct.lastBitfieldOffset s = Struct.lastBitfieldOffset u).

(** What a run of the second loop of [recalc] does to the remembered
    offset, in two runs from twin states [s] and [u] that end in [t] and
    [t2]: it is the same at the end, or neither run has assigned it. *)
Definition same_unit (s u t t2 : Struct.t) : Prop :=
  Struct.lastBitfieldOffset t2 = Struct.lastBitfieldOffset t \/
  (Struct.lastBitfieldOffset t2 = Struct.lastBitfieldOffset u /\
   Struct.lastBitfieldOffset t = Struct.lastBitfieldOffset s).

(** An entry of the field table that [recalc] has not placed. *)
Definition unplaced (name : string) (T : Struct.t) : Prop :=
  exists f, Fields.get name (Struct.fields T) = Some f /\ Field.offset f = None.

(** A field that is read and written as an integer: a scalar that is no
    pointer, or a bitfield over a type of at most 8 bytes, the length of the
    buffer of [isSignedInteger]. *)
Definition integer_field (type : FieldType.t) : Prop :=
  FieldType.fixedLength type = None /\
  if FieldType.bits type =? 0 then FieldType.indirection type = 1
  else FieldType.size type <= 8.

(** An integer narrowed to the width of a bitfield, as its getter returns
    it. *)
Definition narrowed (type : FieldType.t) (x : Z) : Z :=
  if RefType.signed (FieldType.type type)
  then Ref.asIntN (FieldType.bits type) x
  else x mod 2 ^ FieldType.bits type.

(** What a field reads once a value that fits it has been written to it
    in a zeroed buffer: the value itself for a scalar, the value narrowed to
    the width for a bitfield. *)
Definition field_value (type : FieldType.t) (x : Z) : Z :=
  if FieldType.bits type =? 0 then x else narrowed type x.

(** An entry whose accessors work on every buffer of at least [limit]
    bytes: its bytes lie below [limit] and, for a bitfield, its bits lie
    inside its storage unit. *)
Definition ready (limit : Z) (g : Field.t) : Prop :=
  let type := Field.type g in
  exists o,
    Field.offset g = Some o /\ 0 <= o /\ 0 < FieldType.size type /\
    o + FieldType.size type <= limit /\
    (FieldType.bits type <> 0 ->
     exists b,
       Field.bitStart g = Some b /\
       Field.bits g = Some (FieldType.bits type) /\
       Field.mask g = Some (Z.ones (FieldType.bits type)) /\
       0 <= b /\ 0 < FieldType.bits type /\
       b + FieldType.bits type <= 8 * FieldType.size type /\
       RefType.size (FieldType.type type) = FieldType.size type /\
       FieldType.size type <= 8).

(** Two buffers with the same bytes from [o] up to [o + n]. *)
Definition same_bytes (b b' : Buffer) (o n : Z) : Prop :=
  forall i : nat, o <= Z.of_nat i < o + n -> nth_error b' i = nth_error b i.

(** Two buffers with the same bytes outside of [o] up to [o + n]. *)
Definition same_outside (b b' : Buffer) (o n : Z) : Prop :=
  forall i : nat, Z.of_nat i < o \/ o + n <= Z.of_nat i ->
                  nth_error b' i = nth_error b i.

(** The bits of a bitfield entry in a buffer, before the getter gives them
    a sign. *)
Definition field_bits (buffer : Buffer) (g : Field.t) : Z :=
  match Field.offset g, Field.bitStart g with
  | Some o, Some b =>
      Z.land (Z.shiftr (stored buffer o (FieldType.size (Field.type g))) b)
             (Z.ones (FieldType.bits (Field.type g)))
  | _, _ => 0
  end.

(** A table whose fields are all read and written as integers. *)
Definition integer_fields (l : Fields.t) : Prop :=
  Forall (fun e => integer_field (Field.type (snd e))) l.

(** The key under which an instance keeps its buffer: an assignment to it,
    by the constructor or from the data passed to it, is not an assignment
    to a field or to a fresh property. *)
Definition buffer_key : string := "ref.buffer".

(** A value that the setter of a field of this type stores as it is: any
    integer for a bitfield, whose setter masks it; for a scalar, an integer
    that the type holds and that a Number holds exactly. *)
Definition fits (type : FieldType.t) (value : Z) : Prop :=
  FieldType.bits type = 0 ->
  Ref.holds (FieldType.base type) value = true /\ - 2 ^ 53 < value < 2 ^ 53.

(** A value that the provider refuses to write to a field of this type: an
    integer outside the type of a scalar of at most 4 bytes. *)
Definition refused (type : FieldType.t) (value : Z) : Prop :=
  FieldType.bits type = 0 /\ FieldType.size type <= 4 /\
  Ref.holds (FieldType.base type) value = false.

(** An object of integers whose values fit the fields that its keys name,
    and one with a value that the field of its key refuses. *)
Definition fitting (l : Fields.t) (data : list (string * Z)) : Prop :=
  Forall (fun kv => forall g, Fields.get (fst kv) l = Some g ->
                              fits (Field.type g) (snd kv)) data.

Definition unfit (l : Fields.t) (data : list (string * Z)) : Prop :=
  Exists (fun kv => exists g, Fields.get (fst kv) l = Some g /\
                              refused (Field.type g) (snd kv)) data.

(** The value of a key in an object of integers. *)
Fixpoint assoc (key : string) (data : list (string * Z)) : option Z :=
  match data with
  | [] => None
  | (k, v) :: rest => if (k =? key)%string then Some v else assoc key rest
  end.

(** What a field reads after the constructor was given [data]. *)
Definition initial_value (data : list (string * Z)) (entry : string * Field.t)
  : string * Z :=
  (fst entry,
   match assoc (fst entry) data with
   | Some v => field_value (Field.type (snd entry)) v
   | None => 0
   end).

(** The key whose assignment sets the prototype of an object instead of
    adding an entry to it. *)
Definition proto_key : string := "__proto__".

(** The properties that [toObject] is reached and goes through: a field of
    one of these names puts its accessor in their place on the prototype,
    and an assignment to one of them on an instance hides them. *)
Definition prototype_keys : list string := ["constructor"; "toObject"]%string.

(** Names that none of the given keys uses. *)
Definition unused (keys names : list string) : Prop :=
  Forall (fun k => ~ In k names) keys.

(** Union members as the C ABI has them: an indirection of at least 1 and
    an alignment that is a power of two. *)
Definition c_member (ref : Ref.Provider) (entry : string * Field.t) : Prop :=
  member_ok entry /\ pow2 (member_alignment ref (Field.type (snd entry))).

(** The final padding of [recalc] in the union module. *)
Definition padded (size alignment : Z) : Z :=
  if alignment =? 0 then size
  else
    let left := Z.rem size alignment in
    if left >? 0 then size + (alignment - left) else size.

(** Two entries that the second loop of [recalc] places alike: they have
    the same type and, unless they are bitfields, the same bit settings,
    which the loop then leaves as they are. *)
Definition alike (f f' : Field.t) : Prop :=
  Field.type f = Field.type f' /\
  (is_bitfield (Field.type f) \/
   (Field.bitStart f = Field.bitStart f' /\ Field.bits f = Field.bits f' /\
    Field.mask f = Field.mask f')).

Definition alike_tables (l l' : Fields.t) : Prop :=
  Forall2 (fun e e' => fst e = fst e' /\ alike (snd e) (snd e')) l l'.


(** * Properties *)

(** ** Bitfield declarations *)

(** C10: with the width omitted or zero, [Bitfield] builds a bitfield of
    width exactly 1 over the coerced type, and it fails for every type whose
    indirection is not 1, whatever the width. *)
Theorem Bitfield_default_width_and_pointer_rejection :
  forall ref type ty bits,
    Ref.coerceType ref type = Some ty ->
    (FieldType.indirection ty = 1 ->
     bits = None \/ bits = Some 0 ->
     exists bf,
       Bitfield.Bitfield ref type bits = inr bf /\
       FieldType.bits bf = 1 /\
       FieldType.type bf = FieldType.base ty /\
       FieldType.size bf = FieldType.size ty /\
       FieldType.alignment bf = FieldType.alignment ty) /\
    (FieldType.indirection ty <> 1 ->
     exists e, Bitfield.Bitfield ref type bits = inl e).
Proof.
  intros ref type ty bits Hc. unfold Bitfield.Bitfield. rewrite Hc. split.
  - intros Hi Hb. rewrite Hi. simpl.
    destruct Hb as [-> | ->]; eexists; repeat split.
  - intros Hi. destruct (Z.eqb_spec 1 (FieldType.indirection ty)) as [E | _].
    + congruence.
    + eexists; reflexivity.
Qed.

Lemma Bitfield_default_width_witness :
  (exists bf,
     Bitfield.Bitfield Ref.napi (Ref.TypeName "char") None = inr bf /\
     FieldType.bits bf = 1) /\
  (exists e,
     Bitfield.Bitfield Ref.napi
       (Ref.TypeObj (FieldType.plain (RefType.mk 8 8 2 false))) (Some 3) = inl e).
Proof.
  split.
  - destruct (Bitfield_default_width_and_pointer_rejection
                Ref.napi (Ref.TypeName "char") (FieldType.plain Ref.char) None
                eq_refl) as [H _].
    destruct (H eq_refl (or_introl eq_refl)) as (bf & Hb & Hbits & _).
    exists bf; split; assumption.
  - destruct (Bitfield_default_width_and_pointer_rejection
                Ref.napi (Ref.TypeObj (FieldType.plain (RefType.mk 8 8 2 false)))
                (FieldType.plain (RefType.mk 8 8 2 false)) (Some 3) eq_refl)
      as [_ H].
    apply H. discriminate.
Defined.

(** ** Field names *)

(** C9: on an open struct type, [defineProperty] accepts the names "ref" and
    "ref.buffer" like any other: the call returns normally, the field is in
    the table and it is laid out.  Nothing in [internalDefineProperty] looks
    at the name beyond its being a string. *)
Theorem reserved_names_are_accepted :
  (exists T, Examples.declare "ref" = inr T /\
             Examples.offset_of T "ref" = Some 0 /\ Struct.size T = 4) /\
  (exists T, Examples.declare "ref.buffer" = inr T /\
             Examples.offset_of T "ref.buffer" = Some 0 /\ Struct.size T = 4).
Proof.
  split.
  - destruct (Examples.declare "ref") as [e | T] eqn:E; vm_compute in E;
      inversion E; subst.
    eexists; split; [reflexivity | vm_compute; auto].
  - destruct (Examples.declare "ref.buffer") as [e | T] eqn:E; vm_compute in E;
      inversion E; subst.
    eexists; split; [reflexivity | vm_compute; auto].
Qed.

(** ** Failed declarations *)

Section Declarations.
Variable ref : Ref.Provider.

Lemma internalDefineProperty_failure :
  forall this name type e this',
    Struct.internalDefineProperty ref this name type = (Err e, this') ->
    this' = this /\ (e = SchemaFrozenError \/ e = InvalidTypeError).
Proof.
  intros this name type e this'. unfold Struct.internalDefineProperty.
  destruct (Ref.coerceType ref type) as [ty |].
  - destruct (Struct._instanceCreated this).
    + intros H; inversion H; auto.
    + destruct (negb _); intros H; inversion H; auto.
  - intros H; inversion H; auto.
Qed.

Lemma internalDefineProperty_frozen :
  forall this name type,
    Struct._instanceCreated this = true ->
    Struct.internalDefineProperty ref this name type =
      (Err (match Ref.coerceType ref type with
            | Some _ => SchemaFrozenError
            | None => InvalidTypeError
            end), this).
Proof.
  intros this name type H. unfold Struct.internalDefineProperty.
  destruct (Ref.coerceType ref type); [rewrite H |]; reflexivity.
Qed.

Lemma addType_loop_failure :
  forall n struct type e struct',
    Struct.addType_loop ref n struct type = (Err e, struct') ->
    e = UnalignedLayoutError.
Proof.
  induction n as [| n IH]; simpl; intros struct type e struct' H.
  - discriminate.
  - destruct (Struct.addType ref struct type) as [[o |] s1].
    + eapply IH; eassumption.
    + inversion H; reflexivity.
Qed.

Lemma place_failure :
  forall struct field e field' struct',
    Struct.place ref struct field = (Err e, field', struct') -> layout_error e.
Proof.
  unfold Struct.place, layout_error. intros struct field e field' struct'.
  destruct (FieldType.fixedLength (Field.type field)) as [n |].
  - destruct (Struct.addType ref _ _) as [[o |] s1].
    + destruct (Struct.addType_loop ref _ s1 _) as [r s2] eqn:E.
      intros H; inversion H; subst. apply addType_loop_failure in E. auto.
    + intros H; inversion H; auto.
  - destruct (negb (FieldType.bits (Field.type field) =? 0)).
    + unfold Struct.place_bitfield.
      destruct (negb (FieldType.bits _ <=? _)); [intros H; inversion H; auto |].
      match goal with |- context [if ?c then (Err NotANumber, _, _) else _] =>
        destruct c end; intros H; inversion H; auto.
    + destruct (Struct.addType ref _ _) as [[o |] s1]; intros H; inversion H; auto.
Qed.

Lemma place_all_failure :
  forall l struct e l' struct',
    Struct.place_all ref struct l = (Err e, l', struct') -> layout_error e.
Proof.
  induction l as [| [name field] rest IH]; simpl; intros struct e l' struct' H.
  - discriminate.
  - destruct (Struct.place ref struct field) as [[[| e1] f1] s1] eqn:E.
    + destruct (Struct.place_all ref s1 rest) as [[r l1] s2] eqn:E2.
      inversion H; subst. eapply IH; eassumption.
    + inversion H; subst. eapply place_failure; eassumption.
Qed.

Lemma recalc_failure :
  forall struct e struct',
    Struct.recalc ref struct = (Err e, struct') -> layout_error e.
Proof.
  unfold Struct.recalc. intros struct e struct'.
  destruct (Struct.place_all ref _ _) as [[r l] s1] eqn:E.
  destruct r as [| e1]; intros H; inversion H; subst.
  eapply place_all_failure; eassumption.
Qed.

(** C3, as amended: a [defineProperty] call that fails on one of the checks
    of [internalDefineProperty] (the type cannot be coerced, an instance
    exists already, a type that is no pointer has size 0) leaves the struct
    type exactly as it was. *)
Theorem failed_validation_leaves_schema_unchanged :
  forall this name type e this',
    Struct.defineProperty ref this name type = (Err e, this') ->
    e = SchemaFrozenError \/ e = InvalidTypeError ->
    this' = this.
Proof.
  intros this name type e this'. unfold Struct.defineProperty.
  destruct (Struct.internalDefineProperty ref this name type) as [[| e1] s1] eqn:E.
  - intros H He. apply recalc_failure in H.
    destruct H as [-> | [-> | ->]]; destruct He; discriminate.
  - intros H _. inversion H; subst.
    apply internalDefineProperty_failure in E. tauto.
Qed.

(** C4, as amended: once [new StructType(...)] has returned an instance,
    every [defineProperty] call and every [defineProperties] call with at
    least one entry fails and returns the struct type unchanged; the failure
    is the frozen-schema assertion whenever the (first) declared type can be
    coerced, and the error of [ref.coerceType], which runs first, when it
    cannot.  A [defineProperties] call without an entry reaches no
    assertion: it is a call of [recalc]. *)
Theorem instantiated_schema_is_frozen :
  forall T arg data this T',
    Struct.StructType T arg data = (inr this, T') ->
    (forall name type,
       exists e, Struct.defineProperty ref T' name type = (Err e, T') /\
                 (Ref.coerceType ref type <> None -> e = SchemaFrozenError) /\
                 (Ref.coerceType ref type = None -> e = InvalidTypeError)) /\
    (forall name type rest,
       exists e, Struct.defineProperties ref T' ((name, type) :: rest) = (Err e, T') /\
                 (Ref.coerceType ref type <> None -> e = SchemaFrozenError) /\
                 (Ref.coerceType ref type = None -> e = InvalidTypeError)) /\
    Struct.defineProperties ref T' [] = Struct.recalc ref T'.
Proof.
  intros T arg data this T' H.
  assert (Hf : Struct._instanceCreated T' = true).
  { unfold Struct.StructType in H.
    destruct (match arg with Some b => _ | None => _ end) as [e | store].
    - discriminate.
    - destruct (Struct.populate T _ data); inversion H; reflexivity. }
  split; [| split].
  - intros name type. unfold Struct.defineProperty.
    rewrite (internalDefineProperty_frozen T' name type Hf).
    eexists; split; [reflexivity |].
    destruct (Ref.coerceType ref type); split; congruence.
  - intros name type rest. unfold Struct.defineProperties. simpl.
    rewrite (internalDefineProperty_frozen T' name type Hf).
    eexists; split; [reflexivity |].
    destruct (Ref.coerceType ref type); split; congruence.
  - reflexivity.
Qed.

End Declarations.

Lemma failed_validation_witness :
  match Examples.two_members with
  | inl _ => False
  | inr T =>
      Struct.defineProperty Ref.napi T "c" (Ref.TypeName "float128") =
        (Err InvalidTypeError, T) /\
      snd (Struct.defineProperty Ref.napi T "c" (Ref.TypeName "float128")) = T
  end.
Proof.
  destruct Examples.two_members as [e | T] eqn:E; vm_compute in E;
    inversion E; subst.
  match goal with |- ?call = (_, ?T) /\ _ =>
    assert (H : call = (Err InvalidTypeError, T)) by reflexivity end.
  split; [exact H |].
  apply (failed_validation_leaves_schema_unchanged Ref.napi _ _ _ _ _ H).
  right; reflexivity.
Defined.

Lemma instantiated_schema_witness :
  match Examples.two_members with
  | inl _ => False
  | inr T =>
      exists this T',
        Struct.StructType T None [] = (inr this, T') /\
        Struct.defineProperty Ref.napi T' "c" (Ref.TypeName "int") =
          (Err SchemaFrozenError, T')
  end.
Proof.
  destruct Examples.two_members as [e | T] eqn:E; vm_compute in E;
    inversion E; subst.
  match goal with |- exists this T', ?call = _ /\ _ =>
    destruct call as [[e | this] T'] eqn:E1 end;
    [vm_compute in E1; discriminate |].
  exists this, T'. split; [reflexivity |].
  destruct (instantiated_schema_is_frozen Ref.napi _ _ _ _ _ E1) as [H _].
  destruct (H "c"%string (Ref.TypeName "int")) as (e & He & Hc & _).
  rewrite He. rewrite Hc; [reflexivity | discriminate].
Defined.

(** C4, as stated, fails: on a struct type that has an instance, a
    [defineProperty] call with a type name that the provider does not know
    fails with the error of [ref.coerceType], not with the frozen-schema
    assertion; and a [defineProperties] call without an entry does not fail
    at all: it runs [recalc], which here lays out a field left in the table
    by an earlier call that failed, and takes the size from 4 to 8. *)
Lemma instantiated_schema_still_changes :
  match Examples.instantiated with
  | inl _ => False
  | inr T =>
      Struct._instanceCreated T = true /\
      Struct.defineProperty Ref.napi T "d" (Ref.TypeName "float128") =
        (Err InvalidTypeError, T) /\
      exists T',
        Struct.defineProperties Ref.napi T [] = (Ok, T') /\
        Struct.size T = 4 /\ Struct.size T' = 8 /\
        Examples.offset_of T "b" = None /\ Examples.offset_of T' "b" = Some 4
  end.
Proof.
  destruct Examples.instantiated as [e | T] eqn:E; vm_compute in E;
    inversion E; subst.
  split; [reflexivity |]. split; [reflexivity |].
  eexists. split; [vm_compute; reflexivity |]. repeat split.
Qed.

(** C3, as stated, fails: declaring a 9-bit field over [char] on the struct
    of an [int64] and a [char] is rejected by [recalc], after the field was
    stored and the size reset: the table has the new field and the size went
    from 16 to 9. *)
Lemma failed_relayout_changes_schema :
  match Examples.two_members with
  | inl _ => False
  | inr T =>
      exists e T',
        Struct.defineProperty Ref.napi T "x" Examples.char_9 = (Err e, T') /\
        T' <> T /\
        Struct.size T = 16 /\ Struct.size T' = 9 /\
        Fields.get "x" (Struct.fields T) = None /\
        Fields.get "x" (Struct.fields T') <> None
  end.
Proof.
  destruct Examples.two_members as [e | T] eqn:E; vm_compute in E;
    inversion E; subst.
  destruct (Struct.defineProperty Ref.napi _ "x" Examples.char_9) as [r T'] eqn:E';
    vm_compute in E'; inversion E'; subst.
  do 2 eexists; split; [reflexivity |].
  repeat split; try discriminate.
Qed.

(** ** The example of the README *)

(** C2, as stated, fails: in the layout of the README struct d and e do not
    share a storage unit (7 + 2 bits exceed the 8 of a [char]), nor do j and
    k, so the grouping that the scenario describes is not the computed one. *)
Lemma README_grouping_differs :
  match Examples.README_S with
  | inl _ => False
  | inr T => ~ Examples.scenario_as_described T
  end.
Proof.
  destruct Examples.README_S as [e | T] eqn:E; vm_compute in E;
    inversion E; subst.
  unfold Examples.scenario_as_described. vm_compute.
  intros (_ & _ & H & _). discriminate.
Qed.

(** C2, as amended: the README struct is laid out with a, b, c in the unit
    at offset 0, d alone at 8, e and f at 9, g at 12, the plain h at 16, i
    and j in the unit at 24 and k alone at 32; its size is 40 and its
    alignment 8. *)
Theorem README_layout :
  exists T,
    Examples.README_S = inr T /\
    map (fun name => (Examples.offset_of T name, Examples.bitStart_of T name))
        ["a"; "b"; "c"; "d"; "e"; "f"; "g"; "h"; "i"; "j"; "k"]%string =
      [(Some 0, Some 0); (Some 0, Some 7); (Some 0, Some 9);
       (Some 8, Some 0); (Some 9, Some 0); (Some 9, Some 2);
       (Some 12, Some 0); (Some 16, None);
       (Some 24, Some 0); (Some 24, Some 2); (Some 32, Some 0)] /\
    Struct.size T = 40 /\
    Struct.alignment T = 8.
Proof.
  destruct Examples.README_S as [e | T] eqn:E; vm_compute in E;
    inversion E; subst.
  eexists; split; [reflexivity |]. vm_compute. auto.
Qed.

(** ** Bitfield groups *)

(** C5, as stated, fails: a 2-bit field over [uint64] followed by a 62-bit
    field over [int64], a different declared type of the same size and
    alignment, are placed in one storage unit, the second at bit 2. *)
Lemma same_size_type_change_keeps_group :
  match Examples.mixed_sign with
  | inl _ => False
  | inr T =>
      (exists fi fj,
         Fields.get "i" (Struct.fields T) = Some fi /\
         Fields.get "j" (Struct.fields T) = Some fj /\
         FieldType.type (Field.type fi) <> FieldType.type (Field.type fj)) /\
      Examples.offset_of T "i" = Some 0 /\
      Examples.offset_of T "j" = Some 0 /\
      Examples.bitStart_of T "j" = Some 2 /\
      Struct.size T = 8
  end.
Proof.
  destruct Examples.mixed_sign as [e | T] eqn:E; vm_compute in E;
    inversion E; subst.
  split; [| vm_compute; auto].
  do 2 eexists. split; [reflexivity |]. split; [reflexivity |].
  vm_compute. discriminate.
Qed.

(** ** Accessors *)

(** C1 fails on the code: on a fresh instance of a struct with one 2-bit
    field over an unsigned byte, writing 3 and then 0 reads back 3, and
    writing 1 and then 2 reads back 3: the setter ORs the new bits into the
    stored ones without clearing the field first. *)
Theorem second_write_is_ored :
  Examples.written_twice 3 0 = Some 3 /\
  Examples.written_twice 1 2 = Some 3 /\
  Examples.written_twice 0 2 = Some 2.
Proof. vm_compute. auto. Qed.

(** ** Unions *)

Lemma union_fold :
  forall ref l a b,
    Forall member_ok l -> 0 <= a -> 0 <= b ->
    fold_left (Union.member_step ref) l (a, b) =
      (Z.max a (largest (member_size ref) l),
       Z.max b (largest (member_alignment ref) l)).
Proof.
  intros ref l. induction l as [| [name field] rest IH]; simpl;
    intros a b H Ha0 Hb0.
  - f_equal; lia.
  - inversion H as [| x xs [Hi Ha] Hrest]; subst. simpl in Hi, Ha.
    unfold Union.member_step at 2. simpl. rewrite IH by (assumption || lia).
    unfold member_size, member_alignment.
    destruct (Z.eqb_spec (FieldType.indirection (Field.type field)) 1) as [E | E];
      destruct (Z.gtb_spec (FieldType.indirection (Field.type field)) 1);
      destruct (Z.eqb_spec (FieldType.alignment (Field.type field)) 0);
      try lia; f_equal; symmetry; apply Z.max_assoc.
Qed.

Lemma largest_nonneg : forall f l, 0 <= largest f l.
Proof.
  intros f l. induction l as [| x rest IH]; simpl; [lia |].
  apply Z.le_trans with (largest f rest); [assumption | apply Z.le_max_r].
Qed.



(** ** Reads and writes of a storage unit *)

Lemma asIntN_mod :
  forall w x, 0 <= w -> Ref.asIntN w x mod 2 ^ w = x mod 2 ^ w.
Proof.
  intros w x Hw. unfold Ref.asIntN.
  destruct (Z.testbit (x mod 2 ^ w) (w - 1)).
  - replace (x mod 2 ^ w - 2 ^ w) with (x mod 2 ^ w + (-1) * 2 ^ w) by lia.
    rewrite Z.mod_add by (apply Z.pow_nonzero; lia).
    apply Z.mod_mod. apply Z.pow_nonzero; lia.
  - apply Z.mod_mod. apply Z.pow_nonzero; lia.
Qed.

Lemma asIntN_low_bits :
  forall w x k, 0 <= k < w -> Z.testbit (Ref.asIntN w x) k = Z.testbit x k.
Proof.
  intros w x k Hk.
  rewrite <- (Z.mod_pow2_bits_low (Ref.asIntN w x) w k) by lia.
  rewrite asIntN_mod by lia. apply Z.mod_pow2_bits_low. lia.
Qed.

Lemma mask_loop_ones :
  forall n m,
    Struct.mask_loop n m = Z.lor (Z.shiftl m (Z.of_nat n)) (Z.ones (Z.of_nat n)).
Proof.
  induction n as [| n IH]; intros m.
  - cbn [Struct.mask_loop]. change (Z.of_nat 0) with 0.
    rewrite Z.shiftl_0_r. change (Z.ones 0) with 0. rewrite Z.lor_0_r. reflexivity.
  - cbn [Struct.mask_loop]. rewrite IH. rewrite Nat2Z.inj_succ.
    Z.bitblast.
    + replace l0 with 0 by lia. change (Z.testbit 1 0) with true.
      destruct (Z.testbit m l1); reflexivity.
    + rewrite (Z.bits_above_log2 1 l0) by (simpl; lia).
      destruct (Z.testbit m l1); reflexivity.
Qed.

Lemma mask_is_ones :
  forall bits, 0 <= bits -> Struct.mask_loop (Z.to_nat bits) 0 = Z.ones bits.
Proof.
  intros bits H. rewrite mask_loop_ones. rewrite Z2Nat.id by assumption.
  rewrite Z.shiftl_0_l. apply Z.lor_0_l.
Qed.

Lemma get_stored :
  forall buffer offset type x,
    Ref.get buffer offset type = Some x ->
    x = decode type (stored buffer offset (RefType.size type)).
Proof.
  intros buffer offset type x. unfold Ref.get.
  destruct (_ && _); [| discriminate]. intros H; inversion H; reflexivity.
Qed.

Lemma get_after_write :
  forall buffer offset value type buffer' type',
    Ref.write buffer offset value type = Some buffer' ->
    RefType.size type' = RefType.size type ->
    Ref.get buffer' offset type' =
      Some (decode type' (value mod 2 ^ (8 * RefType.size type))).
Proof.
  intros buffer offset value type buffer' type' H Hsize. unfold Ref.write in H.
  destruct (_ && _) eqn:E; [| discriminate]. inversion H; subst; clear H.
  apply andb_prop in E. destruct E as [E E3]. apply andb_prop in E.
  destruct E as [E1 E2]. apply Z.leb_le in E1, E2, E3.
  unfold Ref.get. rewrite Hsize.
  set (n := RefType.size type) in *.
  assert (Hlen1 : List.length (firstn (Z.to_nat offset) buffer) = Z.to_nat offset).
  { apply firstn_length_le. lia. }
  assert (Hlen : List.length
            (firstn (Z.to_nat offset) buffer ++ le_split (Z.to_nat n) value
             ++ skipn (Z.to_nat (offset + n)) buffer) = List.length buffer).
  { rewrite !length_app, Hlen1, length_le_split, length_skipn. lia. }
  rewrite Hlen.
  replace ((0 <=? offset) && (0 <=? n) && (offset + n <=? Z.of_nat (List.length buffer)))
    with true
    by (symmetry; rewrite !andb_true_iff; repeat split; apply Z.leb_le; lia).
  f_equal. unfold decode. rewrite Hsize. fold n.
  assert (Hraw : le_combine
            (firstn (Z.to_nat n)
               (skipn (Z.to_nat offset)
                  (firstn (Z.to_nat offset) buffer ++ le_split (Z.to_nat n) value
                   ++ skipn (Z.to_nat (offset + n)) buffer))) =
          value mod 2 ^ (8 * n)).
  { rewrite skipn_app, Hlen1, Nat.sub_diag. simpl skipn at 2.
    rewrite skipn_all2 by lia. simpl app.
    rewrite firstn_app, length_le_split, Nat.sub_diag. simpl firstn at 2.
    rewrite app_nil_r, firstn_all2 by (rewrite length_le_split; lia).
    rewrite le_combine_split. f_equal. f_equal. lia. }
  rewrite Hraw. reflexivity.
Qed.

Lemma decode_low_bits :
  forall type u k,
    0 <= k < 8 * RefType.size type ->
    Z.testbit (decode type u) k = Z.testbit u k.
Proof.
  intros type u k Hk. unfold decode.
  destruct (RefType.signed type); [apply asIntN_low_bits; assumption | reflexivity].
Qed.

Lemma get_other_type :
  forall buffer offset type x type',
    Ref.get buffer offset type = Some x ->
    RefType.size type' = RefType.size type ->
    Ref.get buffer offset type' =
      Some (decode type' (stored buffer offset (RefType.size type))).
Proof.
  intros buffer offset type x type' H Hsize. unfold Ref.get in *.
  rewrite Hsize. destruct (_ && _); [| discriminate].
  unfold decode, stored. rewrite Hsize. reflexivity.
Qed.

(** A write of the bitfield setter that the provider accepts stores the
    value it was given. *)
Lemma unit_write :
  forall buffer offset val type buffer',
    (if RefType.size type <=? 4
     then Ref.set buffer offset val type
     else Ref.set_string buffer offset val type) = Some buffer' ->
    Ref.write buffer offset val type = Some buffer'.
Proof.
  intros buffer offset val type buffer'. unfold Ref.set, Ref.set_string.
  destruct (RefType.size type <=? 4).
  - destruct (Ref.holds type val); [auto | discriminate].
  - destruct (if RefType.signed type then _ else _); [auto | discriminate].
Qed.

(** The bits of one field, as [desc.get] extracts them, after a write to a
    field that occupies other bits of the same unit. *)
Lemma field_bits_unchanged :
  forall tA tB u value sgn bA wA bB wB n,
    RefType.size tA = n -> RefType.size tB = n ->
    0 <= bA -> 0 <= wA -> bA + wA <= 8 * n ->
    0 <= bB -> 0 <= wB -> bB + wB <= 8 * n ->
    bA + wA <= bB \/ bB + wB <= bA ->
    let val := Z.lor (decode tA u) (Z.shiftl (Z.land value (Z.ones wA)) bA) in
    let val := if sgn : bool then Ref.asIntN (8 * n) val else val in
    Z.land (Z.shiftr (decode tB (val mod 2 ^ (8 * n))) bB) (Z.ones wB) =
    Z.land (Z.shiftr (decode tB u) bB) (Z.ones wB).
Proof.
  intros tA tB u value sgn bA wA bB wB n HA HB HbA HwA HfA HbB HwB HfB Hd.
  cbv zeta. apply Z.bits_inj'. intros k Hk.
  rewrite !Z.land_spec, !Z.shiftr_spec by assumption.
  rewrite Z.testbit_ones_nonneg by assumption.
  destruct (Z.ltb_spec k wB) as [Hlt | Hge]; [| rewrite !andb_false_r; reflexivity].
  rewrite !andb_true_r.
  rewrite !decode_low_bits by lia.
  rewrite Z.mod_pow2_bits_low by lia.
  assert (Hlow : forall x, Z.testbit (if sgn then Ref.asIntN (8 * n) x else x) (k + bB)
                           = Z.testbit x (k + bB)).
  { intros x. destruct sgn; [apply asIntN_low_bits; lia | reflexivity]. }
  rewrite Hlow. rewrite Z.lor_spec, decode_low_bits by lia.
  rewrite Z.shiftl_spec by lia. rewrite Z.land_spec.
  destruct (Z.ltb_spec (k + bB - bA) 0) as [Hneg | Hpos].
  - rewrite (Z.testbit_neg_r value) by assumption. simpl. apply orb_false_r.
  - rewrite Z.testbit_ones_nonneg by assumption.
    destruct (Z.ltb_spec (k + bB - bA) wA); [lia |].
    rewrite andb_false_r. apply orb_false_r.
Qed.

Lemma bitfield_frame :
  forall buffer fA fB value buffer' o bA bB wA wB n,
    Field.offset fA = Some o -> Field.offset fB = Some o ->
    Field.bitStart fA = Some bA -> Field.bitStart fB = Some bB ->
    Field.mask fA = Some (Z.ones wA) -> Field.mask fB = Some (Z.ones wB) ->
    RefType.size (FieldType.type (Field.type fA)) = n ->
    RefType.size (FieldType.type (Field.type fB)) = n ->
    0 <= bA -> 0 <= wA -> bA + wA <= 8 * n ->
    0 <= bB -> 0 <= wB -> bB + wB <= 8 * n ->
    bA + wA <= bB \/ bB + wB <= bA ->
    Struct.bitfield_set buffer fA value = Some buffer' ->
    Struct.bitfield_get buffer' fB = Struct.bitfield_get buffer fB.
Proof.
  intros buffer fA fB value buffer' o bA bB wA wB n HoA HoB HsA HsB HmA HmB HnA HnB
    HbA HwA HfA HbB HwB HfB Hd H.
  unfold Struct.bitfield_set in H. rewrite HoA, HsA, HmA in H.
  destruct (Ref.get buffer o (FieldType.type (Field.type fA))) as [val |] eqn:Eg;
    [| discriminate].
  destruct (Struct.isSignedInteger (FieldType.type (Field.type fA))) as [sgn |];
    [| discriminate].
  unfold Struct.bitfield_get. rewrite HoB, HsB, HmB.
  destruct (Field.bits fB) as [bits |]; [| reflexivity].
  apply unit_write in H.
  rewrite (get_after_write _ _ _ _ _ (FieldType.type (Field.type fB)) H)
    by congruence.
  rewrite (get_other_type _ _ _ _ (FieldType.type (Field.type fB)) Eg)
    by congruence.
  apply get_stored in Eg. subst val. rewrite HnA in *.
  rewrite (field_bits_unchanged (FieldType.type (Field.type fA))
             (FieldType.type (Field.type fB))
             (stored buffer o n) value sgn bA wA bB wB n); try assumption.
  reflexivity.
Qed.

(** ** The second loop of [recalc] *)

#[local] Arguments Z.mul : simpl never.
#[local] Arguments Z.add : simpl never.
#[local] Arguments Z.sub : simpl never.
#[local] Arguments Z.rem : simpl never.
#[local] Arguments Z.modulo : simpl never.
#[local] Arguments Z.gtb : simpl never.
#[local] Arguments Z.leb : simpl never.
#[local] Arguments Z.eqb : simpl never.
#[local] Arguments Z.to_nat : simpl never.
#[local] Arguments Z.pow : simpl never.

Ltac struct_simpl :=
  unfold Struct.clearBitfieldSettings, Struct.set_size, Struct.set_currBits,
    Struct.set_lastBitfieldType, Struct.set_lastBitfieldOffset,
    Struct.set_alignment, Struct.set_fields in *;
  simpl in *.

Section Layout.
Variable ref : Ref.Provider.

Lemma padding_bounds :
  forall size align,
    0 < align ->
    0 <= Z.rem (align - Z.rem size align) align < align.
Proof.
  intros size align H.
  pose proof (Z.rem_bound_abs size align ltac:(lia)) as Hb.
  assert (0 < align - Z.rem size align) by lia.
  rewrite Z.rem_mod_nonneg by lia.
  apply Z.mod_pos_bound; lia.
Qed.

Lemma padding_aligns :
  forall size align,
    0 <= size -> 0 < align ->
    (size + Z.rem (align - Z.rem size align) align) mod align = 0.
Proof.
  intros size align Hs H.
  rewrite (Z.rem_mod_nonneg size align) by lia.
  pose proof (Z.mod_pos_bound size align H) as Hb.
  rewrite Z.rem_mod_nonneg by lia.
  rewrite Zplus_mod_idemp_r.
  replace (size + (align - size mod align)) with (size - size mod align + 1 * align) by lia.
  rewrite Z.mod_add by lia.
  rewrite Zminus_mod_idemp_r, Z.sub_diag. apply Z.mod_0_l. lia.
Qed.

(** What [place_bitfield] does, case by case. *)
Lemma place_bitfield_spec :
  forall s field r g s',
    Struct.place_bitfield s field = (r, g, s') ->
    let type := Field.type field in
    group_ok s -> well_formed ref type -> FieldType.bits type <> 0 ->
    FieldType.fixedLength type = None ->
    r = Ok ->
    exists o b,
      g = Field.mk type (Some o) (Some b) (Some (FieldType.bits type))
            (Some (Struct.mask_loop (Z.to_nat (FieldType.bits type)) 0)) /\
      Struct.lastBitfieldType s' = Some type /\
      Struct.lastBitfieldOffset s' = Some o /\
      Struct.currBits s' = b + FieldType.bits type /\
      o + FieldType.size type = Struct.size s' /\
      Struct.size s <= Struct.size s' /\
      0 <= o /\ 0 <= b /\
      FieldType.bits type <= 8 * FieldType.size type /\
      b + FieldType.bits type <= 8 * FieldType.size type /\
      (starts_group s type ->
       b = 0 /\ Struct.size s <= o /\
       (type_changes s type -> Struct.isPacked s = false ->
        o mod FieldType.alignment type = 0)) /\
      (~ starts_group s type ->
       Struct.lastBitfieldOffset s = Some o /\ b = Struct.currBits s /\
       Struct.size s' = Struct.size s).
Proof.
  intros s field r g s' H type [Hsz Hg] Hwf Hbits Hfl ->.
  unfold well_formed in Hwf. fold type in Hwf. rewrite Hfl in Hwf.
  destruct (Z.eqb_spec (FieldType.bits type) 0) as [| _]; [contradiction |].
  destruct Hwf as (Hb & Hs & Ha & Hty).
  unfold Struct.place_bitfield in H. fold type in H.
  unfold starts_group, type_changes.
  destruct s as [fl sz al cb lt lo pk ic]. simpl in *.
  destruct (Z.leb_spec (FieldType.bits type) (FieldType.size type * 8)) as [Hle | Hle];
    simpl in H; [| discriminate].
  pose proof (padding_bounds sz (FieldType.alignment type) Ha) as Hp1.
  pose proof (padding_aligns sz (FieldType.alignment type) Hsz Ha) as Hp2.
  destruct (Z.eqb_spec (FieldType.alignment type) 0) as [| _]; [lia |].
  rewrite !andb_false_r in H.
  destruct lt as [last |].
  - destruct Hg as (o0 & Ho0 & Ho0n & Hunit & Hcb). subst lo.
    destruct (Z.eqb_spec (FieldType.size last) (FieldType.size type)) as [E1 | E1];
      destruct (Z.eqb_spec (FieldType.alignment last) (FieldType.alignment type))
        as [E2 | E2];
      destruct (Z.gtb_spec (cb + FieldType.bits type) (8 * FieldType.size type))
        as [E3 | E3];
      destruct pk; simpl in H; inversion H; subst; clear H; simpl;
      do 2 eexists; (split; [reflexivity |]);
      do 9 (split; [first [reflexivity | lia] |]);
      (split; [intros; repeat split; try lia; try (intros; congruence); auto
              | intros Hn; try (exfalso; apply Hn; lia);
                repeat split; try lia; try reflexivity]).
  - clear Hg. simpl in H.
    destruct pk; simpl in H; inversion H; subst; clear H; simpl;
      do 2 eexists; (split; [reflexivity |]);
      do 9 (split; [first [reflexivity | lia] |]);
      (split; [intros; repeat split; try lia; try (intros; congruence); auto
              | intros Hn; exfalso; apply Hn; exact I]).
Qed.

(** [addType] on a type of positive size and alignment: it cannot fail, and
    the offset it returns is past the current size and, unless the struct is
    packed, a multiple of the alignment. *)
Lemma addType_spec :
  forall s type,
    0 <= Struct.size s ->
    0 < natural_size ref type -> 0 < natural_alignment ref type ->
    exists o,
      Struct.addType ref s type =
        (Some o, Struct.set_size s (o + natural_size ref type)) /\
      Struct.size s <= o /\
      (Struct.isPacked s = true -> o = Struct.size s) /\
      (Struct.isPacked s = false -> o mod natural_alignment ref type = 0).
Proof.
  intros s type Hs Hn Ha. unfold Struct.addType.
  unfold natural_size, natural_alignment in *.
  set (align := if RefType.indirection type =? 1 then RefType.alignment type
                else Ref.alignof_pointer ref) in *.
  set (size := if RefType.indirection type =? 1 then RefType.size type
               else Ref.sizeof_pointer ref) in *.
  destruct (Struct.isPacked s).
  - eexists; split; [reflexivity |]. repeat split; try lia; discriminate.
  - destruct (Z.eqb_spec align 0) as [| _]; [lia |].
    pose proof (padding_bounds (Struct.size s) align Ha) as Hp1.
    pose proof (padding_aligns (Struct.size s) align Hs Ha) as Hp2.
    rewrite (Z.rem_mod_nonneg (Struct.size s + _) align) by lia.
    rewrite Hp2. simpl.
    eexists; split; [reflexivity |]. repeat split; try lia; try discriminate.
Qed.

Lemma addType_loop_spec :
  forall n s type,
    0 <= Struct.size s ->
    0 < natural_size ref type -> 0 < natural_alignment ref type ->
    exists size',
      Struct.addType_loop ref n s type = (Ok, Struct.set_size s size') /\
      Struct.size s <= size'.
Proof.
  induction n as [| n IH]; intros s type Hs Hn Ha; simpl.
  - exists (Struct.size s). split; [destruct s; reflexivity | lia].
  - destruct (addType_spec s type Hs Hn Ha) as (o & -> & Ho & _).
    destruct (IH (Struct.set_size s (o + natural_size ref type)) type)
      as (size' & -> & Hsize'); try assumption.
    + struct_simpl; lia.
    + exists size'. split; [destruct s; reflexivity | struct_simpl; lia].
Qed.

(** A field that is no bitfield closes the open group and moves the size
    forward; its entry only gets an offset. *)
Lemma place_plain_spec :
  forall s field,
    0 <= Struct.size s ->
    well_formed ref (Field.type field) ->
    ~ is_bitfield (Field.type field) ->
    exists o size',
      Struct.place ref s field =
        (Ok, Struct.with_offset field o,
         Struct.set_size (Struct.clearBitfieldSettings s) size') /\
      Struct.size s <= o /\ o < size'.
Proof.
  intros s field Hs Hwf Hnb. unfold Struct.place, well_formed, is_bitfield in *.
  destruct (FieldType.fixedLength (Field.type field)) as [n |].
  - destruct Hwf as (Hb & Hn & Ha). rewrite Hb. simpl.
    destruct (addType_spec (Struct.clearBitfieldSettings s) _ Hs Hn Ha)
      as (o & -> & Ho & _).
    destruct (addType_loop_spec (Z.to_nat (n - 1))
                (Struct.set_size (Struct.clearBitfieldSettings s)
                   (o + natural_size ref (FieldType.type (Field.type field))))
                (FieldType.type (Field.type field)))
      as (size' & -> & Hsize'); try assumption.
    + struct_simpl; lia.
    + exists o, size'. split; [reflexivity |]. struct_simpl. lia.
  - destruct (Z.eqb_spec (FieldType.bits (Field.type field)) 0) as [E | E].
    + simpl. destruct Hwf as (Hn & Ha).
      destruct (addType_spec (Struct.clearBitfieldSettings s) _ Hs Hn Ha)
        as (o & -> & Ho & _).
      do 2 eexists. split; [reflexivity |]. struct_simpl. lia.
    + exfalso. apply Hnb. split; [reflexivity | assumption].
Qed.

Lemma is_bitfield_dec :
  forall type, is_bitfield type \/ ~ is_bitfield type.
Proof.
  intros type. unfold is_bitfield.
  destruct (FieldType.fixedLength type);
    destruct (Z.eq_dec (FieldType.bits type) 0); intuition congruence.
Qed.

Lemma place_bitfield_branch :
  forall s field,
    is_bitfield (Field.type field) ->
    Struct.place ref s field = Struct.place_bitfield s field.
Proof.
  intros s field [Hfl Hb]. unfold Struct.place. rewrite Hfl.
  destruct (Z.eqb_spec (FieldType.bits (Field.type field)) 0); [contradiction |].
  reflexivity.
Qed.

(** Every step of the second loop keeps [group_ok], the type of the entry
    and never moves the size back. *)
Lemma place_group_ok :
  forall s field r g s',
    Struct.place ref s field = (r, g, s') ->
    group_ok s -> well_formed ref (Field.type field) ->
    r = Ok ->
    group_ok s' /\ Struct.size s <= Struct.size s' /\
    Field.type g = Field.type field.
Proof.
  intros s field r g s' H Hg Hwf ->.
  destruct (is_bitfield_dec (Field.type field)) as [Hb | Hb].
  - rewrite (place_bitfield_branch s field Hb) in H.
    destruct Hb as [Hfl Hbits].
    destruct (place_bitfield_spec s field Ok g s' H Hg Hwf Hbits Hfl eq_refl)
      as (o & b & -> & Hl & Hlo & Hcb & Hunit & Hmono & Ho & Hb0 & Hfit & Hfit' & _).
    split; [| split; [assumption | reflexivity]].
    unfold group_ok. rewrite Hl. split; [destruct Hg; lia |].
    exists o. repeat split; try assumption; try lia.
    unfold well_formed in Hwf. rewrite Hfl in Hwf.
    destruct (Z.eqb_spec (FieldType.bits (Field.type field)) 0); [contradiction |].
    lia.
  - destruct Hg as [Hs _].
    destruct (place_plain_spec s field Hs Hwf Hb) as (o & size' & E & Ho & Hsize').
    rewrite E in H. inversion H; subst.
    split; [| split; [struct_simpl; lia | reflexivity]].
    unfold group_ok. struct_simpl. split; [lia | exact I].
Qed.

Lemma addType_packed :
  forall s type o s',
    Struct.addType ref s type = (o, s') ->
    Struct.isPacked s' = Struct.isPacked s.
Proof.
  intros s type o s'. unfold Struct.addType.
  destruct (Struct.isPacked s) eqn:E.
  - intros H; inversion H; subst. destruct s; simpl in *; assumption.
  - destruct (_ =? 0); [intros H; inversion H; subst; assumption |].
    destruct (_ =? 0); intros H; inversion H; subst; try assumption.
Qed.

Lemma addType_loop_packed :
  forall n s type r s',
    Struct.addType_loop ref n s type = (r, s') ->
    Struct.isPacked s' = Struct.isPacked s.
Proof.
  induction n as [| n IH]; simpl; intros s type r s' H.
  - inversion H; reflexivity.
  - destruct (Struct.addType ref s type) as [[o |] s1] eqn:E.
    + apply IH in H. rewrite H. eapply addType_packed; eassumption.
    + inversion H; subst. eapply addType_packed; eassumption.
Qed.

Lemma place_packed :
  forall s field r g s',
    Struct.place ref s field = (r, g, s') ->
    Struct.isPacked s' = Struct.isPacked s.
Proof.
  intros s field r g s'. unfold Struct.place.
  set (s0 := if FieldType.bits (Field.type field) =? 0
             then Struct.clearBitfieldSettings s else s).
  assert (H0 : Struct.isPacked s0 = Struct.isPacked s).
  { unfold s0. destruct (_ =? 0); [destruct s |]; reflexivity. }
  rewrite <- H0. clearbody s0.
  destruct (FieldType.fixedLength (Field.type field)).
  - destruct (Struct.addType ref s0 _) as [[o |] s1] eqn:E.
    + destruct (Struct.addType_loop ref _ s1 _) as [r1 s2] eqn:E2.
      intros H; inversion H; subst.
      apply addType_loop_packed in E2. apply addType_packed in E. congruence.
    + intros H; inversion H; subst. eapply addType_packed; eassumption.
  - destruct (negb _).
    + unfold Struct.place_bitfield. destruct s0 as [fl sz al cb lt lo pk ic].
      simpl.
      repeat match goal with
             | |- context [if ?c then _ else _] => destruct c; simpl
             end;
        intros H; inversion H; reflexivity.
    + destruct (Struct.addType ref s0 _) as [[o |] s1] eqn:E;
        intros H; inversion H; subst; eapply addType_packed; eassumption.
Qed.

(** Two neighbours of the table are placed by two successive steps of the
    loop, the first from a state that satisfies [group_ok]. *)
Lemma place_all_neighbours :
  forall l s l' s' i n1 f1 n2 f2,
    Struct.place_all ref s l = (Ok, l', s') ->
    group_ok s -> well_formed_fields ref l ->
    nth_error l i = Some (n1, f1) ->
    nth_error l (S i) = Some (n2, f2) ->
    exists s1 g1 s2 g2 s3,
      group_ok s1 /\ Struct.isPacked s1 = Struct.isPacked s /\
      Struct.place ref s1 f1 = (Ok, g1, s2) /\
      Struct.place ref s2 f2 = (Ok, g2, s3) /\
      nth_error l' i = Some (n1, g1) /\
      nth_error l' (S i) = Some (n2, g2).
Proof.
  induction l as [| [name field] rest IH]; intros s l' s' i n1 f1 n2 f2 H Hg Hwf H1 H2.
  - destruct i; discriminate.
  - simpl in H.
    destruct (Struct.place ref s field) as [[[| e] g] s1] eqn:E; [| discriminate].
    destruct (Struct.place_all ref s1 rest) as [[r rest'] s2] eqn:E2.
    inversion H; subst; clear H.
    inversion Hwf as [| x xs Hwf1 Hwf2]; subst. simpl in Hwf1.
    destruct (place_group_ok s field Ok g s1 E Hg Hwf1 eq_refl) as (Hg1 & _ & _).
    destruct i as [| i].
    + simpl in H1. inversion H1; subst; clear H1.
      destruct rest as [| [name2 field2] rest2]; [discriminate |].
      simpl in H2. inversion H2; subst; clear H2.
      simpl in E2.
      destruct (Struct.place ref s1 f2) as [[[| e] g2] s3] eqn:E3; [| discriminate].
      destruct (Struct.place_all ref s3 rest2) as [[r3 rest3] s4].
      inversion E2; subst.
      exists s, g, s1, g2, s3.
      split; [exact Hg |]. do 4 (split; [first [assumption | reflexivity] |]).
      reflexivity.
    + simpl in H1, H2.
      destruct (IH s1 rest' s' i n1 f1 n2 f2 E2 Hg1 Hwf2 H1 H2)
        as (sa & ga & sb & gb & sc & Ha & Hp & Hb & Hc & Hd & He).
      exists sa, ga, sb, gb, sc.
      split; [exact Ha |].
      split; [rewrite Hp; eapply place_packed; eassumption |].
      do 3 (split; [assumption |]). assumption.
Qed.

Lemma alignment_step_frame :
  forall l s,
    let s' := fold_left (Struct.alignment_step ref) l s in
    Struct.size s' = Struct.size s /\
    Struct.currBits s' = Struct.currBits s /\
    Struct.lastBitfieldType s' = Struct.lastBitfieldType s /\
    Struct.isPacked s' = Struct.isPacked s /\
    Struct.fields s' = Struct.fields s.
Proof.
  induction l as [| entry rest IH]; intros s; simpl.
  - repeat split.
  - destruct (IH (Struct.alignment_step ref s entry)) as (H1 & H2 & H3 & H4 & H5).
    rewrite H1, H2, H3, H4, H5. unfold Struct.alignment_step.
    destruct s as [fl sz al cb lt lo pk ic]; simpl.
    destruct pk; simpl; repeat split.
Qed.

Lemma before_placing_ok :
  forall s,
    group_ok (before_placing ref s) /\
    Struct.size (before_placing ref s) = 0 /\
    Struct.isPacked (before_placing ref s) = Struct.isPacked s /\
    Struct.fields (before_placing ref s) = Struct.fields s.
Proof.
  intros s. unfold before_placing.
  match goal with |- context [fold_left _ ?l ?s0] =>
    destruct (alignment_step_frame l s0) as (H1 & H2 & H3 & H4 & H5) end.
  unfold group_ok. rewrite H1, H3, H4, H5. destruct s; simpl.
  repeat split; lia.
Qed.

Lemma recalc_Ok :
  forall s s',
    Struct.recalc ref s = (Ok, s') ->
    exists l' s1,
      Struct.place_all ref (before_placing ref s) (Struct.fields s) = (Ok, l', s1) /\
      s' = Struct.addFinalPadding (Struct.set_fields s1 l').
Proof.
  intros s s'. unfold Struct.recalc. cbv zeta. fold (before_placing ref s).
  destruct (before_placing_ok s) as (_ & _ & _ & Hf). rewrite Hf.
  destruct (Struct.place_all ref (before_placing ref s) (Struct.fields s))
    as [[[| e] l'] s1]; intros H; inversion H; subst.
  do 2 eexists; split; reflexivity.
Qed.

Lemma addFinalPadding_fields :
  forall s, Struct.fields (Struct.addFinalPadding s) = Struct.fields s.
Proof.
  intros s. unfold Struct.addFinalPadding.
  destruct (_ =? 0); [reflexivity |]. destruct (_ >? 0); destruct s; reflexivity.
Qed.
End Layout.

Section Separation.
Variable ref : Ref.Provider.

Lemma starts_group_dec :
  forall s type, starts_group s type \/ ~ starts_group s type.
Proof.
  intros s type. unfold starts_group.
  destruct (Struct.lastBitfieldType s) as [last |]; [| left; exact I].
  destruct (Z.eq_dec (FieldType.size last) (FieldType.size type));
    destruct (Z.eq_dec (FieldType.alignment last) (FieldType.alignment type));
    destruct (Z_gt_dec (Struct.currBits s + FieldType.bits type)
                       (8 * FieldType.size type));
    tauto.
Qed.

Lemma compatible_sym :
  forall g1 g2, compatible g1 g2 -> compatible g2 g1.
Proof.
  intros g1 g2 H B2 B1 o O2 O1.
  destruct (H B1 B2 o O1 O2) as (b1 & b2 & S1 & S2 & Hs & Hd).
  exists b2, b1. repeat split; try assumption; [congruence | tauto].
Qed.

Lemma separated_snoc :
  forall l x,
    separated l ->
    Forall (fun e => compatible (snd e) (snd x)) l ->
    separated (l ++ [x]).
Proof.
  unfold separated. induction l as [| y l IH]; intros x Hl Hx; simpl.
  - constructor; constructor.
  - inversion Hl as [| y' l' Hy Hl']; subst.
    inversion Hx as [| y'' l'' Hyx Hx']; subst.
    constructor.
    + apply Forall_app. split; [assumption | constructor; [assumption | constructor]].
    + apply IH; assumption.
Qed.

(** One step of the second loop keeps the entries placed so far placed,
    places the new entry, and puts it in bits that no earlier entry of the
    same unit uses. *)
Lemma place_step :
  forall s D field g s',
    Struct.place ref s field = (Ok, g, s') ->
    group_ok s -> all_placed s D -> well_formed ref (Field.type field) ->
    all_placed s' D /\ placed s' g /\
    Forall (fun e => compatible (snd e) g) D.
Proof.
  intros s D field g s' H Hg HD Hwf.
  destruct (is_bitfield_dec (Field.type field)) as [Hb | Hb].
  - rewrite (place_bitfield_branch ref s field Hb) in H.
    pose proof Hb as [Hfl Hbits].
    destruct (place_bitfield_spec ref s field Ok g s' H Hg Hwf Hbits Hfl eq_refl)
      as (o & b & -> & Hl & Hlo & Hcb & Hunit & Hmono & Ho & Hb0 & Hfit & Hfit'
          & Hnew & Hold).
    pose proof Hwf as Hwf'. unfold well_formed in Hwf'. rewrite Hfl in Hwf'.
    destruct (Z.eqb_spec (FieldType.bits (Field.type field)) 0); [contradiction |].
    destruct Hwf' as (Wb & Ws & Wa & Wty).
    assert (Hcases :
              (b = 0 /\ Struct.size s <= o) \/
              (exists last,
                 Struct.lastBitfieldType s = Some last /\
                 FieldType.size last = FieldType.size (Field.type field) /\
                 Struct.lastBitfieldOffset s = Some o /\ b = Struct.currBits s)).
    { destruct (starts_group_dec s (Field.type field)) as [Hs | Hs].
      - left. destruct (Hnew Hs) as (? & ? & _). split; assumption.
      - right. destruct (Hold Hs) as (? & ? & _).
        unfold starts_group in Hs.
        destruct (Struct.lastBitfieldType s) as [last |]; [| tauto].
        exists last. repeat split; try assumption.
        destruct (Z.eq_dec (FieldType.size last) (FieldType.size (Field.type field)));
          tauto. }
    split; [| split].
    + unfold all_placed in *. rewrite Forall_forall in *. intros e He.
      specialize (HD e He). unfold placed in *. intros Be.
      destruct (HD Be) as (oe & be & O & B & Bi & M & Oe0 & Oe & Se & Te & Be0 & We
                           & Fe & Hlast).
      exists oe, be. do 11 (split; [first [assumption | lia] |]).
      intros last' Hl' Hlo'. rewrite Hl in Hl'. inversion Hl'; subst last'.
      rewrite Hlo in Hlo'. inversion Hlo'; subst oe.
      destruct Hcases as [[_ Hfresh] | (last & L & Ls & Lo & Lb)]; [lia |].
      destruct (Hlast last L Lo) as [Hsz Hbits']. split; [congruence | lia].
    + unfold placed. simpl. intros _. exists o, b.
      rewrite mask_is_ones by lia.
      do 11 (split; [first [reflexivity | assumption | lia] |]).
      intros last' Hl' _. rewrite Hl in Hl'. inversion Hl'; subst last'.
      split; [reflexivity | lia].
    + unfold all_placed in HD. rewrite Forall_forall in *. intros e He.
      specialize (HD e He). unfold compatible, placed in *. simpl.
      intros Be _ o' Oe' Og. inversion Og; subst o'.
      destruct (HD Be) as (oe & be & O & B & Bi & M & Oe0 & Oe & Se & Te & Be0 & We
                           & Fe & Hlast).
      rewrite O in Oe'. inversion Oe'; subst oe.
      destruct Hcases as [[_ Hfresh] | (last & L & Ls & Lo & Lb)]; [lia |].
      destruct (Hlast last L Lo) as [Hsz Hbits'].
      exists be, b. repeat split; try assumption; [congruence | left; lia].
  - destruct Hg as [Hs _].
    destruct (place_plain_spec ref s field Hs Hwf Hb) as (o & size' & E & Ho & Hsize').
    rewrite E in H. inversion H; subst; clear H.
    split; [| split].
    + unfold all_placed in *. rewrite Forall_forall in *. intros e He.
      specialize (HD e He). unfold placed in *. intros Be.
      destruct (HD Be) as (oe & be & O & B & Bi & M & Oe0 & Oe & Se & Te & Be0 & We
                           & Fe & Hlast).
      exists oe, be. struct_simpl.
      do 11 (split; [first [assumption | lia] |]).
      intros last' Hl'. discriminate.
    + unfold placed. simpl. intros Hb'. contradiction.
    + rewrite Forall_forall. intros e He. unfold compatible. simpl.
      intros _ Hb'. contradiction.
Qed.

Lemma place_all_separated :
  forall l s D l' s',
    Struct.place_all ref s l = (Ok, l', s') ->
    group_ok s -> all_placed s D -> separated D -> well_formed_fields ref l ->
    all_placed s' (D ++ l') /\ separated (D ++ l').
Proof.
  induction l as [| [name field] rest IH]; intros s D l' s' H Hg HD HS Hwf.
  - simpl in H. inversion H; subst. rewrite app_nil_r. split; assumption.
  - simpl in H.
    destruct (Struct.place ref s field) as [[[| e] g] s1] eqn:E; [| discriminate].
    destruct (Struct.place_all ref s1 rest) as [[r rest'] s2] eqn:E2.
    inversion H; subst; clear H.
    inversion Hwf as [| x xs Hwf1 Hwf2]; subst. simpl in Hwf1.
    destruct (place_group_ok ref s field Ok g s1 E Hg Hwf1 eq_refl) as (Hg1 & _ & _).
    destruct (place_step s D field g s1 E Hg HD Hwf1) as (HD1 & Hg' & Hc).
    replace (D ++ (name, g) :: rest') with ((D ++ [(name, g)]) ++ rest')
      by (rewrite <- app_assoc; reflexivity).
    apply (IH s1 (D ++ [(name, g)]) rest' s' E2 Hg1).
    + apply Forall_app. split; [assumption | constructor; [assumption | constructor]].
    + apply separated_snoc; assumption.
    + assumption.
Qed.

Lemma get_In :
  forall name (l : Fields.t) f, Fields.get name l = Some f -> In (name, f) l.
Proof.
  induction l as [| [k g] rest IH]; simpl; intros f H; [discriminate |].
  destruct (String.eqb_spec k name) as [-> | _].
  - inversion H; subst. left; reflexivity.
  - right. apply IH. assumption.
Qed.
End Separation.

(** C5, as amended: of two bitfields declared one after the other, the
    second opens a new storage unit, at bit 0 and past the unit of the first,
    exactly when its type differs from the first's in size or alignment or
    when the bits used so far plus its own exceed 8 times its size; when the
    size or the alignment differs and the struct is not packed, the new unit
    is aligned.  Otherwise, also for a different declared type of the same
    size and alignment, it continues the unit of the first, right after its
    bits. *)
Theorem consecutive_bitfields_grouping :
  forall ref T T' i n1 f1 n2 f2,
    Struct.recalc ref T = (Ok, T') ->
    well_formed_fields ref (Struct.fields T) ->
    nth_error (Struct.fields T) i = Some (n1, f1) ->
    nth_error (Struct.fields T) (S i) = Some (n2, f2) ->
    is_bitfield (Field.type f1) -> is_bitfield (Field.type f2) ->
    let t1 := Field.type f1 in
    let t2 := Field.type f2 in
    exists g1 g2 o1 b1 o2 b2,
      nth_error (Struct.fields T') i = Some (n1, g1) /\
      nth_error (Struct.fields T') (S i) = Some (n2, g2) /\
      Field.offset g1 = Some o1 /\ Field.bitStart g1 = Some b1 /\
      Field.offset g2 = Some o2 /\ Field.bitStart g2 = Some b2 /\
      let type_differs :=
        FieldType.size t1 <> FieldType.size t2 \/
        FieldType.alignment t1 <> FieldType.alignment t2 in
      let overflows :=
        b1 + FieldType.bits t1 + FieldType.bits t2 > 8 * FieldType.size t2 in
      (type_differs \/ overflows ->
       b2 = 0 /\ o1 + FieldType.size t1 <= o2) /\
      (type_differs -> Struct.isPacked T = false ->
       o2 mod FieldType.alignment t2 = 0) /\
      (~ (type_differs \/ overflows) ->
       o2 = o1 /\ b2 = b1 + FieldType.bits t1).
Proof.
  intros ref T T' i n1 f1 n2 f2 Hr Hwf N1 N2 B1 B2 t1 t2.
  destruct (recalc_Ok ref T T' Hr) as (l' & s1 & Hp & ->).
  destruct (before_placing_ok ref T) as (Hg & _ & Hpk & _).
  destruct (place_all_neighbours ref _ _ _ _ i n1 f1 n2 f2 Hp Hg Hwf N1 N2)
    as (sa & g1 & sb & g2 & sc & Hga & Hpa & E1 & E2 & M1 & M2).
  assert (W1 : well_formed ref t1).
  { apply nth_error_In in N1. unfold well_formed_fields in Hwf.
    rewrite Forall_forall in Hwf. apply (Hwf _ N1). }
  assert (W2 : well_formed ref t2).
  { apply nth_error_In in N2. unfold well_formed_fields in Hwf.
    rewrite Forall_forall in Hwf. apply (Hwf _ N2). }
  destruct (place_group_ok ref sa f1 Ok g1 sb E1 Hga W1 eq_refl) as (Hgb & _ & _).
  pose proof (place_packed ref sa f1 Ok g1 sb E1) as Hpb.
  rewrite (place_bitfield_branch ref sa f1 B1) in E1.
  rewrite (place_bitfield_branch ref sb f2 B2) in E2.
  destruct B1 as [F1 Z1]. destruct B2 as [F2 Z2].
  destruct (place_bitfield_spec ref sa f1 Ok g1 sb E1 Hga W1 Z1 F1 eq_refl)
    as (o1 & b1 & -> & L1 & LO1 & C1 & U1 & _).
  destruct (place_bitfield_spec ref sb f2 Ok g2 sc E2 Hgb W2 Z2 F2 eq_refl)
    as (o2 & b2 & -> & _ & _ & _ & _ & _ & _ & _ & _ & _ & Hnew & Hold).
  fold t1 in L1, LO1, C1, U1. fold t2 in Hnew, Hold.
  unfold starts_group, type_changes in Hnew, Hold. rewrite L1, C1 in Hnew, Hold.
  rewrite addFinalPadding_fields. destruct s1; simpl Struct.fields.
  exists (Field.mk t1 (Some o1) (Some b1) (Some (FieldType.bits t1))
            (Some (Struct.mask_loop (Z.to_nat (FieldType.bits t1)) 0))),
         (Field.mk t2 (Some o2) (Some b2) (Some (FieldType.bits t2))
            (Some (Struct.mask_loop (Z.to_nat (FieldType.bits t2)) 0))),
         o1, b1, o2, b2.
  do 6 (split; [first [assumption | reflexivity] |]).
  cbv zeta. split; [| split].
  - intros H. destruct Hnew as (Hb & Ho & _); [tauto |]. split; [assumption | lia].
  - intros H Hpacked. destruct Hnew as (_ & _ & Ha); [tauto |].
    apply Ha; [assumption | congruence].
  - intros H. destruct Hold as (Ho & Hb & _); [tauto |].
    rewrite LO1 in Ho. inversion Ho. split; [reflexivity | lia].
Qed.

Lemma consecutive_bitfields_witness :
  exists g1 g2 o2 b2,
    nth_error (Struct.fields (snd (Struct.recalc Ref.napi Examples.two_bitfields))) 0
      = Some ("i"%string, g1) /\
    nth_error (Struct.fields (snd (Struct.recalc Ref.napi Examples.two_bitfields))) 1
      = Some ("j"%string, g2) /\
    Field.offset g2 = Some o2 /\ Field.bitStart g2 = Some b2 /\
    Field.offset g1 = Some o2.
Proof.
  assert (Hr : Struct.recalc Ref.napi Examples.two_bitfields =
               (Ok, snd (Struct.recalc Ref.napi Examples.two_bitfields)))
    by (vm_compute; reflexivity).
  assert (Hwf : well_formed_fields Ref.napi (Struct.fields Examples.two_bitfields)).
  { repeat (apply Forall_cons; [cbv; repeat split; discriminate |]).
    apply Forall_nil. }
  destruct (consecutive_bitfields_grouping Ref.napi Examples.two_bitfields _ 0%nat
              "i"%string (Field.fresh Examples.uint64_2)
              "j"%string (Field.fresh Examples.int64_62) Hr Hwf eq_refl eq_refl)
    as (g1 & g2 & o1 & b1 & o2 & b2 & N1 & N2 & O1 & B1 & O2 & B2 & _ & _ & Hsame).
  - split; [reflexivity | discriminate].
  - split; [reflexivity | discriminate].
  - exists g1, g2, o2, b2. do 4 (split; [assumption |]).
    rewrite O1. f_equal. symmetry. apply Hsame.
    assert (Hb1 : b1 = 0).
    { vm_compute in N1. inversion N1; subst g1. vm_compute in B1.
      inversion B1; reflexivity. }
    subst b1. vm_compute. intros [[H | H] | H]; try (apply H; reflexivity).
    discriminate.
Defined.

(** ** Bitfields that share a storage unit *)

Lemma laid_out_fields :
  forall ref T T',
    Struct.recalc ref T = (Ok, T') ->
    well_formed_fields ref (Struct.fields T) ->
    exists s1, all_placed s1 (Struct.fields T') /\ separated (Struct.fields T').
Proof.
  intros ref T T' Hr Hwf.
  destruct (recalc_Ok ref T T' Hr) as (l' & s1 & Hp & ->).
  destruct (before_placing_ok ref T) as (Hg & _ & _ & _).
  destruct (place_all_separated ref _ _ [] _ _ Hp Hg) as [H1 H2];
    try assumption; try constructor.
  rewrite addFinalPadding_fields. destruct s1; simpl in *.
  eexists; split; eassumption.
Qed.



(** ** Relayout after a field is added *)

Section Relayout.
Variable ref : Ref.Provider.

Lemma set_size_same_run :
  forall s s' x,
    same_run s s' -> same_run (Struct.set_size s x) (Struct.set_size s' x).
Proof.
  intros s s' x (Hs & Hc & Hl & Hp & Ho). destruct s, s'; simpl in *.
  repeat split; assumption.
Qed.

Lemma addType_same_run :
  forall s s' type o s1 o' s1',
    same_run s s' ->
    Struct.addType ref s type = (o, s1) ->
    Struct.addType ref s' type = (o', s1') ->
    o = o' /\ same_run s1 s1'.
Proof.
  intros s s' type o s1 o' s1' HR.
  pose proof HR as (Hs & Hc & Hl & Hp & Ho).
  unfold Struct.addType. rewrite Hs, Hp.
  destruct (Struct.isPacked s').
  - intros H H'; inversion H; inversion H'; subst. split; [reflexivity |].
    apply set_size_same_run; assumption.
  - destruct (_ =? 0).
    + intros H H'; inversion H; inversion H'; subst. split; [reflexivity |].
      assumption.
    + destruct (_ =? 0); intros H H'; inversion H; inversion H'; subst;
        (split; [reflexivity |]).
      * apply set_size_same_run; assumption.
      * assumption.
Qed.

Lemma addType_loop_same_run :
  forall n s s' type r s1 r' s1',
    same_run s s' ->
    Struct.addType_loop ref n s type = (r, s1) ->
    Struct.addType_loop ref n s' type = (r', s1') ->
    r = r' /\ same_run s1 s1'.
Proof.
  induction n as [| n IH]; simpl; intros s s' type r s1 r' s1' HR H H'.
  - inversion H; inversion H'; subst. split; [reflexivity | assumption].
  - destruct (Struct.addType ref s type) as [o t1] eqn:E.
    destruct (Struct.addType ref s' type) as [o' t1'] eqn:E'.
    destruct (addType_same_run _ _ _ _ _ _ _ HR E E') as [<- HR1].
    destruct o as [o |].
    + eapply IH; eassumption.
    + inversion H; inversion H'; subst. split; [reflexivity | assumption].
Qed.

Lemma clear_same_run :
  forall s s',
    same_run s s' ->
    same_run (Struct.clearBitfieldSettings s) (Struct.clearBitfieldSettings s').
Proof.
  intros s s' (Hs & Hc & Hl & Hp & Ho). destruct s, s'; simpl in *.
  repeat split; try assumption. intros H; contradiction.
Qed.

Lemma place_bitfield_same_run :
  forall s s' f f' r g s1 r' g' s1',
    same_run s s' -> Field.type f = Field.type f' ->
    Struct.place_bitfield s f = (r, g, s1) ->
    Struct.place_bitfield s' f' = (r', g', s1') ->
    r = r' /\ same_run s1 s1'.
Proof.
  intros s s' f f' r g s1 r' g' s1' (Hs & Hc & Hl & Hp & Ho) Ht.
  unfold Struct.place_bitfield. rewrite <- Ht.
  destruct s as [fl sz al cb lt lo pk ic], s' as [fl' sz' al' cb' lt' lo' pk' ic'].
  simpl in *. subst sz' cb' lt' pk'.
  assert (Hlo : lt <> None -> lo' = lo) by (intros; symmetry; auto).
  destruct (FieldType.bits (Field.type f) <=? FieldType.size (Field.type f) * 8);
    simpl;
    [| intros H H'; inversion H; inversion H'; subst;
       split; [reflexivity | repeat split; assumption]].
  destruct (FieldType.alignment (Field.type f) =? 0);
    destruct (cb + FieldType.bits (Field.type f) >? 8 * FieldType.size (Field.type f));
    destruct pk;
    (destruct lt as [last |];
     [rewrite (Hlo ltac:(discriminate));
      destruct (FieldType.size last =? FieldType.size (Field.type f));
      destruct (FieldType.alignment last =? FieldType.alignment (Field.type f)) |]);
    simpl; intros H H'; inversion H; inversion H'; subst;
    (split; [reflexivity |]); unfold same_run; simpl;
    repeat split; try reflexivity; try assumption; intros; contradiction.
Qed.

Lemma place_same_run :
  forall s s' f f' r g s1 r' g' s1',
    same_run s s' -> Field.type f = Field.type f' ->
    Struct.place ref s f = (r, g, s1) ->
    Struct.place ref s' f' = (r', g', s1') ->
    r = r' /\ same_run s1 s1'.
Proof.
  intros s s' f f' r g s1 r' g' s1' HR Ht. unfold Struct.place. rewrite <- Ht.
  set (t0 := if FieldType.bits (Field.type f) =? 0
             then Struct.clearBitfieldSettings s else s).
  set (t0' := if FieldType.bits (Field.type f) =? 0
              then Struct.clearBitfieldSettings s' else s').
  assert (HR0 : same_run t0 t0').
  { unfold t0, t0'. destruct (_ =? 0); [apply clear_same_run |]; assumption. }
  clearbody t0 t0'.
  destruct (FieldType.fixedLength (Field.type f)).
  - destruct (Struct.addType ref t0 _) as [o t1] eqn:E.
    destruct (Struct.addType ref t0' _) as [o' t1'] eqn:E'.
    destruct (addType_same_run _ _ _ _ _ _ _ HR0 E E') as [<- HR1].
    destruct o as [o |].
    + destruct (Struct.addType_loop ref _ t1 _) as [q t2] eqn:E2.
      destruct (Struct.addType_loop ref _ t1' _) as [q' t2'] eqn:E2'.
      destruct (addType_loop_same_run _ _ _ _ _ _ _ _ HR1 E2 E2') as [<- HR2].
      intros H H'; inversion H; inversion H'; subst. split; [reflexivity | assumption].
    + intros H H'; inversion H; inversion H'; subst. split; [reflexivity | assumption].
  - destruct (negb _).
    + intros H H'. eapply place_bitfield_same_run; eassumption.
    + destruct (Struct.addType ref t0 _) as [o t1] eqn:E.
      destruct (Struct.addType ref t0' _) as [o' t1'] eqn:E'.
      destruct (addType_same_run _ _ _ _ _ _ _ HR0 E E') as [<- HR1].
      destruct o; intros H H'; inversion H; inversion H'; subst;
        (split; [reflexivity | assumption]).
Qed.

Lemma place_all_same_run :
  forall l l' s s' r out s1 r' out' s1',
    same_run s s' -> same_types l l' ->
    Struct.place_all ref s l = (r, out, s1) ->
    Struct.place_all ref s' l' = (r', out', s1') ->
    r = r' /\ same_run s1 s1'.
Proof.
  induction l as [| [name f] rest IH]; intros l' s s' r out s1 r' out' s1' HR HT H H';
    inversion HT as [| x y xs ys Hxy Hrest]; subst.
  - simpl in *. inversion H; inversion H'; subst. split; [reflexivity | assumption].
  - destruct y as [name' f']. simpl in Hxy. simpl in H, H'.
    destruct (Struct.place ref s f) as [[q g] t1] eqn:E.
    destruct (Struct.place ref s' f') as [[q' g'] t1'] eqn:E'.
    destruct (place_same_run _ _ _ _ _ _ _ _ _ _ HR Hxy E E') as [<- HR1].
    destruct q as [| e].
    + destruct (Struct.place_all ref t1 rest) as [[q2 o2] t2] eqn:E2.
      destruct (Struct.place_all ref t1' ys) as [[q2' o2'] t2'] eqn:E2'.
      inversion H; inversion H'; subst. eapply IH; eassumption.
    + inversion H; inversion H'; subst. split; [reflexivity | assumption].
Qed.

Lemma place_all_run :
  forall l s l' s',
    Struct.place_all ref s l = (Ok, l', s') ->
    group_ok s -> well_formed_fields ref l ->
    group_ok s' /\ Struct.size s <= Struct.size s' /\ same_types l l' /\
    Struct.isPacked s' = Struct.isPacked s.
Proof.
  induction l as [| [name f] rest IH]; intros s l' s' H Hg Hwf.
  - simpl in H. inversion H; subst.
    split; [assumption |]. split; [lia |]. split; [constructor | reflexivity].
  - simpl in H.
    destruct (Struct.place ref s f) as [[[| e] g] s1] eqn:E; [| discriminate].
    destruct (Struct.place_all ref s1 rest) as [[r rest'] s2] eqn:E2.
    inversion H; subst; clear H.
    inversion Hwf as [| x xs Hwf1 Hwf2]; subst. simpl in Hwf1.
    destruct (place_group_ok ref s f Ok g s1 E Hg Hwf1 eq_refl) as (Hg1 & Hm & Ht).
    destruct (IH s1 rest' s' E2 Hg1 Hwf2) as (Hg2 & Hm2 & Hts & Hp).
    split; [assumption |]. split; [lia |]. split.
    + constructor; [simpl; congruence | assumption].
    + rewrite Hp. eapply place_packed; eassumption.
Qed.

Lemma alignment_fold :
  forall l s,
    Struct.alignment (fold_left (Struct.alignment_step ref) l s) =
    fold_left (combine_alignment (Struct.isPacked s))
      (map (fun entry => pass1_alignment ref (Field.type (snd entry))) l)
      (Struct.alignment s).
Proof.
  induction l as [| entry rest IH]; intros s; simpl; [reflexivity |].
  rewrite IH. unfold Struct.alignment_step, combine_alignment, pass1_alignment.
  destruct s as [fl sz al cb lt lo pk ic]; simpl.
  destruct pk; simpl;
    destruct (FieldType.indirection (Field.type (snd entry)) >? 1);
    destruct (FieldType.alignment (Field.type (snd entry)) =? 0); reflexivity.
Qed.

Lemma same_types_alignments :
  forall l l',
    same_types l l' ->
    map (fun entry => pass1_alignment ref (Field.type (snd entry))) l =
    map (fun entry => pass1_alignment ref (Field.type (snd entry))) l'.
Proof.
  intros l l' H. induction H as [| x y xs ys Hxy _ IH]; simpl; [reflexivity |].
  rewrite Hxy, IH. reflexivity.
Qed.

Lemma same_types_app :
  forall l l' x y,
    same_types l l' -> Field.type (snd x) = Field.type (snd y) ->
    same_types (l ++ [x]) (l' ++ [y]).
Proof.
  intros l l' x y H Hxy. apply Forall2_app; [assumption |].
  constructor; [assumption | constructor].
Qed.

Lemma place_all_app :
  forall l1 l2 s l' s',
    Struct.place_all ref s (l1 ++ l2) = (Ok, l', s') ->
    exists l1' s1 l2',
      Struct.place_all ref s l1 = (Ok, l1', s1) /\
      Struct.place_all ref s1 l2 = (Ok, l2', s') /\
      l' = l1' ++ l2'.
Proof.
  induction l1 as [| [name f] rest IH]; intros l2 s l' s' H.
  - simpl in *. exists [], s, l'. repeat split. assumption.
  - simpl in H. simpl.
    destruct (Struct.place ref s f) as [[[| e] g] s1] eqn:E; [| discriminate].
    destruct (Struct.place_all ref s1 (rest ++ l2)) as [[r out] s2] eqn:E2.
    inversion H; subst; clear H.
    destruct (IH l2 s1 out s' E2) as (l1' & t1 & l2' & H1 & H2 & ->).
    rewrite H1. exists ((name, g) :: l1'), t1, l2'. repeat split. assumption.
Qed.

Lemma addType_alignment :
  forall s type o s',
    Struct.addType ref s type = (o, s') ->
    Struct.alignment s' = Struct.alignment s.
Proof.
  intros s type o s'. unfold Struct.addType.
  destruct (Struct.isPacked s) eqn:E.
  - intros H; inversion H; subst. destruct s; reflexivity.
  - destruct (_ =? 0); [intros H; inversion H; subst; reflexivity |].
    destruct (_ =? 0); intros H; inversion H; subst; try reflexivity;
      destruct s; reflexivity.
Qed.

Lemma addType_loop_alignment :
  forall n s type r s',
    Struct.addType_loop ref n s type = (r, s') ->
    Struct.alignment s' = Struct.alignment s.
Proof.
  induction n as [| n IH]; simpl; intros s type r s' H.
  - inversion H; reflexivity.
  - destruct (Struct.addType ref s type) as [[o |] s1] eqn:E.
    + apply IH in H. rewrite H. eapply addType_alignment; eassumption.
    + inversion H; subst. eapply addType_alignment; eassumption.
Qed.

Lemma place_alignment :
  forall s f r g s',
    Struct.place ref s f = (r, g, s') ->
    Struct.alignment s' = Struct.alignment s.
Proof.
  intros s f r g s'. unfold Struct.place.
  set (t0 := if FieldType.bits (Field.type f) =? 0
             then Struct.clearBitfieldSettings s else s).
  assert (H0 : Struct.alignment t0 = Struct.alignment s).
  { unfold t0. destruct (_ =? 0); [destruct s |]; reflexivity. }
  rewrite <- H0. clearbody t0.
  destruct (FieldType.fixedLength (Field.type f)).
  - destruct (Struct.addType ref t0 _) as [[o |] t1] eqn:E.
    + destruct (Struct.addType_loop ref _ t1 _) as [q t2] eqn:E2.
      intros H; inversion H; subst.
      apply addType_loop_alignment in E2. apply addType_alignment in E. congruence.
    + intros H; inversion H; subst. eapply addType_alignment; eassumption.
  - destruct (negb _).
    + unfold Struct.place_bitfield.
      destruct t0 as [fl0 sz0 al0 cb0 lt0 lo0 pk0 ic0]. simpl.
      destruct (FieldType.bits (Field.type f) <=? FieldType.size (Field.type f) * 8);
        simpl; [| intros H; inversion H; reflexivity].
      destruct (FieldType.alignment (Field.type f) =? 0);
        destruct (cb0 + FieldType.bits (Field.type f)
                  >? 8 * FieldType.size (Field.type f));
        destruct pk0;
        (destruct lt0 as [last |];
         [destruct (FieldType.size last =? FieldType.size (Field.type f));
          destruct (FieldType.alignment last =? FieldType.alignment (Field.type f)) |]);
        simpl; intros H; inversion H; reflexivity.
    + destruct (Struct.addType ref t0 _) as [[o |] t1] eqn:E;
        intros H; inversion H; subst; eapply addType_alignment; eassumption.
Qed.

Lemma place_all_alignment :
  forall l s r l' s',
    Struct.place_all ref s l = (r, l', s') ->
    Struct.alignment s' = Struct.alignment s.
Proof.
  induction l as [| [name f] rest IH]; simpl; intros s r l' s' H.
  - inversion H; reflexivity.
  - destruct (Struct.place ref s f) as [[[| e] g] s1] eqn:E.
    + destruct (Struct.place_all ref s1 rest) as [[q out] s2] eqn:E2.
      inversion H; subst. rewrite (IH _ _ _ _ E2). eapply place_alignment; eassumption.
    + inversion H; subst. eapply place_alignment; eassumption.
Qed.
End Relayout.

(** ** Trailing padding and powers of two *)

Lemma final_size_bounds :
  forall s,
    0 <= Struct.size s -> 0 <= Struct.alignment s ->
    Struct.size s <= Struct.size (Struct.addFinalPadding s) /\
    Struct.alignment (Struct.addFinalPadding s) = Struct.alignment s /\
    (0 < Struct.alignment s ->
     (Struct.alignment s | Struct.size (Struct.addFinalPadding s)) /\
     Struct.size (Struct.addFinalPadding s) < Struct.size s + Struct.alignment s).
Proof.
  intros s Hs Ha. unfold Struct.addFinalPadding.
  destruct (Z.eqb_spec (Struct.alignment s) 0) as [E | E].
  - repeat split; lia.
  - assert (Hrem : Z.rem (Struct.size s) (Struct.alignment s) =
                   Struct.size s mod Struct.alignment s)
      by (apply Z.rem_mod_nonneg; lia).
    rewrite Hrem.
    pose proof (Z.mod_pos_bound (Struct.size s) (Struct.alignment s) ltac:(lia)) as Hb.
    pose proof (Z.div_mod (Struct.size s) (Struct.alignment s) E) as Hd.
    destruct (Z.gtb_spec (Struct.size s mod Struct.alignment s) 0) as [G | G];
      destruct s as [fl sz al cb lt lo pk ic]; simpl in *.
    + repeat split; try lia.
      exists (sz / al + 1). lia.
    + repeat split; try lia.
      exists (sz / al). lia.
Qed.

Lemma final_size_least :
  forall s m,
    0 <= Struct.size s -> 0 < Struct.alignment s ->
    (Struct.alignment s | m) -> Struct.size s <= m ->
    Struct.size (Struct.addFinalPadding s) <= m.
Proof.
  intros s m Hs Ha [q Hq] Hm.
  destruct (final_size_bounds s Hs ltac:(lia)) as (_ & _ & H).
  destruct (H Ha) as [[p Hp] Hlt].
  rewrite Hp in *. subst m.
  assert (p < q + 1) by (apply (Z.mul_lt_mono_pos_r (Struct.alignment s)); lia).
  apply Z.mul_le_mono_nonneg_r; lia.
Qed.

Lemma final_size_exact :
  forall s,
    0 <= Struct.size s -> 0 <= Struct.alignment s ->
    Struct.alignment s = 0 \/ (Struct.alignment s | Struct.size s) ->
    Struct.size (Struct.addFinalPadding s) = Struct.size s.
Proof.
  intros s Hs Ha H.
  destruct (Z.eq_dec (Struct.alignment s) 0) as [E | E].
  - unfold Struct.addFinalPadding. rewrite E. reflexivity.
  - destruct H as [H | H]; [contradiction |].
    apply Z.le_antisymm.
    + apply final_size_least; try lia. assumption.
    + apply final_size_bounds; assumption.
Qed.

Lemma pow2_pos : forall a, pow2 a -> 0 < a.
Proof. intros a (k & Hk & ->). apply Z.pow_pos_nonneg; lia. Qed.

Lemma pow2_divide :
  forall a b, pow2 a -> pow2 b -> a <= b -> (a | b).
Proof.
  intros a b (j & Hj & ->) (k & Hk & ->) Hle.
  assert (j <= k) by (apply (Z.pow_le_mono_r_iff 2); lia).
  exists (2 ^ (k - j)). rewrite <- Z.pow_add_r by lia. f_equal. lia.
Qed.

(** The alignment of a struct that is not packed: 0 without fields, else
    the largest of the field alignments, which all the others divide. *)
Lemma max_alignment :
  forall l a0,
    Forall pow2 l -> a0 = 0 \/ pow2 a0 ->
    let A := fold_left (combine_alignment false) l a0 in
    (A = 0 \/ pow2 A) /\ a0 <= A /\ (a0 = 0 \/ (a0 | A)).
Proof.
  induction l as [| a rest IH]; intros a0 Hl H0; simpl.
  - repeat split; try assumption; try lia.
    destruct H0; [left; assumption | right; apply Z.divide_refl].
  - inversion Hl as [| x xs Ha Hrest]; subst.
    pose proof (pow2_pos a Ha) as Hpos.
    assert (Hm : pow2 (Z.max a0 a)).
    { destruct H0 as [-> | H0]; [rewrite Z.max_r by lia; assumption |].
      destruct (Z.max_spec a0 a) as [[_ ->] | [_ ->]]; assumption. }
    destruct (IH (Z.max a0 a) Hrest (or_intror Hm)) as (H1 & H2 & H3).
    change (combine_alignment false a0 a) with (Z.max a0 a).
    split; [assumption |]. split; [lia |].
    destruct H0 as [-> | H0]; [left; reflexivity | right].
    destruct H3 as [H3 | H3]; [pose proof (pow2_pos _ Hm); lia |].
    apply Z.divide_trans with (Z.max a0 a); [| assumption].
    apply pow2_divide; try assumption. lia.
Qed.

(** The alignment of a packed struct: 0 without fields, else the smallest
    of the field alignments, which divides all the others. *)
Lemma min_alignment :
  forall l a0,
    Forall pow2 l -> a0 = 0 \/ pow2 a0 ->
    let A := fold_left (combine_alignment true) l a0 in
    (A = 0 \/ pow2 A) /\ (a0 = 0 \/ (A | a0)) /\ Forall (fun a => (A | a)) l.
Proof.
  induction l as [| a rest IH]; intros a0 Hl H0; simpl.
  - split; [assumption |]. split; [| constructor].
    destruct H0; [left; assumption | right; apply Z.divide_refl].
  - inversion Hl as [| x xs Ha Hrest]; subst.
    pose proof (pow2_pos a Ha) as Hpos.
    set (m := combine_alignment true a0 a).
    assert (Hm : pow2 m /\ (m | a) /\ (a0 = 0 \/ (m | a0))).
    { unfold m, combine_alignment.
      destruct H0 as [-> | H0].
      - simpl. rewrite Z.min_id. repeat split; try assumption;
          [apply Z.divide_refl | left; reflexivity].
      - pose proof (pow2_pos a0 H0).
        destruct (Z.eqb_spec a0 0); [lia |].
        destruct (Z.min_spec a0 a) as [[Hlt ->] | [Hle ->]].
        + repeat split; try assumption;
            [apply pow2_divide; try assumption; lia | right; apply Z.divide_refl].
        + repeat split; try assumption;
            [apply Z.divide_refl | right; apply pow2_divide; assumption]. }
    destruct Hm as (Hm1 & Hm2 & Hm3).
    destruct (IH m Hrest (or_intror Hm1)) as (H1 & H2 & H3).
    fold m. split; [assumption |].
    destruct H2 as [H2 | H2]; [pose proof (pow2_pos _ Hm1); lia |].
    split.
    + destruct Hm3 as [-> | Hm3]; [left; reflexivity | right].
      apply Z.divide_trans with m; assumption.
    + constructor; [| assumption]. apply Z.divide_trans with m; assumption.
Qed.

(** ** Growth of the size *)

Section Growth.
Variable ref : Ref.Provider.

Lemma place_type :
  forall s f r g s',
    Struct.place ref s f = (r, g, s') -> Field.type g = Field.type f.
Proof.
  intros s f r g s'. unfold Struct.place.
  set (t0 := if FieldType.bits (Field.type f) =? 0
             then Struct.clearBitfieldSettings s else s).
  clearbody t0.
  destruct (FieldType.fixedLength (Field.type f)).
  - destruct (Struct.addType ref t0 _) as [[o |] t1].
    + destruct (Struct.addType_loop ref _ t1 _) as [q t2].
      intros H; inversion H; reflexivity.
    + intros H; inversion H; reflexivity.
  - destruct (negb _).
    + unfold Struct.place_bitfield.
      destruct (negb _); [intros H; inversion H; reflexivity |].
      match goal with |- context [if ?c then (Err NotANumber, _, _) else _] =>
        destruct c end; intros H; inversion H; reflexivity.
    + destruct (Struct.addType ref t0 _) as [[o |] t1];
        intros H; inversion H; reflexivity.
Qed.

Lemma place_all_types :
  forall l s r l' s',
    Struct.place_all ref s l = (r, l', s') -> same_types l l'.
Proof.
  induction l as [| [name f] rest IH]; simpl; intros s r l' s' H.
  - inversion H; constructor.
  - destruct (Struct.place ref s f) as [[[| e] g] s1] eqn:E.
    + destruct (Struct.place_all ref s1 rest) as [[q out] s2] eqn:E2.
      inversion H; subst. constructor; [| eapply IH; eassumption].
      simpl. symmetry. eapply place_type; eassumption.
    + inversion H; subst. constructor.
      * simpl. symmetry. eapply place_type; eassumption.
      * clear. induction rest; constructor; [reflexivity | assumption].
Qed.

Lemma same_types_Forall :
  forall (P : FieldType.t -> Prop) l l',
    same_types l l' ->
    Forall (fun entry => P (Field.type (snd entry))) l' ->
    Forall (fun entry => P (Field.type (snd entry))) l.
Proof.
  intros P l l' H. induction H as [| x y xs ys Hxy _ IH]; intros Hw.
  - constructor.
  - inversion Hw as [| y' ys' Hy Hys]; subst.
    constructor; [rewrite Hxy; exact Hy | apply IH; exact Hys].
Qed.

Lemma c_types_well_formed :
  forall l, c_types ref l -> well_formed_fields ref l.
Proof.
  intros l H. unfold c_types, well_formed_fields in *.
  eapply Forall_impl; [| exact H]. intros e He. apply He.
Qed.

Lemma before_placing_state :
  forall s,
    Struct.currBits (before_placing ref s) = 0 /\
    Struct.lastBitfieldType (before_placing ref s) = None /\
    Struct.alignment (before_placing ref s) =
      fold_left (combine_alignment (Struct.isPacked s))
        (map (fun entry => pass1_alignment ref (Field.type (snd entry)))
             (Struct.fields s)) 0.
Proof.
  intros s. unfold before_placing.
  match goal with |- context [fold_left _ ?l ?s0] =>
    destruct (alignment_step_frame ref l s0) as (H1 & H2 & H3 & H4 & H5) end.
  rewrite H2, H3, alignment_fold. destruct s; simpl. repeat split.
Qed.

(** In a packed struct every step adds a whole number of units. *)
Lemma addType_loop_divides :
  forall n s type d r s',
    Struct.addType_loop ref n s type = (r, s') ->
    Struct.isPacked s = true -> 0 <= Struct.size s ->
    0 < natural_size ref type -> 0 < natural_alignment ref type ->
    (d | Struct.size s) -> (d | natural_size ref type) ->
    (d | Struct.size s').
Proof.
  induction n as [| n IH]; simpl; intros s type d r s' H Hp Hs Hn Ha Hd Hdn.
  - inversion H; subst; assumption.
  - destruct (addType_spec ref s type Hs Hn Ha) as (o & E & Ho & Hpk & _).
    rewrite E in H. specialize (Hpk Hp). subst o.
    apply (IH _ _ d _ _ H); try assumption.
    + destruct s; struct_simpl; lia.
    + destruct s; struct_simpl. apply Z.divide_add_r; assumption.
Qed.

Lemma place_bitfield_packed_size :
  forall s f g s',
    Struct.place_bitfield s f = (Ok, g, s') ->
    Struct.isPacked s = true ->
    Struct.size s' = Struct.size s \/
    Struct.size s' = Struct.size s + FieldType.size (Field.type f).
Proof.
  intros s f g s'. unfold Struct.place_bitfield.
  destruct s as [fl sz al cb lt lo pk ic]. simpl. intros H ->.
  destruct (FieldType.bits (Field.type f) <=? FieldType.size (Field.type f) * 8);
    simpl in H; [| discriminate].
  destruct (FieldType.alignment (Field.type f) =? 0);
    destruct (cb + FieldType.bits (Field.type f) >? 8 * FieldType.size (Field.type f));
    (destruct lt as [last |];
     [destruct (FieldType.size last =? FieldType.size (Field.type f));
      destruct (FieldType.alignment last =? FieldType.alignment (Field.type f)) |]);
    simpl in H; inversion H; simpl; lia.
Qed.

Lemma place_divides :
  forall s f g s' d,
    Struct.place ref s f = (Ok, g, s') ->
    Struct.isPacked s = true -> 0 <= Struct.size s ->
    well_formed ref (Field.type f) ->
    (d | Struct.size s) -> (d | unit_size ref (Field.type f)) ->
    (d | Struct.size s').
Proof.
  intros s f g s' d H Hp Hs Hwf Hd Hu.
  destruct (is_bitfield_dec (Field.type f)) as [Hb | Hb].
  - rewrite (place_bitfield_branch ref s f Hb) in H.
    destruct Hb as [Hfl Hbits]. unfold unit_size in Hu. rewrite Hfl in Hu.
    destruct (Z.eqb_spec (FieldType.bits (Field.type f)) 0); [contradiction |].
    destruct (place_bitfield_packed_size s f g s' H Hp) as [-> | ->];
      [assumption | apply Z.divide_add_r; assumption].
  - unfold Struct.place in H. unfold well_formed, unit_size, is_bitfield in *.
    assert (Hc : Struct.isPacked (Struct.clearBitfieldSettings s) = true
                 /\ Struct.size (Struct.clearBitfieldSettings s) = Struct.size s)
      by (destruct s; split; assumption || reflexivity).
    destruct Hc as [Hcp Hcs].
    destruct (FieldType.fixedLength (Field.type f)) as [n |].
    + destruct Hwf as (Hb0 & Hn & Ha). rewrite Hb0 in H. simpl in H.
      destruct (addType_spec ref (Struct.clearBitfieldSettings s) _
                  ltac:(rewrite Hcs; exact Hs) Hn Ha) as (o & E & Ho & Hpk & _).
      rewrite E in H. specialize (Hpk Hcp). subst o.
      destruct (Struct.addType_loop ref _ _ _) as [q t2] eqn:E2.
      inversion H; subst.
      apply (addType_loop_divides _ _ _ d _ _ E2); try assumption.
      * destruct s; struct_simpl; lia.
      * destruct s; struct_simpl. apply Z.divide_add_r; assumption.
    + destruct (Z.eqb_spec (FieldType.bits (Field.type f)) 0) as [E0 | E0].
      * simpl in H. destruct Hwf as (Hn & Ha).
        destruct (addType_spec ref (Struct.clearBitfieldSettings s) _
                    ltac:(rewrite Hcs; exact Hs) Hn Ha) as (o & E & Ho & Hpk & _).
        rewrite E in H. specialize (Hpk Hcp). subst o. inversion H; subst.
        destruct s; struct_simpl. apply Z.divide_add_r; assumption.
      * exfalso. apply Hb. split; [reflexivity | assumption].
Qed.

Lemma place_all_divides :
  forall l s l' s' d,
    Struct.place_all ref s l = (Ok, l', s') ->
    Struct.isPacked s = true -> group_ok s ->
    well_formed_fields ref l ->
    (d | Struct.size s) ->
    Forall (fun entry => (d | unit_size ref (Field.type (snd entry)))) l ->
    (d | Struct.size s').
Proof.
  induction l as [| [name f] rest IH]; intros s l' s' d H Hp Hg Hwf Hd Hu.
  - simpl in H. inversion H; subst; assumption.
  - simpl in H.
    destruct (Struct.place ref s f) as [[[| e] g] s1] eqn:E; [| discriminate].
    destruct (Struct.place_all ref s1 rest) as [[r rest'] s2] eqn:E2.
    inversion H; subst; clear H.
    inversion Hwf as [| x xs Hwf1 Hwf2]; subst. simpl in Hwf1.
    inversion Hu as [| x xs Hu1 Hu2]; subst. simpl in Hu1.
    destruct (place_group_ok ref s f Ok g s1 E Hg Hwf1 eq_refl) as (Hg1 & _ & _).
    apply (IH s1 rest' s' d E2); try assumption.
    + rewrite <- Hp. eapply place_packed; eassumption.
    + destruct Hg as [Hs _]. eapply place_divides; eassumption.
Qed.

Lemma addFinalPadding_packed :
  forall s, Struct.isPacked (Struct.addFinalPadding s) = Struct.isPacked s.
Proof.
  intros s. unfold Struct.addFinalPadding.
  destruct (_ =? 0); [reflexivity |]. destruct (_ >? 0); destruct s; reflexivity.
Qed.

(** The sizes before and after the trailing padding, when a field is
    appended: the unpadded size does not shrink and the alignment changes
    from [A] to [combine_alignment packed A a]. *)
Lemma padded_size_grows :
  forall X1 X2 a,
    0 <= Struct.size X1 -> Struct.size X1 <= Struct.size X2 ->
    Struct.isPacked X2 = Struct.isPacked X1 ->
    Struct.alignment X1 = 0 \/ pow2 (Struct.alignment X1) ->
    pow2 a ->
    Struct.alignment X2 =
      combine_alignment (Struct.isPacked X1) (Struct.alignment X1) a ->
    (Struct.isPacked X1 = true ->
     Struct.alignment X1 = 0 \/ (Struct.alignment X1 | Struct.size X1)) ->
    Struct.size (Struct.addFinalPadding X1)
    <= Struct.size (Struct.addFinalPadding X2).
Proof.
  intros X1 X2 a Hs Hle Hpk HA Ha HA2 Hdiv.
  pose proof (pow2_pos a Ha) as Hapos.
  assert (HA0 : 0 <= Struct.alignment X1).
  { destruct HA as [-> | HA]; [lia | pose proof (pow2_pos _ HA); lia]. }
  unfold combine_alignment in HA2.
  destruct (Struct.isPacked X1) eqn:Ep.
  - rewrite (final_size_exact X1 Hs HA0 (Hdiv eq_refl)).
    assert (0 <= Struct.alignment X2).
    { rewrite HA2. destruct (Z.eqb_spec (Struct.alignment X1) 0); lia. }
    destruct (final_size_bounds X2 ltac:(lia) ltac:(assumption)) as (H1 & _).
    lia.
  - assert (HA2pos : 0 < Struct.alignment X2) by lia.
    destruct (final_size_bounds X2 ltac:(lia) ltac:(lia)) as (H1 & _ & H2).
    destruct (H2 HA2pos) as [Hd2 _].
    destruct HA as [E | HA].
    + rewrite (final_size_exact X1 Hs HA0 (or_introl E)). lia.
    + apply final_size_least; try assumption.
      * apply pow2_pos; assumption.
      * apply Z.divide_trans with (Struct.alignment X2); [| assumption].
        apply pow2_divide; try assumption; [| lia].
        rewrite HA2.
        destruct (Z.max_spec (Struct.alignment X1) a) as [[_ ->] | [_ ->]];
          assumption.
      * lia.
Qed.

End Growth.

(** ** A field declared in the middle of the table *)

Lemma round_up_spec :
  forall a size,
    0 < a -> 0 <= size ->
    size <= round_up a size < size + a /\ (a | round_up a size).
Proof.
  intros a size Ha Hs. unfold round_up.
  pose proof (padding_bounds size a Ha) as Hb.
  pose proof (padding_aligns size a Hs Ha) as Hm.
  split; [lia |]. apply Z.mod_divide; [lia | assumption].
Qed.

Lemma round_up_least :
  forall a size m,
    0 < a -> 0 <= size -> (a | m) -> size <= m -> round_up a size <= m.
Proof.
  intros a size m Ha Hs [q Hq] Hm.
  destruct (round_up_spec a size Ha Hs) as [[_ Hlt] [p Hp]].
  rewrite Hp in *. subst m.
  assert (p < q + 1) by (apply (Z.mul_lt_mono_pos_r a); lia).
  apply Z.mul_le_mono_nonneg_r; lia.
Qed.

Lemma round_up_mono :
  forall a size size',
    0 < a -> 0 <= size' -> size' <= size ->
    round_up a size' <= round_up a size.
Proof.
  intros a size size' Ha Hs' Hle.
  destruct (round_up_spec a size Ha ltac:(lia)) as [[Hge _] Hd].
  apply round_up_least; try assumption. lia.
Qed.

Section Insertion.
Variable ref : Ref.Provider.

Lemma set_size_frame :
  forall s x,
    Struct.size (Struct.set_size s x) = x /\
    Struct.isPacked (Struct.set_size s x) = Struct.isPacked s /\
    Struct.lastBitfieldType (Struct.set_size s x) = Struct.lastBitfieldType s.
Proof. intros s x. destruct s; repeat split. Qed.

Lemma addType_exact :
  forall s type,
    0 <= Struct.size s ->
    0 < natural_size ref type -> 0 < natural_alignment ref type ->
    Struct.addType ref s type =
      (Some (next_offset s (natural_alignment ref type)),
       Struct.set_size s
         (next_offset s (natural_alignment ref type) + natural_size ref type)).
Proof.
  intros s type Hs Hn Ha. unfold Struct.addType, next_offset.
  unfold natural_size, natural_alignment in *.
  set (align := if RefType.indirection type =? 1 then RefType.alignment type
                else Ref.alignof_pointer ref) in *.
  set (size := if RefType.indirection type =? 1 then RefType.size type
               else Ref.sizeof_pointer ref) in *.
  destruct (Struct.isPacked s); [reflexivity |].
  destruct (Z.eqb_spec align 0) as [| _]; [lia |].
  pose proof (padding_aligns (Struct.size s) align Hs Ha) as Hp2.
  pose proof (padding_bounds (Struct.size s) align Ha) as Hp1.
  rewrite (Z.rem_mod_nonneg (Struct.size s + _) align) by lia.
  rewrite Hp2. reflexivity.
Qed.

Lemma next_offset_mono :
  forall s' s a,
    Struct.isPacked s' = Struct.isPacked s ->
    0 < a -> 0 <= Struct.size s' -> Struct.size s' <= Struct.size s ->
    Struct.size s' <= next_offset s' a /\ next_offset s' a <= next_offset s a.
Proof.
  intros s' s a Hp Ha Hs Hle. unfold next_offset. rewrite Hp.
  destruct (Struct.isPacked s); [lia |].
  destruct (round_up_spec a (Struct.size s') Ha Hs) as [[H _] _].
  split; [assumption | apply round_up_mono; assumption].
Qed.

Lemma addType_loop_mono :
  forall n s' s type r' t' r t,
    Struct.addType_loop ref n s' type = (r', t') ->
    Struct.addType_loop ref n s type = (r, t) ->
    Struct.isPacked s' = Struct.isPacked s ->
    0 <= Struct.size s' -> Struct.size s' <= Struct.size s ->
    0 < natural_size ref type -> 0 < natural_alignment ref type ->
    r' = Ok /\ r = Ok /\ Struct.size t' <= Struct.size t.
Proof.
  induction n as [| n IH]; simpl; intros s' s type r' t' r t H' H Hp Hs Hle Hn Ha.
  - inversion H'; inversion H; subst. repeat split. assumption.
  - rewrite addType_exact in H' by assumption.
    rewrite addType_exact in H by (assumption || lia).
    destruct (next_offset_mono s' s _ Hp Ha Hs Hle) as [H1 H2].
    destruct (set_size_frame s'
                (next_offset s' (natural_alignment ref type) + natural_size ref type))
      as (F1' & F2' & _).
    destruct (set_size_frame s
                (next_offset s (natural_alignment ref type) + natural_size ref type))
      as (F1 & F2 & _).
    apply (IH _ _ _ _ _ _ _ H' H); try assumption; try congruence; lia.
Qed.

(** A field that is no bitfield, placed in two states of which one is
    behind the other. *)
Lemma place_plain_behind :
  forall s' s f' f r' g' t' r g t,
    Struct.place ref s' f' = (r', g', t') ->
    Struct.place ref s f = (r, g, t) ->
    Field.type f' = Field.type f ->
    Struct.isPacked s' = Struct.isPacked s ->
    0 <= Struct.size s' -> Struct.size s' <= Struct.size s ->
    well_formed ref (Field.type f) -> ~ is_bitfield (Field.type f) ->
    Struct.isPacked t' = Struct.isPacked t /\
    Struct.size t' <= Struct.size t /\
    Struct.lastBitfieldType t = None.
Proof.
  intros s' s f' f r' g' t' r g t H' H Ht Hp Hs Hle Hwf Hnb.
  unfold Struct.place in H', H. rewrite Ht in H'.
  unfold well_formed, is_bitfield in *.
  assert (C' : Struct.isPacked (Struct.clearBitfieldSettings s') = Struct.isPacked s'
               /\ Struct.size (Struct.clearBitfieldSettings s') = Struct.size s')
    by (destruct s'; split; reflexivity).
  assert (C : Struct.isPacked (Struct.clearBitfieldSettings s) = Struct.isPacked s
              /\ Struct.size (Struct.clearBitfieldSettings s) = Struct.size s
              /\ Struct.lastBitfieldType (Struct.clearBitfieldSettings s) = None)
    by (destruct s; repeat split; reflexivity).
  destruct C' as [Cp' Cs']. destruct C as (Cp & Cs & Cl).
  set (c' := Struct.clearBitfieldSettings s') in *.
  set (c := Struct.clearBitfieldSettings s) in *.
  clearbody c' c.
  assert (Hpc : Struct.isPacked c' = Struct.isPacked c) by congruence.
  assert (Hsc : 0 <= Struct.size c') by lia.
  assert (Hlc : Struct.size c' <= Struct.size c) by lia.
  destruct (FieldType.fixedLength (Field.type f)) as [n |].
  - destruct Hwf as (Hb0 & Hn & Ha). rewrite Hb0 in H', H. simpl in H', H.
    rewrite addType_exact in H' by assumption.
    rewrite addType_exact in H by (assumption || lia).
    destruct (next_offset_mono c' c _ Hpc Ha Hsc Hlc) as [H1 H2].
    destruct (Struct.addType_loop ref _ _ _) as [q' u'] eqn:E' in H'.
    destruct (Struct.addType_loop ref _ _ _) as [q u] eqn:E in H.
    inversion H'; inversion H; subst.
    match type of E' with Struct.addType_loop _ _ (Struct.set_size _ ?x) _ = _ =>
      destruct (set_size_frame c' x) as (F1' & F2' & _) end.
    match type of E with Struct.addType_loop _ _ (Struct.set_size _ ?x) _ = _ =>
      destruct (set_size_frame c x) as (F1 & F2 & F3) end.
    destruct (addType_loop_mono _ _ _ _ _ _ _ _ E' E) as (_ & _ & Hm);
      try assumption; try congruence; try lia.
    split; [| split; [assumption |]].
    + pose proof (addType_loop_packed ref _ _ _ _ _ E') as P'.
      pose proof (addType_loop_packed ref _ _ _ _ _ E) as P.
      congruence.
    + assert (G : forall k x q u,
                 Struct.lastBitfieldType x = None ->
                 Struct.addType_loop ref k x (FieldType.type (Field.type f)) = (q, u) ->
                 Struct.lastBitfieldType u = None).
      { clear. induction k as [| k IH]; simpl; intros x q u Hx E.
        - inversion E; subst; assumption.
        - unfold Struct.addType in E.
          destruct (Struct.isPacked x);
            [| destruct (_ =? 0); [| destruct (_ =? 0)]];
            try (inversion E; subst; assumption);
            (eapply IH; [| exact E]); destruct x; assumption. }
      eapply G; [| exact E]. congruence.
  - destruct (Z.eqb_spec (FieldType.bits (Field.type f)) 0) as [E0 | E0].
    + simpl in H', H. destruct Hwf as (Hn & Ha).
      rewrite addType_exact in H' by assumption.
      rewrite addType_exact in H by (assumption || lia).
      destruct (next_offset_mono c' c _ Hpc Ha Hsc Hlc) as [H1 H2].
      inversion H'; inversion H; subst.
      match goal with |- context [Struct.set_size c' ?x] =>
        destruct (set_size_frame c' x) as (F1' & F2' & _) end.
      match goal with |- context [Struct.set_size c ?x] =>
        destruct (set_size_frame c x) as (F1 & F2 & F3) end.
      rewrite F1', F2', F1, F2, F3. repeat split; try congruence; lia.
    + exfalso. apply Hnb. split; [reflexivity | assumption].
Qed.

(** The state that [place_bitfield] leaves, exactly. *)
Lemma place_bitfield_exact :
  forall s f g t,
    Struct.place_bitfield s f = (Ok, g, t) ->
    let type := Field.type f in
    0 < FieldType.alignment type ->
    Struct.isPacked t = Struct.isPacked s /\
    Struct.lastBitfieldType t = Some type /\
    ((starts_group s type /\
      Struct.currBits t = FieldType.bits type /\
      exists o,
        Struct.lastBitfieldOffset t = Some o /\
        Struct.size t = o + FieldType.size type /\
        ((type_changes s type /\ o = next_offset s (FieldType.alignment type)) \/
         (~ type_changes s type /\ o = Struct.size s))) \/
     (~ starts_group s type /\
      Struct.currBits t = Struct.currBits s + FieldType.bits type /\
      Struct.size t = Struct.size s /\
      Struct.lastBitfieldOffset t = Struct.lastBitfieldOffset s)).
Proof.
  intros s f g t H type Ha.
  unfold Struct.place_bitfield in H. fold type in H.
  unfold starts_group, type_changes, next_offset, round_up.
  destruct s as [fl sz al cb lt lo pk ic]. simpl in *.
  destruct (FieldType.bits type <=? FieldType.size type * 8);
    simpl in H; [| discriminate].
  destruct (Z.eqb_spec (FieldType.alignment type) 0) as [| _]; [lia |].
  rewrite !andb_false_r in H.
  destruct lt as [last |].
  - destruct (Z.eqb_spec (FieldType.size last) (FieldType.size type)) as [E1 | E1];
      destruct (Z.eqb_spec (FieldType.alignment last) (FieldType.alignment type))
        as [E2 | E2];
      destruct (Z.gtb_spec (cb + FieldType.bits type) (8 * FieldType.size type))
        as [E3 | E3];
      destruct pk; simpl in H; inversion H; subst; clear H; simpl;
      (split; [reflexivity |]); (split; [reflexivity |]);
      first
        [ right; split; [lia |]; repeat split; reflexivity
        | left; split; [lia |]; split; [reflexivity |];
          eexists; split; [reflexivity |]; split; [reflexivity |];
          first [ left; split; [lia | lia]
                | right; split; [lia | lia] ] ].
  - simpl in H.
    destruct pk; simpl in H; inversion H; subst; clear H; simpl;
      (split; [reflexivity |]); (split; [reflexivity |]);
      (left; split; [exact I |]; split; [reflexivity |];
       eexists; split; [reflexivity |]; split; [reflexivity |];
       left; split; [exact I | lia]).
Qed.

Lemma next_offset_least :
  forall s' a m,
    0 < a -> 0 <= Struct.size s' -> Struct.size s' <= m ->
    (Struct.isPacked s' = false -> (a | m)) ->
    next_offset s' a <= m.
Proof.
  intros s' a m Ha Hs Hm Hd. unfold next_offset.
  destruct (Struct.isPacked s'); [assumption |].
  apply round_up_least; auto.
Qed.

Lemma continues_group :
  forall s type,
    ~ starts_group s type ->
    exists last,
      Struct.lastBitfieldType s = Some last /\
      FieldType.size last = FieldType.size type /\
      FieldType.alignment last = FieldType.alignment type /\
      Struct.currBits s + FieldType.bits type <= 8 * FieldType.size type.
Proof.
  intros s type H. unfold starts_group in H.
  destruct (Struct.lastBitfieldType s) as [last |]; [| tauto].
  exists last. split; [reflexivity |].
  destruct (Z.eq_dec (FieldType.size last) (FieldType.size type));
    destruct (Z.eq_dec (FieldType.alignment last) (FieldType.alignment type));
    tauto.
Qed.

Lemma same_type_group :
  forall s type,
    ~ type_changes s type ->
    exists last,
      Struct.lastBitfieldType s = Some last /\
      FieldType.size last = FieldType.size type /\
      FieldType.alignment last = FieldType.alignment type.
Proof.
  intros s type H. unfold type_changes in H.
  destruct (Struct.lastBitfieldType s) as [last |]; [| tauto].
  exists last. split; [reflexivity |].
  destruct (Z.eq_dec (FieldType.size last) (FieldType.size type));
    destruct (Z.eq_dec (FieldType.alignment last) (FieldType.alignment type));
    tauto.
Qed.

(** Where a new group is opened, compared with any state behind. *)
Lemma new_unit_ahead :
  forall s' s type o,
    Struct.isPacked s' = Struct.isPacked s ->
    0 <= Struct.size s' -> Struct.size s' <= Struct.size s ->
    0 < FieldType.alignment type ->
    group_aligned s ->
    (type_changes s type /\ o = next_offset s (FieldType.alignment type)) \/
    (~ type_changes s type /\ o = Struct.size s) ->
    Struct.size s <= o /\ next_offset s' (FieldType.alignment type) <= o.
Proof.
  intros s' s type o Hp Hs Hle Ha Hal [[_ ->] | [Hn ->]].
  - destruct (next_offset_mono s' s _ Hp Ha Hs Hle) as [H1 H2].
    destruct (next_offset_mono s s _ eq_refl Ha ltac:(lia) ltac:(lia)) as [H3 _].
    split; assumption.
  - split; [lia |]. apply next_offset_least; try assumption.
    intros Hnp. destruct (same_type_group s type Hn) as (last & L & _ & E).
    rewrite <- E. apply Hal; [congruence | assumption].
Qed.

(** A bitfield placed in two states of which one is behind the other. *)
Lemma place_bitfield_behind :
  forall s' s f' f g' t' g t,
    Struct.place_bitfield s' f' = (Ok, g', t') ->
    Struct.place_bitfield s f = (Ok, g, t) ->
    Field.type f' = Field.type f ->
    behind s' s -> group_ok s' -> group_ok s -> group_aligned s ->
    0 < FieldType.alignment (Field.type f) ->
    0 < FieldType.size (Field.type f) ->
    0 < FieldType.bits (Field.type f) ->
    behind t' t.
Proof.
  intros s' s f' f g' t' g t H' H Ht (Hp & Hle & Hb) [Hs' Hg'] [Hs Hg] Hal Ha Hu Hw.
  pose proof (place_bitfield_exact s' f' g' t' H') as X'. rewrite Ht in X'.
  destruct (X' Ha) as (P' & L' & C'). clear X'.
  destruct (place_bitfield_exact s f g t H Ha) as (P & L & C).
  set (type := Field.type f) in *.
  unfold behind. rewrite L. split; [congruence |].
  destruct C as [(N & Cb & o & Lo & Sz & Ho) | (N & Cb & Sz & Lo)].
  - destruct (new_unit_ahead s' s type o Hp Hs' Hle Ha Hal Ho) as [G1 G2].
    destruct C' as [(N' & Cb' & o' & Lo' & Sz' & Ho') | (N' & Cb' & Sz' & Lo')].
    + assert (o' <= o).
      { destruct Ho' as [[_ ->] | [_ ->]]; lia. }
      split; [lia |]. left. exists type. repeat split; try assumption. lia.
    + split; [lia |]. right. exists o. split; [assumption |].
      unfold next_offset in *. rewrite P', Sz'. assumption.
  - destruct (continues_group s type N) as (last & Ll & Ls & La & Lc).
    rewrite Ll in Hb, Hg. destruct Hg as (oL & Lo0 & HoL & Hunit & Hcb).
    destruct C' as [(N' & Cb' & o' & Lo' & Sz' & Ho') | (N' & Cb' & Sz' & Lo')].
    + destruct Hb as [(last' & Ll' & Ls' & La' & Lc') | (o0 & Lo1 & Hahead)].
      * exfalso. unfold starts_group in N'. rewrite Ll' in N'. lia.
      * rewrite Lo0 in Lo1. inversion Lo1; subst o0. rewrite La in Hahead.
        assert (o' <= oL).
        { destruct Ho' as [[_ ->] | [_ ->]]; [assumption |].
          destruct (next_offset_mono s' s' (FieldType.alignment type) eq_refl Ha Hs'
                      ltac:(lia)) as [G _]. lia. }
        split; [lia |]. left. exists type. repeat split; try assumption. lia.
    + split; [lia |].
      destruct Hb as [(last' & Ll' & Ls' & La' & Lc') | (o0 & Lo1 & Hahead)].
      * left. exists type. repeat split; try assumption. lia.
      * right. exists o0. split; [congruence |].
        unfold next_offset in *. rewrite P', Sz'. rewrite <- La. assumption.
Qed.

(** A bitfield placed in the state that is ahead only. *)
Lemma place_bitfield_ahead :
  forall s' s f g t,
    Struct.place_bitfield s f = (Ok, g, t) ->
    behind s' s -> 0 <= Struct.size s' -> group_ok s -> group_aligned s ->
    0 < FieldType.alignment (Field.type f) ->
    0 < FieldType.size (Field.type f) ->
    0 < FieldType.bits (Field.type f) ->
    behind s' t.
Proof.
  intros s' s f g t H (Hp & Hle & Hb) Hs' [Hs Hg] Hal Ha Hu Hw.
  destruct (place_bitfield_exact s f g t H Ha) as (P & L & C).
  set (type := Field.type f) in *.
  unfold behind. rewrite L. split; [congruence |].
  destruct C as [(N & Cb & o & Lo & Sz & Ho) | (N & Cb & Sz & Lo)].
  - destruct (new_unit_ahead s' s type o Hp Hs' Hle Ha Hal Ho) as [G1 G2].
    split; [lia |]. right. exists o. split; assumption.
  - destruct (continues_group s type N) as (last & Ll & Ls & La & Lc).
    rewrite Ll in Hb. split; [lia |].
    destruct Hb as [(last' & Ll' & Ls' & La' & Lc') | (o0 & Lo1 & Hahead)].
    + left. exists last'. repeat split; try congruence. lia.
    + right. exists o0. split; [congruence |]. rewrite <- La. assumption.
Qed.

Lemma c_type_bitfield :
  forall type,
    c_type ref type -> is_bitfield type ->
    0 < FieldType.alignment type /\ 0 < FieldType.size type /\
    0 < FieldType.bits type /\ (FieldType.alignment type | FieldType.size type).
Proof.
  intros type (Hwf & Hi & Hb1 & _ & Hd) Hb. pose proof Hb as [Hfl Hbits].
  unfold well_formed in Hwf. unfold unit_size, pass1_alignment in Hd.
  rewrite Hfl in Hwf, Hd. rewrite (Hb1 Hb) in Hd.
  destruct (Z.eqb_spec (FieldType.bits type) 0); [contradiction |].
  destruct Hwf as (W1 & W2 & W3 & _).
  destruct (Z.eqb_spec (FieldType.alignment type) 0); [lia |].
  simpl in Hd. repeat split; assumption.
Qed.

Lemma place_group_aligned :
  forall s f g t,
    Struct.place ref s f = (Ok, g, t) ->
    group_ok s -> group_aligned s -> c_type ref (Field.type f) ->
    group_aligned t.
Proof.
  intros s f g t H Hg Hal Hc.
  destruct (is_bitfield_dec (Field.type f)) as [Hb | Hb].
  - rewrite (place_bitfield_branch ref s f Hb) in H.
    destruct (c_type_bitfield _ Hc Hb) as (Ha & Hu & Hw & Hd).
    destruct (place_bitfield_exact s f g t H Ha) as (P & L & C).
    intros Hnp last Hl. rewrite L in Hl. inversion Hl; subst last.
    rewrite P in Hnp.
    destruct C as [(N & Cb & o & Lo & Sz & Ho) | (N & Cb & Sz & Lo)].
    + rewrite Sz. apply Z.divide_add_r; [| assumption].
      destruct Ho as [[_ ->] | [Hn ->]].
      * unfold next_offset. rewrite Hnp. apply round_up_spec; [assumption |].
        apply Hg.
      * destruct (same_type_group s _ Hn) as (last & Ll & _ & E).
        rewrite <- E. apply Hal; assumption.
    + destruct (continues_group s _ N) as (last & Ll & _ & E & _).
      rewrite Sz, <- E. apply Hal; assumption.
  - destruct Hg as [Hs _]. destruct Hc as [Hwf _].
    destruct (place_plain_spec ref s f Hs Hwf Hb) as (o & size' & E & _).
    rewrite E in H. inversion H; subst.
    intros _ last Hl. destruct s; discriminate.
Qed.

(** One step of the second loop, taken in two states of which one is
    behind the other, leaves them so. *)
Lemma place_behind :
  forall s' s f' f g' t' g t,
    Struct.place ref s' f' = (Ok, g', t') ->
    Struct.place ref s f = (Ok, g, t) ->
    Field.type f' = Field.type f ->
    behind s' s -> group_ok s' -> group_ok s -> group_aligned s ->
    c_type ref (Field.type f) ->
    behind t' t.
Proof.
  intros s' s f' f g' t' g t H' H Ht Hb Hg' Hg Hal Hc.
  destruct (is_bitfield_dec (Field.type f)) as [B | B].
  - rewrite (place_bitfield_branch ref s f B) in H.
    rewrite (place_bitfield_branch ref s' f') in H' by (rewrite Ht; exact B).
    destruct (c_type_bitfield _ Hc B) as (Ha & Hu & Hw & _).
    eapply place_bitfield_behind; eassumption.
  - destruct Hb as (Hp & Hle & _). destruct Hg' as [Hs' _]. destruct Hc as [Hwf _].
    destruct (place_plain_behind _ _ _ _ _ _ _ _ _ _ H' H Ht Hp Hs' Hle Hwf B)
      as (P & S & L).
    unfold behind. rewrite L. repeat split; assumption.
Qed.

(** The step that places the added field moves only the state ahead. *)
Lemma place_ahead :
  forall s' s f g t,
    Struct.place ref s f = (Ok, g, t) ->
    behind s' s -> 0 <= Struct.size s' -> group_ok s -> group_aligned s ->
    c_type ref (Field.type f) ->
    behind s' t.
Proof.
  intros s' s f g t H Hb Hs' Hg Hal Hc.
  destruct (is_bitfield_dec (Field.type f)) as [B | B].
  - rewrite (place_bitfield_branch ref s f B) in H.
    destruct (c_type_bitfield _ Hc B) as (Ha & Hu & Hw & _).
    eapply place_bitfield_ahead; eassumption.
  - destruct Hb as (Hp & Hle & _). destruct Hg as [Hs _]. destruct Hc as [Hwf _].
    destruct (place_plain_spec ref s f Hs Hwf B) as (o & size' & E & Ho & Hsz).
    rewrite E in H. inversion H; subst.
    unfold behind. destruct s; simpl in *. repeat split; try assumption. lia.
Qed.

Lemma place_all_behind :
  forall l' l s' s out' t' out t,
    Struct.place_all ref s' l' = (Ok, out', t') ->
    Struct.place_all ref s l = (Ok, out, t) ->
    same_types l' l -> c_types ref l ->
    behind s' s -> group_ok s' -> group_ok s -> group_aligned s ->
    behind t' t.
Proof.
  induction l' as [| [n' f'] rest' IH]; intros l s' s out' t' out t H' H HT Hc Hb
    Hg' Hg Hal; inversion HT as [| x y xs ys Hxy Hrest]; subst.
  - simpl in *. inversion H'; inversion H; subst. assumption.
  - destruct y as [n f]. simpl in Hxy. simpl in H', H.
    destruct (Struct.place ref s' f') as [[[| e'] g'] u'] eqn:E'; [| discriminate].
    destruct (Struct.place ref s f) as [[[| e] g] u] eqn:E; [| discriminate].
    destruct (Struct.place_all ref u' rest') as [[q' o'] v'] eqn:E2'.
    destruct (Struct.place_all ref u ys) as [[q o] v] eqn:E2.
    inversion H'; inversion H; subst.
    inversion Hc as [| z zs Hc1 Hc2]; subst. simpl in Hc1.
    assert (Hwf' : well_formed ref (Field.type f')) by (rewrite Hxy; apply Hc1).
    destruct (place_group_ok ref s' f' Ok g' u' E' Hg' Hwf' eq_refl) as (Gu' & _ & _).
    destruct (place_group_ok ref s f Ok g u E Hg ltac:(apply Hc1) eq_refl)
      as (Gu & _ & _).
    apply (IH ys u' u _ _ _ _ E2' E2 Hrest Hc2); try assumption.
    + eapply place_behind; eassumption.
    + eapply place_group_aligned; eassumption.
Qed.

Lemma place_all_group_aligned :
  forall l s out t,
    Struct.place_all ref s l = (Ok, out, t) ->
    c_types ref l -> group_ok s -> group_aligned s ->
    group_aligned t.
Proof.
  induction l as [| [n f] rest IH]; intros s out t H Hc Hg Hal.
  - simpl in H. inversion H; subst; assumption.
  - simpl in H.
    destruct (Struct.place ref s f) as [[[| e] g] u] eqn:E; [| discriminate].
    destruct (Struct.place_all ref u rest) as [[q o] v] eqn:E2.
    inversion H; subst.
    inversion Hc as [| z zs Hc1 Hc2]; subst. simpl in Hc1.
    destruct (place_group_ok ref s f Ok g u E Hg ltac:(apply Hc1) eq_refl)
      as (Gu & _ & _).
    apply (IH u _ _ E2 Hc2 Gu). eapply place_group_aligned; eassumption.
Qed.

(** A new key enters the table somewhere between two parts of it. *)
Lemma insert_index_splits :
  forall i name f (l : Fields.t),
    exists l1 l2, l = l1 ++ l2 /\ Fields.insert_index i name f l = l1 ++ (name, f) :: l2.
Proof.
  intros i name f. induction l as [| [k g] rest IH]; simpl.
  - exists [], []. split; reflexivity.
  - destruct (Fields.array_index k) as [j |].
    + destruct (j <? i)%N.
      * destruct IH as (l1 & l2 & E1 & E2).
        exists ((k, g) :: l1), l2. simpl. rewrite <- E1, E2. split; reflexivity.
      * exists [], ((k, g) :: rest). split; reflexivity.
    + exists [], ((k, g) :: rest). split; reflexivity.
Qed.

Lemma set_new_splits :
  forall name f (l : Fields.t),
    Fields.get name l = None ->
    exists l1 l2, l = l1 ++ l2 /\ Fields.set name f l = l1 ++ (name, f) :: l2.
Proof.
  intros name f l H. unfold Fields.set. rewrite H.
  destruct (Fields.array_index name) as [i |].
  - apply insert_index_splits.
  - exists l, []. split; [symmetry; apply app_nil_r | reflexivity].
Qed.

Lemma combine_alignment_swap :
  forall packed c a b,
    0 <= c -> 0 < a -> 0 < b ->
    combine_alignment packed (combine_alignment packed c a) b =
    combine_alignment packed (combine_alignment packed c b) a /\
    0 <= combine_alignment packed c b.
Proof.
  intros packed c a b Hc Ha Hb. unfold combine_alignment.
  destruct packed.
  - destruct (Z.eqb_spec c 0) as [-> | Hc0].
    + rewrite !Z.min_id.
      destruct (Z.eqb_spec a 0); [lia |]. destruct (Z.eqb_spec b 0); [lia |].
      split; lia.
    + destruct (Z.eqb_spec (Z.min c a) 0); [lia |].
      destruct (Z.eqb_spec (Z.min c b) 0); [lia |].
      split; lia.
  - split; lia.
Qed.

Lemma combine_alignment_insert :
  forall packed l c a,
    Forall (fun b => 0 < b) l -> 0 <= c -> 0 < a ->
    fold_left (combine_alignment packed) l (combine_alignment packed c a) =
    combine_alignment packed (fold_left (combine_alignment packed) l c) a.
Proof.
  intros packed l. induction l as [| b rest IH]; intros c a Hl Hc Ha; simpl.
  - reflexivity.
  - inversion Hl as [| x xs Hb Hrest]; subst.
    destruct (combine_alignment_swap packed c a b Hc Ha Hb) as [E Hn].
    rewrite E. apply IH; assumption.
Qed.

Lemma fold_alignment_nonneg :
  forall packed l c,
    Forall (fun b => 0 < b) l -> 0 <= c ->
    0 <= fold_left (combine_alignment packed) l c.
Proof.
  intros packed l. induction l as [| b rest IH]; intros c Hl Hc; simpl.
  - assumption.
  - inversion Hl as [| x xs Hb Hrest]; subst. apply IH; [assumption |].
    apply (combine_alignment_swap packed c b b Hc Hb Hb).
Qed.

Lemma same_run_behind :
  forall s s', same_run s s' -> behind s s'.
Proof.
  intros s s' (Hs & Hc & Hl & Hp & Ho). unfold behind.
  split; [assumption |]. split; [lia |].
  destruct (Struct.lastBitfieldType s') as [last |] eqn:E; [| exact I].
  left. exists last. repeat split; try assumption. lia.
Qed.

(** On a struct type that [recalc] has laid out, whose field types are C
    types (positive sizes, alignments that are powers of two and divide the
    sizes), a successful [defineProperty] that adds a field of such a type
    under a new name does not decrease the size, packed or not, wherever
    the new name enters the table. *)
Lemma defineProperty_grows :
  forall T0 T name type ty T',
    Struct.recalc ref T0 = (Ok, T) ->
    c_types ref (Struct.fields T) ->
    Ref.coerceType ref type = Some ty -> c_type ref ty ->
    Fields.get name (Struct.fields T) = None ->
    Struct.defineProperty ref T name type = (Ok, T') ->
    Struct.size T <= Struct.size T'.
Proof.
  intros T0 T name type ty T' Hr0 Hct Hco Hcty Hget Hdef.
  (* the layout of T *)
  destruct (recalc_Ok ref T0 T Hr0) as (l1 & s1 & Hp1 & HT).
  pose proof (place_all_types ref _ _ _ _ _ Hp1) as Hty.
  assert (Hf : Struct.fields T = l1).
  { subst T. rewrite addFinalPadding_fields. destruct s1; reflexivity. }
  rewrite Hf in *.
  pose proof (same_types_Forall (c_type ref) _ _ Hty Hct) as Hct0.
  pose proof (c_types_well_formed ref _ Hct0) as Hwf0.
  destruct (before_placing_ok ref T0) as (Hg0 & Hsz0 & Hpk0 & _).
  destruct (before_placing_state ref T0) as (Hcb0 & Hlt0 & Hal0).
  destruct (place_all_run ref _ _ _ _ Hp1 Hg0 Hwf0) as (Hg1 & Hm1 & _ & Hpk1).
  pose proof (place_all_alignment ref _ _ _ _ _ Hp1) as Hal1.
  (* the call *)
  unfold Struct.defineProperty in Hdef.
  destruct (Struct.internalDefineProperty ref T name type) as [[| e] T2] eqn:Ei;
    [| discriminate].
  unfold Struct.internalDefineProperty in Ei. rewrite Hco in Ei.
  destruct (Struct._instanceCreated T); [discriminate |].
  destruct (negb _); [discriminate |].
  inversion Ei; subst T2; clear Ei.
  rewrite Hf in Hdef.
  destruct (set_new_splits name (Field.fresh ty) l1 Hget) as (la & lb & Hl1 & Hset).
  rewrite Hset in Hdef.
  destruct (recalc_Ok ref _ T' Hdef) as (l2 & s2 & Hp2 & HT').
  set (T2 := Struct.set_fields T (la ++ (name, Field.fresh ty) :: lb)) in *.
  assert (Hf2 : Struct.fields T2 = la ++ (name, Field.fresh ty) :: lb)
    by (unfold T2; destruct T; reflexivity).
  assert (Hpk2 : Struct.isPacked T2 = Struct.isPacked T0).
  { unfold T2. rewrite HT.
    transitivity (Struct.isPacked
                    (Struct.addFinalPadding (Struct.set_fields s1 l1))).
    - destruct (Struct.addFinalPadding _); reflexivity.
    - rewrite addFinalPadding_packed. destruct s1; simpl in *. congruence. }
  rewrite Hf2 in Hp2.
  destruct (before_placing_ok ref T2) as (Hg2 & Hsz2 & Hpk2' & _).
  destruct (before_placing_state ref T2) as (Hcb2 & Hlt2 & Hal2).
  assert (HR : same_run (before_placing ref T0) (before_placing ref T2)).
  { unfold same_run. rewrite Hsz0, Hsz2, Hcb0, Hcb2, Hlt0, Hlt2, Hpk0, Hpk2', Hpk2.
    repeat split. intros C; contradiction. }
  (* the two runs, split where the new field enters *)
  clear Hf. subst l1.
  destruct (Forall2_app_inv_r _ _ Hty) as (la0 & lb0 & Hta & Htb & Hl0).
  rewrite Hl0 in Hp1.
  destruct (place_all_app ref _ _ _ _ _ Hp1) as (oa0 & m1 & ob0 & Ha1 & Hb1 & _).
  destruct (place_all_app ref _ _ _ _ _ Hp2) as (oa & m2 & ob & Ha2 & Hb2 & _).
  simpl in Hb2.
  destruct (Struct.place ref m2 (Field.fresh ty)) as [[[| e] gx] mx] eqn:Ex;
    [| discriminate].
  destruct (Struct.place_all ref mx lb) as [[q ob'] s2'] eqn:Hb3.
  inversion Hb2; subst q s2'. clear Hb2.
  apply Forall_app in Hct. destruct Hct as [Hca Hcb].
  rewrite Hl0 in Hct0.
  apply Forall_app in Hct0. destruct Hct0 as [Hca0 Hcb0'].
  pose proof (c_types_well_formed ref _ Hca) as Hwa.
  pose proof (c_types_well_formed ref _ Hca0) as Hwa0.
  destruct (place_all_same_run ref _ _ _ _ _ _ _ _ _ _ HR Hta Ha1 Ha2) as (_ & HRm).
  destruct (place_all_run ref _ _ _ _ Ha1 Hg0 Hwa0) as (Gm1 & _ & _ & _).
  destruct (place_all_run ref _ _ _ _ Ha2 Hg2 Hwa) as (Gm2 & _ & _ & _).
  assert (Al2 : group_aligned (before_placing ref T2)).
  { intros _ last Hl. rewrite Hlt2 in Hl. discriminate. }
  pose proof (place_all_group_aligned _ _ _ _ Ha2 Hca Hg2 Al2) as Alm2.
  assert (Bx : behind m1 mx).
  { apply (place_ahead m1 m2 _ _ _ Ex); try assumption.
    - apply same_run_behind; assumption.
    - apply Gm1. }
  destruct (place_group_ok ref m2 _ Ok gx mx Ex Gm2 ltac:(apply Hcty) eq_refl)
    as (Gmx & _ & _).
  pose proof (place_group_aligned _ _ _ _ Ex Gm2 Alm2 Hcty) as Almx.
  destruct (place_all_behind _ _ _ _ _ _ _ _ Hb1 Hb3 Htb Hcb Bx Gm1 Gmx Almx)
    as (_ & Hsize & _).
  pose proof (place_all_alignment ref _ _ _ _ _ Hp2) as Hal2'.
  (* the alignments *)
  assert (Hpows : Forall pow2
            (map (fun entry => pass1_alignment ref (Field.type (snd entry)))
                 (Struct.fields T0))).
  { rewrite Hl0, map_app. apply Forall_app. split; apply Forall_map.
    - eapply Forall_impl; [| exact Hca0]. intros e He. apply He.
    - eapply Forall_impl; [| exact Hcb0']. intros e He. apply He. }
  assert (Hpos : Forall (fun b => 0 < b)
            (map (fun entry => pass1_alignment ref (Field.type (snd entry)))
                 (Struct.fields T0))).
  { eapply Forall_impl; [| exact Hpows]. intros a Ha. apply pow2_pos; assumption. }
  assert (HA2 : Struct.alignment s2 =
                combine_alignment (Struct.isPacked s1) (Struct.alignment s1)
                  (pass1_alignment ref ty)).
  { rewrite Hal2', Hal2, Hf2, Hpk2, map_app, fold_left_app. simpl.
    rewrite Hal1, Hal0, Hpk1, Hpk0, Hl0, map_app, fold_left_app.
    rewrite <- (same_types_alignments ref _ _ Hta).
    rewrite <- (same_types_alignments ref _ _ Htb).
    rewrite Hl0, map_app in Hpos. apply Forall_app in Hpos.
    destruct Hpos as [Hpa Hpb].
    apply combine_alignment_insert; try assumption.
    - apply fold_alignment_nonneg; [assumption | lia].
    - apply pow2_pos. apply Hcty. }
  subst T T'.
  apply (padded_size_grows (Struct.set_fields s1 (la ++ lb))
           (Struct.set_fields s2 l2) (pass1_alignment ref ty)).
  - destruct Hg1 as [H _]. destruct s1; exact H.
  - destruct s1, s2; simpl in *. lia.
  - assert (Struct.isPacked s2 = Struct.isPacked s1).
    { pose proof (place_all_run ref _ _ _ _ Hp2 Hg2) as X.
      destruct X as (_ & _ & _ & X).
      - apply Forall_app. split; [assumption |].
        constructor; [apply Hcty | apply (c_types_well_formed ref _ Hcb)].
      - congruence. }
    destruct s1, s2; simpl in *. assumption.
  - replace (Struct.alignment (Struct.set_fields s1 (la ++ lb)))
      with (Struct.alignment s1) by (destruct s1; reflexivity).
    rewrite Hal1, Hal0. destruct (Struct.isPacked T0).
    + apply (min_alignment _ 0 Hpows). left; reflexivity.
    + apply (max_alignment _ 0 Hpows). left; reflexivity.
  - apply Hcty.
  - destruct s1, s2; simpl in *. exact HA2.
  - intros Hpacked.
    replace (Struct.alignment (Struct.set_fields s1 (la ++ lb)))
      with (Struct.alignment s1) by (destruct s1; reflexivity).
    replace (Struct.size (Struct.set_fields s1 (la ++ lb)))
      with (Struct.size s1) by (destruct s1; reflexivity).
    replace (Struct.isPacked (Struct.set_fields s1 (la ++ lb)))
      with (Struct.isPacked s1) in Hpacked by (destruct s1; reflexivity).
    rewrite Hpk1, Hpk0 in Hpacked.
    destruct (Z.eq_dec (Struct.alignment s1) 0) as [E | E]; [left; exact E | right].
    rewrite Hal1, Hal0, Hpacked in *.
    destruct (min_alignment _ 0 Hpows (or_introl eq_refl)) as (_ & _ & Hall).
    rewrite <- Hl0 in Hp1.
    apply (place_all_divides ref _ _ _ _ _ Hp1); try assumption.
    + rewrite Hsz0. apply Z.divide_0_r.
    + rewrite Forall_map in Hall.
      assert (Hc0 : c_types ref (Struct.fields T0))
        by (rewrite Hl0; apply Forall_app; split; assumption).
      unfold c_types in Hc0. rewrite Forall_forall in *. intros e He.
      apply Z.divide_trans with (pass1_alignment ref (Field.type (snd e)));
        [apply Hall; assumption | apply (Hc0 e He)].
Qed.
End Insertion.

(** C8, as stated, fails: in a packed struct whose only member is a custom
    type of size 1 without an alignment, the alignment falls back to that
    of a pointer and the size is padded to 8; adding a [char] lowers the
    alignment to 1 and the size to 2. *)
Lemma packed_size_shrinks :
  match Examples.packed_custom with
  | inl _ => False
  | inr T =>
      exists T',
        Struct.defineProperty Ref.napi T "y" (Ref.TypeName "char") = (Ok, T') /\
        Fields.get "y" (Struct.fields T) = None /\
        Struct.size T = 8 /\ Struct.alignment T = 8 /\
        Struct.size T' = 2 /\ Struct.alignment T' = 1
  end.
Proof.
  destruct Examples.packed_custom as [e | T] eqn:E; vm_compute in E;
    inversion E; subst.
  destruct (Struct.defineProperty Ref.napi _ "y" (Ref.TypeName "char")) as [r T']
    eqn:E'; vm_compute in E'; inversion E'; subst.
  eexists; split; [reflexivity |]. repeat split.
Qed.


(** The size can also go down when the layout at hand was computed for
    other types than the fields now have: the struct [outer] was laid out,
    with size 16, around a packed struct [inner] of 8 bytes that has since
    been given a [char]; all its types are C types, and declaring one more
    [char] takes its size to 11. *)
Lemma outdated_layout_shrinks :
  match Examples.outer_of_extended_inner with
  | inl _ => False
  | inr T =>
      exists T',
        Struct.defineProperty Ref.napi T "d" (Ref.TypeName "char") = (Ok, T') /\
        Fields.get "d" (Struct.fields T) = None /\
        Struct.size T = 16 /\ Struct.size T' = 11 /\
        map (fun entry => (FieldType.size (Field.type (snd entry)),
                           FieldType.alignment (Field.type (snd entry))))
            (Struct.fields T) = [(9, 1); (1, 1)]
  end.
Proof.
  destruct Examples.outer_of_extended_inner as [e | T] eqn:E; vm_compute in E;
    inversion E; subst.
  destruct (Struct.defineProperty Ref.napi _ "d" (Ref.TypeName "char")) as [r T']
    eqn:E'; vm_compute in E'; inversion E'; subst.
  eexists; split; [reflexivity |]. repeat split.
Qed.

(** * Further properties of the layout, the declarations and the instances *)

(** ** When [recalc] succeeds *)

Section Outcome.
Variable ref : Ref.Provider.

Lemma too_wide_dec : forall type, too_wide type \/ ~ too_wide type.
Proof.
  intros type. unfold too_wide.
  destruct (is_bitfield_dec type) as [H | H]; [| tauto].
  destruct (Z_gt_dec (FieldType.bits type) (8 * FieldType.size type)); tauto.
Qed.

Lemma place_bitfield_outcome :
  forall s f,
    well_formed ref (Field.type f) -> is_bitfield (Field.type f) ->
    (too_wide (Field.type f) ->
     Struct.place_bitfield s f = (Err BitfieldOverflowError, f, s)) /\
    (~ too_wide (Field.type f) ->
     exists g s', Struct.place_bitfield s f = (Ok, g, s')).
Proof.
  intros s f Hwf Hb. pose proof Hb as [Hfl Hbits].
  unfold well_formed in Hwf. rewrite Hfl in Hwf.
  destruct (Z.eqb_spec (FieldType.bits (Field.type f)) 0); [contradiction |].
  destruct Hwf as (Wb & Ws & Wa & Wt).
  unfold Struct.place_bitfield. split.
  - intros [_ Hw].
    destruct (Z.leb_spec (FieldType.bits (Field.type f)) (FieldType.size (Field.type f) * 8));
      [lia | reflexivity].
  - intros Hn.
    destruct (Z.leb_spec (FieldType.bits (Field.type f)) (FieldType.size (Field.type f) * 8));
      [| exfalso; apply Hn; split; [assumption | lia]].
    simpl negb. cbv iota.
    destruct (Z.eqb_spec (FieldType.alignment (Field.type f)) 0); [lia |].
    rewrite !andb_false_r. do 2 eexists. reflexivity.
Qed.

Lemma place_outcome :
  forall s f,
    group_ok s -> well_formed ref (Field.type f) ->
    (too_wide (Field.type f) ->
     exists g s', Struct.place ref s f = (Err BitfieldOverflowError, g, s')) /\
    (~ too_wide (Field.type f) ->
     exists g s', Struct.place ref s f = (Ok, g, s')).
Proof.
  intros s f Hg Hwf.
  destruct (is_bitfield_dec (Field.type f)) as [Hb | Hb].
  - rewrite (place_bitfield_branch ref s f Hb).
    destruct (place_bitfield_outcome s f Hwf Hb) as [H1 H2]. split.
    + intros H. rewrite (H1 H). do 2 eexists. reflexivity.
    + assumption.
  - split; [intros [H _]; contradiction |]. intros _.
    destruct Hg as [Hs _].
    destruct (place_plain_spec ref s f Hs Hwf Hb) as (o & size' & E & _).
    rewrite E. do 2 eexists. reflexivity.
Qed.

Lemma place_all_outcome :
  forall l s,
    group_ok s -> well_formed_fields ref l ->
    (Exists (fun e => too_wide (Field.type (snd e))) l ->
     exists l' s', Struct.place_all ref s l = (Err BitfieldOverflowError, l', s')) /\
    (Forall (fun e => ~ too_wide (Field.type (snd e))) l ->
     exists l' s', Struct.place_all ref s l = (Ok, l', s')).
Proof.
  induction l as [| [name f] rest IH]; intros s Hg Hwf.
  - split; [intros H; inversion H |]. intros _. do 2 eexists. reflexivity.
  - inversion Hwf as [| x xs Hwf1 Hwf2]; subst. simpl in Hwf1.
    destruct (place_outcome s f Hg Hwf1) as [Hbad Hgood].
    simpl Struct.place_all.
    destruct (too_wide_dec (Field.type f)) as [Hw | Hw].
    + destruct (Hbad Hw) as (g & s' & E). rewrite E. split.
      * intros _. do 2 eexists. reflexivity.
      * intros H. inversion H; subst. contradiction.
    + destruct (Hgood Hw) as (g & s1 & E). rewrite E.
      destruct (place_group_ok ref s f Ok g s1 E Hg Hwf1 eq_refl) as (Hg1 & _ & _).
      destruct (IH s1 Hg1 Hwf2) as [IH1 IH2]. split.
      * intros H. inversion H as [? ? H0 | ? ? H0]; subst; [contradiction |].
        destruct (IH1 H0) as (l' & s' & E2). rewrite E2.
        do 2 eexists. reflexivity.
      * intros H. inversion H; subst.
        destruct IH2 as (l' & s' & E2); [assumption |]. rewrite E2.
        do 2 eexists. reflexivity.
Qed.
End Outcome.

(** X1: for field types with positive sizes and alignments, [recalc] fails
    only on a bitfield declared wider than its type: it lays the table out
    when no bitfield has more bits than 8 times the size of its type, and
    raises the overflow error when one has. *)
Theorem recalc_fails_only_on_wide_bitfields :
  forall ref T,
    well_formed_fields ref (Struct.fields T) ->
    (Forall (fun e => ~ too_wide (Field.type (snd e))) (Struct.fields T) ->
     exists T', Struct.recalc ref T = (Ok, T')) /\
    (Exists (fun e => too_wide (Field.type (snd e))) (Struct.fields T) ->
     exists T', Struct.recalc ref T = (Err BitfieldOverflowError, T')).
Proof.
  intros ref T Hwf.
  destruct (before_placing_ok ref T) as (Hg & _ & _ & Hf).
  destruct (place_all_outcome ref (Struct.fields T) (before_placing ref T) Hg Hwf)
    as [Hbad Hgood].
  unfold Struct.recalc. cbv zeta. fold (before_placing ref T). rewrite Hf.
  split; intros H.
  - destruct (Hgood H) as (l' & s' & E). rewrite E. eexists. reflexivity.
  - destruct (Hbad H) as (l' & s' & E). rewrite E. eexists. reflexivity.
Qed.

(** ** Declarations that cannot be laid out *)

Section Unaligned.
Variable ref : Ref.Provider.

Lemma place_no_alignment :
  forall s f,
    Struct.isPacked s = false -> no_alignment (Field.type f) ->
    exists g s', Struct.place ref s f = (Err UnalignedLayoutError, g, s').
Proof.
  intros s f Hp (Hfl & Hb & Hi & Ha). unfold Struct.place.
  rewrite Hfl, Hb. simpl.
  unfold Struct.addType.
  replace (Struct.isPacked (Struct.clearBitfieldSettings s)) with false
    by (destruct s; simpl in *; congruence).
  unfold FieldType.indirection in Hi. unfold FieldType.alignment in Ha.
  rewrite Hi, Ha. simpl. do 2 eexists. reflexivity.
Qed.

Lemma place_all_no_alignment :
  forall l s name f,
    Struct.isPacked s = false -> In (name, f) l -> no_alignment (Field.type f) ->
    exists e l' s', Struct.place_all ref s l = (Err e, l', s').
Proof.
  induction l as [| [k g] rest IH]; intros s name f Hp Hin Hna; [contradiction |].
  simpl Struct.place_all.
  destruct (Struct.place ref s g) as [[[| e] g'] s1] eqn:E.
  - destruct Hin as [Heq | Hin].
    + inversion Heq; subst.
      destruct (place_no_alignment s f Hp Hna) as (g2 & s2 & E2). congruence.
    + pose proof (place_packed ref s g Ok g' s1 E) as Hp1.
      destruct (IH s1 name f ltac:(congruence) Hin Hna) as (e & l' & s' & E2).
      rewrite E2. do 3 eexists. reflexivity.
  - do 3 eexists. reflexivity.
Qed.
End Unaligned.

(** X2: a struct that is not packed cannot be laid out once it has a scalar
    member whose type gives no alignment: the first loop of [recalc] falls
    back to the alignment of a pointer, but [addType] pads with the
    alignment of the type itself, and its assertion fails. *)
Theorem missing_alignment_cannot_be_laid_out :
  forall ref T name f,
    Struct.isPacked T = false ->
    In (name, f) (Struct.fields T) ->
    no_alignment (Field.type f) ->
    exists e T', Struct.recalc ref T = (Err e, T').
Proof.
  intros ref T name f Hp Hin Hna.
  destruct (before_placing_ok ref T) as (_ & _ & Hpk & Hf).
  unfold Struct.recalc. cbv zeta. fold (before_placing ref T). rewrite Hf.
  destruct (place_all_no_alignment ref (Struct.fields T) (before_placing ref T)
              name f ltac:(congruence) Hin Hna) as (e & l' & s' & E).
  rewrite E. do 2 eexists. reflexivity.
Qed.

(** ** The alignment of a struct *)

Lemma fold_max_alignment :
  forall l a0,
    let A := fold_left (combine_alignment false) l a0 in
    a0 <= A /\ Forall (fun a => a <= A) l /\ (A = a0 \/ In A l).
Proof.
  induction l as [| a rest IH]; intros a0; simpl.
  - split; [lia |]. split; [constructor | left; reflexivity].
  - destruct (IH (combine_alignment false a0 a)) as (H1 & H2 & H3).
    change (combine_alignment false a0 a) with (Z.max a0 a) in *.
    split; [lia |]. split; [constructor; [lia | assumption] |].
    destruct H3 as [H3 | H3]; [| right; right; assumption].
    destruct (Z.le_gt_cases a0 a); [right; left | left]; lia.
Qed.

Lemma fold_min_alignment :
  forall l a0,
    Forall (fun a => 0 < a) l -> 0 <= a0 ->
    let A := fold_left (combine_alignment true) l a0 in
    (a0 = 0 \/ A <= a0) /\ Forall (fun a => A <= a) l /\ (A = a0 \/ In A l) /\
    (0 < a0 -> 0 < A).
Proof.
  induction l as [| a rest IH]; intros a0 Hl H0; cbv zeta; cbn [fold_left].
  - split; [right; lia |]. split; [constructor |]. split; [left; reflexivity | auto].
  - inversion Hl as [| x xs Ha Hrest]; subst.
    assert (Hm : 0 < combine_alignment true a0 a /\
                 combine_alignment true a0 a <= a /\
                 (a0 = 0 \/ combine_alignment true a0 a <= a0) /\
                 (combine_alignment true a0 a = a0 \/ combine_alignment true a0 a = a)).
    { unfold combine_alignment.
      destruct (Z.eqb_spec a0 0) as [-> | Hn].
      - rewrite Z.min_id. repeat split; try lia.
      - repeat split; try lia. }
    destruct Hm as (Hm0 & Hm1 & Hm2 & Hm3).
    set (m := combine_alignment true a0 a) in *. clearbody m.
    destruct (IH m Hrest ltac:(lia)) as (H1 & H2 & H3 & H4).
    set (A := fold_left (combine_alignment true) rest m) in *. clearbody A.
    split; [destruct Hm2; [left; assumption | right; destruct H1; lia] |].
    split; [constructor; [destruct H1; lia | assumption] |].
    split; [| intros _; apply H4; assumption].
    destruct H3 as [H3 | H3]; [| right; right; assumption].
    destruct Hm3 as [E | E]; [left | right; left]; congruence.
Qed.

Lemma addFinalPadding_alignment :
  forall s, Struct.alignment (Struct.addFinalPadding s) = Struct.alignment s.
Proof.
  intros s. unfold Struct.addFinalPadding.
  destruct (_ =? 0); [reflexivity |]. destruct (_ >? 0); destruct s; reflexivity.
Qed.

Lemma recalc_alignment :
  forall ref T T',
    Struct.recalc ref T = (Ok, T') ->
    Struct.alignment T' =
      fold_left (combine_alignment (Struct.isPacked T))
        (map (fun entry => pass1_alignment ref (Field.type (snd entry)))
             (Struct.fields T)) 0.
Proof.
  intros ref T T' Hr.
  destruct (recalc_Ok ref T T' Hr) as (l' & s1 & Hp & ->).
  rewrite addFinalPadding_alignment.
  destruct (before_placing_state ref T) as (_ & _ & Ha).
  rewrite <- Ha. rewrite <- (place_all_alignment ref _ _ _ _ _ Hp).
  destruct s1; reflexivity.
Qed.

(** X3: after [recalc], the alignment of a struct is 0 without fields and
    else the alignment of one of its fields: the largest one, or for a packed
    struct the smallest one.  The field alignments are those of the first
    loop, that of a pointer for an indirection above 1 or an alignment that
    is not given. *)
Theorem struct_alignment_is_extreme :
  forall ref T T',
    Struct.recalc ref T = (Ok, T') ->
    positive_alignments ref (Struct.fields T) ->
    (Struct.fields T = [] -> Struct.alignment T' = 0) /\
    (Struct.fields T <> [] ->
     exists name f,
       In (name, f) (Struct.fields T) /\
       Struct.alignment T' = pass1_alignment ref (Field.type f)) /\
    (forall name f,
       In (name, f) (Struct.fields T) ->
       if Struct.isPacked T
       then Struct.alignment T' <= pass1_alignment ref (Field.type f)
       else pass1_alignment ref (Field.type f) <= Struct.alignment T').
Proof.
  intros ref T T' Hr Hpos. rewrite (recalc_alignment ref T T' Hr).
  set (al := map (fun entry => pass1_alignment ref (Field.type (snd entry)))
               (Struct.fields T)).
  assert (Hal : Forall (fun a => 0 < a) al).
  { unfold al. apply Forall_map. exact Hpos. }
  assert (Hin : forall name f, In (name, f) (Struct.fields T) ->
                               In (pass1_alignment ref (Field.type f)) al).
  { intros name f H. unfold al.
    apply (in_map (fun entry => pass1_alignment ref (Field.type (snd entry))) _ _ H). }
  assert (Hex : forall A, In A al ->
                  exists name f, In (name, f) (Struct.fields T) /\
                                 A = pass1_alignment ref (Field.type f)).
  { intros A H. unfold al in H. apply in_map_iff in H.
    destruct H as ([name f] & E & H). exists name, f. split; [assumption |].
    symmetry; exact E. }
  assert (Hne : Struct.fields T <> [] -> al <> []).
  { unfold al. destruct (Struct.fields T); [congruence | discriminate]. }
  split; [| split].
  - intros E. unfold al. rewrite E. reflexivity.
  - intros H. specialize (Hne H).
    destruct (Struct.isPacked T).
    + destruct (fold_min_alignment al 0 Hal ltac:(lia)) as (_ & _ & [E | E] & _).
      * destruct al as [| a rest]; [congruence |]. exfalso.
        inversion Hal as [| x xs Ha Hrest]; subst. simpl in E.
        change (combine_alignment true 0 a) with (Z.min a a) in E.
        rewrite Z.min_id in E.
        destruct (fold_min_alignment rest a Hrest ltac:(lia)) as (_ & _ & _ & H4).
        specialize (H4 Ha). lia.
      * apply Hex. assumption.
    + destruct (fold_max_alignment al 0) as (_ & Hall & [E | E]).
      * destruct al as [| a rest]; [congruence |]. exfalso.
        inversion Hal as [| x xs Ha Hrest]; subst.
        inversion Hall; subst. lia.
      * apply Hex. assumption.
  - intros name f H. specialize (Hin name f H).
    destruct (Struct.isPacked T).
    + destruct (fold_min_alignment al 0 Hal ltac:(lia)) as (_ & Hall & _).
      rewrite Forall_forall in Hall. apply Hall. assumption.
    + destruct (fold_max_alignment al 0) as (_ & Hall & _).
      rewrite Forall_forall in Hall. apply Hall. assumption.
Qed.

(** ** Where the fields are *)

Section Extent.
Variable ref : Ref.Provider.

Lemma addType_loop_extent :
  forall n s type,
    0 <= Struct.size s ->
    0 < natural_size ref type -> 0 < natural_alignment ref type ->
    exists size',
      Struct.addType_loop ref n s type = (Ok, Struct.set_size s size') /\
      Struct.size s + Z.of_nat n * natural_size ref type <= size'.
Proof.
  induction n as [| n IH]; intros s type Hs Hn Ha.
  - exists (Struct.size s). split; [destruct s; reflexivity | lia].
  - cbn [Struct.addType_loop].
    destruct (addType_spec ref s type Hs Hn Ha) as (o & -> & Ho & _).
    destruct (IH (Struct.set_size s (o + natural_size ref type)) type)
      as (size' & -> & Hsize'); try assumption.
    + struct_simpl; lia.
    + exists size'. split; [destruct s; reflexivity |].
      struct_simpl. lia.
Qed.

Lemma next_offset_clear :
  forall s a,
    next_offset (Struct.clearBitfieldSettings s) a = next_offset s a.
Proof. intros s a. destruct s; reflexivity. Qed.

Lemma next_offset_spec :
  forall s a,
    0 <= Struct.size s -> 0 < a ->
    Struct.size s <= next_offset s a < Struct.size s + a /\
    (Struct.isPacked s = true -> next_offset s a = Struct.size s) /\
    (Struct.isPacked s = false -> next_offset s a mod a = 0).
Proof.
  intros s a Hs Ha. unfold next_offset.
  destruct (round_up_spec a (Struct.size s) Ha Hs) as [Hb Hd].
  destruct (Struct.isPacked s).
  - repeat split; try lia.
  - repeat split; try lia; try discriminate.
    intros _. apply Z.mod_divide; [lia | assumption].
Qed.

(** A field that is no bitfield is put at the next offset for its
    alignment, and the size moves past all its elements. *)
Lemma place_plain_exact :
  forall s f,
    0 <= Struct.size s ->
    well_formed ref (Field.type f) ->
    ~ is_bitfield (Field.type f) ->
    let o := next_offset s (offset_alignment ref (Field.type f)) in
    0 < offset_alignment ref (Field.type f) /\
    0 < unit_size ref (Field.type f) /\
    exists size',
      Struct.place ref s f =
        (Ok, Struct.with_offset f o,
         Struct.set_size (Struct.clearBitfieldSettings s) size') /\
      o + footprint ref (Field.type f) <= size' /\
      (FieldType.fixedLength (Field.type f) = None ->
       size' = o + unit_size ref (Field.type f)).
Proof.
  intros s f Hs Hwf Hnb. cbv zeta.
  unfold Struct.place, well_formed, is_bitfield, offset_alignment, footprint,
    count, unit_size in *.
  destruct (FieldType.fixedLength (Field.type f)) as [n |].
  - destruct Hwf as (Hb & Hn & Ha). rewrite Hb. simpl.
    split; [assumption |]. split; [assumption |].
    rewrite (addType_exact ref (Struct.clearBitfieldSettings s) _ Hs Hn Ha).
    rewrite next_offset_clear.
    set (a := natural_alignment ref (FieldType.type (Field.type f))) in *.
    set (u := natural_size ref (FieldType.type (Field.type f))) in *.
    destruct (next_offset_spec s a Hs Ha) as (Hb1 & _).
    destruct (addType_loop_extent (Z.to_nat (n - 1))
                (Struct.set_size (Struct.clearBitfieldSettings s)
                   (next_offset s a + u))
                (FieldType.type (Field.type f)))
      as (size' & -> & Hsize'); try assumption.
    + struct_simpl; lia.
    + exists size'. split; [destruct s; reflexivity |].
      split; [| discriminate]. fold u in Hsize'. struct_simpl.
      destruct (Z.max_spec n 1) as [[H1 ->] | [H1 ->]]; nia.
  - destruct (Z.eqb_spec (FieldType.bits (Field.type f)) 0) as [E | E].
    + simpl. destruct Hwf as (Hn & Ha).
      split; [assumption |]. split; [assumption |].
      rewrite (addType_exact ref (Struct.clearBitfieldSettings s) _ Hs Hn Ha).
      rewrite next_offset_clear.
      eexists. split; [reflexivity |]. split; [lia | reflexivity].
    + exfalso. apply Hnb. split; [reflexivity | assumption].
Qed.
End Extent.

Section Order.
Variable ref : Ref.Provider.

Lemma footprint_bitfield :
  forall type, is_bitfield type -> footprint ref type = FieldType.size type.
Proof.
  intros type [Hfl Hb]. unfold footprint, count, unit_size. rewrite Hfl.
  destruct (Z.eqb_spec (FieldType.bits type) 0); [contradiction | lia].
Qed.

Lemma footprint_scalar :
  forall type,
    FieldType.fixedLength type = None -> footprint ref type = unit_size ref type.
Proof.
  intros type Hfl. unfold footprint, count. rewrite Hfl. lia.
Qed.

Lemma footprint_pos :
  forall type, well_formed ref type -> 0 < footprint ref type.
Proof.
  intros type Hwf. unfold footprint, count, unit_size, well_formed in *.
  destruct (FieldType.fixedLength type) as [n |].
  - destruct Hwf as (_ & Hn & _). nia.
  - destruct (Z.eqb_spec (FieldType.bits type) 0); lia.
Qed.

Lemma ForallOrdPairs_snoc :
  forall (A : Type) (R : A -> A -> Prop) l x,
    ForallOrdPairs R l -> Forall (fun e => R e x) l ->
    ForallOrdPairs R (l ++ [x]).
Proof.
  intros A R. induction l as [| y l IH]; intros x Hl Hx; simpl.
  - constructor; constructor.
  - inversion Hl as [| y' l' Hy Hl']; subst.
    inversion Hx as [| y'' l'' Hyx Hx']; subst.
    constructor.
    + apply Forall_app. split; [assumption | constructor; [assumption | constructor]].
    + apply IH; assumption.
Qed.

Lemma ForallOrdPairs_nth :
  forall (A : Type) (R : A -> A -> Prop) l i j a b,
    ForallOrdPairs R l -> (i < j)%nat ->
    nth_error l i = Some a -> nth_error l j = Some b -> R a b.
Proof.
  intros A R. induction l as [| x l IH]; intros i j a b H Hij Ha Hb.
  - destruct i; discriminate.
  - inversion H as [| x' l' Hx Hl]; subst.
    destruct j as [| j]; [lia |]. simpl in Hb.
    destruct i as [| i].
    + simpl in Ha. inversion Ha; subst.
      rewrite Forall_forall in Hx. apply Hx. eapply nth_error_In; eassumption.
    + simpl in Ha. apply (IH i j a b Hl); [lia | assumption | assumption].
Qed.

(** One step of the second loop: the entries placed so far stay where they
    are, the new entry comes after them. *)
Lemma place_laid :
  forall s (D : Fields.t) f g t,
    Struct.place ref s f = (Ok, g, t) ->
    group_ok s -> Forall (fun e => laid ref s (snd e)) D ->
    well_formed ref (Field.type f) ->
    Forall (fun e => laid ref t (snd e)) D /\ laid ref t g /\
    Forall (fun e => in_order ref (snd e) g) D.
Proof.
  intros s D f g t H Hg HD Hwf.
  destruct (is_bitfield_dec (Field.type f)) as [Hb | Hb].
  - rewrite (place_bitfield_branch ref s f Hb) in H.
    pose proof Hb as [Hfl Hbits].
    destruct (place_bitfield_spec ref s f Ok g t H Hg Hwf Hbits Hfl eq_refl)
      as (o & b & -> & Hl & Hlo & Hcb & Hunit & Hmono & Ho & Hb0 & Hfit & Hfit'
          & Hnew & Hold).
    assert (Hcases :
              Struct.size s <= o \/
              (exists last,
                 Struct.lastBitfieldType s = Some last /\
                 Struct.lastBitfieldOffset s = Some o)).
    { destruct (starts_group_dec s (Field.type f)) as [Hs | Hs].
      - left. apply (Hnew Hs).
      - right. destruct (Hold Hs) as (? & _).
        destruct (continues_group s (Field.type f) Hs) as (last & ? & _).
        exists last. split; assumption. }
    split; [| split].
    + rewrite Forall_forall in *. intros e He.
      destruct (HD e He) as (oe & O & O0 & Oe & Hopen).
      exists oe. do 2 (split; [assumption |]). split; [lia |].
      intros last' ol' Hl' Hlo'. rewrite Hlo in Hlo'. inversion Hlo'; subst ol'.
      destruct Hcases as [Hfresh | (last & L & Lo)]; [left; lia |].
      apply (Hopen last o L Lo).
    + exists o. simpl. rewrite (footprint_bitfield _ Hb).
      do 2 (split; [first [reflexivity | assumption] |]). split; [lia |].
      intros last' ol' _ Hlo'. rewrite Hlo in Hlo'. inversion Hlo'; subst ol'.
      right. split; [assumption | reflexivity].
    + rewrite Forall_forall in *. intros e He.
      destruct (HD e He) as (oe & O & O0 & Oe & Hopen).
      exists oe, o. split; [assumption |]. split; [reflexivity |]. simpl.
      destruct Hcases as [Hfresh | (last & L & Lo)]; [left; lia |].
      destruct (Hopen last o L Lo) as [H1 | [H1 H2]]; [left; assumption |].
      right. split; [exact H1 | split; [exact Hb | exact H2]].
  - destruct Hg as [Hs _].
    destruct (place_plain_exact ref s f Hs Hwf Hb) as (Ha & Hu & size' & E & Hext & _).
    rewrite E in H. inversion H; subst; clear H.
    destruct (next_offset_spec s _ Hs Ha) as (Hno & _).
    pose proof (footprint_pos _ Hwf) as Hfp.
    set (o := next_offset s (offset_alignment ref (Field.type f))) in *.
    split; [| split].
    + rewrite Forall_forall in *. intros e He.
      destruct (HD e He) as (oe & O & O0 & Oe & Hopen).
      exists oe. do 2 (split; [assumption |]). struct_simpl.
      split; [lia |]. intros last ol Hlast. discriminate.
    + exists o. simpl. do 2 (split; [first [reflexivity | lia] |]).
      struct_simpl. split; [lia |]. intros last ol Hlast. discriminate.
    + rewrite Forall_forall in *. intros e He.
      destruct (HD e He) as (oe & O & O0 & Oe & Hopen).
      exists oe, o. split; [assumption |]. split; [reflexivity |].
      left. lia.
Qed.

Lemma place_all_laid :
  forall l s (D : Fields.t) l' t,
    Struct.place_all ref s l = (Ok, l', t) ->
    group_ok s -> Forall (fun e => laid ref s (snd e)) D ->
    ForallOrdPairs (fun e1 e2 => in_order ref (snd e1) (snd e2)) D ->
    well_formed_fields ref l ->
    Forall (fun e => laid ref t (snd e)) (D ++ l') /\
    ForallOrdPairs (fun e1 e2 => in_order ref (snd e1) (snd e2)) (D ++ l').
Proof.
  induction l as [| [name f] rest IH]; intros s D l' t H Hg HD HO Hwf.
  - simpl in H. inversion H; subst. rewrite app_nil_r. split; assumption.
  - simpl in H.
    destruct (Struct.place ref s f) as [[[| e] g] s1] eqn:E; [| discriminate].
    destruct (Struct.place_all ref s1 rest) as [[r rest'] s2] eqn:E2.
    inversion H; subst; clear H.
    inversion Hwf as [| x xs Hwf1 Hwf2]; subst. simpl in Hwf1.
    destruct (place_group_ok ref s f Ok g s1 E Hg Hwf1 eq_refl) as (Hg1 & _ & _).
    destruct (place_laid s D f g s1 E Hg HD Hwf1) as (HD1 & Hg' & Hc).
    replace (D ++ (name, g) :: rest') with ((D ++ [(name, g)]) ++ rest')
      by (rewrite <- app_assoc; reflexivity).
    apply (IH s1 (D ++ [(name, g)]) rest' t E2 Hg1).
    + apply Forall_app. split; [assumption | constructor; [assumption | constructor]].
    + apply ForallOrdPairs_snoc; assumption.
    + assumption.
Qed.

Lemma addFinalPadding_set_fields :
  forall s l,
    Struct.size (Struct.addFinalPadding (Struct.set_fields s l)) =
    Struct.size (Struct.addFinalPadding s).
Proof.
  intros s l. unfold Struct.addFinalPadding. destruct s; simpl.
  destruct (_ =? 0); [reflexivity |]. destruct (_ >? 0); reflexivity.
Qed.

Lemma recalc_laid :
  forall T T',
    Struct.recalc ref T = (Ok, T') ->
    well_formed_fields ref (Struct.fields T) ->
    exists s1,
      group_ok s1 /\
      Struct.isPacked s1 = Struct.isPacked T /\
      Struct.size T' = Struct.size (Struct.addFinalPadding s1) /\
      Struct.alignment T' = Struct.alignment s1 /\
      Forall (fun e => laid ref s1 (snd e)) (Struct.fields T') /\
      ForallOrdPairs (fun e1 e2 => in_order ref (snd e1) (snd e2)) (Struct.fields T').
Proof.
  intros T T' Hr Hwf.
  destruct (recalc_Ok ref T T' Hr) as (l' & s1 & Hp & ->).
  destruct (before_placing_ok ref T) as (Hg & _ & Hpk & _).
  destruct (place_all_laid _ _ [] _ _ Hp Hg) as [H1 H2];
    try assumption; try constructor.
  destruct (place_all_run ref _ _ _ _ Hp Hg Hwf) as (Hg1 & _ & _ & Hpk1).
  rewrite addFinalPadding_fields, addFinalPadding_alignment. exists s1.
  replace (Struct.fields (Struct.set_fields s1 l')) with l' by (destruct s1; reflexivity).
  split; [assumption |]. split; [congruence |].
  split; [apply addFinalPadding_set_fields |]. split; [destruct s1; reflexivity |].
  split; assumption.
Qed.

Lemma recalc_alignment_nonneg :
  forall T T',
    Struct.recalc ref T = (Ok, T') ->
    positive_alignments ref (Struct.fields T) ->
    0 <= Struct.alignment T' /\
    (Struct.fields T <> [] -> 0 < Struct.alignment T').
Proof.
  intros T T' Hr Hpos. rewrite (recalc_alignment ref T T' Hr).
  set (al := map (fun entry => pass1_alignment ref (Field.type (snd entry)))
               (Struct.fields T)).
  assert (Hal : Forall (fun a => 0 < a) al) by (apply Forall_map; exact Hpos).
  split.
  - apply fold_alignment_nonneg; [assumption | lia].
  - intros Hne.
    assert (Hne' : al <> []).
    { unfold al. destruct (Struct.fields T); [congruence | discriminate]. }
    destruct al as [| a rest]; [congruence |].
    inversion Hal as [| x xs Ha Hrest]; subst. cbn [fold_left].
    destruct (Struct.isPacked T).
    + change (combine_alignment true 0 a) with (Z.min a a). rewrite Z.min_id.
      destruct (fold_min_alignment rest a Hrest ltac:(lia)) as (_ & _ & _ & H4).
      apply H4. assumption.
    + destruct (fold_max_alignment rest (combine_alignment false 0 a)) as (H1 & _).
      change (combine_alignment false 0 a) with (Z.max 0 a) in *. lia.
Qed.
End Order.

(** X4: after [recalc], every field has an offset that is not negative, and
    all its bytes (all its elements for an array, its storage unit for a
    bitfield) lie below the size of the struct. *)
Theorem fields_lie_inside_the_struct :
  forall ref T T' name g,
    Struct.recalc ref T = (Ok, T') ->
    well_formed_fields ref (Struct.fields T) ->
    positive_alignments ref (Struct.fields T) ->
    Fields.get name (Struct.fields T') = Some g ->
    exists o,
      Field.offset g = Some o /\ 0 <= o /\
      o + footprint ref (Field.type g) <= Struct.size T'.
Proof.
  intros ref T T' name g Hr Hwf Hpos Hget.
  destruct (recalc_laid ref T T' Hr Hwf) as (s1 & Hg1 & _ & Hsz & Hal & Hl & _).
  destruct (recalc_alignment_nonneg ref T T' Hr Hpos) as [Ha _].
  rewrite Forall_forall in Hl.
  destruct (Hl _ (get_In _ _ _ Hget)) as (o & O & O0 & Oe & _). simpl in *.
  exists o. do 2 (split; [assumption |]).
  destruct Hg1 as [Hs1 _].
  destruct (final_size_bounds s1 Hs1 ltac:(lia)) as (Hb & _). lia.
Qed.

(** X5: the fields are laid out in the order of the table: of two fields,
    the later one starts at or after the end of the earlier one, unless both
    are bitfields of one storage unit, which have the same offset. *)
Theorem fields_follow_the_table_order :
  forall ref T T' i j n1 g1 n2 g2,
    Struct.recalc ref T = (Ok, T') ->
    well_formed_fields ref (Struct.fields T) ->
    (i < j)%nat ->
    nth_error (Struct.fields T') i = Some (n1, g1) ->
    nth_error (Struct.fields T') j = Some (n2, g2) ->
    exists o1 o2,
      Field.offset g1 = Some o1 /\ Field.offset g2 = Some o2 /\ 0 <= o1 /\
      (o1 + footprint ref (Field.type g1) <= o2 \/
       (is_bitfield (Field.type g1) /\ is_bitfield (Field.type g2) /\ o1 = o2)).
Proof.
  intros ref T T' i j n1 g1 n2 g2 Hr Hwf Hij H1 H2.
  destruct (recalc_laid ref T T' Hr Hwf) as (s1 & _ & _ & _ & _ & Hl & Hord).
  pose proof (ForallOrdPairs_nth _ _ _ i j _ _ Hord Hij H1 H2) as (o1 & o2 & O1 & O2 & H).
  simpl in *. exists o1, o2. do 2 (split; [assumption |]). split; [| assumption].
  rewrite Forall_forall in Hl.
  destruct (Hl _ (nth_error_In _ _ H1)) as (o & O & O0 & _). simpl in O.
  congruence.
Qed.

Section Alignment.
Variable ref : Ref.Provider.

Lemma offset_alignment_bitfield :
  forall type,
    is_bitfield type -> offset_alignment ref type = FieldType.alignment type.
Proof.
  intros type [Hfl Hb]. unfold offset_alignment. rewrite Hfl.
  destruct (Z.eqb_spec (FieldType.bits type) 0); [contradiction | reflexivity].
Qed.

Lemma unit_size_bitfield :
  forall type, is_bitfield type -> unit_size ref type = FieldType.size type.
Proof.
  intros type [Hfl Hb]. unfold unit_size. rewrite Hfl.
  destruct (Z.eqb_spec (FieldType.bits type) 0); [contradiction | reflexivity].
Qed.

(** One step of the second loop in a struct that is not packed: the offset
    given to the field is a multiple of its alignment. *)
Lemma place_aligned :
  forall s f g t,
    Struct.place ref s f = (Ok, g, t) ->
    Struct.isPacked s = false ->
    group_ok s -> group_aligned s -> unit_aligned s ->
    c_type ref (Field.type f) ->
    unit_aligned t /\
    0 < offset_alignment ref (Field.type f) /\
    exists o, Field.offset g = Some o /\ (offset_alignment ref (Field.type f) | o).
Proof.
  intros s f g t H Hp Hg Hga Hua Hc. pose proof Hc as (Hwf & _).
  destruct (is_bitfield_dec (Field.type f)) as [Hb | Hb].
  - rewrite (place_bitfield_branch ref s f Hb) in H.
    pose proof Hb as [Hfl Hbits].
    destruct (c_type_bitfield ref _ Hc Hb) as (Ha & Hs & Hbs & Hdiv).
    destruct (place_bitfield_spec ref s f Ok g t H Hg Hwf Hbits Hfl eq_refl)
      as (o & b & Eg & Hl & Hlo & _ & _ & _ & _ & _ & _ & _ & Hnew & Hold).
    destruct (place_bitfield_exact s f g t H Ha) as (_ & _ & Hcases).
    rewrite (offset_alignment_bitfield _ Hb).
    assert (Hd : (FieldType.alignment (Field.type f) | o)).
    { destruct Hcases as [(Hs1 & _ & o' & Hlo' & _ & Hwhere) | (Hs1 & _)].
      - rewrite Hlo in Hlo'. inversion Hlo'; subst o'.
        destruct Hwhere as [[Htc _] | [Htc Ho]].
        + destruct (Hnew Hs1) as (_ & _ & Hm). apply Z.mod_divide; [lia |].
          apply Hm; assumption.
        + destruct (same_type_group s _ Htc) as (last & L & _ & La).
          rewrite Ho, <- La. apply (Hga Hp last L).
      - destruct (Hold Hs1) as (Hlo' & _).
        destruct (continues_group s _ Hs1) as (last & L & _ & La & _).
        rewrite <- La. apply (Hua Hp last o L Hlo'). }
    split; [| split; [assumption |]].
    + intros _ last o' Hl' Hlo'. rewrite Hl in Hl'. rewrite Hlo in Hlo'.
      inversion Hl'; inversion Hlo'; subst. assumption.
    + exists o. subst g. split; [reflexivity | assumption].
  - destruct Hg as [Hs _].
    destruct (place_plain_exact ref s f Hs Hwf Hb) as (Ha & Hu & size' & E & _).
    rewrite E in H. inversion H; subst; clear H.
    destruct (next_offset_spec s _ Hs Ha) as (_ & _ & Hm).
    split; [| split; [assumption |]].
    + intros _ last o' Hl'. struct_simpl. discriminate.
    + eexists. split; [reflexivity |]. apply Z.mod_divide; [lia |]. apply Hm. assumption.
Qed.

Lemma place_all_aligned :
  forall l s l' t,
    Struct.place_all ref s l = (Ok, l', t) ->
    Struct.isPacked s = false ->
    group_ok s -> group_aligned s -> unit_aligned s ->
    c_types ref l ->
    Forall (fun e =>
              0 < offset_alignment ref (Field.type (snd e)) /\
              exists o, Field.offset (snd e) = Some o /\
                        (offset_alignment ref (Field.type (snd e)) | o)) l'.
Proof.
  induction l as [| [name f] rest IH]; intros s l' t H Hp Hg Hga Hua Hc.
  - simpl in H. inversion H; subst. constructor.
  - simpl in H.
    destruct (Struct.place ref s f) as [[[| e] g] s1] eqn:E; [| discriminate].
    destruct (Struct.place_all ref s1 rest) as [[r rest'] s2] eqn:E2.
    inversion H; subst; clear H.
    inversion Hc as [| x xs Hc1 Hc2]; subst. simpl in Hc1.
    pose proof Hc1 as (Hwf1 & _).
    destruct (place_group_ok ref s f Ok g s1 E Hg Hwf1 eq_refl) as (Hg1 & _ & Hty).
    pose proof (place_group_aligned ref s f g s1 E Hg Hga Hc1) as Hga1.
    pose proof (place_packed ref s f Ok g s1 E) as Hp1.
    destruct (place_aligned s f g s1 E Hp Hg Hga Hua Hc1) as (Hua1 & Ha & Ho).
    constructor.
    + simpl. rewrite Hty. split; assumption.
    + apply (IH s1 rest' t E2); try assumption. congruence.
Qed.

(** After a field that is no array, the size is the end of the field. *)
Lemma place_end :
  forall s f g t,
    Struct.place ref s f = (Ok, g, t) ->
    group_ok s -> well_formed ref (Field.type f) ->
    FieldType.fixedLength (Field.type f) = None ->
    exists o,
      Field.offset g = Some o /\
      Struct.size t = o + unit_size ref (Field.type f) /\
      (~ is_bitfield (Field.type f) -> Struct.lastBitfieldType t = None).
Proof.
  intros s f g t H Hg Hwf Hfl.
  destruct (is_bitfield_dec (Field.type f)) as [Hb | Hb].
  - rewrite (place_bitfield_branch ref s f Hb) in H.
    pose proof Hb as [_ Hbits].
    destruct (place_bitfield_spec ref s f Ok g t H Hg Hwf Hbits Hfl eq_refl)
      as (o & b & Eg & _ & _ & _ & Hunit & _).
    exists o. subst g. split; [reflexivity |].
    rewrite (unit_size_bitfield _ Hb). split; [lia | contradiction].
  - destruct Hg as [Hs _].
    destruct (place_plain_exact ref s f Hs Hwf Hb) as (_ & _ & size' & E & _ & Hsz).
    rewrite E in H. inversion H; subst; clear H.
    eexists. split; [reflexivity |]. struct_simpl.
    split; [apply Hsz; assumption | reflexivity].
Qed.

(** A field that does not continue a storage unit is put at the next
    offset for its alignment. *)
Lemma place_after :
  forall s f g t,
    Struct.place ref s f = (Ok, g, t) ->
    group_ok s -> well_formed ref (Field.type f) ->
    (is_bitfield (Field.type f) -> Struct.lastBitfieldType s = None) ->
    0 < offset_alignment ref (Field.type f) /\
    Field.offset g = Some (next_offset s (offset_alignment ref (Field.type f))).
Proof.
  intros s f g t H Hg Hwf Hnone.
  destruct (is_bitfield_dec (Field.type f)) as [Hb | Hb].
  - rewrite (place_bitfield_branch ref s f Hb) in H.
    pose proof Hb as [Hfl Hbits]. specialize (Hnone Hb).
    assert (Ha : 0 < FieldType.alignment (Field.type f)).
    { unfold well_formed in Hwf. rewrite Hfl in Hwf.
      destruct (Z.eqb_spec (FieldType.bits (Field.type f)) 0); [contradiction | lia]. }
    destruct (place_bitfield_spec ref s f Ok g t H Hg Hwf Hbits Hfl eq_refl)
      as (o & b & Eg & _ & Hlo & _).
    destruct (place_bitfield_exact s f g t H Ha) as (_ & _ & Hcases).
    rewrite (offset_alignment_bitfield _ Hb). split; [assumption |].
    assert (Htc : type_changes s (Field.type f))
      by (unfold type_changes; rewrite Hnone; exact I).
    assert (Hsg : starts_group s (Field.type f))
      by (unfold starts_group; rewrite Hnone; exact I).
    destruct Hcases as [(_ & _ & o' & Hlo' & _ & Hwhere) | (Hs1 & _)];
      [| contradiction].
    rewrite Hlo in Hlo'. inversion Hlo'; subst o'.
    destruct Hwhere as [[_ Ho] | [Hn _]]; [| contradiction].
    subst g. simpl. congruence.
  - destruct Hg as [Hs _].
    destruct (place_plain_exact ref s f Hs Hwf Hb) as (Ha & _ & size' & E & _).
    rewrite E in H. inversion H; subst; clear H.
    split; [assumption | reflexivity].
Qed.
End Alignment.

(** X6: in a struct that is not packed and whose field types are C types,
    the offset of every field is a multiple of the alignment of its type (of
    the element type for an array, of a pointer for an indirection other
    than 1). *)
Theorem offsets_are_aligned :
  forall ref T T' name g,
    Struct.recalc ref T = (Ok, T') ->
    Struct.isPacked T = false ->
    c_types ref (Struct.fields T) ->
    Fields.get name (Struct.fields T') = Some g ->
    exists o,
      Field.offset g = Some o /\
      o mod offset_alignment ref (Field.type g) = 0.
Proof.
  intros ref T T' name g Hr Hp Hc Hget.
  destruct (recalc_Ok ref T T' Hr) as (l' & s1 & Hpl & ->).
  destruct (before_placing_ok ref T) as (Hg & _ & Hpk & _).
  destruct (before_placing_state ref T) as (_ & Hnone & _).
  assert (Hall := place_all_aligned ref _ _ _ _ Hpl ltac:(congruence) Hg).
  rewrite addFinalPadding_fields in Hget.
  replace (Struct.fields (Struct.set_fields s1 l')) with l' in Hget
    by (destruct s1; reflexivity).
  rewrite Forall_forall in Hall.
  destruct (Hall ltac:(intros _ last; congruence) ltac:(intros _ last o; congruence) Hc
              _ (get_In _ _ _ Hget)) as (Ha & o & Ho & Hd).
  simpl in *. exists o. split; [assumption |].
  apply Z.mod_divide; [lia | assumption].
Qed.

(** X7: when the last field of the table is not an array, the size of the
    struct is the end of that field rounded up to the alignment of the
    struct: a multiple of the alignment, less than one alignment past the
    end. *)
Theorem size_is_the_padded_end :
  forall ref T T' l0 name f,
    Struct.recalc ref T = (Ok, T') ->
    well_formed_fields ref (Struct.fields T) ->
    positive_alignments ref (Struct.fields T) ->
    Struct.fields T = l0 ++ [(name, f)] ->
    FieldType.fixedLength (Field.type f) = None ->
    exists l0' g o,
      Struct.fields T' = l0' ++ [(name, g)] /\
      Field.offset g = Some o /\
      0 < Struct.alignment T' /\
      Struct.size T' mod Struct.alignment T' = 0 /\
      o + unit_size ref (Field.type f) <= Struct.size T' /\
      Struct.size T' < o + unit_size ref (Field.type f) + Struct.alignment T'.
Proof.
  intros ref T T' l0 name f Hr Hwf Hpos Hl Hfl.
  destruct (recalc_alignment_nonneg ref T T' Hr Hpos) as [_ Ha].
  specialize (Ha ltac:(rewrite Hl; destruct l0; discriminate)).
  destruct (recalc_Ok ref T T' Hr) as (l' & s1 & Hpl & ->).
  destruct (before_placing_ok ref T) as (Hg & _ & _ & _).
  rewrite Hl in Hpl.
  destruct (place_all_app ref _ _ _ _ _ Hpl) as (l1' & s0 & l2' & P1 & P2 & ->).
  assert (Hwf' : well_formed_fields ref l0 /\ well_formed ref (Field.type f)).
  { rewrite Hl in Hwf. apply Forall_app in Hwf. destruct Hwf as [H1 H2].
    inversion H2; subst. split; assumption. }
  destruct Hwf' as [Hwf0 Hwff].
  destruct (place_all_run ref _ _ _ _ P1 Hg Hwf0) as (Hg0 & _).
  simpl in P2.
  destruct (Struct.place ref s0 f) as [[[| e] g] s2] eqn:E; [| discriminate].
  inversion P2; subst; clear P2.
  destruct (place_end ref s0 f g s1 E Hg0 Hwff Hfl) as (o & Ho & Hsz & _).
  destruct (place_group_ok ref s0 f Ok g s1 E Hg0 Hwff eq_refl) as ([Hs1 _] & _).
  rewrite addFinalPadding_alignment in *.
  rewrite addFinalPadding_fields, addFinalPadding_set_fields.
  replace (Struct.alignment (Struct.set_fields s1 (l1' ++ [(name, g)])))
    with (Struct.alignment s1) in * by (destruct s1; reflexivity).
  replace (Struct.fields (Struct.set_fields s1 (l1' ++ [(name, g)])))
    with (l1' ++ [(name, g)]) by (destruct s1; reflexivity).
  destruct (final_size_bounds s1 Hs1 ltac:(lia)) as (Hb1 & _ & Hb2).
  destruct (Hb2 Ha) as [Hd Hlt].
  exists l1', g, o. split; [reflexivity |]. split; [assumption |].
  split; [assumption |].
  split; [apply Z.mod_divide; [lia | assumption] |]. lia.
Qed.

(** X8: a field that comes right after a field that is no array, the two
    not being both bitfields, starts at the end of its predecessor in a
    packed struct, and else at the first multiple of its alignment at or
    after that end. *)
Theorem field_follows_its_predecessor :
  forall ref T T' i n1 f1 n2 f2,
    Struct.recalc ref T = (Ok, T') ->
    well_formed_fields ref (Struct.fields T) ->
    nth_error (Struct.fields T) i = Some (n1, f1) ->
    nth_error (Struct.fields T) (S i) = Some (n2, f2) ->
    FieldType.fixedLength (Field.type f1) = None ->
    ~ (is_bitfield (Field.type f1) /\ is_bitfield (Field.type f2)) ->
    exists g1 g2 o1 o2,
      nth_error (Struct.fields T') i = Some (n1, g1) /\
      nth_error (Struct.fields T') (S i) = Some (n2, g2) /\
      Field.offset g1 = Some o1 /\ Field.offset g2 = Some o2 /\
      let e := o1 + unit_size ref (Field.type f1) in
      let a := offset_alignment ref (Field.type f2) in
      (Struct.isPacked T = true -> o2 = e) /\
      (Struct.isPacked T = false -> e <= o2 < e + a /\ o2 mod a = 0).
Proof.
  intros ref T T' i n1 f1 n2 f2 Hr Hwf N1 N2 Hfl Hnot.
  destruct (recalc_Ok ref T T' Hr) as (l' & s1 & Hp & ->).
  destruct (before_placing_ok ref T) as (Hg & _ & Hpk & _).
  destruct (place_all_neighbours ref _ _ _ _ i n1 f1 n2 f2 Hp Hg Hwf N1 N2)
    as (sa & g1 & sb & g2 & sc & Hga & Hpa & E1 & E2 & M1 & M2).
  assert (W1 : well_formed ref (Field.type f1)).
  { apply nth_error_In in N1. unfold well_formed_fields in Hwf.
    rewrite Forall_forall in Hwf. apply (Hwf _ N1). }
  assert (W2 : well_formed ref (Field.type f2)).
  { apply nth_error_In in N2. unfold well_formed_fields in Hwf.
    rewrite Forall_forall in Hwf. apply (Hwf _ N2). }
  destruct (place_group_ok ref sa f1 Ok g1 sb E1 Hga W1 eq_refl) as (Hgb & _ & _).
  pose proof (place_packed ref sa f1 Ok g1 sb E1) as Hpb.
  destruct (place_end ref sa f1 g1 sb E1 Hga W1 Hfl) as (o1 & O1 & Hsz & Hnone).
  destruct (place_after ref sb f2 g2 sc E2 Hgb W2) as (Ha & O2).
  { intros B2. apply Hnone. intros B1. apply Hnot. split; assumption. }
  rewrite addFinalPadding_fields.
  replace (Struct.fields (Struct.set_fields s1 l')) with l' by (destruct s1; reflexivity).
  exists g1, g2, o1, (next_offset sb (offset_alignment ref (Field.type f2))).
  do 4 (split; [assumption |]). cbv zeta.
  destruct Hgb as [Hsb _].
  destruct (next_offset_spec sb _ Hsb Ha) as (Hb & Hpk1 & Hnp).
  rewrite <- Hsz. split.
  - intros P. apply Hpk1. congruence.
  - intros P. split; [assumption |]. apply Hnp. congruence.
Qed.

(** ** A layout laid out again *)

Section Again.
Variable ref : Ref.Provider.

Lemma clear_twin :
  forall s u,
    twin s u ->
    twin (Struct.clearBitfieldSettings s) (Struct.clearBitfieldSettings u) /\
    Struct.lastBitfieldOffset (Struct.clearBitfieldSettings s) =
      Struct.lastBitfieldOffset s /\
    Struct.lastBitfieldOffset (Struct.clearBitfieldSettings u) =
      Struct.lastBitfieldOffset u.
Proof.
  intros s u (Hs & Ha & Hc & Hl & Hp & Hi & Ho). destruct s, u; simpl in *.
  split; [| split; reflexivity].
  unfold twin; simpl. repeat split; try assumption. intros H; contradiction.
Qed.

Lemma addType_twin :
  forall s u type o s1,
    twin s u ->
    Struct.addType ref s type = (o, s1) ->
    exists u1,
      Struct.addType ref u type = (o, u1) /\ twin s1 u1 /\
      Struct.lastBitfieldOffset s1 = Struct.lastBitfieldOffset s /\
      Struct.lastBitfieldOffset u1 = Struct.lastBitfieldOffset u.
Proof.
  intros s u type o s1 (Hs & Ha & Hc & Hl & Hp & Hi & Ho).
  unfold Struct.addType. rewrite Hs, Hp.
  destruct s as [fl sz al cb lt lo pk ic], u as [fl' sz' al' cb' lt' lo' pk' ic'].
  simpl in *. subst.
  destruct pk'.
  - intros H; inversion H; subst. eexists. split; [reflexivity |].
    unfold twin; simpl. repeat split; try reflexivity. assumption.
  - destruct (_ =? 0).
    + intros H; inversion H; subst. eexists. split; [reflexivity |].
      unfold twin; simpl. repeat split; try reflexivity. assumption.
    + destruct (_ =? 0); intros H; inversion H; subst;
        (eexists; split; [reflexivity |]);
        unfold twin; simpl; repeat split; try reflexivity; assumption.
Qed.

Lemma addType_loop_twin :
  forall n s u type r s1,
    twin s u ->
    Struct.addType_loop ref n s type = (r, s1) ->
    exists u1,
      Struct.addType_loop ref n u type = (r, u1) /\ twin s1 u1 /\
      Struct.lastBitfieldOffset s1 = Struct.lastBitfieldOffset s /\
      Struct.lastBitfieldOffset u1 = Struct.lastBitfieldOffset u.
Proof.
  induction n as [| n IH]; simpl; intros s u type r s1 HT H.
  - inversion H; subst. exists u. repeat split; try reflexivity; apply HT.
  - destruct (Struct.addType ref s type) as [o t1] eqn:E.
    destruct (addType_twin s u type o t1 HT E) as (u1 & -> & HT1 & L1 & L2).
    destruct o as [o |].
    + destruct (IH t1 u1 type r s1 HT1 H) as (u2 & E2 & HT2 & L3 & L4).
      exists u2. split; [assumption |]. split; [assumption |]. split; congruence.
    + inversion H; subst. exists u1. repeat split; try assumption; apply HT1.
Qed.

Lemma place_bitfield_twin :
  forall s u f f' g t,
    twin s u -> Field.type f' = Field.type f ->
    Struct.place_bitfield s f = (Ok, g, t) ->
    exists t2,
      Struct.place_bitfield u f' = (Ok, g, t2) /\ twin t t2 /\
      same_unit s u t t2.
Proof.
  intros s u f f' g t (Hs & Ha & Hc & Hl & Hp & Hi & Ho) Ht.
  unfold Struct.place_bitfield. rewrite Ht.
  destruct s as [fl sz al cb lt lo pk ic], u as [fl' sz' al' cb' lt' lo' pk' ic'].
  simpl in *. subst sz' al' cb' lt' pk' ic'.
  assert (Hlo : lt <> None -> lo' = lo) by (intros; symmetry; auto).
  destruct (FieldType.bits (Field.type f) <=? FieldType.size (Field.type f) * 8);
    simpl; [| discriminate].
  destruct (FieldType.alignment (Field.type f) =? 0);
    destruct (cb + FieldType.bits (Field.type f) >? 8 * FieldType.size (Field.type f));
    destruct pk;
    (destruct lt as [last |];
     [rewrite (Hlo ltac:(discriminate));
      destruct (FieldType.size last =? FieldType.size (Field.type f));
      destruct (FieldType.alignment last =? FieldType.alignment (Field.type f)) |]);
    simpl; intros H; inversion H; subst;
    (eexists; split; [reflexivity |]); unfold twin, same_unit; simpl;
    (split; [repeat split; reflexivity | left; reflexivity]).
Qed.

Lemma with_offset_again :
  forall f o, Struct.with_offset (Struct.with_offset f o) o = Struct.with_offset f o.
Proof. intros f o. reflexivity. Qed.

(** A step of the second loop, made again on the entry it produced from a
    twin state, produces the same entry. *)
Lemma place_twin :
  forall s u f g t,
    twin s u ->
    Struct.place ref s f = (Ok, g, t) ->
    exists t2,
      Struct.place ref u g = (Ok, g, t2) /\ twin t t2 /\ same_unit s u t t2.
Proof.
  intros s u f g t HT H.
  pose proof (place_type ref s f Ok g t H) as Hty.
  unfold Struct.place in *. rewrite Hty.
  set (s0 := if FieldType.bits (Field.type f) =? 0
             then Struct.clearBitfieldSettings s else s) in *.
  set (u0 := if FieldType.bits (Field.type f) =? 0
             then Struct.clearBitfieldSettings u else u).
  assert (HT0 : twin s0 u0 /\
                Struct.lastBitfieldOffset s0 = Struct.lastBitfieldOffset s /\
                Struct.lastBitfieldOffset u0 = Struct.lastBitfieldOffset u).
  { unfold s0, u0. destruct (_ =? 0); [apply clear_twin; assumption |].
    repeat split; try reflexivity; apply HT. }
  destruct HT0 as (HT0 & Ls & Lu). clearbody s0 u0.
  destruct (FieldType.fixedLength (Field.type f)).
  - destruct (Struct.addType ref s0 _) as [[o |] s1] eqn:E; [| discriminate].
    destruct (addType_twin _ _ _ _ _ HT0 E) as (u1 & -> & HT1 & L1 & L2).
    destruct (Struct.addType_loop ref _ s1 _) as [q s2] eqn:E2.
    destruct (addType_loop_twin _ _ _ _ _ _ HT1 E2) as (u2 & -> & HT2 & L3 & L4).
    inversion H; subst. exists u2. split; [reflexivity |]. split; [assumption |].
    right. split; congruence.
  - destruct (negb _).
    + destruct (place_bitfield_twin s0 u0 f g g t HT0 (eq_sym (eq_sym Hty)) H)
        as (t2 & E & HT2 & [L | [L1 L2]]).
      * exists t2. split; [assumption |]. split; [assumption |]. left; assumption.
      * exists t2. split; [assumption |]. split; [assumption |].
        right. split; congruence.
    + destruct (Struct.addType ref s0 _) as [[o |] s1] eqn:E; [| discriminate].
      destruct (addType_twin _ _ _ _ _ HT0 E) as (u1 & -> & HT1 & L1 & L2).
      inversion H; subst. exists u1. split; [reflexivity |]. split; [assumption |].
      right. split; congruence.
Qed.

Lemma place_all_twin :
  forall l s u l' t,
    twin s u ->
    Struct.place_all ref s l = (Ok, l', t) ->
    exists t2,
      Struct.place_all ref u l' = (Ok, l', t2) /\ twin t t2 /\ same_unit s u t t2.
Proof.
  induction l as [| [name f] rest IH]; intros s u l' t HT H.
  - simpl in H. inversion H; subst. exists u. split; [reflexivity |].
    split; [assumption |]. right. split; reflexivity.
  - simpl in H.
    destruct (Struct.place ref s f) as [[[| e] g] s1] eqn:E; [| discriminate].
    destruct (Struct.place_all ref s1 rest) as [[r rest'] s2] eqn:E2.
    inversion H; subst; clear H.
    destruct (place_twin s u f g s1 HT E) as (u1 & P1 & HT1 & U1).
    destruct (IH s1 u1 rest' t HT1 E2) as (t2 & P2 & HT2 & U2).
    exists t2. simpl. rewrite P1, P2. split; [reflexivity |].
    split; [assumption |].
    unfold same_unit in *.
    destruct U2 as [U2 | [U2 U3]]; [left; assumption |].
    destruct U1 as [U1 | [U1 U4]]; [left; congruence | right; split; congruence].
Qed.

Lemma alignment_step_rest :
  forall l s,
    Struct.lastBitfieldOffset (fold_left (Struct.alignment_step ref) l s) =
      Struct.lastBitfieldOffset s /\
    Struct._instanceCreated (fold_left (Struct.alignment_step ref) l s) =
      Struct._instanceCreated s.
Proof.
  induction l as [| entry rest IH]; intros s; simpl.
  - split; reflexivity.
  - destruct (IH (Struct.alignment_step ref s entry)) as (H1 & H2).
    rewrite H1, H2. unfold Struct.alignment_step.
    destruct s as [fl sz al cb lt lo pk ic]; simpl.
    destruct pk; simpl; split; reflexivity.
Qed.

Lemma before_placing_rest :
  forall s,
    Struct.lastBitfieldOffset (before_placing ref s) = Struct.lastBitfieldOffset s /\
    Struct._instanceCreated (before_placing ref s) = Struct._instanceCreated s.
Proof.
  intros s. unfold before_placing.
  match goal with |- context [fold_left _ ?l ?s0] =>
    destruct (alignment_step_rest l s0) as (H1 & H2) end.
  rewrite H1, H2. destruct s; split; reflexivity.
Qed.
Lemma addType_instanceCreated :
  forall s type o s',
    Struct.addType ref s type = (o, s') ->
    Struct._instanceCreated s' = Struct._instanceCreated s.
Proof.
  intros s type o s'. unfold Struct.addType.
  destruct (Struct.isPacked s).
  - intros H; inversion H; subst. destruct s; reflexivity.
  - destruct (_ =? 0); [intros H; inversion H; subst; reflexivity |].
    destruct (_ =? 0); intros H; inversion H; subst; try reflexivity;
      destruct s; reflexivity.
Qed.

Lemma addType_loop_instanceCreated :
  forall n s type r s',
    Struct.addType_loop ref n s type = (r, s') ->
    Struct._instanceCreated s' = Struct._instanceCreated s.
Proof.
  induction n as [| n IH]; simpl; intros s type r s' H.
  - inversion H; reflexivity.
  - destruct (Struct.addType ref s type) as [[o |] s1] eqn:E.
    + apply IH in H. rewrite H. eapply addType_instanceCreated; eassumption.
    + inversion H; subst. eapply addType_instanceCreated; eassumption.
Qed.

Lemma place_instanceCreated :
  forall s field r g s',
    Struct.place ref s field = (r, g, s') ->
    Struct._instanceCreated s' = Struct._instanceCreated s.
Proof.
  intros s field r g s'. unfold Struct.place.
  set (s0 := if FieldType.bits (Field.type field) =? 0
             then Struct.clearBitfieldSettings s else s).
  assert (H0 : Struct._instanceCreated s0 = Struct._instanceCreated s).
  { unfold s0. destruct (_ =? 0); [destruct s |]; reflexivity. }
  rewrite <- H0. clearbody s0.
  destruct (FieldType.fixedLength (Field.type field)).
  - destruct (Struct.addType ref s0 _) as [[o |] s1] eqn:E.
    + destruct (Struct.addType_loop ref _ s1 _) as [r1 s2] eqn:E2.
      intros H; inversion H; subst.
      apply addType_loop_instanceCreated in E2.
      apply addType_instanceCreated in E. congruence.
    + intros H; inversion H; subst. eapply addType_instanceCreated; eassumption.
  - destruct (negb _).
    + unfold Struct.place_bitfield. destruct s0 as [fl sz al cb lt lo pk ic].
      simpl.
      repeat match goal with
             | |- context [if ?c then _ else _] => destruct c; simpl
             end;
        intros H; inversion H; reflexivity.
    + destruct (Struct.addType ref s0 _) as [[o |] s1] eqn:E;
        intros H; inversion H; subst; eapply addType_instanceCreated; eassumption.
Qed.

Lemma place_all_frame :
  forall l s r l' t,
    Struct.place_all ref s l = (r, l', t) ->
    Struct.isPacked t = Struct.isPacked s /\
    Struct._instanceCreated t = Struct._instanceCreated s.
Proof.
  induction l as [| [name f] rest IH]; intros s r l' t H; simpl in H.
  - inversion H; subst. split; reflexivity.
  - destruct (Struct.place ref s f) as [[[| e] g] s1] eqn:E.
    + destruct (Struct.place_all ref s1 rest) as [[r2 rest'] s2] eqn:E2.
      inversion H; subst.
      destruct (IH _ _ _ _ E2) as [H1 H2].
      rewrite H1, H2. split.
      * eapply place_packed; eassumption.
      * eapply place_instanceCreated; eassumption.
    + inversion H; subst. split.
      * eapply place_packed; eassumption.
      * eapply place_instanceCreated; eassumption.
Qed.
End Again.

(** X9: a layout that [recalc] produced is a fixed point of [recalc]:
    laying it out again gives the same struct type, entry by entry. *)
Theorem recalc_is_idempotent :
  forall ref T T',
    Struct.recalc ref T = (Ok, T') ->
    Struct.recalc ref T' = (Ok, T').
Proof.
  intros ref T T' Hr.
  destruct (recalc_Ok ref T T' Hr) as (l' & s1 & Hp & HT').
  destruct (place_all_frame ref _ _ _ _ _ Hp) as [Fp Fi].
  pose proof (place_all_alignment ref _ _ _ _ _ Hp) as Fa.
  pose proof (place_all_types ref _ _ _ _ _ Hp) as Fty.
  destruct (before_placing_ok ref T) as (_ & Hs & Hpk & _).
  destruct (before_placing_state ref T) as (Hc & Hl & Ha).
  destruct (before_placing_rest ref T) as (_ & Hi).
  assert (HT1 : Struct.fields T' = l' /\
                Struct.isPacked T' = Struct.isPacked s1 /\
                Struct._instanceCreated T' = Struct._instanceCreated s1 /\
                Struct.lastBitfieldOffset T' = Struct.lastBitfieldOffset s1).
  { subst T'. unfold Struct.addFinalPadding.
    destruct (_ =? 0); [destruct s1; repeat split; reflexivity |].
    destruct (_ >? 0); destruct s1; repeat split; reflexivity. }
  destruct HT1 as (Hf & Hp' & Hi' & Hlo').
  destruct (before_placing_ok ref T') as (_ & Hs2 & Hpk2 & Hf2).
  destruct (before_placing_state ref T') as (Hc2 & Hl2 & Ha2).
  destruct (before_placing_rest ref T') as (Hlo2 & Hi2).
  assert (Htw : twin (before_placing ref T) (before_placing ref T')).
  { unfold twin. rewrite Hs, Hs2, Hc, Hc2, Hl, Hl2, Hpk, Hpk2, Hi, Hi2, Ha, Ha2.
    rewrite Hf, Hp', Hi', Fp, Fi, Hpk, Hi.
    rewrite (same_types_alignments ref _ _ Fty).
    repeat split; try reflexivity. intros H; contradiction. }
  destruct (place_all_twin ref _ _ _ _ _ Htw Hp) as (t2 & P2 & HT2 & U2).
  unfold Struct.recalc. cbv zeta. fold (before_placing ref T').
  rewrite Hf2, Hf, P2. f_equal. rewrite HT'. f_equal.
  destruct HT2 as (E1 & E2 & E3 & E4 & E5 & E6 & _).
  assert (E7 : Struct.lastBitfieldOffset t2 = Struct.lastBitfieldOffset s1).
  { destruct U2 as [U | [U _]]; [assumption | congruence]. }
  destruct s1, t2; simpl in *. subst. reflexivity.
Qed.

(** ** Declarations and the field table *)

Lemma get_app_None :
  forall name (l1 l2 : Fields.t),
    Fields.get name l1 = None ->
    Fields.get name (l1 ++ l2) = Fields.get name l2.
Proof.
  induction l1 as [| [k g] rest IH]; simpl; intros l2 H; [reflexivity |].
  destruct (k =? name)%string; [discriminate | apply IH; assumption].
Qed.

Lemma get_app_Some :
  forall name (l1 l2 : Fields.t) f,
    Fields.get name l1 = Some f ->
    Fields.get name (l1 ++ l2) = Some f.
Proof.
  induction l1 as [| [k g] rest IH]; simpl; intros l2 f H; [discriminate |].
  destruct (k =? name)%string; [assumption | apply IH; assumption].
Qed.

Lemma get_app_split :
  forall name (l1 l2 : Fields.t),
    Fields.get name (l1 ++ l2) = None ->
    Fields.get name l1 = None /\ Fields.get name l2 = None.
Proof.
  intros name l1 l2 H.
  destruct (Fields.get name l1) as [f |] eqn:E.
  - rewrite (get_app_Some _ _ _ _ E) in H. discriminate.
  - rewrite (get_app_None _ _ _ E) in H. split; [reflexivity | assumption].
Qed.

Lemma get_replace_same :
  forall name f (l : Fields.t) g,
    Fields.get name l = Some g ->
    Fields.get name (Fields.replace name f l) = Some f.
Proof.
  induction l as [| [k h] rest IH]; simpl; intros g H; [discriminate |].
  destruct (String.eqb_spec k name) as [-> | Hn]; simpl.
  - rewrite String.eqb_refl. reflexivity.
  - destruct (String.eqb_spec k name); [contradiction |]. eapply IH; eassumption.
Qed.

Lemma get_replace_other :
  forall name f (l : Fields.t) k,
    k <> name ->
    Fields.get k (Fields.replace name f l) = Fields.get k l.
Proof.
  induction l as [| [k' h] rest IH]; simpl; intros k Hk; [reflexivity |].
  destruct (String.eqb_spec k' name) as [-> | Hn]; simpl.
  - destruct (String.eqb_spec name k); [congruence | reflexivity].
  - destruct (String.eqb_spec k' k); [reflexivity | apply IH; assumption].
Qed.

Lemma replace_names :
  forall name f (l : Fields.t),
    map fst (Fields.replace name f l) = map fst l.
Proof.
  induction l as [| [k h] rest IH]; simpl; [reflexivity |].
  destruct (k =? name)%string; simpl; [reflexivity | rewrite IH; reflexivity].
Qed.

(** [fields[name] = field] and then [fields[k]]. *)
Lemma get_set_same :
  forall name f (l : Fields.t), Fields.get name (Fields.set name f l) = Some f.
Proof.
  intros name f l.
  destruct (Fields.get name l) as [g |] eqn:E.
  - unfold Fields.set. rewrite E. eapply get_replace_same; eassumption.
  - destruct (set_new_splits name f l E) as (l1 & l2 & -> & ->).
    apply get_app_split in E. destruct E as [E1 _].
    rewrite (get_app_None _ _ _ E1). simpl. rewrite String.eqb_refl. reflexivity.
Qed.

Lemma get_set_other :
  forall name f (l : Fields.t) k,
    k <> name -> Fields.get k (Fields.set name f l) = Fields.get k l.
Proof.
  intros name f l k Hk.
  destruct (Fields.get name l) as [g |] eqn:E.
  - unfold Fields.set. rewrite E. apply get_replace_other; assumption.
  - destruct (set_new_splits name f l E) as (l1 & l2 & -> & ->).
    destruct (Fields.get k l1) as [h |] eqn:E1.
    + rewrite !(get_app_Some _ _ _ _ E1). reflexivity.
    + rewrite !(get_app_None _ _ _ E1). simpl.
      destruct (String.eqb_spec name k); [congruence | reflexivity].
Qed.

Lemma set_length :
  forall name f (l : Fields.t),
    List.length (Fields.set name f l) =
    match Fields.get name l with
    | Some _ => List.length l
    | None => S (List.length l)
    end.
Proof.
  intros name f l.
  destruct (Fields.get name l) as [g |] eqn:E.
  - unfold Fields.set. rewrite E.
    rewrite <- (length_map fst), replace_names, length_map. reflexivity.
  - destruct (set_new_splits name f l E) as (l1 & l2 & -> & ->).
    rewrite !length_app. simpl. lia.
Qed.

(** The second loop of [recalc] keeps the names and their order. *)
Lemma place_all_names :
  forall ref l s r l' t,
    Struct.place_all ref s l = (r, l', t) -> map fst l' = map fst l.
Proof.
  intros ref. induction l as [| [name f] rest IH]; intros s r l' t H; simpl in H.
  - inversion H; reflexivity.
  - destruct (Struct.place ref s f) as [[[| e] g] s1] eqn:E.
    + destruct (Struct.place_all ref s1 rest) as [[r2 rest'] s2] eqn:E2.
      inversion H; subst. simpl. f_equal. eapply IH; eassumption.
    + inversion H; subst. reflexivity.
Qed.

Lemma get_same_types :
  forall (l l' : Fields.t) k,
    map fst l' = map fst l -> same_types l l' ->
    match Fields.get k l with
    | Some f => exists g, Fields.get k l' = Some g /\ Field.type g = Field.type f
    | None => Fields.get k l' = None
    end.
Proof.
  induction l as [| [n f] rest IH]; intros l' k Hn Ht;
    inversion Ht as [| x y xs ys Hxy Hrest]; subst.
  - reflexivity.
  - destruct y as [n' g]. simpl in Hn, Hxy. inversion Hn; subst. simpl.
    destruct (n =? k)%string.
    + exists g. split; [reflexivity | symmetry; assumption].
    + apply IH; assumption.
Qed.

Lemma recalc_table :
  forall ref T r T',
    Struct.recalc ref T = (r, T') ->
    map fst (Struct.fields T') = map fst (Struct.fields T) /\
    same_types (Struct.fields T) (Struct.fields T').
Proof.
  intros ref T r T'. unfold Struct.recalc. cbv zeta. fold (before_placing ref T).
  destruct (before_placing_ok ref T) as (_ & _ & _ & Hf). rewrite Hf.
  destruct (Struct.place_all ref (before_placing ref T) (Struct.fields T))
    as [[q l'] s1] eqn:E.
  pose proof (place_all_names ref _ _ _ _ _ E) as Hn.
  pose proof (place_all_types ref _ _ _ _ _ E) as Ht.
  destruct q; intros H; inversion H; subst;
    try rewrite addFinalPadding_fields;
    (replace (Struct.fields (Struct.set_fields s1 l')) with l'
      by (destruct s1; reflexivity)); split; assumption.
Qed.

(** X10: after a successful [defineProperty], the table has the name with
    the coerced type, every other name is there or not as before, with the
    type it had, and the table has one entry more exactly when the name is
    new.  The name [proto_key] is left out: its assignment adds no entry to
    a table. *)
Theorem defineProperty_records_the_type :
  forall ref T name type T',
    name <> proto_key ->
    Struct.defineProperty ref T name type = (Ok, T') ->
    exists ty g,
      Ref.coerceType ref type = Some ty /\
      Fields.get name (Struct.fields T') = Some g /\ Field.type g = ty /\
      (forall k,
         k <> name ->
         match Fields.get k (Struct.fields T) with
         | Some f => exists g', Fields.get k (Struct.fields T') = Some g' /\
                                Field.type g' = Field.type f
         | None => Fields.get k (Struct.fields T') = None
         end) /\
      List.length (Struct.fields T') =
        match Fields.get name (Struct.fields T) with
        | Some _ => List.length (Struct.fields T)
        | None => S (List.length (Struct.fields T))
        end.
Proof.
  intros ref T name type T' _ H. unfold Struct.defineProperty in H.
  unfold Struct.internalDefineProperty in H.
  destruct (Ref.coerceType ref type) as [ty |]; [| discriminate].
  destruct (Struct._instanceCreated T); [discriminate |].
  destruct (negb _); [discriminate |].
  destruct (recalc_table ref _ _ _ H) as [Hn Ht].
  replace (Struct.fields (Struct.set_fields T
             (Fields.set name (Field.fresh ty) (Struct.fields T))))
    with (Fields.set name (Field.fresh ty) (Struct.fields T)) in *
    by (destruct T; reflexivity).
  pose proof (get_same_types _ _ name Hn Ht) as Hname.
  rewrite get_set_same in Hname. destruct Hname as (g & Hg & Hty).
  exists ty, g. split; [reflexivity |]. split; [assumption |].
  split; [assumption |]. split.
  - intros k Hk. pose proof (get_same_types _ _ k Hn Ht) as Hk'.
    rewrite (get_set_other _ _ _ _ Hk) in Hk'. assumption.
  - rewrite <- (length_map fst), Hn, length_map. apply set_length.
Qed.

Section Declaring.
Variable ref : Ref.Provider.

Lemma internalDefineProperty_result :
  forall T name type r T0,
    Struct.internalDefineProperty ref T name type = (r, T0) ->
    match r with
    | Err _ => T0 = T
    | Ok =>
        exists ty,
          Ref.coerceType ref type = Some ty /\
          T0 = Struct.set_fields T
                 (Fields.set name (Field.fresh ty) (Struct.fields T))
    end.
Proof.
  intros T name type r T0. unfold Struct.internalDefineProperty.
  destruct (Ref.coerceType ref type) as [ty |];
    [| intros H; inversion H; reflexivity].
  destruct (Struct._instanceCreated T); [intros H; inversion H; reflexivity |].
  destruct (negb _); intros H; inversion H; subst; [reflexivity |].
  exists ty. split; reflexivity.
Qed.

Lemma defineEach_app :
  forall pre rest T,
    Struct.defineEach ref T (pre ++ rest) =
    match Struct.defineEach ref T pre with
    | (Ok, T1) => Struct.defineEach ref T1 rest
    | (Err e, T1) => (Err e, T1)
    end.
Proof.
  induction pre as [| [n t] pre IH]; intros rest T; simpl; [reflexivity |].
  destruct (Struct.internalDefineProperty ref T n t) as [[| e] T0]; [apply IH | reflexivity].
Qed.

Lemma internalDefineProperty_unplaced :
  forall T name type T0,
    Struct.internalDefineProperty ref T name type = (Ok, T0) ->
    Struct.size T0 = Struct.size T /\ Struct.alignment T0 = Struct.alignment T /\
    unplaced name T0 /\ (forall k, unplaced k T -> unplaced k T0).
Proof.
  intros T name type T0 H.
  destruct (internalDefineProperty_result _ _ _ _ _ H) as (ty & _ & ->).
  split; [destruct T; reflexivity |]. split; [destruct T; reflexivity |].
  unfold unplaced.
  replace (Struct.fields (Struct.set_fields T
             (Fields.set name (Field.fresh ty) (Struct.fields T))))
    with (Fields.set name (Field.fresh ty) (Struct.fields T))
    by (destruct T; reflexivity).
  split.
  - exists (Field.fresh ty). split; [apply get_set_same | reflexivity].
  - intros k (f & Hf & Ho). destruct (String.eqb_spec k name) as [-> | Hk].
    + exists (Field.fresh ty). split; [apply get_set_same | reflexivity].
    + exists f. split; [| assumption]. rewrite get_set_other; assumption.
Qed.

Lemma defineEach_unplaced :
  forall obj T T1,
    Struct.defineEach ref T obj = (Ok, T1) ->
    Struct.size T1 = Struct.size T /\ Struct.alignment T1 = Struct.alignment T /\
    Forall (fun d => unplaced (fst d) T1) obj /\
    (forall k, unplaced k T -> unplaced k T1).
Proof.
  induction obj as [| [n t] rest IH]; intros T T1 H; simpl in H.
  - inversion H; subst. repeat split; auto.
  - destruct (Struct.internalDefineProperty ref T n t) as [[| e] T0] eqn:E;
      [| discriminate].
    destruct (internalDefineProperty_unplaced _ _ _ _ E) as (S0 & A0 & U0 & K0).
    destruct (IH _ _ H) as (S1 & A1 & U1 & K1).
    split; [congruence |]. split; [congruence |]. split.
    + constructor; [apply K1; exact U0 | assumption].
    + intros k Hk. apply K1, K0. assumption.
Qed.
End Declaring.

(** X11: when [defineProperties] fails on validating one of its
    declarations, it raises that error without laying anything out: the size
    and the alignment are as before, but the declarations that came first
    are in the table, with no offset. *)
Theorem failed_defineProperties_keeps_earlier_declarations :
  forall ref T pre name type post e T1,
    ~ In proto_key (map fst pre) ->
    Struct.defineEach ref T pre = (Ok, T1) ->
    fst (Struct.internalDefineProperty ref T1 name type) = Err e ->
    Struct.defineProperties ref T (pre ++ (name, type) :: post) = (Err e, T1) /\
    Struct.size T1 = Struct.size T /\
    Struct.alignment T1 = Struct.alignment T /\
    Forall (fun d => unplaced (fst d) T1) pre.
Proof.
  intros ref T pre name type post e T1 _ Hpre Hbad.
  destruct (defineEach_unplaced ref _ _ _ Hpre) as (Hs & Ha & Hu & _).
  split; [| split; [assumption | split; assumption]].
  unfold Struct.defineProperties. rewrite defineEach_app, Hpre. simpl.
  destruct (Struct.internalDefineProperty ref T1 name type) as [r T0] eqn:E.
  simpl in Hbad. subst r.
  pose proof (internalDefineProperty_result ref _ _ _ _ _ E) as H0. simpl in H0.
  subst T0. reflexivity.
Qed.

Lemma recalc_too_wide_first :
  forall ref T name f rest,
    Struct.fields T = (name, f) :: rest ->
    too_wide (Field.type f) ->
    exists T', Struct.recalc ref T = (Err BitfieldOverflowError, T').
Proof.
  intros ref T name f rest Hf [Hb Hw].
  unfold Struct.recalc. cbv zeta. fold (before_placing ref T).
  destruct (before_placing_ok ref T) as (_ & _ & _ & Hf'). rewrite Hf', Hf.
  cbn [Struct.place_all]. rewrite (place_bitfield_branch ref _ f Hb).
  unfold Struct.place_bitfield.
  destruct (Z.leb_spec (FieldType.bits (Field.type f)) (FieldType.size (Field.type f) * 8));
    [lia |].
  simpl. eexists. reflexivity.
Qed.

(** X12: [Bitfield] accepts a width beyond the bits of its type, and keeps
    it; the struct constructor then rejects the declaration with the
    overflow error. *)
Theorem wide_bitfield_is_rejected_at_layout_only :
  forall ref type bits bf name packed,
    name <> proto_key ->
    Bitfield.Bitfield ref type (Some bits) = inr bf ->
    bits > 8 * FieldType.size bf -> 0 < FieldType.size bf ->
    FieldType.bits bf = bits /\
    Struct.Struct ref [(name, Ref.TypeObj bf)] packed = inl BitfieldOverflowError.
Proof.
  intros ref type bits bf name packed _ H Hw Hs.
  assert (Hbf : FieldType.bits bf = bits /\ FieldType.fixedLength bf = None /\
                FieldType.indirection bf = 1).
  { unfold Bitfield.Bitfield in H.
    destruct (Ref.coerceType ref type) as [ty |]; [| discriminate].
    destruct (1 =? FieldType.indirection ty); [| discriminate].
    inversion H; subst bf; clear H. unfold FieldType.size in *. simpl in *.
    destruct (Z.eqb_spec bits 0) as [-> | Hb]; [lia |].
    repeat split. }
  destruct Hbf as (Hbits & Hfl & Hind). split; [assumption |].
  set (T0 := Struct.mk [] 0 0 0 None None packed false).
  assert (Hd : Struct.internalDefineProperty ref T0 name (Ref.TypeObj bf) =
               (Ok, Struct.set_fields T0 [(name, Field.fresh bf)])).
  { unfold Struct.internalDefineProperty. simpl.
    destruct (Z.gtb_spec (FieldType.size bf) 0); [| lia].
    rewrite orb_true_r. simpl. do 2 f_equal.
    unfold Fields.set. simpl. destruct (Fields.array_index name); reflexivity. }
  destruct (recalc_too_wide_first ref (Struct.set_fields T0 [(name, Field.fresh bf)])
              name (Field.fresh bf) [] eq_refl) as (T' & Hr).
  { split; [split; [assumption | simpl; lia] | simpl; lia]. }
  unfold Struct.Struct, Struct.defineProperties. fold T0.
  cbn [Struct.defineEach]. rewrite Hd, Hr. reflexivity.
Qed.

(** ** The size over a sequence of declarations *)

Lemma same_types_Forall_r :
  forall (P : FieldType.t -> Prop) l l',
    same_types l l' ->
    Forall (fun entry => P (Field.type (snd entry))) l ->
    Forall (fun entry => P (Field.type (snd entry))) l'.
Proof.
  intros P l l' H. induction H as [| x y xs ys Hxy Hrest IH]; intros HP.
  - constructor.
  - inversion HP; subst. constructor; [rewrite <- Hxy; assumption | auto].
Qed.

(** What a successful declaration of a new field leaves for the next one:
    a struct type that [recalc] has laid out, with C types, and without the
    names that were not there before, the new one apart. *)
Lemma defineProperty_next :
  forall ref T name type ty T',
    c_types ref (Struct.fields T) ->
    Ref.coerceType ref type = Some ty -> c_type ref ty ->
    Fields.get name (Struct.fields T) = None ->
    Struct.defineProperty ref T name type = (Ok, T') ->
    (exists T1, Struct.recalc ref T1 = (Ok, T')) /\
    c_types ref (Struct.fields T') /\
    (forall k, k <> name -> Fields.get k (Struct.fields T) = None ->
               Fields.get k (Struct.fields T') = None).
Proof.
  intros ref T name type ty T' Hc Hco Hty Hnew Hdef.
  unfold Struct.defineProperty in Hdef.
  destruct (Struct.internalDefineProperty ref T name type) as [[| e] T1] eqn:E;
    [| discriminate].
  pose proof (internalDefineProperty_result ref T name type Ok T1 E) as (ty' & Hco' & HT1).
  rewrite Hco in Hco'. inversion Hco'; subst ty'. clear Hco'.
  assert (Hf1 : Struct.fields T1 = Fields.set name (Field.fresh ty) (Struct.fields T))
    by (subst T1; destruct T; reflexivity).
  destruct (recalc_table ref T1 Ok T' Hdef) as [Hnames Hsame].
  split; [exists T1; assumption |]. split.
  - apply (same_types_Forall_r (c_type ref) _ _ Hsame). rewrite Hf1.
    destruct (set_new_splits name (Field.fresh ty) _ Hnew) as (l1 & l2 & Hl & Hset).
    rewrite Hset. unfold c_types in Hc. rewrite Hl in Hc.
    apply Forall_app in Hc. destruct Hc as [H1 H2].
    apply Forall_app. split; [assumption |]. constructor; assumption.
  - intros k Hk Hnone.
    pose proof (get_same_types _ _ k Hnames Hsame) as H.
    rewrite Hf1, (get_set_other name _ _ k Hk), Hnone in H. exact H.
Qed.

Lemma defineProperty_each_grows :
  forall ref calls T0 T T',
    Struct.recalc ref T0 = (Ok, T) ->
    c_types ref (Struct.fields T) ->
    Forall (fun call => exists ty, Ref.coerceType ref (snd call) = Some ty /\
                                   c_type ref ty) calls ->
    NoDup (map fst calls) ->
    Forall (fun call => Fields.get (fst call) (Struct.fields T) = None) calls ->
    defineProperty_each ref T calls = (Ok, T') ->
    Struct.size T <= Struct.size T'.
Proof.
  intros ref. induction calls as [| [name type] rest IH];
    intros T0 T T' Hr Hc Hty Hnd Hnew Hdef; simpl in Hdef.
  - inversion Hdef; subst. apply Z.le_refl.
  - destruct (Struct.defineProperty ref T name type) as [[| e] T1] eqn:E;
      [| discriminate].
    inversion Hty as [| c cs (ty & Hco & Hcty) Hrest]; subst.
    inversion Hnd as [| n ns Hn Hns]; subst.
    inversion Hnew as [| c cs Hname Hnames]; subst. simpl in Hco, Hname.
    destruct (defineProperty_next ref T name type ty T1 Hc Hco Hcty Hname E)
      as ((T2 & Hr1) & Hc1 & Hkeep).
    apply Z.le_trans with (Struct.size T1).
    + apply (defineProperty_grows ref T0 T name type ty T1); assumption.
    + apply (IH T2 T1 T' Hr1 Hc1 Hrest Hns); [| assumption].
      rewrite Forall_forall in *. intros call Hin. apply Hkeep.
      * intros Heq. apply Hn. rewrite <- Heq. apply in_map. assumption.
      * apply Hnames. assumption.
Qed.

(** C8, as amended: on a struct type that [recalc] has laid out for the
    types that its fields have at the call, these being C types (positive
    sizes, alignments that are powers of two and divide the sizes) other
    than the struct type itself, a successful [defineProperty] that adds a
    field of such a type under a new name does not decrease the size,
    packed or not, wherever the new name enters the table; and the size
    does not decrease over a sequence of such calls between which no type
    changes. *)
Theorem size_never_decreases :
  forall ref T0 T,
    Struct.recalc ref T0 = (Ok, T) ->
    c_types ref (Struct.fields T) ->
    (forall name type ty T',
       Ref.coerceType ref type = Some ty -> c_type ref ty ->
       Fields.get name (Struct.fields T) = None ->
       Struct.defineProperty ref T name type = (Ok, T') ->
       Struct.size T <= Struct.size T') /\
    (forall calls T',
       Forall (fun call => exists ty, Ref.coerceType ref (snd call) = Some ty /\
                                      c_type ref ty) calls ->
       NoDup (map fst calls) ->
       Forall (fun call => Fields.get (fst call) (Struct.fields T) = None) calls ->
       defineProperty_each ref T calls = (Ok, T') ->
       Struct.size T <= Struct.size T').
Proof.
  intros ref T0 T Hr Hc. split.
  - intros name type ty T' Hco Hty Hnew Hdef.
    apply (defineProperty_grows ref T0 T name type ty T'); assumption.
  - intros calls T' Hty Hnd Hnew Hdef.
    apply (defineProperty_each_grows ref calls T0 T T'); assumption.
Qed.

Lemma size_never_decreases_witness :
  Fields.array_index "7" = Some 7%N /\
  Struct.size (snd (Struct.recalc Ref.napi Examples.two_bitfields)) <=
  Struct.size
    (snd (Struct.defineProperty Ref.napi
            (snd (Struct.recalc Ref.napi Examples.two_bitfields))
            "7" (Ref.TypeName "char"))) /\
  Struct.size (snd (Struct.recalc Ref.napi Examples.two_bitfields)) <=
  Struct.size
    (snd (defineProperty_each Ref.napi
            (snd (Struct.recalc Ref.napi Examples.two_bitfields))
            [("7", Ref.TypeName "char"); ("k", Ref.TypeName "int")]%string)).
Proof.
  split; [reflexivity |].
  assert (P8 : pow2 8) by (exists 3; split; [lia | reflexivity]).
  assert (P4 : pow2 4) by (exists 2; split; [lia | reflexivity]).
  assert (P1 : pow2 1) by (exists 0; split; [lia | reflexivity]).
  assert (D8 : (8 | 8)) by (exists 1; reflexivity).
  assert (D4 : (4 | 4)) by (exists 1; reflexivity).
  assert (D1 : (1 | 1)) by (exists 1; reflexivity).
  assert (Hr : Struct.recalc Ref.napi Examples.two_bitfields =
               (Ok, snd (Struct.recalc Ref.napi Examples.two_bitfields)))
    by (vm_compute; reflexivity).
  assert (Hc : c_types Ref.napi
                 (Struct.fields (snd (Struct.recalc Ref.napi Examples.two_bitfields)))).
  { assert (E : Struct.fields (snd (Struct.recalc Ref.napi Examples.two_bitfields)) =
                [("i"%string, Field.mk Examples.uint64_2 (Some 0) (Some 0) (Some 2)
                                (Some 3));
                 ("j"%string, Field.mk Examples.int64_62 (Some 0) (Some 2) (Some 62)
                                (Some 4611686018427387903))])
      by (vm_compute; reflexivity).
    rewrite E.
    repeat (apply Forall_cons;
            [split; [cbv; repeat split; discriminate |];
             split; [cbv; discriminate |];
             split; [reflexivity |]; split; assumption |]).
    apply Forall_nil. }
  assert (Hchar : c_type Ref.napi (FieldType.plain Ref.char)).
  { split; [cbv; repeat split; discriminate |].
    split; [cbv; discriminate |].
    split; [intros [_ H]; exfalso; apply H; reflexivity |]. split; assumption. }
  assert (Hint : c_type Ref.napi (FieldType.plain Ref.int)).
  { split; [cbv; repeat split; discriminate |].
    split; [cbv; discriminate |].
    split; [intros [_ H]; exfalso; apply H; reflexivity |]. split; assumption. }
  destruct (size_never_decreases Ref.napi Examples.two_bitfields _ Hr Hc)
    as [Hstep Hseq].
  split.
  - apply (Hstep "7"%string (Ref.TypeName "char") (FieldType.plain Ref.char)).
    + reflexivity.
    + exact Hchar.
    + vm_compute; reflexivity.
    + vm_compute; reflexivity.
  - apply (Hseq [("7", Ref.TypeName "char"); ("k", Ref.TypeName "int")]%string).
    + constructor; [exists (FieldType.plain Ref.char); split; [reflexivity | exact Hchar] |].
      constructor; [exists (FieldType.plain Ref.int); split; [reflexivity | exact Hint] |].
      constructor.
    + constructor; [simpl; intros [H | H]; [discriminate | exact H] |].
      constructor; [simpl; auto |]. constructor.
    + constructor; [vm_compute; reflexivity |].
      constructor; [vm_compute; reflexivity |]. constructor.
    + vm_compute; reflexivity.
Defined.

(** ** The provider's reads and writes *)

Lemma Ref_get_stored :
  forall buffer offset type,
    0 <= offset -> 0 <= RefType.size type ->
    offset + RefType.size type <= Z.of_nat (List.length buffer) ->
    Ref.get buffer offset type =
      Some (decode type (stored buffer offset (RefType.size type))).
Proof.
  intros buffer offset type H1 H2 H3. unfold Ref.get.
  replace ((0 <=? offset) && (0 <=? RefType.size type) &&
           (offset + RefType.size type <=? Z.of_nat (List.length buffer)))
    with true
    by (symmetry; rewrite !andb_true_iff; repeat split; apply Z.leb_le; lia).
  reflexivity.
Qed.

Lemma Ref_write_spec :
  forall buffer offset value type,
    0 <= offset -> 0 <= RefType.size type ->
    offset + RefType.size type <= Z.of_nat (List.length buffer) ->
    exists buffer',
      Ref.write buffer offset value type = Some buffer' /\
      List.length buffer' = List.length buffer /\
      same_outside buffer buffer' offset (RefType.size type) /\
      stored buffer' offset (RefType.size type) =
        value mod 2 ^ (8 * RefType.size type).
Proof.
  intros buffer offset value type H1 H2 H3. unfold Ref.write.
  replace ((0 <=? offset) && (0 <=? RefType.size type) &&
           (offset + RefType.size type <=? Z.of_nat (List.length buffer)))
    with true
    by (symmetry; rewrite !andb_true_iff; repeat split; apply Z.leb_le; lia).
  set (n := RefType.size type) in *.
  eexists. split; [reflexivity |].
  assert (Hlen1 : List.length (firstn (Z.to_nat offset) buffer) = Z.to_nat offset).
  { apply firstn_length_le. lia. }
  split; [| split].
  - rewrite !length_app, Hlen1, length_le_split, length_skipn. lia.
  - intros i Hi. destruct Hi as [Hi | Hi].
    + rewrite nth_error_app1 by lia. rewrite nth_error_firstn.
      destruct (Nat.ltb_spec i (Z.to_nat offset)); [reflexivity | lia].
    + rewrite nth_error_app2 by lia. rewrite Hlen1.
      rewrite nth_error_app2 by (rewrite length_le_split; lia).
      rewrite length_le_split, nth_error_skipn. f_equal. lia.
  - unfold stored.
    rewrite skipn_app, Hlen1, Nat.sub_diag. simpl skipn at 2.
    rewrite skipn_all2 by lia. simpl app.
    rewrite firstn_app, length_le_split, Nat.sub_diag. simpl firstn at 2.
    rewrite app_nil_r, firstn_all2 by (rewrite length_le_split; lia).
    rewrite le_combine_split. f_equal. f_equal. lia.
Qed.

Lemma Ref_write_defined :
  forall buffer offset value type buffer',
    Ref.write buffer offset value type = Some buffer' ->
    0 <= offset /\ 0 <= RefType.size type /\
    offset + RefType.size type <= Z.of_nat (List.length buffer).
Proof.
  intros buffer offset value type buffer'. unfold Ref.write.
  destruct (_ && _) eqn:E; [| discriminate]. intros _.
  apply andb_prop in E. destruct E as [E E3]. apply andb_prop in E.
  destruct E as [E1 E2]. apply Z.leb_le in E1, E2, E3. auto.
Qed.

(** What [ref.set] does with a Number, by the size of the type and the
    value. *)
Lemma Ref_set_write :
  forall buffer offset value type buffer',
    Ref.set buffer offset value type = Some buffer' ->
    exists stored, Ref.write buffer offset stored type = Some buffer'.
Proof.
  intros buffer offset value type buffer'. unfold Ref.set.
  destruct (RefType.size type <=? 4).
  - destruct (Ref.holds type value); [| discriminate]. intros H. exists value. exact H.
  - intros H. exists (Ref.toInt64 value). exact H.
Qed.

Lemma Ref_set_held :
  forall buffer offset value type,
    RefType.size type <= 4 -> Ref.holds type value = true ->
    Ref.set buffer offset value type = Ref.write buffer offset value type.
Proof.
  intros buffer offset value type Hs Hh. unfold Ref.set. rewrite Hh.
  destruct (Z.leb_spec (RefType.size type) 4); [reflexivity | lia].
Qed.

Lemma Ref_set_refused :
  forall buffer offset value type,
    RefType.size type <= 4 -> Ref.holds type value = false ->
    Ref.set buffer offset value type = None.
Proof.
  intros buffer offset value type Hs Hh. unfold Ref.set. rewrite Hh.
  destruct (Z.leb_spec (RefType.size type) 4); [reflexivity | lia].
Qed.

Lemma Ref_set_wide :
  forall buffer offset value type,
    4 < RefType.size type ->
    Ref.set buffer offset value type =
      Ref.write buffer offset (Ref.toInt64 value) type.
Proof.
  intros buffer offset value type Hs. unfold Ref.set.
  destruct (Z.leb_spec (RefType.size type) 4); [lia | reflexivity].
Qed.

Lemma toInt64_inside :
  forall value, - 2 ^ 63 <= value < 2 ^ 63 -> Ref.toInt64 value = value.
Proof. intros value H. unfold Ref.toInt64. lia. Qed.

Lemma toInt64_above :
  forall value, 2 ^ 63 <= value -> Ref.toInt64 value = 2 ^ 63 - 1.
Proof. intros value H. unfold Ref.toInt64. lia. Qed.

Lemma toInt64_below :
  forall value, value < - 2 ^ 63 -> Ref.toInt64 value = - 2 ^ 63.
Proof. intros value H. unfold Ref.toInt64. lia. Qed.

Lemma Ref_get_defined :
  forall buffer offset type x,
    Ref.get buffer offset type = Some x ->
    0 <= offset /\ 0 <= RefType.size type /\
    offset + RefType.size type <= Z.of_nat (List.length buffer).
Proof.
  intros buffer offset type x. unfold Ref.get.
  destruct (_ && _) eqn:E; [| discriminate]. intros _.
  apply andb_prop in E. destruct E as [E E3]. apply andb_prop in E.
  destruct E as [E1 E2]. apply Z.leb_le in E1, E2, E3. auto.
Qed.

Lemma stored_same_bytes :
  forall b b' o n,
    0 <= o -> same_bytes b b' o n -> stored b' o n = stored b o n.
Proof.
  intros b b' o n Ho H. unfold stored. f_equal.
  apply nth_error_ext. intros i.
  rewrite !nth_error_firstn, !nth_error_skipn.
  destruct (Nat.ltb_spec i (Z.to_nat n)); [| reflexivity].
  apply H. lia.
Qed.

Lemma Ref_get_same_bytes :
  forall b b' o type,
    List.length b' = List.length b ->
    same_bytes b b' o (RefType.size type) ->
    Ref.get b' o type = Ref.get b o type.
Proof.
  intros b b' o type Hlen H. unfold Ref.get. rewrite Hlen.
  destruct (_ && _) eqn:E; [| reflexivity].
  apply andb_prop in E. destruct E as [E _]. apply andb_prop in E.
  destruct E as [E1 _]. apply Z.leb_le in E1.
  fold (stored b' o (RefType.size type)). fold (stored b o (RefType.size type)).
  rewrite (stored_same_bytes b b' o _ E1 H). reflexivity.
Qed.

Lemma stored_alloc :
  forall size o n, stored (Ref.alloc size) o n = 0.
Proof.
  intros size o n. unfold stored, Ref.alloc.
  assert (H : forall k m, skipn k (repeat Byte.x00 m) = repeat Byte.x00 (m - k)).
  { induction k as [| k IH]; intros m; simpl.
    - rewrite Nat.sub_0_r. reflexivity.
    - destruct m as [| m]; simpl; [reflexivity | apply IH]. }
  rewrite H.
  assert (G : forall k m, firstn k (repeat Byte.x00 m) = repeat Byte.x00 (Nat.min k m)).
  { induction k as [| k IH]; intros m; simpl; [reflexivity |].
    destruct m as [| m]; simpl; [reflexivity | rewrite IH; reflexivity]. }
  rewrite G. apply le_combine_0.
Qed.

Lemma stored_range :
  forall buffer o n, 0 <= n -> 0 <= stored buffer o n < 2 ^ (8 * n).
Proof.
  intros buffer o n Hn. unfold stored.
  set (bs := firstn (Z.to_nat n) (skipn (Z.to_nat o) buffer)).
  pose proof (le_combine_bound bs) as Hb.
  assert (Hlen : Z.of_nat (List.length bs) <= n).
  { unfold bs. rewrite length_firstn. lia. }
  split; [lia |].
  apply Z.lt_le_trans with (2 ^ (8 * Z.of_nat (List.length bs))); [lia |].
  apply Z.pow_le_mono_r; lia.
Qed.

Lemma lor_range :
  forall w a b,
    0 <= w -> 0 <= a < 2 ^ w -> 0 <= b < 2 ^ w -> 0 <= Z.lor a b < 2 ^ w.
Proof.
  intros w a b Hw Ha Hb.
  assert (E : Z.lor a b = Z.lor a b mod 2 ^ w).
  { apply Z.bits_inj'. intros k Hk.
    rewrite Z.testbit_mod_pow2 by assumption.
    destruct (Z.ltb_spec k w); [reflexivity |].
    cbn [andb]. rewrite Z.lor_spec.
    rewrite <- (Z.mod_small a (2 ^ w)) by assumption.
    rewrite <- (Z.mod_small b (2 ^ w)) by assumption.
    rewrite !Z.mod_pow2_bits_high by lia. reflexivity. }
  rewrite E. apply Z.mod_pos_bound. apply Z.pow_pos_nonneg; lia.
Qed.

Lemma asIntN_range :
  forall w x, 0 < w -> - 2 ^ (w - 1) <= Ref.asIntN w x < 2 ^ (w - 1).
Proof.
  intros w x Hw.
  assert (Hpos : 0 < 2 ^ (w - 1)) by (apply Z.pow_pos_nonneg; lia).
  assert (Hdouble : 2 ^ w = 2 * 2 ^ (w - 1)).
  { replace w with (1 + (w - 1)) at 1 by lia. rewrite Z.pow_add_r by lia.
    reflexivity. }
  pose proof (Z.mod_pos_bound x (2 ^ w) ltac:(lia)) as Hb.
  unfold Ref.asIntN. set (u := x mod 2 ^ w) in *.
  destruct (Z.testbit u (w - 1)) eqn:E.
  - apply Z.testbit_true in E; [| lia].
    destruct (Z.lt_ge_cases u (2 ^ (w - 1))) as [Hlt | Hge].
    + rewrite Z.div_small in E by lia. discriminate.
    + lia.
  - destruct (Z.lt_ge_cases u (2 ^ (w - 1))) as [Hlt | Hge]; [lia |].
    exfalso.
    assert (Hq : u / 2 ^ (w - 1) = 1).
    { symmetry. apply Z.div_unique with (r := u - 2 ^ (w - 1)); lia. }
    assert (Ht : Z.testbit u (w - 1) = true).
    { apply Z.testbit_true; [lia |]. rewrite Hq. reflexivity. }
    congruence.
Qed.

Lemma asIntN_inside :
  forall w x, 0 < w -> - 2 ^ (w - 1) <= x < 2 ^ (w - 1) -> Ref.asIntN w x = x.
Proof.
  intros w x Hw Hx.
  assert (Hpos : 0 < 2 ^ (w - 1)) by (apply Z.pow_pos_nonneg; lia).
  assert (Hdouble : 2 ^ w = 2 * 2 ^ (w - 1)).
  { replace w with (1 + (w - 1)) at 1 by lia. rewrite Z.pow_add_r by lia.
    reflexivity. }
  pose proof (asIntN_range w x Hw) as Hr.
  pose proof (asIntN_mod w x ltac:(lia)) as Hm.
  assert (Hd : (2 ^ w | Ref.asIntN w x - x)).
  { apply Z.mod_divide; [lia |].
    rewrite Zminus_mod, Hm, Z.sub_diag. apply Z.mod_0_l. lia. }
  destruct Hd as [q Hq].
  assert (q = 0) by nia. subst q. lia.
Qed.

(** A scalar reads back a value that its type holds. *)
Lemma holds_decode :
  forall type value,
    0 < RefType.size type -> Ref.holds type value = true ->
    decode type (value mod 2 ^ (8 * RefType.size type)) = value.
Proof.
  intros type value Hs. unfold Ref.holds, decode.
  set (w := 8 * RefType.size type).
  assert (Hw : 0 < w) by (unfold w; lia).
  destruct (RefType.signed type); intros H; apply andb_prop in H; destruct H as [H1 H2].
  - apply Z.leb_le in H1. apply Z.ltb_lt in H2.
    rewrite <- (asIntN_inside w value Hw) at 2 by lia.
    unfold Ref.asIntN. rewrite Z.mod_mod by (apply Z.pow_nonzero; lia). reflexivity.
  - apply Z.leb_le in H1. apply Z.ltb_lt in H2. apply Z.mod_small. lia.
Qed.

Lemma asIntN_0 : forall w, Ref.asIntN w 0 = 0.
Proof.
  intros w. unfold Ref.asIntN. rewrite Zmod_0_l. rewrite Z.bits_0. reflexivity.
Qed.

Lemma decode_0 : forall type, decode type 0 = 0.
Proof.
  intros type. unfold decode. destruct (RefType.signed type); [apply asIntN_0 | reflexivity].
Qed.

(** [isSignedInteger] tells the signed types from the others, for the
    sizes that its buffer of 8 bytes allows. *)
Lemma isSignedInteger_spec :
  forall type,
    0 < RefType.size type <= 8 ->
    Struct.isSignedInteger type = Some (RefType.signed type).
Proof.
  intros [n a i sgn] H. simpl in H. unfold Struct.isSignedInteger.
  assert (Hn : n = 1 \/ n = 2 \/ n = 3 \/ n = 4 \/ n = 5 \/ n = 6 \/ n = 7 \/ n = 8)
    by lia.
  destruct sgn;
    destruct Hn as [-> | [-> | [-> | [-> | [-> | [-> | [-> | ->]]]]]]];
    vm_compute; reflexivity.
Qed.

(** ** The accessors of a field *)

Lemma mod_pow2_ext :
  forall w x y,
    0 <= w ->
    (forall k, 0 <= k < w -> Z.testbit x k = Z.testbit y k) ->
    x mod 2 ^ w = y mod 2 ^ w.
Proof.
  intros w x y Hw H. apply Z.bits_inj'. intros k Hk.
  rewrite !Z.testbit_mod_pow2 by assumption.
  destruct (Z.ltb_spec k w); [| reflexivity]. simpl. apply H. lia.
Qed.

Lemma narrowed_ext :
  forall type x y,
    0 <= FieldType.bits type ->
    (forall k, 0 <= k < FieldType.bits type -> Z.testbit x k = Z.testbit y k) ->
    narrowed type x = narrowed type y.
Proof.
  intros type x y Hw H. unfold narrowed, Ref.asIntN.
  rewrite (mod_pow2_ext _ x y Hw H). reflexivity.
Qed.

Lemma narrowed_low_bits :
  forall type x k,
    0 <= k < FieldType.bits type ->
    Z.testbit (narrowed type x) k = Z.testbit x k.
Proof.
  intros type x k Hk. unfold narrowed.
  destruct (RefType.signed (FieldType.type type)).
  - apply asIntN_low_bits. assumption.
  - apply Z.mod_pow2_bits_low. lia.
Qed.

Lemma narrowed_0 : forall type, narrowed type 0 = 0.
Proof.
  intros type. unfold narrowed.
  destruct (RefType.signed (FieldType.type type)); [apply asIntN_0 | apply Zmod_0_l].
Qed.

Lemma narrowed_range :
  forall type x,
    0 < FieldType.bits type ->
    if RefType.signed (FieldType.type type)
    then - 2 ^ (FieldType.bits type - 1) <= narrowed type x
         < 2 ^ (FieldType.bits type - 1)
    else 0 <= narrowed type x < 2 ^ FieldType.bits type.
Proof.
  intros type x Hw. unfold narrowed. set (w := FieldType.bits type) in *.
  assert (Hpos : 0 < 2 ^ (w - 1)) by (apply Z.pow_pos_nonneg; lia).
  assert (Hdouble : 2 ^ w = 2 * 2 ^ (w - 1)).
  { replace w with (1 + (w - 1)) at 1 by lia. rewrite Z.pow_add_r by lia.
    reflexivity. }
  pose proof (Z.mod_pos_bound x (2 ^ w) ltac:(lia)) as Hb.
  destruct (RefType.signed (FieldType.type type)); [| assumption].
  unfold Ref.asIntN. set (u := x mod 2 ^ w) in *.
  destruct (Z.testbit u (w - 1)) eqn:E.
  - apply Z.testbit_true in E; [| lia].
    destruct (Z.lt_ge_cases u (2 ^ (w - 1))) as [Hlt | Hge].
    + rewrite Z.div_small in E by lia. discriminate.
    + lia.
  - destruct (Z.lt_ge_cases u (2 ^ (w - 1))) as [Hlt | Hge]; [lia |].
    exfalso.
    assert (Hq : u / 2 ^ (w - 1) = 1).
    { symmetry. apply Z.div_unique with (r := u - 2 ^ (w - 1)); lia. }
    assert (Ht : Z.testbit u (w - 1) = true).
    { apply Z.testbit_true; [lia |]. rewrite Hq. reflexivity. }
    congruence.
Qed.

(** The bitfield setter hands the provider the new contents of the storage
    unit, which the type of the unit holds: the provider accepts them. *)
Lemma unit_write_accepted :
  forall buffer o ty u value w b,
    0 < RefType.size ty <= 8 ->
    0 <= u < 2 ^ (8 * RefType.size ty) ->
    0 <= b -> 0 <= w -> b + w <= 8 * RefType.size ty ->
    let val := Z.lor (decode ty u) (Z.shiftl (Z.land value (Z.ones w)) b) in
    let val := if RefType.signed ty then Ref.asIntN (8 * RefType.size ty) val
               else val in
    (if RefType.size ty <=? 4
     then Ref.set buffer o val ty
     else Ref.set_string buffer o val ty) = Ref.write buffer o val ty.
Proof.
  intros buffer o ty u value w b Hs Hu Hb Hw Hfit. cbv zeta.
  set (n := RefType.size ty) in *.
  set (val0 := Z.lor (decode ty u) (Z.shiftl (Z.land value (Z.ones w)) b)).
  assert (H63 : 2 ^ (8 * n - 1) <= 2 ^ 63) by (apply Z.pow_le_mono_r; lia).
  assert (H64 : 2 ^ (8 * n) <= 2 ^ 64) by (apply Z.pow_le_mono_r; lia).
  assert (P64 : 0 < 2 ^ 64) by (apply Z.pow_pos_nonneg; lia).
  unfold Ref.set, Ref.set_string, Ref.holds. fold n.
  destruct (RefType.signed ty) eqn:Esgn.
  - pose proof (asIntN_range (8 * n) val0 ltac:(lia)) as Hr.
    destruct (Z.leb_spec n 4).
    + destruct (Z.leb_spec (- 2 ^ (8 * n - 1)) (Ref.asIntN (8 * n) val0)); [| lia].
      destruct (Z.ltb_spec (Ref.asIntN (8 * n) val0) (2 ^ (8 * n - 1))); [| lia].
      reflexivity.
    + destruct (Z.leb_spec (- 2 ^ 63) (Ref.asIntN (8 * n) val0)); [| lia].
      destruct (Z.ltb_spec (Ref.asIntN (8 * n) val0) (2 ^ 63)); [| lia].
      reflexivity.
  - assert (Hr : 0 <= val0 < 2 ^ (8 * n)).
    { unfold val0. apply lor_range; [lia | |].
      - unfold decode. rewrite Esgn. assumption.
      - rewrite Z.land_ones, Z.shiftl_mul_pow2 by assumption.
        pose proof (Z.mod_pos_bound value (2 ^ w) ltac:(apply Z.pow_pos_nonneg; lia)).
        assert (0 < 2 ^ b) by (apply Z.pow_pos_nonneg; lia).
        split; [nia |].
        apply Z.lt_le_trans with (2 ^ w * 2 ^ b); [nia |].
        rewrite <- Z.pow_add_r by assumption. apply Z.pow_le_mono_r; lia. }
    destruct (Z.leb_spec n 4).
    + destruct (Z.leb_spec 0 val0); [| lia].
      destruct (Z.ltb_spec val0 (2 ^ (8 * n))); [| lia]. reflexivity.
    + destruct (Z.ltb_spec (- 2 ^ 64) val0); [| lia].
      destruct (Z.ltb_spec val0 (2 ^ 64)); [| lia]. reflexivity.
Qed.

Section Accessors.
Variables (limit : Z) (g : Field.t) (buffer : Buffer).
Hypothesis Hready : ready limit g.
Hypothesis Hlimit : limit <= Z.of_nat (List.length buffer).

Lemma bitfield_get_ready :
  FieldType.bits (Field.type g) <> 0 ->
  Struct.bitfield_get buffer g =
    Some (narrowed (Field.type g) (field_bits buffer g)).
Proof.
  intros Hb. destruct Hready as (o & Ho & Ho0 & Hs & Hin & Hbits).
  destruct (Hbits Hb) as (b & Hbs & Hbw & Hm & Hb0 & Hw & Hfit & Hty & H8).
  unfold Struct.bitfield_get, field_bits. rewrite Ho, Hbs, Hm, Hbw.
  rewrite Ref_get_stored by lia.
  rewrite isSignedInteger_spec by lia. rewrite Hty.
  set (u := stored buffer o (FieldType.size (Field.type g))).
  set (w := FieldType.bits (Field.type g)) in *.
  assert (Hsame : Z.land (Z.shiftr (decode (FieldType.type (Field.type g)) u) b)
                         (Z.ones w) =
                  Z.land (Z.shiftr u b) (Z.ones w)).
  { apply Z.bits_inj'. intros k Hk.
    rewrite !Z.land_spec, !Z.shiftr_spec by assumption.
    rewrite Z.testbit_ones_nonneg by lia.
    destruct (Z.ltb_spec k w); [| rewrite !andb_false_r; reflexivity].
    rewrite decode_low_bits by lia. reflexivity. }
  rewrite Hsame. unfold narrowed. fold w.
  destruct (RefType.signed (FieldType.type (Field.type g))); [reflexivity |].
  f_equal. rewrite Z.land_ones by lia. symmetry. apply Z.mod_mod.
  apply Z.pow_nonzero; lia.
Qed.

Lemma bitfield_set_ready :
  forall value,
    FieldType.bits (Field.type g) <> 0 ->
    exists buffer' o,
      Struct.bitfield_set buffer g value = Some buffer' /\
      Field.offset g = Some o /\
      List.length buffer' = List.length buffer /\
      same_outside buffer buffer' o (FieldType.size (Field.type g)) /\
      field_bits buffer' g =
        Z.lor (field_bits buffer g)
              (Z.land value (Z.ones (FieldType.bits (Field.type g)))).
Proof.
  intros value Hb. destruct Hready as (o & Ho & Ho0 & Hs & Hin & Hbits).
  destruct (Hbits Hb) as (b & Hbs & Hbw & Hm & Hb0 & Hw & Hfit & Hty & H8).
  unfold Struct.bitfield_set, field_bits. rewrite Ho, Hbs, Hm.
  rewrite Ref_get_stored by lia.
  rewrite isSignedInteger_spec by lia. rewrite Hty.
  set (n := FieldType.size (Field.type g)) in *.
  set (w := FieldType.bits (Field.type g)) in *.
  set (ty := FieldType.type (Field.type g)) in *.
  set (u := stored buffer o n).
  set (val := if RefType.signed ty
              then Ref.asIntN (8 * n)
                     (Z.lor (decode ty u) (Z.shiftl (Z.land value (Z.ones w)) b))
              else Z.lor (decode ty u) (Z.shiftl (Z.land value (Z.ones w)) b)).
  destruct (Ref_write_spec buffer o val ty ltac:(lia) ltac:(lia) ltac:(lia))
    as (buffer' & Hset & Hlen & Hout & Hst).
  rewrite Hty in Hout, Hst.
  exists buffer', o. split.
  { rewrite <- Hset. unfold val. fold u. rewrite <- Hty.
    apply (unit_write_accepted buffer o ty u value w b); try lia.
    unfold u. rewrite Hty. apply stored_range. lia. }
  split; [reflexivity |].
  split; [assumption |]. split; [assumption |].
  rewrite Hst. apply Z.bits_inj'. intros k Hk.
  rewrite Z.lor_spec, !Z.land_spec, !Z.shiftr_spec by assumption.
  rewrite Z.testbit_ones_nonneg by lia.
  destruct (Z.ltb_spec k w); [| rewrite !andb_false_r; reflexivity].
  rewrite !andb_true_r.
  rewrite Z.mod_pow2_bits_low by lia.
  assert (Hval : Z.testbit val (k + b) =
                 Z.testbit (Z.lor (decode ty u)
                                  (Z.shiftl (Z.land value (Z.ones w)) b)) (k + b)).
  { unfold val. destruct (RefType.signed ty); [| reflexivity].
    apply asIntN_low_bits. lia. }
  rewrite Hval, Z.lor_spec. rewrite decode_low_bits by lia.
  rewrite Z.shiftl_spec by lia. rewrite Z.land_spec.
  replace (k + b - b) with k by lia.
  rewrite Z.testbit_ones_nonneg by lia.
  destruct (Z.ltb_spec k w); [| lia]. rewrite andb_true_r. reflexivity.
Qed.

Lemma desc_get_ready :
  Struct.desc_get buffer g =
    Some (if FieldType.bits (Field.type g) =? 0
          then match Field.offset g with
               | Some o => decode (FieldType.base (Field.type g))
                             (stored buffer o (FieldType.size (Field.type g)))
               | None => 0
               end
          else narrowed (Field.type g) (field_bits buffer g)).
Proof.
  unfold Struct.desc_get.
  destruct (Z.eqb_spec (FieldType.bits (Field.type g)) 0) as [E | E]; simpl.
  - destruct Hready as (o & Ho & Ho0 & Hs & Hin & _). rewrite Ho.
    unfold FieldType.size in *. apply Ref_get_stored; lia.
  - apply bitfield_get_ready. assumption.
Qed.

Lemma desc_set_ready :
  forall value,
    fits (Field.type g) value ->
    exists buffer' o,
      Struct.desc_set buffer g value = Some buffer' /\
      Field.offset g = Some o /\
      List.length buffer' = List.length buffer /\
      same_outside buffer buffer' o (FieldType.size (Field.type g)) /\
      Struct.desc_get buffer' g =
        Some (if FieldType.bits (Field.type g) =? 0
              then value
              else narrowed (Field.type g)
                     (Z.lor (narrowed (Field.type g) (field_bits buffer g)) value)).
Proof.
  intros value Hfits. unfold Struct.desc_set, Struct.desc_get.
  destruct (Z.eqb_spec (FieldType.bits (Field.type g)) 0) as [E | E]; simpl.
  - destruct Hready as (o & Ho & Ho0 & Hs & Hin & _). rewrite Ho.
    destruct (Hfits E) as [Hholds Hsafe].
    unfold FieldType.size in *.
    destruct (Ref_write_spec buffer o value (FieldType.base (Field.type g))
                ltac:(lia) ltac:(lia) ltac:(lia))
      as (buffer' & Hset & Hlen & Hout & Hst).
    exists buffer', o. split.
    { rewrite <- Hset.
      destruct (Z.le_gt_cases (RefType.size (FieldType.base (Field.type g))) 4).
      - apply Ref_set_held; assumption.
      - rewrite Ref_set_wide by lia. rewrite toInt64_inside; [reflexivity |].
        assert (2 ^ 53 <= 2 ^ 63) by (apply Z.pow_le_mono_r; lia). lia. }
    do 3 (split; [first [assumption | reflexivity] |]).
    rewrite Ref_get_stored by lia. rewrite Hst. f_equal.
    apply holds_decode; [lia | assumption].
  - destruct (bitfield_set_ready value E) as (buffer' & o & Hset & Ho & Hlen & Hout & Hfb).
    exists buffer', o. do 4 (split; [assumption |]).
    assert (Hw : 0 < FieldType.bits (Field.type g)).
    { destruct Hready as (o' & _ & _ & _ & _ & Hbits).
      destruct (Hbits E) as (b & _ & _ & _ & _ & Hw & _). assumption. }
    unfold Struct.bitfield_get, field_bits in *.
    destruct Hready as (o' & Ho' & Ho0 & Hs & Hin & Hbits).
    destruct (Hbits E) as (b & Hbs & Hbw & Hm & Hb0 & _ & Hfit & Hty & H8).
    rewrite Ho', Hbs, Hm, Hbw in *.
    rewrite Ref_get_stored by lia.
    rewrite isSignedInteger_spec by lia. rewrite Hty.
    set (w := FieldType.bits (Field.type g)) in *.
    set (ty := FieldType.type (Field.type g)) in *.
    set (n := FieldType.size (Field.type g)) in *.
    assert (Hsame : forall u,
              Z.land (Z.shiftr (decode ty u) b) (Z.ones w) =
              Z.land (Z.shiftr u b) (Z.ones w)).
    { intros u. apply Z.bits_inj'. intros k Hk.
      rewrite !Z.land_spec, !Z.shiftr_spec by assumption.
      rewrite Z.testbit_ones_nonneg by lia.
      destruct (Z.ltb_spec k w); [| rewrite !andb_false_r; reflexivity].
      rewrite decode_low_bits by lia. reflexivity. }
    rewrite Hsame, Hfb.
    assert (Hn : forall x, (if RefType.signed ty then Ref.asIntN w x else x mod 2 ^ w)
                           = narrowed (Field.type g) x) by reflexivity.
    assert (Hu : forall x, 0 <= x < 2 ^ w -> x = x mod 2 ^ w)
      by (intros x Hx; symmetry; apply Z.mod_small; assumption).
    set (old := Z.land (Z.shiftr (stored buffer o' n) b) (Z.ones w)) in *.
    set (new := Z.lor old (Z.land value (Z.ones w))).
    assert (Hnew : narrowed (Field.type g) new =
                   narrowed (Field.type g) (Z.lor (narrowed (Field.type g) old) value)).
    { apply narrowed_ext; [lia |]. intros k Hk. unfold new.
      rewrite !Z.lor_spec, Z.land_spec, narrowed_low_bits by assumption.
      rewrite Z.testbit_ones_nonneg by lia.
      destruct (Z.ltb_spec k w); [| lia]. rewrite andb_true_r. reflexivity. }
    rewrite <- Hnew. unfold narrowed. fold w ty.
    destruct (RefType.signed ty); [reflexivity |].
    f_equal. apply Hu. unfold new, old.
    rewrite <- Z.land_lor_distr_l, Z.land_ones by lia.
    apply Z.mod_pos_bound. apply Z.pow_pos_nonneg; lia.
Qed.

(** A scalar of at most 4 bytes refuses a value outside its type. *)
Lemma desc_set_refused :
  forall value,
    refused (Field.type g) value -> Struct.desc_set buffer g value = None.
Proof.
  intros value (Hb & Hs & Hh). unfold Struct.desc_set. rewrite Hb. simpl.
  destruct (Field.offset g) as [o |]; [| reflexivity].
  apply Ref_set_refused; assumption.
Qed.

(** A signed scalar of 8 bytes takes every Number: a value beyond its range
    is stored as the bound it lies beyond. *)
Lemma desc_set_saturates :
  forall value,
    FieldType.bits (Field.type g) = 0 ->
    FieldType.size (Field.type g) = 8 ->
    RefType.signed (FieldType.base (Field.type g)) = true ->
    exists buffer',
      Struct.desc_set buffer g value = Some buffer' /\
      List.length buffer' = List.length buffer /\
      Struct.desc_get buffer' g = Some (Ref.toInt64 value).
Proof.
  intros value Hb Hs Hsgn. unfold Struct.desc_set, Struct.desc_get.
  rewrite Hb. simpl.
  destruct Hready as (o & Ho & Ho0 & _ & Hin & _). rewrite Ho.
  unfold FieldType.size in *.
  destruct (Ref_write_spec buffer o (Ref.toInt64 value) (FieldType.base (Field.type g))
              ltac:(lia) ltac:(lia) ltac:(lia))
    as (buffer' & Hset & Hlen & Hout & Hst).
  exists buffer'. rewrite Ref_set_wide by lia.
  split; [assumption |]. split; [assumption |].
  rewrite Ref_get_stored by lia. rewrite Hst. f_equal.
  apply holds_decode; [lia |].
  unfold Ref.holds. rewrite Hsgn, Hs. unfold Ref.toInt64.
  change (8 * 8 - 1) with 63.
  apply andb_true_intro. split; [apply Z.leb_le | apply Z.ltb_lt]; lia.
Qed.
End Accessors.

Lemma desc_get_same_bytes :
  forall limit g b b',
    ready limit g ->
    List.length b' = List.length b ->
    (forall o, Field.offset g = Some o ->
               same_bytes b b' o (FieldType.size (Field.type g))) ->
    Struct.desc_get b' g = Struct.desc_get b g.
Proof.
  intros limit g b b' (o & Ho & Ho0 & Hs & Hin & Hbits) Hlen H.
  specialize (H o Ho). unfold Struct.desc_get.
  destruct (Z.eqb_spec (FieldType.bits (Field.type g)) 0) as [E | E]; simpl.
  - rewrite Ho. apply Ref_get_same_bytes; assumption.
  - destruct (Hbits E) as (bs & Hbs & Hbw & Hm & _ & _ & _ & Hty & _).
    unfold Struct.bitfield_get. rewrite Ho, Hbs, Hm, Hbw.
    rewrite (Ref_get_same_bytes b b' o (FieldType.type (Field.type g)) Hlen)
      by (rewrite Hty; assumption).
    reflexivity.
Qed.

(** ** Instances of a laid-out struct *)


Lemma integer_field_size :
  forall ref type,
    integer_field type ->
    footprint ref type = FieldType.size type.
Proof.
  intros ref type [Hfl Hi]. rewrite footprint_scalar by assumption.
  unfold unit_size. rewrite Hfl.
  destruct (Z.eqb_spec (FieldType.bits type) 0); [| reflexivity].
  unfold natural_size, FieldType.indirection in *. rewrite Hi. reflexivity.
Qed.

(** After [recalc], the accessors of the integer fields work on every
    buffer that is as long as the size before the final padding. *)
Lemma recalc_ready :
  forall ref T T',
    Struct.recalc ref T = (Ok, T') ->
    well_formed_fields ref (Struct.fields T) ->
    exists limit,
      0 <= limit /\
      (positive_alignments ref (Struct.fields T) -> limit <= Struct.size T') /\
      (forall name g,
         In (name, g) (Struct.fields T') -> integer_field (Field.type g) ->
         ready limit g) /\
      ForallOrdPairs (fun e1 e2 => in_order ref (snd e1) (snd e2)) (Struct.fields T').
Proof.
  intros ref T T' Hr Hwf.
  destruct (recalc_laid ref T T' Hr Hwf) as (s1 & Hg1 & _ & Hsz & Hal & Hl & Hord).
  destruct (laid_out_fields ref T T' Hr Hwf) as (s2 & Hpl & _).
  destruct (recalc_table ref T Ok T' Hr) as [_ Hty].
  pose proof (same_types_Forall_r (well_formed ref) _ _ Hty Hwf) as Hwf'.
  exists (Struct.size s1). destruct Hg1 as [Hs1 _].
  split; [assumption |]. split; [| split; [| assumption]].
  - intros Hpos. destruct (recalc_alignment_nonneg ref T T' Hr Hpos) as [Ha _].
    destruct (final_size_bounds s1 Hs1 ltac:(lia)) as (Hb & _). lia.
  - intros name g Hin Hint.
    rewrite Forall_forall in Hl, Hwf'. unfold all_placed in Hpl.
    rewrite Forall_forall in Hpl.
    destruct (Hl _ Hin) as (o & Ho & Ho0 & Hend & _).
    specialize (Hwf' _ Hin). specialize (Hpl _ Hin). simpl in *.
    rewrite (integer_field_size ref _ Hint) in Hend.
    pose proof (footprint_pos ref _ Hwf') as Hfp.
    rewrite (integer_field_size ref _ Hint) in Hfp.
    exists o. do 4 (split; [assumption |]).
    intros Hb. destruct Hint as [Hfl Hi].
    destruct (Z.eqb_spec (FieldType.bits (Field.type g)) 0); [contradiction |].
    destruct (Hpl (conj Hfl Hb)) as (o' & b & O & B & Bi & M & _ & _ & _ & Te & B0 & W & F & _).
    exists b. repeat split; assumption.
Qed.

Section Instances.
Variables (S : Struct.t) (limit : Z).
Hypothesis Hready :
  forall name g, In (name, g) (Struct.fields S) -> ready limit g.

Lemma get_field_ready :
  forall this name g,
    Fields.get name (Struct.fields S) = Some g ->
    limit <= Z.of_nat (List.length (Struct.ref_buffer this)) ->
    Struct.get_field S this name =
      Some (if FieldType.bits (Field.type g) =? 0
            then match Field.offset g with
                 | Some o => decode (FieldType.base (Field.type g))
                               (stored (Struct.ref_buffer this) o
                                  (FieldType.size (Field.type g)))
                 | None => 0
                 end
            else narrowed (Field.type g) (field_bits (Struct.ref_buffer this) g)).
Proof.
  intros this name g Hget Hlen. unfold Struct.get_field. rewrite Hget.
  apply (desc_get_ready limit); [| assumption].
  apply (Hready name). apply get_In. assumption.
Qed.

Lemma set_field_ready :
  forall this name g value,
    Fields.get name (Struct.fields S) = Some g ->
    limit <= Z.of_nat (List.length (Struct.ref_buffer this)) ->
    fits (Field.type g) value ->
    exists this' o old,
      Struct.set_field S this name value = Some this' /\
      Field.offset g = Some o /\
      List.length (Struct.ref_buffer this') = List.length (Struct.ref_buffer this) /\
      same_outside (Struct.ref_buffer this) (Struct.ref_buffer this') o
        (FieldType.size (Field.type g)) /\
      Struct.get_field S this name = Some old /\
      Struct.get_field S this' name =
        Some (if FieldType.bits (Field.type g) =? 0
              then value
              else narrowed (Field.type g) (Z.lor old value)).
Proof.
  intros this name g value Hget Hlen Hfits.
  assert (Hr : ready limit g) by (apply (Hready name); apply get_In; assumption).
  destruct (desc_set_ready limit g (Struct.ref_buffer this) Hr Hlen value Hfits)
    as (buffer' & o & Hset & Ho & Hlen' & Hout & Hafter).
  exists (Struct.mkInstance buffer'), o.
  eexists. unfold Struct.set_field, Struct.get_field. rewrite Hget, Hset. simpl.
  split; [reflexivity |]. do 3 (split; [assumption |]).
  split; [apply (desc_get_ready limit); assumption |].
  rewrite Hafter.
  destruct (FieldType.bits (Field.type g) =? 0); reflexivity.
Qed.

Lemma populate_ready :
  forall data this,
    limit <= Z.of_nat (List.length (Struct.ref_buffer this)) ->
    fitting (Struct.fields S) data ->
    exists this',
      Struct.populate S this data = Some this' /\
      List.length (Struct.ref_buffer this') = List.length (Struct.ref_buffer this).
Proof.
  induction data as [| [key value] rest IH]; intros this Hlen Hfit; simpl.
  - exists this. split; reflexivity.
  - inversion Hfit as [| kv kvs Hkv Hrest]; subst. simpl in Hkv.
    destruct (Fields.get key (Struct.fields S)) as [g |] eqn:E; [| apply IH; assumption].
    destruct (set_field_ready this key g value E Hlen (Hkv g eq_refl))
      as (this1 & o & old & Hset & _ & Hlen1 & _).
    rewrite Hset.
    destruct (IH this1 ltac:(lia) Hrest) as (this' & Hp & Hlen').
    exists this'. split; [assumption | congruence].
Qed.

(** The constructor stops at the first value that a field refuses. *)
Lemma populate_unfit :
  forall data this,
    unfit (Struct.fields S) data -> Struct.populate S this data = None.
Proof.
  induction data as [| [key value] rest IH]; intros this Hun; simpl.
  - inversion Hun.
  - inversion Hun as [kv kvs (g & Hg & Hr) | kv kvs Hrest]; subst; simpl in *.
    + rewrite Hg. unfold Struct.set_field. rewrite Hg.
      rewrite (desc_set_refused g (Struct.ref_buffer this) value Hr). reflexivity.
    + destruct (Fields.get key (Struct.fields S)) as [g |]; [| apply IH; assumption].
      destruct (Struct.set_field S this key value) as [this1 |]; [| reflexivity].
      apply IH; assumption.
Qed.
End Instances.

(** X13: an instance created without a buffer has a buffer of exactly the
    size of the struct, marks the type as instantiated, and reads 0 in every
    integer field.  (No field is named [buffer_key]: the constructor assigns
    to that key.) *)
Theorem fresh_instance_reads_zero :
  forall ref T T',
    Struct.recalc ref T = (Ok, T') ->
    well_formed_fields ref (Struct.fields T) ->
    positive_alignments ref (Struct.fields T) ->
    Fields.get buffer_key (Struct.fields T) = None ->
    exists this,
      Struct.StructType T' None [] = (inr this, Struct.set_instanceCreated T' true) /\
      Z.of_nat (List.length (Struct.ref_buffer this)) = Struct.size T' /\
      forall name g,
        Fields.get name (Struct.fields T') = Some g ->
        integer_field (Field.type g) ->
        Struct.get_field T' this name = Some 0.
Proof.
  intros ref T T' Hr Hwf Hpos _.
  destruct (recalc_ready ref T T' Hr Hwf) as (limit & Hl0 & Hle & Hrd & _).
  specialize (Hle Hpos).
  exists (Struct.mkInstance (Ref.alloc (Struct.size T'))).
  split; [reflexivity |].
  assert (Hlen : Z.of_nat (List.length (Ref.alloc (Struct.size T'))) = Struct.size T').
  { unfold Ref.alloc. rewrite repeat_length. lia. }
  split; [exact Hlen |].
  intros name g Hget Hint. unfold Struct.get_field. rewrite Hget. simpl.
  rewrite (desc_get_ready limit) by
    (first [apply (Hrd name); [apply get_In |]; assumption | lia]).
  f_equal. unfold field_bits.
  destruct (Hrd name g (get_In _ _ _ Hget) Hint) as (o & Ho & _). rewrite Ho.
  rewrite !stored_alloc.
  destruct (FieldType.bits (Field.type g) =? 0); [apply decode_0 |].
  destruct (Field.bitStart g); [| apply narrowed_0].
  rewrite Z.shiftr_0_l, Z.land_0_l. apply narrowed_0.
Qed.

(** X14: over a buffer that is passed in and has at least the size of the
    struct, the constructor succeeds when the values of the object that it
    is given fit the fields that their keys name: it keeps the length of
    the buffer and marks the type as instantiated.  When one of the values
    is outside the type of the scalar of at most 4 bytes that its key names,
    the constructor fails with the error of the provider and leaves the
    type as it was: the call does not mark it as instantiated.  Over a
    shorter buffer it fails with the buffer error, and leaves the type as
    it was.  (No field and no key
    of the object is named [buffer_key].) *)
Theorem instantiation_needs_a_long_enough_buffer :
  forall ref T T' buffer data,
    Struct.recalc ref T = (Ok, T') ->
    well_formed_fields ref (Struct.fields T) ->
    positive_alignments ref (Struct.fields T) ->
    integer_fields (Struct.fields T) ->
    Fields.get buffer_key (Struct.fields T) = None ->
    ~ In buffer_key (map fst data) ->
    (Struct.size T' <= Z.of_nat (List.length buffer) ->
     fitting (Struct.fields T') data ->
     exists this,
       Struct.StructType T' (Some buffer) data =
         (inr this, Struct.set_instanceCreated T' true) /\
       List.length (Struct.ref_buffer this) = List.length buffer) /\
    (Struct.size T' <= Z.of_nat (List.length buffer) ->
     unfit (Struct.fields T') data ->
     Struct.StructType T' (Some buffer) data = (inl ProviderError, T')) /\
    (Z.of_nat (List.length buffer) < Struct.size T' ->
     Struct.StructType T' (Some buffer) data = (inl BufferTooSmallError, T')).
Proof.
  intros ref T T' buffer data Hr Hwf Hpos Hint _ _.
  destruct (recalc_ready ref T T' Hr Hwf) as (limit & Hl0 & Hle & Hrd & _).
  specialize (Hle Hpos).
  destruct (recalc_table ref T Ok T' Hr) as [_ Hty].
  pose proof (same_types_Forall_r integer_field _ _ Hty Hint) as Hint'.
  assert (Hrd' : forall name g, In (name, g) (Struct.fields T') -> ready limit g).
  { intros name g Hin. apply (Hrd name g Hin).
    rewrite Forall_forall in Hint'. apply (Hint' _ Hin). }
  unfold Struct.StructType. split; [| split].
  - intros Hlen Hfit.
    destruct (Z.geb_spec (Z.of_nat (List.length buffer)) (Struct.size T')); [| lia].
    destruct (populate_ready T' limit Hrd' data (Struct.mkInstance buffer))
      as (this & Hp & Hlen'); [simpl; lia | assumption |].
    rewrite Hp. exists this. split; [reflexivity | assumption].
  - intros Hlen Hun.
    destruct (Z.geb_spec (Z.of_nat (List.length buffer)) (Struct.size T')); [| lia].
    rewrite (populate_unfit T' data (Struct.mkInstance buffer) Hun). reflexivity.
  - intros Hlen.
    destruct (Z.geb_spec (Z.of_nat (List.length buffer)) (Struct.size T')); [lia |].
    reflexivity.
Qed.

(** X15: on an instance whose buffer has at least the size of the struct,
    every integer field can be read.  A value that fits the field can be
    written: the write keeps the length of the buffer, and after it a scalar
    reads the value written and a bitfield the bitwise OR of the value it
    read before and the value written, narrowed to its width.  A scalar of
    at most 4 bytes refuses a value outside its type.  A signed scalar of 8
    bytes takes a Number beyond its range, and then reads the bound that
    the Number lies beyond. *)
Theorem write_then_read :
  forall ref T T' name g this value,
    Struct.recalc ref T = (Ok, T') ->
    well_formed_fields ref (Struct.fields T) ->
    positive_alignments ref (Struct.fields T) ->
    Fields.get name (Struct.fields T') = Some g ->
    integer_field (Field.type g) ->
    Struct.size T' <= Z.of_nat (List.length (Struct.ref_buffer this)) ->
    exists old,
      Struct.get_field T' this name = Some old /\
      (fits (Field.type g) value ->
       exists this',
         Struct.set_field T' this name value = Some this' /\
         List.length (Struct.ref_buffer this') =
           List.length (Struct.ref_buffer this) /\
         Struct.get_field T' this' name =
           Some (if FieldType.bits (Field.type g) =? 0
                 then value
                 else narrowed (Field.type g) (Z.lor old value))) /\
      (refused (Field.type g) value ->
       Struct.set_field T' this name value = None) /\
      (FieldType.bits (Field.type g) = 0 ->
       FieldType.size (Field.type g) = 8 ->
       RefType.signed (FieldType.base (Field.type g)) = true ->
       value < - 2 ^ 63 \/ 2 ^ 63 <= value ->
       exists this',
         Struct.set_field T' this name value = Some this' /\
         Struct.get_field T' this' name =
           Some (if value <? 0 then - 2 ^ 63 else 2 ^ 63 - 1)).
Proof.
  intros ref T T' name g this value Hr Hwf Hpos Hget Hint Hlen.
  destruct (recalc_ready ref T T' Hr Hwf) as (limit & Hl0 & Hle & Hrd & _).
  specialize (Hle Hpos).
  pose proof (Hrd name g (get_In _ _ _ Hget) Hint) as Hg.
  assert (Hlim : limit <= Z.of_nat (List.length (Struct.ref_buffer this))) by lia.
  unfold Struct.set_field, Struct.get_field. rewrite Hget.
  eexists. split; [apply (desc_get_ready limit); assumption |].
  split; [| split].
  - intros Hfits.
    destruct (desc_set_ready limit g (Struct.ref_buffer this) Hg Hlim value Hfits)
      as (buffer' & o & Hset & Ho & Hlen' & Hout & Hafter).
    exists (Struct.mkInstance buffer'). rewrite Hset. simpl.
    split; [reflexivity |]. split; [assumption |].
    rewrite Hafter. destruct (FieldType.bits (Field.type g) =? 0); reflexivity.
  - intros Href. rewrite (desc_set_refused g _ value Href). reflexivity.
  - intros Hb Hs Hsgn Hout.
    destruct (desc_set_saturates limit g (Struct.ref_buffer this) Hg Hlim value
                Hb Hs Hsgn) as (buffer' & Hset & _ & Hafter).
    exists (Struct.mkInstance buffer'). rewrite Hset. simpl.
    split; [reflexivity |]. rewrite Hafter. f_equal.
    assert (0 < 2 ^ 63) by (apply Z.pow_pos_nonneg; lia).
    destruct (Z.ltb_spec value 0); destruct Hout;
      first [apply toInt64_below; lia | apply toInt64_above; lia | lia].
Qed.

(** X16: whatever the buffer holds, a bitfield of width [w] reads a value
    from 0 up to [2 ^ w] over an unsigned type, and from [- 2 ^ (w - 1)] up to
    [2 ^ (w - 1)] over a signed type, the upper bounds excluded. *)
Theorem bitfield_reads_are_in_range :
  forall ref T T' name g this v,
    Struct.recalc ref T = (Ok, T') ->
    well_formed_fields ref (Struct.fields T) ->
    Fields.get name (Struct.fields T') = Some g ->
    is_bitfield (Field.type g) ->
    Struct.get_field T' this name = Some v ->
    if RefType.signed (FieldType.type (Field.type g))
    then - 2 ^ (FieldType.bits (Field.type g) - 1) <= v
         < 2 ^ (FieldType.bits (Field.type g) - 1)
    else 0 <= v < 2 ^ FieldType.bits (Field.type g).
Proof.
  intros ref T T' name g this v Hr Hwf Hget Hb Hv.
  destruct (laid_out_fields ref T T' Hr Hwf) as (s1 & Hpl & _).
  unfold all_placed in Hpl. rewrite Forall_forall in Hpl.
  destruct (Hpl _ (get_In _ _ _ Hget) Hb)
    as (o & b & O & B & Bi & M & O0 & _ & Sz & Te & B0 & W & F & _).
  simpl in *.
  unfold Struct.get_field in Hv. rewrite Hget in Hv.
  unfold Struct.desc_get in Hv. destruct Hb as [_ Hbits].
  destruct (Z.eqb_spec (FieldType.bits (Field.type g)) 0); [contradiction |].
  simpl in Hv. unfold Struct.bitfield_get in Hv. rewrite O, B, M, Bi in Hv.
  destruct (Ref.get (Struct.ref_buffer this) o (FieldType.type (Field.type g)))
    as [x |] eqn:Ex; [| discriminate].
  destruct (Struct.isSignedInteger (FieldType.type (Field.type g))) as [sgn |] eqn:Es;
    [| discriminate].
  assert (H8 : RefType.size (FieldType.type (Field.type g)) <= 8).
  { unfold Struct.isSignedInteger in Es.
    destruct (Ref.get Struct.minus_one_buffer 0 (FieldType.type (Field.type g)))
      as [y |] eqn:Ey; [| discriminate].
    apply Ref_get_defined in Ey. simpl in Ey. lia. }
  rewrite isSignedInteger_spec in Es by lia. inversion Es; subst sgn; clear Es.
  set (w := FieldType.bits (Field.type g)) in *.
  set (y := Z.land (Z.shiftr x b) (Z.ones w)) in *.
  assert (Hy : 0 <= y < 2 ^ w).
  { unfold y. rewrite Z.land_ones by lia. apply Z.mod_pos_bound.
    apply Z.pow_pos_nonneg; lia. }
  pose proof (narrowed_range (Field.type g) y W) as Hn.
  unfold narrowed in Hn. fold w in Hn.
  destruct (RefType.signed (FieldType.type (Field.type g)));
    inversion Hv; subst v; [exact Hn |].
  rewrite Z.mod_small in Hn by assumption. exact Hn.
Qed.

Lemma in_order_apart :
  forall ref g1 g2 o1 o2,
    in_order ref g1 g2 ->
    Field.offset g1 = Some o1 -> Field.offset g2 = Some o2 -> o1 <> o2 ->
    o1 + footprint ref (Field.type g1) <= o2.
Proof.
  intros ref g1 g2 o1 o2 (p1 & p2 & P1 & P2 & H) O1 O2 Hne.
  rewrite O1 in P1. rewrite O2 in P2. inversion P1; inversion P2; subst.
  destruct H as [H | (_ & _ & H)]; [assumption | contradiction].
Qed.

(** ** A write and the other fields *)

Lemma set_field_apart :
  forall ref T T' nameA nameB gA gB this value this',
    Struct.recalc ref T = (Ok, T') ->
    well_formed_fields ref (Struct.fields T) ->
    Fields.get nameA (Struct.fields T') = Some gA ->
    Fields.get nameB (Struct.fields T') = Some gB ->
    integer_field (Field.type gA) -> integer_field (Field.type gB) ->
    Field.offset gA <> Field.offset gB ->
    Struct.set_field T' this nameA value = Some this' ->
    Struct.get_field T' this' nameB = Struct.get_field T' this nameB.
Proof.
  intros ref T T' nameA nameB gA gB this value this' Hr Hwf GA GB IA IB Hne Hset.
  destruct (recalc_ready ref T T' Hr Hwf) as (limit & Hl0 & _ & Hrd & Hord).
  pose proof (get_In _ _ _ GA) as InA. pose proof (get_In _ _ _ GB) as InB.
  pose proof (Hrd _ _ InA IA) as RA. pose proof (Hrd _ _ InB IB) as RB.
  pose proof RA as (oA & OA & A0 & SA & _). pose proof RB as (oB & OB & B0 & SB & _).
  assert (Hapart : oA + FieldType.size (Field.type gA) <= oB \/
                   oB + FieldType.size (Field.type gB) <= oA).
  { assert (Hoo : oA <> oB) by congruence.
    destruct (ForallOrdPairs_In Hord _ _ InA InB) as [E | [H | H]].
    - inversion E; subst. congruence.
    - left. rewrite <- (integer_field_size ref _ IA).
      apply (in_order_apart ref gA gB oA oB H OA OB Hoo).
    - right. rewrite <- (integer_field_size ref _ IB).
      apply (in_order_apart ref gB gA oB oA H OB OA). congruence. }
  unfold Struct.set_field in Hset. rewrite GA in Hset.
  destruct (Struct.desc_set (Struct.ref_buffer this) gA value) as [buffer' |] eqn:E;
    [| discriminate].
  inversion Hset; subst this'; clear Hset.
  unfold Struct.get_field. rewrite GB. simpl.
  assert (Hfr : List.length buffer' = List.length (Struct.ref_buffer this) /\
                same_outside (Struct.ref_buffer this) buffer' oA
                  (FieldType.size (Field.type gA))).
  { unfold Struct.desc_set in E.
    destruct (Z.eqb_spec (FieldType.bits (Field.type gA)) 0) as [Eb | Eb]; simpl in E.
    - rewrite OA in E. apply Ref_set_write in E. destruct E as [v E].
      pose proof (Ref_write_defined _ _ _ _ _ E) as (D1 & D2 & D3).
      destruct (Ref_write_spec (Struct.ref_buffer this) oA v
                  (FieldType.base (Field.type gA)) D1 D2 D3)
        as (b2 & Hs2 & Hlen & Hout & _).
      rewrite E in Hs2. inversion Hs2; subst b2. split; assumption.
    - destruct RA as (o & O & _ & _ & _ & Hbits).
      destruct (Hbits Eb) as (b & Hbs & Hbw & Hm & _ & _ & _ & Hty & H8).
      unfold Struct.bitfield_set in E. rewrite O, Hbs, Hm in E.
      rewrite OA in O. inversion O; subst o.
      destruct (Ref.get (Struct.ref_buffer this) oA (FieldType.type (Field.type gA)))
        as [x |]; [| discriminate].
      destruct (Struct.isSignedInteger (FieldType.type (Field.type gA))) as [sgn |];
        [| discriminate].
      apply unit_write in E.
      pose proof (Ref_write_defined _ _ _ _ _ E) as (D1 & D2 & D3).
      match type of E with Ref.write _ _ ?v _ = _ =>
        destruct (Ref_write_spec (Struct.ref_buffer this) oA v
                    (FieldType.type (Field.type gA)) D1 D2 D3)
          as (b2 & Hs2 & Hlen & Hout & _) end.
      rewrite E in Hs2. inversion Hs2; subst b2. rewrite Hty in Hout.
      split; assumption. }
  destruct Hfr as [Hlen Hout].
  apply (desc_get_same_bytes limit); [assumption | assumption |].
  intros o Ho. rewrite OB in Ho. inversion Ho; subst o.
  intros i Hi. apply Hout. lia.
Qed.

Lemma set_field_same_unit :
  forall ref T T' nameA nameB gA gB this value this',
    Struct.recalc ref T = (Ok, T') ->
    well_formed_fields ref (Struct.fields T) ->
    Fields.get nameA (Struct.fields T') = Some gA ->
    Fields.get nameB (Struct.fields T') = Some gB ->
    nameA <> nameB ->
    is_bitfield (Field.type gA) -> is_bitfield (Field.type gB) ->
    Field.offset gA = Field.offset gB ->
    Struct.set_field T' this nameA value = Some this' ->
    Struct.get_field T' this' nameB = Struct.get_field T' this nameB.
Proof.
  intros ref T T' nameA nameB fA fB this value this' Hr Hwf GA GB Hne BA BB Ho Hset.
  destruct (laid_out_fields ref T T' Hr Hwf) as (s1 & Hpl & Hsep).
  pose proof (get_In _ _ _ GA) as IA. pose proof (get_In _ _ _ GB) as IB.
  unfold all_placed in Hpl. rewrite Forall_forall in Hpl.
  destruct (Hpl _ IA BA) as (oA & bA & OA & SA & _ & MA & _ & _ & _ & TA & A0 & WA
                             & FA & _).
  destruct (Hpl _ IB BB) as (oB & bB & OB & SB & _ & MB & _ & _ & _ & TB & B0 & WB
                             & FB & _).
  simpl in *. rewrite OA, OB in Ho. inversion Ho; subst oB.
  assert (Hc : compatible fA fB).
  { destruct (ForallOrdPairs_In Hsep _ _ IA IB) as [E | [H | H]].
    - inversion E; contradiction.
    - exact H.
    - apply compatible_sym. exact H. }
  destruct (Hc BA BB oA OA OB) as (bA' & bB' & SA' & SB' & Hsize & Hd).
  rewrite SA in SA'. rewrite SB in SB'. inversion SA'; inversion SB'; subst bA' bB'.
  unfold Struct.set_field in Hset. rewrite GA in Hset.
  unfold Struct.get_field. rewrite GB.
  unfold Struct.desc_set in Hset. unfold Struct.desc_get.
  destruct BA as [_ ZA]. destruct BB as [_ ZB].
  destruct (Z.eqb_spec (FieldType.bits (Field.type fA)) 0); [contradiction |].
  destruct (Z.eqb_spec (FieldType.bits (Field.type fB)) 0); [contradiction |].
  simpl in *.
  destruct (Struct.bitfield_set (Struct.ref_buffer this) fA value) as [buffer' |] eqn:E;
    [| discriminate].
  inversion Hset; subst this'. simpl.
  apply (bitfield_frame _ fA fB value buffer' oA bA bB
           (FieldType.bits (Field.type fA)) (FieldType.bits (Field.type fB))
           (FieldType.size (Field.type fA)));
    try assumption; try lia; congruence.
Qed.

(** Two distinct integer fields are at different offsets, or they are
    bitfields of one storage unit. *)
Lemma apart_or_same_unit :
  forall ref T T' nameA nameB gA gB,
    Struct.recalc ref T = (Ok, T') ->
    well_formed_fields ref (Struct.fields T) ->
    Fields.get nameA (Struct.fields T') = Some gA ->
    Fields.get nameB (Struct.fields T') = Some gB ->
    nameA <> nameB ->
    integer_field (Field.type gA) -> integer_field (Field.type gB) ->
    Field.offset gA <> Field.offset gB \/
    (is_bitfield (Field.type gA) /\ is_bitfield (Field.type gB) /\
     Field.offset gA = Field.offset gB).
Proof.
  intros ref T T' nameA nameB gA gB Hr Hwf GA GB Hne IA IB.
  destruct (recalc_ready ref T T' Hr Hwf) as (limit & Hl0 & _ & Hrd & Hord).
  pose proof (get_In _ _ _ GA) as InA. pose proof (get_In _ _ _ GB) as InB.
  pose proof (Hrd _ _ InA IA) as (oA & OA & A0 & SA & _).
  pose proof (Hrd _ _ InB IB) as (oB & OB & B0 & SB & _).
  destruct (Z.eq_dec oA oB) as [E | E]; [| left; congruence].
  subst oB. right.
  assert (Hbb : is_bitfield (Field.type gA) /\ is_bitfield (Field.type gB)).
  { destruct (ForallOrdPairs_In Hord _ _ InA InB) as [E | [H | H]].
    - inversion E; contradiction.
    - destruct H as (p1 & p2 & P1 & P2 & [H | (H1 & H2 & _)]); [| split; assumption].
      simpl in *. rewrite (integer_field_size ref _ IA) in H.
      rewrite OA in P1. rewrite OB in P2. inversion P1; inversion P2; subst. lia.
    - destruct H as (p1 & p2 & P1 & P2 & [H | (H1 & H2 & _)]); [| split; assumption].
      simpl in *. rewrite (integer_field_size ref _ IB) in H.
      rewrite OB in P1. rewrite OA in P2. inversion P1; inversion P2; subst. lia. }
  destruct Hbb as [BA BB]. split; [assumption |]. split; [assumption | congruence].
Qed.

(** X17: a write to an integer field changes the value read from no other
    integer field, whether the two share a storage unit or not. *)
Theorem writes_leave_the_other_fields_alone :
  forall ref T T' nameA nameB gA gB this value this',
    Struct.recalc ref T = (Ok, T') ->
    well_formed_fields ref (Struct.fields T) ->
    Fields.get nameA (Struct.fields T') = Some gA ->
    Fields.get nameB (Struct.fields T') = Some gB ->
    nameA <> nameB ->
    integer_field (Field.type gA) -> integer_field (Field.type gB) ->
    Struct.set_field T' this nameA value = Some this' ->
    Struct.get_field T' this' nameB = Struct.get_field T' this nameB.
Proof.
  intros ref T T' nameA nameB gA gB this value this' Hr Hwf GA GB Hne IA IB Hset.
  destruct (apart_or_same_unit ref T T' nameA nameB gA gB Hr Hwf GA GB Hne IA IB)
    as [H | (BA & BB & H)].
  - apply (set_field_apart ref T T' nameA nameB gA gB this value this');
      assumption.
  - apply (set_field_same_unit ref T T' nameA nameB gA gB this value this');
      assumption.
Qed.

(** ** An instance built from an object *)

Lemma assoc_None :
  forall key data, ~ In key (map fst data) -> assoc key data = None.
Proof.
  induction data as [| [k v] rest IH]; simpl; intros H; [reflexivity |].
  destruct (String.eqb_spec k key) as [-> | _]; [exfalso; auto | apply IH; auto].
Qed.

Lemma assoc_app :
  forall key d1 d2,
    assoc key (d1 ++ d2) =
    match assoc key d1 with
    | Some v => Some v
    | None => assoc key d2
    end.
Proof.
  induction d1 as [| [k v] rest IH]; simpl; intros d2; [reflexivity |].
  destruct (k =? key)%string; [reflexivity | apply IH].
Qed.

Lemma assoc_snoc_other :
  forall key done k v,
    k <> key -> assoc key (done ++ [(k, v)]) = assoc key done.
Proof.
  intros key done k v Hk. rewrite assoc_app. simpl.
  destruct (String.eqb_spec k key); [contradiction |].
  destruct (assoc key done); reflexivity.
Qed.

Lemma assoc_snoc_same :
  forall key done v,
    ~ In key (map fst done) -> assoc key (done ++ [(key, v)]) = Some v.
Proof.
  intros key done v H. rewrite assoc_app, (assoc_None _ _ H). simpl.
  rewrite String.eqb_refl. reflexivity.
Qed.

Lemma In_get :
  forall (l : Fields.t) name g,
    NoDup (map fst l) -> In (name, g) l -> Fields.get name l = Some g.
Proof.
  induction l as [| [k h] rest IH]; simpl; intros name g Hnd Hin; [contradiction |].
  inversion Hnd as [| x xs Hx Hrest]; subst.
  destruct Hin as [E | Hin].
  - inversion E; subst. rewrite String.eqb_refl. reflexivity.
  - destruct (String.eqb_spec k name) as [-> | _]; [| apply IH; assumption].
    exfalso. apply Hx. apply (in_map fst _ _ Hin).
Qed.

Section Populate.
Variables (ref : Ref.Provider) (T T' : Struct.t).
Hypothesis Hr : Struct.recalc ref T = (Ok, T').
Hypothesis Hwf : well_formed_fields ref (Struct.fields T).
Hypothesis Hint : integer_fields (Struct.fields T').
Hypothesis Hnd : NoDup (map fst (Struct.fields T')).

(** What the fields read while the constructor goes through the keys of
    its argument: [done] are the keys gone through. *)
Lemma populate_values :
  forall limit data done this,
    (forall name g, In (name, g) (Struct.fields T') -> ready limit g) ->
    limit <= Z.of_nat (List.length (Struct.ref_buffer this)) ->
    NoDup (map fst (done ++ data)) ->
    fitting (Struct.fields T') data ->
    (forall e, In e (Struct.fields T') ->
               Struct.get_field T' this (fst e) = Some (snd (initial_value done e))) ->
    exists this',
      Struct.populate T' this data = Some this' /\
      List.length (Struct.ref_buffer this') = List.length (Struct.ref_buffer this) /\
      same_outside (Struct.ref_buffer this) (Struct.ref_buffer this') 0 limit /\
      forall e, In e (Struct.fields T') ->
                Struct.get_field T' this' (fst e) =
                  Some (snd (initial_value (done ++ data) e)).
Proof.
  intros limit. induction data as [| [key value] rest IH];
    intros done this Hrd Hlen Hdd Hfit Hinv.
  - exists this. simpl. rewrite app_nil_r.
    split; [reflexivity |]. split; [reflexivity |]. split; [| assumption].
    intros i _. reflexivity.
  - assert (Hkey : ~ In key (map fst done)).
    { rewrite map_app in Hdd. simpl in Hdd. apply NoDup_remove_2 in Hdd.
      intros H. apply Hdd. apply in_or_app. left. assumption. }
    assert (Hdd' : NoDup (map fst ((done ++ [(key, value)]) ++ rest))).
    { rewrite <- app_assoc. exact Hdd. }
    cbn [Struct.populate].
    inversion Hfit as [| kv kvs Hkv Hrest]; subst. simpl in Hkv.
    destruct (Fields.get key (Struct.fields T')) as [gk |] eqn:Ek.
    + destruct (set_field_ready T' limit Hrd this key gk value Ek Hlen (Hkv gk eq_refl))
        as (this1 & o & old & Hset & Ho & Hlen1 & Hout1 & Hold & Hnew).
      rewrite Hset.
      pose proof (get_In _ _ _ Ek) as Ink.
      assert (Hik : integer_field (Field.type gk)).
      { unfold integer_fields in Hint. rewrite Forall_forall in Hint.
        apply (Hint _ Ink). }
      assert (Hold0 : old = 0).
      { specialize (Hinv _ Ink). simpl in Hinv. rewrite (assoc_None _ _ Hkey) in Hinv.
        congruence. }
      destruct (IH (done ++ [(key, value)]) this1 Hrd ltac:(lia) Hdd' Hrest)
        as (this' & Hp & Hlen' & Hout' & Hfinal).
      * intros [name g] Hin. simpl.
        destruct (String.eqb_spec key name) as [<- | Hne].
        -- pose proof (In_get _ _ _ Hnd Hin) as Eg. rewrite Ek in Eg.
           inversion Eg; subst g. rewrite Hnew, (assoc_snoc_same _ _ _ Hkey).
           f_equal. subst old. unfold field_value.
           destruct (FieldType.bits (Field.type gk) =? 0); [reflexivity |].
           rewrite Z.lor_0_l. reflexivity.
        -- pose proof (In_get _ _ _ Hnd Hin) as Eg.
           assert (Hig : integer_field (Field.type g)).
           { unfold integer_fields in Hint. rewrite Forall_forall in Hint.
             apply (Hint _ Hin). }
           destruct (apart_or_same_unit ref T T' key name gk g Hr Hwf Ek Eg Hne Hik Hig)
             as [H | (BA & BB & H)].
           ++ rewrite (set_field_apart ref T T' key name gk g this value this1
                         Hr Hwf Ek Eg Hik Hig H Hset).
              rewrite (assoc_snoc_other _ _ _ _ Hne). apply (Hinv (name, g) Hin).
           ++ rewrite (set_field_same_unit ref T T' key name gk g this value this1
                         Hr Hwf Ek Eg Hne BA BB H Hset).
              rewrite (assoc_snoc_other _ _ _ _ Hne). apply (Hinv (name, g) Hin).
      * exists this'. split; [assumption |]. split; [congruence |].
        split.
        -- intros i Hi. rewrite (Hout' i Hi).
           destruct (Hrd key gk Ink) as (o' & Ho' & O0 & S0 & Oin & _).
           rewrite Ho in Ho'. inversion Ho'; subst o'.
           apply Hout1. lia.
        -- intros e He. rewrite (Hfinal e He). rewrite <- app_assoc. reflexivity.
    + destruct (IH (done ++ [(key, value)]) this Hrd Hlen Hdd' Hrest)
        as (this' & Hp & Hlen' & Hout' & Hfinal).
      * intros [name g] Hin. simpl.
        assert (Hne : key <> name).
        { intros ->. rewrite (In_get _ _ _ Hnd Hin) in Ek. discriminate. }
        rewrite (assoc_snoc_other _ _ _ _ Hne). apply (Hinv (name, g) Hin).
      * exists this'. split; [assumption |]. split; [assumption |].
        split; [assumption |].
        intros e He. rewrite (Hfinal e He). rewrite <- app_assoc. reflexivity.
Qed.

Lemma toObject_each_values :
  forall this (f : string * Field.t -> Z) (l : Fields.t),
    (forall e, In e l -> Struct.get_field T' this (fst e) = Some (f e)) ->
    proto.toObject_each T' this (map fst l) =
      Some (map (fun e => (fst e, f e)) l).
Proof.
  intros this f. induction l as [| e rest IH]; intros H; simpl; [reflexivity |].
  rewrite (H e (or_introl eq_refl)). rewrite IH by (intros; apply H; right; assumption).
  reflexivity.
Qed.
End Populate.

Lemma alloc_reads_zero :
  forall limit size g,
    ready limit g -> limit <= size ->
    Struct.desc_get (Ref.alloc size) g = Some 0.
Proof.
  intros limit size g Hg Hle.
  assert (Hlen : Z.of_nat (List.length (Ref.alloc size)) = Z.max 0 size).
  { unfold Ref.alloc. rewrite repeat_length. lia. }
  rewrite (desc_get_ready limit) by (first [assumption | lia]).
  f_equal. unfold field_bits.
  destruct Hg as (o & Ho & _). rewrite Ho. rewrite !stored_alloc.
  destruct (FieldType.bits (Field.type g) =? 0); [apply decode_0 |].
  destruct (Field.bitStart g); [| apply narrowed_0].
  rewrite Z.shiftr_0_l, Z.land_0_l. apply narrowed_0.
Qed.

(** X18: an instance created from an object of integers that fit the
    fields they name, and flattened by [toObject], gives for every field,
    in the order of the table, the value that the object has under the name
    of the field (narrowed to the width for a bitfield), and 0 for a field
    that the object does not mention.  (Neither a field nor a key of the
    object is named [buffer_key] or as a property of the prototype that
    [toObject] needs.) *)
Theorem toObject_of_a_new_instance :
  forall ref T T' data,
    Struct.recalc ref T = (Ok, T') ->
    well_formed_fields ref (Struct.fields T) ->
    positive_alignments ref (Struct.fields T) ->
    integer_fields (Struct.fields T) ->
    NoDup (map fst (Struct.fields T)) ->
    unused (buffer_key :: prototype_keys) (map fst (Struct.fields T)) ->
    NoDup (map fst data) ->
    unused (buffer_key :: prototype_keys) (map fst data) ->
    fitting (Struct.fields T') data ->
    exists this,
      Struct.StructType T' None data =
        (inr this, Struct.set_instanceCreated T' true) /\
      proto.toObject T' this = Some (map (initial_value data) (Struct.fields T')).
Proof.
  intros ref T T' data Hr Hwf Hpos Hint Hnd _ Hdd _ Hfit.
  destruct (recalc_ready ref T T' Hr Hwf) as (limit & Hl0 & Hle & Hrd & _).
  specialize (Hle Hpos).
  destruct (recalc_table ref T Ok T' Hr) as [Hnames Hty].
  pose proof (same_types_Forall_r integer_field _ _ Hty Hint) as Hint'.
  assert (Hnd' : NoDup (map fst (Struct.fields T'))) by (rewrite Hnames; assumption).
  assert (Hrd' : forall name g, In (name, g) (Struct.fields T') -> ready limit g).
  { intros name g Hin. apply (Hrd name g Hin).
    rewrite Forall_forall in Hint'. apply (Hint' _ Hin). }
  destruct (populate_values ref T T' Hr Hwf Hint' Hnd' limit data []
              (Struct.mkInstance (Ref.alloc (Struct.size T'))) Hrd')
    as (this & Hp & _ & _ & Hvalues).
  - simpl. unfold Ref.alloc. rewrite repeat_length. lia.
  - exact Hdd.
  - exact Hfit.
  - intros [name g] Hin. unfold Struct.get_field. simpl.
    rewrite (In_get _ _ _ Hnd' Hin).
    apply (alloc_reads_zero limit); [apply (Hrd' name); assumption | lia].
  - exists this. unfold Struct.StructType. rewrite Hp.
    split; [reflexivity |].
    unfold proto.toObject.
    rewrite (toObject_each_values T' this (fun e => snd (initial_value data e)))
      by (intros e He; apply (Hvalues e He)).
    reflexivity.
Qed.

(** ** A struct inside a buffer *)

Lemma desc_get_prefix :
  forall limit g b b',
    ready limit g ->
    limit <= Z.of_nat (List.length b) -> limit <= Z.of_nat (List.length b') ->
    same_bytes b b' 0 limit ->
    Struct.desc_get b' g = Struct.desc_get b g.
Proof.
  intros limit g b b' Hg Hb Hb' Hsame.
  rewrite (desc_get_ready limit g b' Hg Hb'), (desc_get_ready limit g b Hg Hb).
  destruct Hg as (o & Ho & Ho0 & Hs & Hin & _).
  assert (Hst : stored b' o (FieldType.size (Field.type g)) =
                stored b o (FieldType.size (Field.type g))).
  { apply stored_same_bytes; [assumption |]. intros i Hi. apply Hsame. lia. }
  unfold field_bits. rewrite Ho, Hst. reflexivity.
Qed.

Lemma copy_spec :
  forall source target targetStart n,
    0 <= targetStart -> 0 <= n ->
    targetStart + n <= Z.of_nat (List.length target) ->
    n <= Z.of_nat (List.length source) ->
    exists target',
      NodeBuffer.copy source target targetStart n = Some target' /\
      List.length target' = List.length target /\
      same_outside target target' targetStart n /\
      forall i : nat,
        Z.of_nat i < n ->
        nth_error target' (Z.to_nat targetStart + i) = nth_error source i.
Proof.
  intros source target targetStart n H0 Hn Hroom Hsrc. unfold NodeBuffer.copy.
  destruct (Z.ltb_spec targetStart 0); [lia |].
  destruct (Z.ltb_spec n 0); [lia |]. simpl.
  destruct (Z.leb_spec (Z.of_nat (List.length target) - targetStart) 0) as [Hr | Hr];
    simpl.
  - assert (n = 0) by lia. subst n. exists target.
    split; [reflexivity |]. split; [reflexivity |].
    split; [intros i _; reflexivity | intros i Hi; lia].
  - destruct (Z.leb_spec n 0) as [Hz | Hz].
    + assert (n = 0) by lia. subst n. exists target.
      split; [reflexivity |]. split; [reflexivity |].
      split; [intros i _; reflexivity | intros i Hi; lia].
    + rewrite (Z.min_l n) by lia. rewrite Z.min_l by lia.
      eexists. split; [reflexivity |].
      assert (Hlen1 : List.length (firstn (Z.to_nat targetStart) target) =
                      Z.to_nat targetStart) by (apply firstn_length_le; lia).
      assert (Hlen2 : List.length (firstn (Z.to_nat n) source) = Z.to_nat n)
        by (apply firstn_length_le; lia).
      split; [| split].
      * rewrite !length_app, Hlen1, Hlen2, length_skipn. lia.
      * intros i [Hi | Hi].
        -- rewrite nth_error_app1 by lia. rewrite nth_error_firstn.
           destruct (Nat.ltb_spec i (Z.to_nat targetStart)); [reflexivity | lia].
        -- rewrite nth_error_app2 by lia. rewrite Hlen1.
           rewrite nth_error_app2 by lia.
           rewrite Hlen2, nth_error_skipn. f_equal. lia.
      * intros i Hi. rewrite nth_error_app2 by lia. rewrite Hlen1.
        rewrite nth_error_app1 by lia.
        replace (Z.to_nat targetStart + i - Z.to_nat targetStart)%nat with i by lia.
        rewrite nth_error_firstn.
        destruct (Nat.ltb_spec i (Z.to_nat n)); [reflexivity | lia].
Qed.

(** X19: [StructType.set] of an instance into a buffer with room for it
    copies the bytes of the struct and nothing else: the bytes outside of the
    [size] bytes from [offset] on stay as they were and the type is left as
    it is; [StructType.get] at the same offset then gives an instance that
    reads, in every integer field, what the instance written reads. *)
Theorem struct_value_round_trip :
  forall ref T T' buffer offset value,
    Struct.recalc ref T = (Ok, T') ->
    well_formed_fields ref (Struct.fields T) ->
    positive_alignments ref (Struct.fields T) ->
    Fields.get buffer_key (Struct.fields T) = None ->
    0 <= offset ->
    offset + Struct.size T' <= Z.of_nat (List.length buffer) ->
    Struct.size T' <= Z.of_nat (List.length (Struct.ref_buffer value)) ->
    exists buffer' this',
      StructType.set T' buffer offset (inl value) = (inr buffer', T') /\
      List.length buffer' = List.length buffer /\
      same_outside buffer buffer' offset (Struct.size T') /\
      StructType.get T' buffer' offset =
        (inr this', Struct.set_instanceCreated T' true) /\
      forall name g,
        Fields.get name (Struct.fields T') = Some g ->
        integer_field (Field.type g) ->
        Struct.get_field T' this' name = Struct.get_field T' value name.
Proof.
  intros ref T T' buffer offset value Hr Hwf Hpos _ Ho Hroom Hval.
  destruct (recalc_ready ref T T' Hr Hwf) as (limit & Hl0 & Hle & Hrd & _).
  specialize (Hle Hpos).
  destruct (copy_spec (Struct.ref_buffer value) buffer offset (Struct.size T')
              Ho ltac:(lia) Hroom Hval) as (buffer' & Hc & Hlen & Hout & Hin).
  set (view := if offset >? 0 then NodeBuffer.slice buffer' offset else buffer').
  assert (Hview : view = skipn (Z.to_nat offset) buffer').
  { unfold view, NodeBuffer.slice. destruct (Z.gtb_spec offset 0); [reflexivity |].
    replace offset with 0 by lia. reflexivity. }
  assert (Hvlen : Z.of_nat (List.length view) = Z.of_nat (List.length buffer) - offset).
  { rewrite Hview, length_skipn. lia. }
  exists buffer', (Struct.mkInstance view).
  unfold StructType.set, StructType.get. rewrite Hc. fold view.
  split; [reflexivity |]. split; [assumption |]. split; [assumption |].
  unfold Struct.StructType.
  destruct (Z.geb_spec (Z.of_nat (List.length view)) (Struct.size T')); [| lia].
  simpl. split; [reflexivity |].
  intros name g Hget Hint. unfold Struct.get_field. rewrite Hget. simpl.
  apply (desc_get_prefix limit); try lia.
  - apply (Hrd name); [apply get_In |]; assumption.
  - intros i Hi. rewrite Hview, nth_error_skipn. apply Hin. lia.
Qed.

Lemma populate_frame :
  forall T' limit data this,
    (forall name g, In (name, g) (Struct.fields T') -> ready limit g) ->
    limit <= Z.of_nat (List.length (Struct.ref_buffer this)) ->
    fitting (Struct.fields T') data ->
    exists this',
      Struct.populate T' this data = Some this' /\
      List.length (Struct.ref_buffer this') = List.length (Struct.ref_buffer this) /\
      same_outside (Struct.ref_buffer this) (Struct.ref_buffer this') 0 limit.
Proof.
  intros T' limit. induction data as [| [key value] rest IH];
    intros this Hrd Hlen Hfit; simpl.
  - exists this. split; [reflexivity |]. split; [reflexivity |].
    intros i _. reflexivity.
  - inversion Hfit as [| kv kvs Hkv Hrest]; subst. simpl in Hkv.
    destruct (Fields.get key (Struct.fields T')) as [g |] eqn:E;
      [| apply IH; assumption].
    destruct (set_field_ready T' limit Hrd this key g value E Hlen (Hkv g eq_refl))
      as (this1 & o & old & Hset & Ho & Hlen1 & Hout1 & _).
    rewrite Hset.
    destruct (IH this1 Hrd ltac:(lia) Hrest) as (this' & Hp & Hlen' & Hout').
    exists this'. split; [assumption |]. split; [congruence |].
    intros i Hi. rewrite (Hout' i Hi).
    destruct (Hrd key g (get_In _ _ _ E)) as (o' & Ho' & O0 & S0 & Oin & _).
    rewrite Ho in Ho'. inversion Ho'; subst o'. apply Hout1. lia.
Qed.

(** X20: [StructType.set] of an object of integers that fit the fields
    they name, into a buffer with room for the struct, goes through the
    constructor and the setters: it marks the type as instantiated, keeps
    the length of the buffer and leaves the bytes outside of the [size]
    bytes from [offset] on as they were.  (No field and no key of the
    object is named [buffer_key].) *)
Theorem nested_write_stays_inside :
  forall ref T T' buffer offset data,
    Struct.recalc ref T = (Ok, T') ->
    well_formed_fields ref (Struct.fields T) ->
    positive_alignments ref (Struct.fields T) ->
    integer_fields (Struct.fields T) ->
    Fields.get buffer_key (Struct.fields T) = None ->
    ~ In buffer_key (map fst data) ->
    fitting (Struct.fields T') data ->
    0 <= offset ->
    offset + Struct.size T' <= Z.of_nat (List.length buffer) ->
    exists buffer',
      StructType.set T' buffer offset (inr data) =
        (inr buffer', Struct.set_instanceCreated T' true) /\
      List.length buffer' = List.length buffer /\
      same_outside buffer buffer' offset (Struct.size T').
Proof.
  intros ref T T' buffer offset data Hr Hwf Hpos Hint _ _ Hfit Ho Hroom.
  destruct (recalc_ready ref T T' Hr Hwf) as (limit & Hl0 & Hle & Hrd & _).
  specialize (Hle Hpos).
  destruct (recalc_table ref T Ok T' Hr) as [_ Hty].
  pose proof (same_types_Forall_r integer_field _ _ Hty Hint) as Hint'.
  assert (Hrd' : forall name g, In (name, g) (Struct.fields T') -> ready limit g).
  { intros name g Hin. apply (Hrd name g Hin).
    rewrite Forall_forall in Hint'. apply (Hint' _ Hin). }
  unfold StructType.set.
  replace (if offset >? 0 then offset else 0) with offset
    by (destruct (Z.gtb_spec offset 0); lia).
  set (view := NodeBuffer.slice buffer offset).
  assert (Hvlen : Z.of_nat (List.length view) = Z.of_nat (List.length buffer) - offset).
  { unfold view, NodeBuffer.slice. rewrite length_skipn. lia. }
  unfold Struct.StructType.
  destruct (Z.geb_spec (Z.of_nat (List.length view)) (Struct.size T')); [| lia].
  destruct (populate_frame T' limit data (Struct.mkInstance view) Hrd')
    as (this & Hp & Hlen & Hout); [simpl; lia | assumption |].
  rewrite Hp. simpl in Hlen, Hout.
  eexists. split; [reflexivity |].
  assert (Hlen1 : List.length (firstn (Z.to_nat offset) buffer) = Z.to_nat offset)
    by (apply firstn_length_le; lia).
  split.
  - rewrite length_app, Hlen1, Hlen. lia.
  - intros i [Hi | Hi].
    + rewrite nth_error_app1 by lia. rewrite nth_error_firstn.
      destruct (Nat.ltb_spec i (Z.to_nat offset)); [reflexivity | lia].
    + rewrite nth_error_app2 by lia. rewrite Hlen1.
      rewrite Hout by lia. unfold view, NodeBuffer.slice.
      rewrite nth_error_skipn. f_equal. lia.
Qed.

(** ** Members added to a union *)

Lemma largest_app :
  forall f (l1 l2 : Fields.t),
    largest f (l1 ++ l2) = Z.max (largest f l1) (largest f l2).
Proof.
  intros f l1 l2. induction l1 as [| x rest IH]; simpl.
  - pose proof (largest_nonneg f l2). lia.
  - rewrite IH. lia.
Qed.

Lemma largest_insert :
  forall f (l1 l2 : Fields.t) x,
    largest f (l1 ++ x :: l2) =
    Z.max (f (Field.type (snd x))) (largest f (l1 ++ l2)).
Proof.
  intros f l1 l2 x. rewrite !largest_app. simpl. lia.
Qed.

Lemma largest_pow2 :
  forall f (l : Fields.t),
    Forall (fun e => pow2 (f (Field.type (snd e)))) l ->
    largest f l = 0 \/ pow2 (largest f l).
Proof.
  intros f l H. induction H as [| x rest Hx Hrest IH]; simpl; [left; reflexivity |].
  right. pose proof (pow2_pos _ Hx).
  destruct (Z.max_spec (f (Field.type (snd x))) (largest f rest)) as [[Hlt ->] | [_ ->]];
    [| assumption].
  destruct IH as [E | IH]; [| assumption]. lia.
Qed.

Lemma padded_spec :
  forall size alignment,
    0 <= size -> 0 <= alignment ->
    size <= padded size alignment /\
    (0 < alignment ->
     (alignment | padded size alignment) /\
     forall m, (alignment | m) -> size <= m -> padded size alignment <= m).
Proof.
  intros size alignment Hs Ha.
  set (s := Struct.mk [] size alignment 0 None None false false).
  assert (E : padded size alignment = Struct.size (Struct.addFinalPadding s)).
  { unfold padded, Struct.addFinalPadding. simpl.
    destruct (alignment =? 0); [reflexivity |].
    destruct (Z.rem size alignment >? 0); reflexivity. }
  rewrite E.
  destruct (final_size_bounds s Hs Ha) as (H1 & _ & H2).
  split; [exact H1 |]. intros Hpos. split; [apply (H2 Hpos) |].
  intros m Hd Hm. apply (final_size_least s m Hs Hpos Hd Hm).
Qed.

Lemma union_recalc_spec :
  forall ref union,
    Forall member_ok (Union.fields union) ->
    Union.fields (Union.recalc ref union) = Union.fields union /\
    Union.alignment (Union.recalc ref union) =
      largest (member_alignment ref) (Union.fields union) /\
    Union.size (Union.recalc ref union) =
      padded (largest (member_size ref) (Union.fields union))
             (largest (member_alignment ref) (Union.fields union)).
Proof.
  intros ref union H. unfold Union.recalc.
  rewrite (union_fold ref _ 0 0 H) by lia.
  pose proof (largest_nonneg (member_size ref) (Union.fields union)) as Hs.
  pose proof (largest_nonneg (member_alignment ref) (Union.fields union)) as Ha.
  rewrite !Z.max_r by assumption. simpl. repeat split.
Qed.

(** X21: on a union that [recalc] has laid out for the types that its
    members have at the call, types other than the union itself whose
    alignments are powers of two, a [defineProperty] that adds a member of
    such a type under a new name lowers neither the size nor the
    alignment. *)
Theorem union_size_never_decreases :
  forall ref U0 U name type ty U',
    Union.recalc ref U0 = U ->
    Forall (c_member ref) (Union.fields U0) ->
    Ref.coerceType ref type = Some ty ->
    c_member ref (name, Field.fresh ty) ->
    Fields.get name (Union.fields U) = None ->
    Union.defineProperty ref U name type = (Ok, U') ->
    Union.size U <= Union.size U' /\ Union.alignment U <= Union.alignment U'.
Proof.
  intros ref U0 U name type ty U' HU Hc Hty [Hok Hp2] Hnew Hdef.
  assert (Hok0 : Forall member_ok (Union.fields U0)).
  { rewrite Forall_forall in *. intros e He. apply (Hc e He). }
  assert (Hp0 : Forall (fun e => pow2 (member_alignment ref (Field.type (snd e))))
                  (Union.fields U0)).
  { rewrite Forall_forall in *. intros e He. apply (Hc e He). }
  destruct (union_recalc_spec ref U0 Hok0) as (Hf & Ha & Hs). rewrite HU in *.
  unfold Union.defineProperty, Union.internalDefineProperty in Hdef.
  rewrite Hty in Hdef.
  destruct (Union._instanceCreated U); [discriminate |].
  inversion Hdef; subst U'; clear Hdef.
  destruct (set_new_splits name (Field.fresh ty) (Union.fields U) Hnew)
    as (l1 & l2 & Hl & Hset).
  match goal with |- context [Union.recalc ref ?u] => set (U1 := u) end.
  assert (Hf1 : Union.fields U1 = l1 ++ (name, Field.fresh ty) :: l2) by exact Hset.
  assert (Hok1 : Forall member_ok (Union.fields U1)).
  { rewrite Hf1. rewrite <- Hf, Hl in Hok0. apply Forall_app in Hok0.
    destruct Hok0 as [H1 H2]. apply Forall_app. split; [assumption |].
    constructor; assumption. }
  destruct (union_recalc_spec ref U1 Hok1) as (_ & Ha1 & Hs1).
  rewrite Ha1, Hs1, Hf1, !largest_insert. rewrite <- Hl, Hf.
  simpl in Hp2. simpl.
  set (M := largest (member_size ref) (Union.fields U0)) in *.
  set (A := largest (member_alignment ref) (Union.fields U0)) in *.
  set (m := member_size ref ty). set (a := member_alignment ref ty) in *.
  pose proof (largest_nonneg (member_size ref) (Union.fields U0)) as HM. fold M in HM.
  pose proof (largest_nonneg (member_alignment ref) (Union.fields U0)) as HA.
  fold A in HA.
  pose proof (pow2_pos a Hp2) as Hapos.
  rewrite Ha, Hs. split; [| lia].
  assert (H1 : 0 <= Z.max m M) by lia.
  assert (H2 : 0 <= Z.max a A) by lia.
  destruct (padded_spec (Z.max m M) (Z.max a A) H1 H2) as (Hge & Hrest).
  destruct (Hrest ltac:(lia)) as (Hdiv & _).
  destruct (largest_pow2 (member_alignment ref) (Union.fields U0) Hp0) as [E | HpA];
    fold A in E || fold A in HpA.
  - unfold padded at 1. destruct (Z.eqb_spec A 0); [lia | contradiction].
  - pose proof (pow2_pos A HpA) as HApos.
    destruct (padded_spec M A HM ltac:(lia)) as (_ & Hrest0).
    destruct (Hrest0 HApos) as (_ & Hleast).
    apply Hleast; [| lia].
    apply Z.divide_trans with (Z.max a A); [| assumption].
    destruct (Z.max_spec a A) as [[_ ->] | [Hle ->]].
    + apply Z.divide_refl.
    + apply pow2_divide; assumption.
Qed.

Lemma union_defineEach_packed :
  forall ref arg U V,
    Union.fields U = Union.fields V ->
    Union._instanceCreated U = Union._instanceCreated V ->
    match Union.defineEach ref U arg, Union.defineEach ref V arg with
    | (Ok, U'), (Ok, V') =>
        Union.fields U' = Union.fields V' /\
        Union.isPacked U' = Union.isPacked U /\ Union.isPacked V' = Union.isPacked V
    | (Err e, _), (Err e', _) => e = e'
    | _, _ => False
    end.
Proof.
  intros ref. induction arg as [| [n t] rest IH]; intros U V Hf Hi; simpl.
  - repeat split; assumption.
  - unfold Union.internalDefineProperty. rewrite Hf, Hi.
    destruct (Ref.coerceType ref t) as [ty |]; [| reflexivity].
    destruct (Union._instanceCreated V); [reflexivity |].
    exact (IH (Union.mk (Fields.set n (Field.fresh ty) (Union.fields V))
                        (Union.size U) (Union.alignment U) (Union.isPacked U) false)
              (Union.mk (Fields.set n (Field.fresh ty) (Union.fields V))
                        (Union.size V) (Union.alignment V) (Union.isPacked V) false)
              eq_refl eq_refl).
Qed.

(** X22: the [packed] option has no effect on a union: with it and without
    it the constructor fails alike, or builds the same fields, size and
    alignment. *)
Theorem union_ignores_packed :
  forall ref arg,
    match Union.Union ref arg true, Union.Union ref arg false with
    | inr U, inr V =>
        Union.fields U = Union.fields V /\ Union.size U = Union.size V /\
        Union.alignment U = Union.alignment V
    | inl e, inl e' => e = e'
    | _, _ => False
    end.
Proof.
  intros ref arg. unfold Union.Union, Union.defineProperties.
  pose proof (union_defineEach_packed ref arg
                (Union.mk [] 0 0 true false) (Union.mk [] 0 0 false false)
                eq_refl eq_refl) as H.
  destruct (Union.defineEach ref (Union.mk [] 0 0 true false) arg) as [[| e] U];
    destruct (Union.defineEach ref (Union.mk [] 0 0 false false) arg) as [[| e'] V];
    try contradiction; try assumption.
  destruct H as (Hf & _ & _). unfold Union.recalc. rewrite Hf.
  destruct (fold_left (Union.member_step ref) (Union.fields V) (0, 0)) as [s a].
  simpl. repeat split.
Qed.

(** ** Declaring fields one by one or at once *)

Lemma alike_refl : forall f, alike f f.
Proof. intros f. split; [reflexivity | right; repeat split]. Qed.

Lemma alike_tables_refl : forall l, alike_tables l l.
Proof.
  induction l as [| e rest IH]; constructor; [| assumption].
  split; [reflexivity | apply alike_refl].
Qed.

Lemma alike_tables_get :
  forall l l' k,
    alike_tables l l' ->
    (Fields.get k l = None <-> Fields.get k l' = None).
Proof.
  intros l l' k H. induction H as [| [n f] [n' f'] xs ys [Hn _] _ IH]; simpl.
  - tauto.
  - simpl in Hn. subst n'. destruct (n =? k)%string; [| exact IH].
    split; discriminate.
Qed.

Lemma alike_tables_replace :
  forall l l' k f,
    alike_tables l l' ->
    alike_tables (Fields.replace k f l) (Fields.replace k f l').
Proof.
  intros l l' k f H. induction H as [| [n g] [n' g'] xs ys [Hn Hg] Hrest IH]; simpl.
  - constructor.
  - simpl in Hn. subst n'. destruct (n =? k)%string.
    + constructor; [split; [reflexivity | apply alike_refl] | assumption].
    + constructor; [split; [reflexivity | assumption] | assumption].
Qed.

Lemma alike_tables_insert :
  forall l l' i k f,
    alike_tables l l' ->
    alike_tables (Fields.insert_index i k f l) (Fields.insert_index i k f l').
Proof.
  intros l l' i k f H. induction H as [| [n g] [n' g'] xs ys [Hn Hg] Hrest IH]; simpl.
  - constructor; [split; [reflexivity | apply alike_refl] | constructor].
  - simpl in Hn. subst n'.
    assert (Hcons : alike_tables ((k, f) :: (n, g) :: xs) ((k, f) :: (n, g') :: ys)).
    { constructor; [split; [reflexivity | apply alike_refl] |].
      constructor; [split; [reflexivity | assumption] | assumption]. }
    destruct (Fields.array_index n) as [j |]; [| exact Hcons].
    destruct (j <? i)%N; [| exact Hcons].
    constructor; [split; [reflexivity | assumption] | assumption].
Qed.

Lemma alike_tables_set :
  forall l l' k f,
    alike_tables l l' ->
    alike_tables (Fields.set k f l) (Fields.set k f l').
Proof.
  intros l l' k f H. unfold Fields.set.
  pose proof (alike_tables_get l l' k H) as Hg.
  destruct (Fields.get k l) as [g |] eqn:E; destruct (Fields.get k l') as [g' |] eqn:E'.
  - apply alike_tables_replace. assumption.
  - exfalso. destruct Hg as [_ Hg]. specialize (Hg eq_refl). discriminate.
  - exfalso. destruct Hg as [Hg _]. specialize (Hg eq_refl). discriminate.
  - destruct (Fields.array_index k).
    + apply alike_tables_insert. assumption.
    + apply Forall2_app; [assumption |].
      constructor; [split; [reflexivity | apply alike_refl] | constructor].
Qed.

Section Alike.
Variable ref : Ref.Provider.

Lemma place_alike :
  forall s u f f' g t,
    twin s u -> alike f f' ->
    Struct.place ref s f = (Ok, g, t) ->
    exists t2, Struct.place ref u f' = (Ok, g, t2) /\ twin t t2.
Proof.
  intros s u f f' g t HT [Hty Hbits] H.
  unfold Struct.place in *. rewrite <- Hty.
  set (s0 := if FieldType.bits (Field.type f) =? 0
             then Struct.clearBitfieldSettings s else s) in *.
  set (u0 := if FieldType.bits (Field.type f) =? 0
             then Struct.clearBitfieldSettings u else u).
  assert (HT0 : twin s0 u0).
  { unfold s0, u0. destruct (_ =? 0); [apply clear_twin |]; assumption. }
  clearbody s0 u0.
  assert (Hwo : ~ is_bitfield (Field.type f) ->
                forall o, Struct.with_offset f' o = Struct.with_offset f o).
  { intros Hnb o. destruct Hbits as [Hb | (B1 & B2 & B3)]; [contradiction |].
    unfold Struct.with_offset. rewrite <- Hty, B1, B2, B3. reflexivity. }
  destruct (FieldType.fixedLength (Field.type f)) eqn:Efl.
  - destruct (Struct.addType ref s0 _) as [[o |] s1] eqn:E; [| discriminate].
    destruct (addType_twin ref _ _ _ _ _ HT0 E) as (u1 & -> & HT1 & _).
    destruct (Struct.addType_loop ref _ s1 _) as [q s2] eqn:E2.
    destruct (addType_loop_twin ref _ _ _ _ _ _ HT1 E2) as (u2 & -> & HT2 & _).
    inversion H; subst. exists u2. rewrite Hwo by (intros [Hx _]; congruence).
    split; [reflexivity | assumption].
  - destruct (Z.eqb_spec (FieldType.bits (Field.type f)) 0) as [Eb | Eb]; simpl in *.
    + destruct (Struct.addType ref s0 _) as [[o |] s1] eqn:E; [| discriminate].
      destruct (addType_twin ref _ _ _ _ _ HT0 E) as (u1 & -> & HT1 & _).
      inversion H; subst. exists u1. rewrite Hwo by (intros [_ Hx]; contradiction).
      split; [reflexivity | assumption].
    + destruct (place_bitfield_twin s0 u0 f f' g t HT0 (eq_sym Hty) H)
        as (t2 & E & HT2 & _).
      exists t2. split; assumption.
Qed.

Lemma place_output_alike :
  forall s f g t, Struct.place ref s f = (Ok, g, t) -> alike f g.
Proof.
  intros s f g t H. split; [symmetry; eapply place_type; eassumption |].
  destruct (is_bitfield_dec (Field.type f)) as [Hb | Hb]; [left; assumption | right].
  unfold Struct.place in H.
  destruct (FieldType.fixedLength (Field.type f)) eqn:Efl.
  - destruct (Struct.addType ref _ _) as [[o |] s1]; [| discriminate].
    destruct (Struct.addType_loop ref _ s1 _) as [q s2].
    inversion H; subst. repeat split.
  - destruct (Z.eqb_spec (FieldType.bits (Field.type f)) 0) as [Eb | Eb]; simpl in *.
    + destruct (Struct.addType ref _ _) as [[o |] s1]; [| discriminate].
      inversion H; subst. repeat split.
    + exfalso. apply Hb. split; assumption.
Qed.

Lemma place_all_alike :
  forall l l' s u out t,
    twin s u -> alike_tables l l' ->
    Struct.place_all ref s l = (Ok, out, t) ->
    exists t2, Struct.place_all ref u l' = (Ok, out, t2) /\ twin t t2.
Proof.
  induction l as [| [name f] rest IH]; intros l' s u out t HT HA H;
    inversion HA as [| x y xs ys [Hn Hf] Hrest]; subst.
  - simpl in H. inversion H; subst. exists u. split; [reflexivity | assumption].
  - destruct y as [name' f']. simpl in Hn, Hf. subst name'. simpl in H.
    destruct (Struct.place ref s f) as [[[| e] g] s1] eqn:E; [| discriminate].
    destruct (Struct.place_all ref s1 rest) as [[r rest'] s2] eqn:E2.
    inversion H; subst; clear H.
    destruct (place_alike s u f f' g s1 HT Hf E) as (u1 & P1 & HT1).
    destruct (IH ys s1 u1 rest' t HT1 Hrest E2) as (t2 & P2 & HT2).
    exists t2. simpl. rewrite P1, P2. split; [reflexivity | assumption].
Qed.

Lemma place_all_output_alike :
  forall l s out t,
    Struct.place_all ref s l = (Ok, out, t) -> alike_tables l out.
Proof.
  induction l as [| [name f] rest IH]; intros s out t H; simpl in H.
  - inversion H; subst. constructor.
  - destruct (Struct.place ref s f) as [[[| e] g] s1] eqn:E; [| discriminate].
    destruct (Struct.place_all ref s1 rest) as [[r rest'] s2] eqn:E2.
    inversion H; subst; clear H.
    constructor.
    + split; [reflexivity | eapply place_output_alike; eassumption].
    + eapply IH; eassumption.
Qed.

Lemma alike_tables_types :
  forall l l', alike_tables l l' -> same_types l l'.
Proof.
  intros l l' H. induction H as [| x y xs ys [_ [Hty _]] _ IH]; constructor;
    assumption.
Qed.

(** Two struct types that [recalc] lays out alike. *)
Lemma recalc_alike :
  forall T U T',
    alike_tables (Struct.fields T) (Struct.fields U) ->
    Struct.isPacked T = Struct.isPacked U ->
    Struct._instanceCreated T = Struct._instanceCreated U ->
    Struct.recalc ref T = (Ok, T') ->
    exists U',
      Struct.recalc ref U = (Ok, U') /\
      Struct.fields U' = Struct.fields T' /\
      Struct.size U' = Struct.size T' /\
      Struct.alignment U' = Struct.alignment T' /\
      Struct.isPacked U' = Struct.isPacked T' /\
      Struct._instanceCreated U' = Struct._instanceCreated T'.
Proof.
  intros T U T' HA Hpk Hic Hr.
  destruct (recalc_Ok ref T T' Hr) as (l' & s1 & Hp & HT').
  destruct (before_placing_ok ref T) as (_ & Hs & Hpk1 & _).
  destruct (before_placing_state ref T) as (Hc & Hl & Ha).
  destruct (before_placing_rest ref T) as (_ & Hi).
  destruct (before_placing_ok ref U) as (_ & Hs2 & Hpk2 & Hf2).
  destruct (before_placing_state ref U) as (Hc2 & Hl2 & Ha2).
  destruct (before_placing_rest ref U) as (_ & Hi2).
  assert (Htw : twin (before_placing ref T) (before_placing ref U)).
  { unfold twin. rewrite Hs, Hs2, Hc, Hc2, Hl, Hl2, Hpk1, Hpk2, Hi, Hi2, Ha, Ha2.
    rewrite (same_types_alignments ref _ _ (alike_tables_types _ _ HA)), Hpk, Hic.
    repeat split; try reflexivity. intros H; contradiction. }
  destruct (place_all_alike _ _ _ _ _ _ Htw HA Hp) as (t2 & P2 & HT2).
  unfold Struct.recalc. cbv zeta. fold (before_placing ref U). rewrite Hf2, P2.
  eexists. split; [reflexivity |]. subst T'.
  destruct HT2 as (E1 & E2 & E3 & E4 & E5 & E6 & _).
  unfold Struct.addFinalPadding.
  destruct s1 as [fl sz al cb lt lo pk ic], t2 as [fl2 sz2 al2 cb2 lt2 lo2 pk2 ic2].
  simpl in *. subst.
  destruct (al2 =? 0); [repeat split |].
  destruct (Z.rem sz2 al2 >? 0); repeat split.
Qed.
End Alike.

Lemma defineEach_alike :
  forall ref obj T U T1,
    alike_tables (Struct.fields T) (Struct.fields U) ->
    Struct.isPacked T = Struct.isPacked U ->
    Struct._instanceCreated T = Struct._instanceCreated U ->
    Struct.defineEach ref T obj = (Ok, T1) ->
    exists U1,
      Struct.defineEach ref U obj = (Ok, U1) /\
      alike_tables (Struct.fields T1) (Struct.fields U1) /\
      Struct.isPacked T1 = Struct.isPacked U1 /\
      Struct._instanceCreated T1 = Struct._instanceCreated U1.
Proof.
  intros ref. induction obj as [| [n t] rest IH]; intros T U T1 HA Hpk Hic H;
    simpl in H.
  - inversion H; subst. exists U. simpl. repeat split; assumption.
  - destruct (Struct.internalDefineProperty ref T n t) as [[| e] T0] eqn:E;
      [| discriminate].
    assert (E' : exists U0,
               Struct.internalDefineProperty ref U n t = (Ok, U0) /\
               alike_tables (Struct.fields T0) (Struct.fields U0) /\
               Struct.isPacked T0 = Struct.isPacked U0 /\
               Struct._instanceCreated T0 = Struct._instanceCreated U0).
    { unfold Struct.internalDefineProperty in *. rewrite <- Hic.
      destruct (Ref.coerceType ref t) as [ty |]; [| discriminate].
      destruct (Struct._instanceCreated T) eqn:Ei; [discriminate |].
      destruct (negb _); [discriminate |].
      inversion E; subst T0. eexists. split; [reflexivity |].
      destruct T, U; simpl in *. split; [| split; congruence].
      apply alike_tables_set. assumption. }
    destruct E' as (U0 & E0 & HA0 & Hpk0 & Hic0).
    destruct (IH T0 U0 T1 HA0 Hpk0 Hic0 H) as (U1 & E1 & HA1 & Hpk1 & Hic1).
    exists U1. simpl. rewrite E0. repeat split; assumption.
Qed.

(** X23: declaring a field with [defineProperty] and then more fields with
    [defineProperties] gives the same table, size and alignment as declaring
    all of them in one call of [defineProperties]. *)
Theorem declaring_one_by_one_or_at_once :
  forall ref T name type rest T1 T2,
    Struct.defineProperty ref T name type = (Ok, T1) ->
    Struct.defineProperties ref T1 rest = (Ok, T2) ->
    exists T2',
      Struct.defineProperties ref T ((name, type) :: rest) = (Ok, T2') /\
      Struct.fields T2' = Struct.fields T2 /\
      Struct.size T2' = Struct.size T2 /\
      Struct.alignment T2' = Struct.alignment T2.
Proof.
  intros ref T name type rest T1 T2 H1 H2.
  unfold Struct.defineProperty in H1.
  destruct (Struct.internalDefineProperty ref T name type) as [[| e] T0] eqn:E0;
    [| discriminate].
  unfold Struct.defineProperties in H2.
  destruct (Struct.defineEach ref T1 rest) as [[| e] T1r] eqn:E1; [| discriminate].
  destruct (recalc_Ok ref T0 T1 H1) as (l' & s1 & Hp & HT1).
  pose proof (place_all_output_alike ref _ _ _ _ Hp) as HA.
  destruct (place_all_frame ref _ _ _ _ _ Hp) as [Fp Fi].
  destruct (before_placing_ok ref T0) as (_ & _ & Hpk & Hf).
  destruct (before_placing_rest ref T0) as (_ & Hi).
  assert (HT : Struct.fields T1 = l' /\
               Struct.isPacked T1 = Struct.isPacked T0 /\
               Struct._instanceCreated T1 = Struct._instanceCreated T0).
  { subst T1. unfold Struct.addFinalPadding.
    destruct (_ =? 0); [destruct s1; simpl in *; repeat split; congruence |].
    destruct (_ >? 0); destruct s1; simpl in *; repeat split; congruence. }
  destruct HT as (Hf1 & Hpk1 & Hi1).
  assert (HA1 : alike_tables (Struct.fields T1) (Struct.fields T0)).
  { rewrite Hf1.
    assert (Hsym : forall l l', alike_tables l l' -> same_types l l') by
      (apply alike_tables_types).
    clear - HA. induction HA as [| x y xs ys [Hn [Hty Hb]] _ IH]; constructor;
      [| assumption].
    split; [symmetry; assumption |]. split; [symmetry; assumption |].
    destruct Hb as [Hb | (B1 & B2 & B3)]; [left; rewrite <- Hty; assumption |].
    right. repeat split; symmetry; assumption. }
  destruct (defineEach_alike ref rest T1 T0 T1r HA1 Hpk1 Hi1 E1)
    as (T0r & E0r & HAr & Hpkr & Hir).
  destruct (recalc_alike ref T1r T0r T2 HAr Hpkr Hir H2)
    as (T2' & Hr' & Hf' & Hs' & Ha' & _).
  exists T2'. unfold Struct.defineProperties. cbn [Struct.defineEach].
  rewrite E0, E0r. split; [assumption |]. split; [assumption |]. split; assumption.
Qed.

(** ** The properties on the examples *)

Lemma record_recalc :
  Struct.recalc Ref.napi Samples.record = (Ok, Samples.laid_out).
Proof. vm_compute. reflexivity. Qed.

Lemma record_well_formed :
  well_formed_fields Ref.napi (Struct.fields Samples.record).
Proof.
  repeat (apply Forall_cons; [cbv; repeat split; discriminate |]).
  apply Forall_nil.
Qed.

Lemma record_positive :
  positive_alignments Ref.napi (Struct.fields Samples.record).
Proof.
  repeat (apply Forall_cons; [reflexivity |]). apply Forall_nil.
Qed.

Lemma record_integers : integer_fields (Struct.fields Samples.record).
Proof.
  repeat (apply Forall_cons;
          [split; [reflexivity | cbv; first [reflexivity | discriminate]] |]).
  apply Forall_nil.
Qed.

Lemma record_c_types : c_types Ref.napi (Struct.fields Samples.record).
Proof.
  assert (P4 : pow2 4) by (exists 2; split; [lia | reflexivity]).
  assert (P1 : pow2 1) by (exists 0; split; [lia | reflexivity]).
  assert (D4 : (4 | 4)) by (exists 1; reflexivity).
  assert (D1 : (1 | 1)) by (exists 1; reflexivity).
  repeat (apply Forall_cons;
          [split; [cbv; repeat split; discriminate |];
           split; [cbv; discriminate |];
           split; [reflexivity |]; split; assumption |]).
  apply Forall_nil.
Qed.

Lemma record_names : NoDup (map fst (Struct.fields Samples.record)).
Proof.
  repeat (apply NoDup_cons;
          [simpl; intros H;
           repeat (destruct H as [H | H]; [discriminate |]); exact H |]).
  apply NoDup_nil.
Qed.

Lemma record_field_x :
  Fields.get "x" (Struct.fields Samples.laid_out) =
    Some (Field.mk Samples.uchar_3 (Some 1) (Some 0) (Some 3) (Some 7)).
Proof. vm_compute. reflexivity. Qed.

Lemma record_field_y :
  Fields.get "y" (Struct.fields Samples.laid_out) =
    Some (Field.mk Samples.uchar_5 (Some 1) (Some 3) (Some 5) (Some 31)).
Proof. vm_compute. reflexivity. Qed.

Lemma record_field_n :
  Fields.get "n" (Struct.fields Samples.laid_out) =
    Some (Field.mk (FieldType.plain Ref.int) (Some 4) None None None).
Proof. vm_compute. reflexivity. Qed.

Lemma recalc_fails_only_on_wide_bitfields_witness :
  exists T', Struct.recalc Ref.napi Samples.record = (Ok, T').
Proof.
  apply (recalc_fails_only_on_wide_bitfields Ref.napi Samples.record
           record_well_formed).
  repeat (apply Forall_cons;
          [intros [[_ Hb] Hw];
           first [apply Hb; reflexivity | vm_compute in Hw; discriminate] |]).
  apply Forall_nil.
Defined.

Lemma missing_alignment_witness :
  exists e T', Struct.recalc Ref.napi Samples.unaligned = (Err e, T').
Proof.
  apply (missing_alignment_cannot_be_laid_out Ref.napi Samples.unaligned "x"
           (Field.fresh (FieldType.plain (RefType.mk 1 0 1 false)))).
  - reflexivity.
  - left. reflexivity.
  - repeat split.
Defined.

Lemma offsets_are_aligned_witness :
  exists o,
    Field.offset (Field.mk (FieldType.plain Ref.int) (Some 4) None None None) = Some o /\
    o mod 4 = 0.
Proof.
  apply (offsets_are_aligned Ref.napi Samples.record Samples.laid_out "n"
           (Field.mk (FieldType.plain Ref.int) (Some 4) None None None)).
  - exact record_recalc.
  - reflexivity.
  - exact record_c_types.
  - exact record_field_n.
Defined.

Lemma fields_lie_inside_witness :
  exists o,
    Field.offset (Field.mk Samples.uchar_5 (Some 1) (Some 3) (Some 5) (Some 31)) = Some o /\
    0 <= o /\ o + 1 <= Struct.size Samples.laid_out.
Proof.
  apply (fields_lie_inside_the_struct Ref.napi Samples.record Samples.laid_out "y"
           (Field.mk Samples.uchar_5 (Some 1) (Some 3) (Some 5) (Some 31))).
  - exact record_recalc.
  - exact record_well_formed.
  - exact record_positive.
  - exact record_field_y.
Defined.

Lemma size_is_the_padded_end_witness :
  exists l0' g o,
    Struct.fields Samples.laid_out = l0' ++ [("n"%string, g)] /\
    Field.offset g = Some o /\
    0 < Struct.alignment Samples.laid_out /\
    Struct.size Samples.laid_out mod Struct.alignment Samples.laid_out = 0 /\
    o + 4 <= Struct.size Samples.laid_out /\
    Struct.size Samples.laid_out < o + 4 + Struct.alignment Samples.laid_out.
Proof.
  apply (size_is_the_padded_end Ref.napi Samples.record Samples.laid_out
           [("c", Field.fresh (FieldType.plain Ref.char));
            ("x", Field.fresh Samples.uchar_3);
            ("y", Field.fresh Samples.uchar_5)]%string
           "n" (Field.fresh (FieldType.plain Ref.int))).
  - exact record_recalc.
  - exact record_well_formed.
  - exact record_positive.
  - reflexivity.
  - reflexivity.
Defined.

Lemma struct_alignment_witness :
  exists name f,
    In (name, f) (Struct.fields Samples.record) /\
    Struct.alignment Samples.laid_out = pass1_alignment Ref.napi (Field.type f).
Proof.
  apply (struct_alignment_is_extreme Ref.napi Samples.record Samples.laid_out
           record_recalc record_positive).
  discriminate.
Defined.

Lemma fields_follow_the_table_order_witness :
  exists o1 o2,
    Field.offset (Field.mk (FieldType.plain Ref.char) (Some 0) None None None) = Some o1 /\
    Field.offset (Field.mk (FieldType.plain Ref.int) (Some 4) None None None) = Some o2 /\
    0 <= o1 /\
    (o1 + footprint Ref.napi (FieldType.plain Ref.char) <= o2 \/
     (is_bitfield (FieldType.plain Ref.char) /\ is_bitfield (FieldType.plain Ref.int) /\
      o1 = o2)).
Proof.
  apply (fields_follow_the_table_order Ref.napi Samples.record Samples.laid_out
           0%nat 3%nat
           "c"%string (Field.mk (FieldType.plain Ref.char) (Some 0) None None None)
           "n"%string (Field.mk (FieldType.plain Ref.int) (Some 4) None None None)
           record_recalc record_well_formed).
  - lia.
  - vm_compute. reflexivity.
  - vm_compute. reflexivity.
Defined.

Lemma field_follows_its_predecessor_witness :
  exists g1 g2 o1 o2,
    nth_error (Struct.fields Samples.laid_out) 2 = Some ("y"%string, g1) /\
    nth_error (Struct.fields Samples.laid_out) 3 = Some ("n"%string, g2) /\
    Field.offset g1 = Some o1 /\ Field.offset g2 = Some o2 /\
    (Struct.isPacked Samples.record = true -> o2 = o1 + 1) /\
    (Struct.isPacked Samples.record = false ->
     o1 + 1 <= o2 < o1 + 1 + 4 /\ o2 mod 4 = 0).
Proof.
  apply (field_follows_its_predecessor Ref.napi Samples.record Samples.laid_out
           2%nat "y"%string (Field.fresh Samples.uchar_5)
           "n"%string (Field.fresh (FieldType.plain Ref.int))
           record_recalc record_well_formed).
  - reflexivity.
  - reflexivity.
  - reflexivity.
  - intros [_ [_ H]]. apply H. reflexivity.
Defined.

Lemma recalc_is_idempotent_witness :
  Struct.recalc Ref.napi Samples.laid_out = (Ok, Samples.laid_out).
Proof.
  apply (recalc_is_idempotent Ref.napi Samples.record). exact record_recalc.
Defined.

Lemma defineProperty_records_the_type_witness :
  exists ty g,
    Ref.coerceType Ref.napi (Ref.TypeName "short") = Some ty /\
    Fields.get "z"
      (Struct.fields
         (snd (Struct.defineProperty Ref.napi Samples.record "z"
                 (Ref.TypeName "short")))) = Some g /\
    Field.type g = ty.
Proof.
  destruct (defineProperty_records_the_type Ref.napi Samples.record "z"
              (Ref.TypeName "short")
              (snd (Struct.defineProperty Ref.napi Samples.record "z"
                      (Ref.TypeName "short"))))
    as (ty & g & H1 & H2 & H3 & _).
  - discriminate.
  - vm_compute. reflexivity.
  - exists ty, g. split; [assumption |]. split; assumption.
Defined.

Lemma failed_defineProperties_witness :
  Struct.defineProperties Ref.napi Samples.laid_out
    [("p", Ref.TypeName "int"); ("q", Ref.TypeName "float128");
     ("r", Ref.TypeName "char")]%string =
    (Err InvalidTypeError,
     snd (Struct.defineEach Ref.napi Samples.laid_out
            [("p"%string, Ref.TypeName "int")])) /\
  unplaced "p"
    (snd (Struct.defineEach Ref.napi Samples.laid_out
            [("p"%string, Ref.TypeName "int")])).
Proof.
  destruct (failed_defineProperties_keeps_earlier_declarations Ref.napi
              Samples.laid_out [("p"%string, Ref.TypeName "int")]
              "q" (Ref.TypeName "float128") [("r"%string, Ref.TypeName "char")]
              InvalidTypeError
              (snd (Struct.defineEach Ref.napi Samples.laid_out
                      [("p"%string, Ref.TypeName "int")])))
    as (H1 & _ & _ & H2).
  - simpl. intros [H | H]; [discriminate | exact H].
  - vm_compute. reflexivity.
  - vm_compute. reflexivity.
  - split; [exact H1 |]. inversion H2; assumption.
Defined.

Lemma wide_bitfield_witness :
  Struct.Struct Ref.napi
    [("a"%string,
      Ref.TypeObj (FieldType.mk (RefType.mk 1 1 1 false) 9 None Ref.char))] false =
    inl BitfieldOverflowError.
Proof.
  apply (wide_bitfield_is_rejected_at_layout_only Ref.napi (Ref.TypeName "char") 9
           (FieldType.mk (RefType.mk 1 1 1 false) 9 None Ref.char) "a" false).
  - discriminate.
  - vm_compute. reflexivity.
  - reflexivity.
  - reflexivity.
Defined.

Lemma fresh_instance_reads_zero_witness :
  exists this,
    Struct.StructType Samples.laid_out None [] =
      (inr this, Struct.set_instanceCreated Samples.laid_out true) /\
    Struct.get_field Samples.laid_out this "y" = Some 0.
Proof.
  destruct (fresh_instance_reads_zero Ref.napi Samples.record Samples.laid_out
              record_recalc record_well_formed record_positive eq_refl)
    as (this & H1 & _ & H2).
  exists this. split; [exact H1 |].
  apply (H2 "y"%string _ record_field_y).
  split; [reflexivity | cbv; discriminate].
Defined.

Lemma instantiation_witness :
  (exists this,
     Struct.StructType Samples.laid_out (Some Samples.ones_16) [("n"%string, 5)] =
       (inr this, Struct.set_instanceCreated Samples.laid_out true) /\
     List.length (Struct.ref_buffer this) = List.length Samples.ones_16) /\
  Struct.StructType Samples.laid_out (Some Samples.ones_16)
    [("x"%string, 9); ("n"%string, 4294967301)] =
    (inl ProviderError, Samples.laid_out) /\
  Struct.StructType Samples.laid_out (Some [Byte.x00]) [("n"%string, 5)] =
    (inl BufferTooSmallError, Samples.laid_out).
Proof.
  split; [| split].
  - apply (instantiation_needs_a_long_enough_buffer Ref.napi Samples.record
             Samples.laid_out Samples.ones_16 [("n"%string, 5)]
             record_recalc record_well_formed record_positive record_integers eq_refl).
    + simpl. intros [H | H]; [discriminate | exact H].
    + vm_compute. discriminate.
    + constructor; [| constructor].
      intros g Hg. cbn [fst] in Hg. rewrite record_field_n in Hg. inversion Hg; subst g.
      intros _. split; [reflexivity | split; reflexivity].
  - apply (instantiation_needs_a_long_enough_buffer Ref.napi Samples.record
             Samples.laid_out Samples.ones_16
             [("x"%string, 9); ("n"%string, 4294967301)]
             record_recalc record_well_formed record_positive record_integers eq_refl).
    + simpl. intros [H | [H | H]]; [discriminate | discriminate | exact H].
    + vm_compute. discriminate.
    + apply Exists_cons_tl. apply Exists_cons_hd.
      exists (Field.mk (FieldType.plain Ref.int) (Some 4) None None None).
      split; [exact record_field_n |].
      split; [reflexivity |]. split; [vm_compute; discriminate | reflexivity].
  - apply (instantiation_needs_a_long_enough_buffer Ref.napi Samples.record
             Samples.laid_out [Byte.x00] [("n"%string, 5)]
             record_recalc record_well_formed record_positive record_integers eq_refl).
    + simpl. intros [H | H]; [discriminate | exact H].
    + vm_compute. reflexivity.
Defined.

Lemma write_then_read_witness :
  (exists this',
     Struct.set_field Samples.pair_laid_out Samples.zeros_16 "a" (2 ^ 63) =
       Some this' /\
     Struct.get_field Samples.pair_laid_out this' "a" = Some (2 ^ 63 - 1)) /\
  (exists this',
     Struct.set_field Samples.laid_out Samples.all_ones "n" (-7) = Some this' /\
     Struct.get_field Samples.laid_out this' "n" = Some (-7)) /\
  (exists old this',
     Struct.get_field Samples.laid_out Samples.all_ones "x" = Some old /\
     Struct.set_field Samples.laid_out Samples.all_ones "x" 2 = Some this' /\
     Struct.get_field Samples.laid_out this' "x" =
       Some (narrowed Samples.uchar_3 (Z.lor old 2))) /\
  Struct.set_field Samples.laid_out Samples.all_ones "n" 2147483648 = None.
Proof.
  assert (Hn : integer_field (FieldType.plain Ref.int))
    by (split; reflexivity).
  assert (Hx : integer_field Samples.uchar_3)
    by (split; [reflexivity | cbv; discriminate]).
  assert (Hlen : Struct.size Samples.laid_out <=
                 Z.of_nat (List.length (Struct.ref_buffer Samples.all_ones)))
    by (vm_compute; discriminate).
  split; [| split; [| split]].
  - destruct (write_then_read Ref.napi Samples.pair Samples.pair_laid_out "a"
                (Field.mk (FieldType.plain Ref.int64) (Some 0) None None None)
                Samples.zeros_16 (2 ^ 63)) as (old & _ & _ & _ & Hsat).
    + vm_compute. reflexivity.
    + repeat (apply Forall_cons; [cbv; repeat split; discriminate |]).
      apply Forall_nil.
    + repeat (apply Forall_cons; [reflexivity |]). apply Forall_nil.
    + vm_compute. reflexivity.
    + split; reflexivity.
    + vm_compute. discriminate.
    + destruct (Hsat eq_refl eq_refl eq_refl (or_intror (Z.le_refl _)))
        as (this' & Hset & Hget).
      exists this'. split; [exact Hset | exact Hget].
  - destruct (write_then_read Ref.napi Samples.record Samples.laid_out "n"
                (Field.mk (FieldType.plain Ref.int) (Some 4) None None None)
                Samples.all_ones (-7)
                record_recalc record_well_formed record_positive record_field_n
                Hn Hlen) as (old & _ & Hfits & _).
    destruct Hfits as (this' & Hset & _ & Hget).
    + intros _. split; [reflexivity | split; reflexivity].
    + exists this'. split; assumption.
  - destruct (write_then_read Ref.napi Samples.record Samples.laid_out "x"
                (Field.mk Samples.uchar_3 (Some 1) (Some 0) (Some 3) (Some 7))
                Samples.all_ones 2
                record_recalc record_well_formed record_positive record_field_x
                Hx Hlen) as (old & Hold & Hfits & _).
    destruct Hfits as (this' & Hset & _ & Hget).
    + intros Hb. discriminate Hb.
    + exists old, this'. split; [assumption |]. split; assumption.
  - destruct (write_then_read Ref.napi Samples.record Samples.laid_out "n"
                (Field.mk (FieldType.plain Ref.int) (Some 4) None None None)
                Samples.all_ones 2147483648
                record_recalc record_well_formed record_positive record_field_n
                Hn Hlen) as (old & _ & _ & Href & _).
    apply Href. split; [reflexivity |]. split; [vm_compute; discriminate | reflexivity].
Defined.

Lemma bitfield_reads_are_in_range_witness :
  Struct.get_field Samples.laid_out Samples.all_ones "x" = Some 7 /\
  0 <= 7 < 2 ^ 3.
Proof.
  assert (H : Struct.get_field Samples.laid_out Samples.all_ones "x" = Some 7)
    by (vm_compute; reflexivity).
  split; [exact H |].
  apply (bitfield_reads_are_in_range Ref.napi Samples.record Samples.laid_out "x"
           (Field.mk Samples.uchar_3 (Some 1) (Some 0) (Some 3) (Some 7))
           Samples.all_ones 7 record_recalc record_well_formed record_field_x).
  - split; [reflexivity | discriminate].
  - exact H.
Defined.

Lemma writes_leave_the_other_fields_alone_witness :
  exists this',
    Struct.set_field Samples.laid_out Samples.all_ones "x" 0 = Some this' /\
    Struct.get_field Samples.laid_out this' "n" =
    Struct.get_field Samples.laid_out Samples.all_ones "n".
Proof.
  destruct (Struct.set_field Samples.laid_out Samples.all_ones "x" 0)
    as [this' |] eqn:E; [| vm_compute in E; discriminate].
  exists this'. split; [reflexivity |].
  apply (writes_leave_the_other_fields_alone Ref.napi Samples.record Samples.laid_out
           "x" "n" _ _ Samples.all_ones 0 this'
           record_recalc record_well_formed record_field_x record_field_n).
  - discriminate.
  - split; [reflexivity | cbv; discriminate].
  - split; reflexivity.
  - exact E.
Defined.

Lemma toObject_of_a_new_instance_witness :
  exists this,
    Struct.StructType Samples.laid_out None [("n", -5); ("x", 9)]%string =
      (inr this, Struct.set_instanceCreated Samples.laid_out true) /\
    proto.toObject Samples.laid_out this =
      Some [("c", 0); ("x", 1); ("y", 0); ("n", -5)]%string.
Proof.
  apply (toObject_of_a_new_instance Ref.napi Samples.record Samples.laid_out
           [("n", -5); ("x", 9)]%string
           record_recalc record_well_formed record_positive record_integers
           record_names).
  - repeat (apply Forall_cons;
            [simpl; intros H;
             repeat (destruct H as [H | H]; [discriminate |]); exact H |]).
    apply Forall_nil.
  - repeat (apply NoDup_cons;
            [simpl; intros H;
             repeat (destruct H as [H | H]; [discriminate |]); exact H |]).
    apply NoDup_nil.
  - repeat (apply Forall_cons;
            [simpl; intros H;
             repeat (destruct H as [H | H]; [discriminate |]); exact H |]).
    apply Forall_nil.
  - constructor; [| constructor; [| constructor]].
    + intros g Hg. cbn [fst] in Hg. rewrite record_field_n in Hg. inversion Hg; subst g.
      intros _. split; [reflexivity | split; reflexivity].
    + intros g Hg. cbn [fst] in Hg. rewrite record_field_x in Hg. inversion Hg; subst g.
      intros Hb. discriminate Hb.
Defined.

Lemma struct_value_round_trip_witness :
  exists buffer' this',
    StructType.set Samples.laid_out (Ref.alloc 16) 8 (inl Samples.all_ones) =
      (inr buffer', Samples.laid_out) /\
    List.length buffer' = List.length (Ref.alloc 16) /\
    same_outside (Ref.alloc 16) buffer' 8 (Struct.size Samples.laid_out) /\
    StructType.get Samples.laid_out buffer' 8 =
      (inr this', Struct.set_instanceCreated Samples.laid_out true) /\
    Struct.get_field Samples.laid_out this' "n" =
      Struct.get_field Samples.laid_out Samples.all_ones "n".
Proof.
  destruct (struct_value_round_trip Ref.napi Samples.record Samples.laid_out
              (Ref.alloc 16) 8 Samples.all_ones
              record_recalc record_well_formed record_positive eq_refl)
    as (buffer' & this' & H1 & H2 & H3 & H4 & H5).
  - lia.
  - vm_compute. discriminate.
  - vm_compute. discriminate.
  - exists buffer', this'. do 4 (split; [assumption |]).
    apply (H5 "n"%string _ record_field_n). split; reflexivity.
Defined.

Lemma nested_write_stays_inside_witness :
  exists buffer',
    StructType.set Samples.laid_out Samples.ones_16 8 (inr [("n"%string, 5)]) =
      (inr buffer', Struct.set_instanceCreated Samples.laid_out true) /\
    List.length buffer' = List.length Samples.ones_16 /\
    same_outside Samples.ones_16 buffer' 8 (Struct.size Samples.laid_out).
Proof.
  apply (nested_write_stays_inside Ref.napi Samples.record Samples.laid_out
           Samples.ones_16 8 [("n"%string, 5)]
           record_recalc record_well_formed record_positive record_integers eq_refl).
  - simpl. intros [H | H]; [discriminate | exact H].
  - constructor; [| constructor].
    intros g Hg. cbn [fst] in Hg. rewrite record_field_n in Hg. inversion Hg; subst g.
    intros _. split; [reflexivity | split; reflexivity].
  - lia.
  - vm_compute. discriminate.
Defined.

Lemma union_size_never_decreases_witness :
  Union.size (Union.recalc Ref.napi Examples.three_members) <=
  Union.size
    (snd (Union.defineProperty Ref.napi
            (Union.recalc Ref.napi Examples.three_members) "w" Samples.half_word)).
Proof.
  assert (P8 : pow2 8) by (exists 3; split; [lia | reflexivity]).
  assert (P4 : pow2 4) by (exists 2; split; [lia | reflexivity]).
  assert (P2 : pow2 2) by (exists 1; split; [lia | reflexivity]).
  assert (P1 : pow2 1) by (exists 0; split; [lia | reflexivity]).
  apply (union_size_never_decreases Ref.napi Examples.three_members
           (Union.recalc Ref.napi Examples.three_members) "w" Samples.half_word
           (FieldType.plain (RefType.mk 2 2 1 false))
           (snd (Union.defineProperty Ref.napi
                   (Union.recalc Ref.napi Examples.three_members) "w"
                   Samples.half_word))).
  - reflexivity.
  - repeat (apply Forall_cons;
            [split; [split; cbv; discriminate | assumption] |]).
    apply Forall_nil.
  - reflexivity.
  - split; [split; cbv; discriminate | assumption].
  - vm_compute. reflexivity.
  - vm_compute. reflexivity.
Defined.

Lemma declaring_one_by_one_or_at_once_witness :
  exists T2',
    Struct.defineProperties Ref.napi Samples.record
      [("z", Ref.TypeName "short"); ("w", Ref.TypeName "char")]%string = (Ok, T2') /\
    Struct.size T2' =
      Struct.size
        (snd (Struct.defineProperties Ref.napi
                (snd (Struct.defineProperty Ref.napi Samples.record "z"
                        (Ref.TypeName "short")))
                [("w"%string, Ref.TypeName "char")])).
Proof.
  destruct (declaring_one_by_one_or_at_once Ref.napi Samples.record "z"
              (Ref.TypeName "short") [("w"%string, Ref.TypeName "char")]
              (snd (Struct.defineProperty Ref.napi Samples.record "z"
                      (Ref.TypeName "short")))
              (snd (Struct.defineProperties Ref.napi
                      (snd (Struct.defineProperty Ref.napi Samples.record "z"
                              (Ref.TypeName "short")))
                      [("w"%string, Ref.TypeName "char")])))
    as (T2' & H1 & _ & H2 & _).
  - vm_compute. reflexivity.
  - vm_compute. reflexivity.
  - exists T2'. split; assumption.
Defined.
